(** * BGP simulator: route selection, policies, AS graph and propagation

    A shallow embedding of the simulator's C++ sources
    (announcement.h, announcement.cpp, bgp_policy.h, bgp_policy.cpp,
    as_graph.h, as_graph.cpp) and the properties of its specification
    that were checked against it. *)

From Stdlib Require Import ZArith NArith Lia Ascii String.
From stdpp Require Import gmap list strings fin_maps.

Set Default Proof Using "Type".
Local Open Scope N_scope.

(** ** announcement.h: identifiers and enumerations *)

(** [using ASN = uint32_t]: an AS number is an [N]; the sources only
    compare AS numbers and test them for equality, which on [N] is what
    it is on 32-bit unsigned values.  [ASN_MAX] is the largest of them. *)
Definition ASN_MAX : N := 4294967295.

(** [enum class RelationshipType : uint8_t]. *)
Module RelationshipType.
Inductive t : Set := ORIGIN | CUSTOMER | PEER | PROVIDER.

Definition to_N (r : t) : N :=
  match r with
  | ORIGIN => 0
  | CUSTOMER => 1
  | PEER => 2
  | PROVIDER => 3
  end.

Definition eqb (a b : t) : bool := to_N a =? to_N b.
Definition ltb (a b : t) : bool := to_N a <? to_N b.

#[global] Instance eq_dec : EqDecision t.
Proof. solve_decision. Defined.
End RelationshipType.

(** [enum class RelationType : int8_t] of as_graph.h, the relationship
    kinds of the topology file. *)
Module RelationType.
Inductive t : Set := CUSTOMER | PEER | PROVIDER.

Definition to_Z (r : t) : Z :=
  match r with
  | CUSTOMER => (-1)%Z
  | PEER => 0%Z
  | PROVIDER => 1%Z
  end.

#[global] Instance eq_dec : EqDecision t.
Proof. solve_decision. Defined.
End RelationType.

(** ** announcement.h: prefixes *)

Record IPv4Prefix : Set := mkIPv4Prefix {
  address : N;      (* uint32_t, host byte order *)
  prefix_len : N    (* uint8_t *)
}.

Record IPv6Prefix : Set := mkIPv6Prefix {
  high : N;          (* uint64_t *)
  low : N;           (* uint64_t *)
  prefix_len6 : N    (* uint8_t *)
}.

(** [struct Prefix]: the flag [is_ipv6] and the union of the two prefix
    structures, as a tagged union. *)
Inductive Prefix : Set :=
| PrefixV4 (v4 : IPv4Prefix)
| PrefixV6 (v6 : IPv6Prefix).

Definition is_ipv6 (p : Prefix) : bool :=
  match p with PrefixV4 _ => false | PrefixV6 _ => true end.

(** The default constructors: [IPv4Prefix()], [IPv6Prefix()], [Prefix()]. *)
Definition IPv4Prefix_default : IPv4Prefix := mkIPv4Prefix 0 0.
Definition IPv6Prefix_default : IPv6Prefix := mkIPv6Prefix 0 0 0.
Definition Prefix_default : Prefix := PrefixV4 IPv4Prefix_default.

#[global] Instance IPv4Prefix_eq_dec : EqDecision IPv4Prefix.
Proof. solve_decision. Defined.
#[global] Instance IPv6Prefix_eq_dec : EqDecision IPv6Prefix.
Proof. solve_decision. Defined.
#[global] Instance Prefix_eq_dec : EqDecision Prefix.
Proof. solve_decision. Defined.

Definition Prefix_to_sum (p : Prefix) : (N * N) + (N * N * N) :=
  match p with
  | PrefixV4 a => inl (address a, prefix_len a)
  | PrefixV6 a => inr (high a, low a, prefix_len6 a)
  end.

Definition Prefix_of_sum (s : (N * N) + (N * N * N)) : Prefix :=
  match s with
  | inl (a, l) => PrefixV4 (mkIPv4Prefix a l)
  | inr (h, l, n) => PrefixV6 (mkIPv6Prefix h l n)
  end.

(** Prefixes are the keys of the hash maps of a policy. *)
#[global] Instance Prefix_countable : Countable Prefix.
Proof.
  apply (inj_countable' Prefix_to_sum Prefix_of_sum).
  intros [[]|[]]; reflexivity.
Defined.

(** ** announcement.h: announcements *)

Record Announcement : Set := mkAnnouncement {
  prefix : Prefix;
  next_hop_asn : N;
  received_from : RelationshipType.t;
  rov_invalid : bool;
  as_path : list N
}.

#[global] Instance Announcement_eq_dec : EqDecision Announcement.
Proof. solve_decision. Defined.

(** [Announcement(p, origin, rel, rov_inv)]: a single AS in the path. *)
Definition Announcement_new (p : Prefix) (origin : N)
    (rel : RelationshipType.t) (rov_inv : bool) : Announcement :=
  {| prefix := p; next_hop_asn := origin; received_from := rel;
     rov_invalid := rov_inv; as_path := [origin] |}.

(** [copy_with_new_hop]: the path is copied unchanged. *)
Definition copy_with_new_hop (a : Announcement) (new_next_hop : N)
    (new_rel : RelationshipType.t) : Announcement :=
  {| prefix := prefix a; next_hop_asn := new_next_hop;
     received_from := new_rel; rov_invalid := rov_invalid a;
     as_path := as_path a |}.

Definition getPathLength (a : Announcement) : nat := length (as_path a).

(** [containsAS]: linear scan of the path. *)
Fixpoint scan_path (path : list N) (asn : N) : bool :=
  match path with
  | [] => false
  | path_asn :: rest => if path_asn =? asn then true else scan_path rest asn
  end.

Definition containsAS (a : Announcement) (asn : N) : bool :=
  scan_path (as_path a) asn.

(** [isBetterThan]: relationship, then path length, then next hop. *)
Definition isBetterThan (a other : Announcement) : bool :=
  if negb (RelationshipType.eqb (received_from a) (received_from other))
  then RelationshipType.ltb (received_from a) (received_from other)
  else if negb (Nat.eqb (length (as_path a)) (length (as_path other)))
  then Nat.ltb (length (as_path a)) (length (as_path other))
  else next_hop_asn a <? next_hop_asn other.

(** The three fields [isBetterThan] reads. *)
Definition selection_key (a : Announcement) : N * nat * N :=
  (RelationshipType.to_N (received_from a), length (as_path a), next_hop_asn a).

(** ** bgp_policy.h, bgp_policy.cpp: the per-AS policy *)

(** The dynamic type of a policy object.  The graph only ever creates
    [new BGP()] and [new ROV()]. *)
Inductive PolicyClass : Set := BGP | ROV.

#[global] Instance PolicyClass_eq_dec : EqDecision PolicyClass.
Proof. solve_decision. Defined.

(** [class BGPPolicy] with the counter of its subclass [ROV]:
    [local_rib] and [received_queue] are the two hash maps, keyed by
    prefix. *)
Record BGPPolicy : Type := mkPolicy {
  policy_class : PolicyClass;
  local_rib : gmap Prefix Announcement;
  received_queue : gmap Prefix (list Announcement);
  dropped_count : N  (* size_t *)
}.

Definition SIZE_MAX : N := 18446744073709551615.

Definition new_policy (c : PolicyClass) : BGPPolicy :=
  {| policy_class := c; local_rib := ∅; received_queue := ∅;
     dropped_count := 0 |}.

Definition set_local_rib (pol : BGPPolicy)
    (rib : gmap Prefix Announcement) : BGPPolicy :=
  {| policy_class := policy_class pol; local_rib := rib;
     received_queue := received_queue pol;
     dropped_count := dropped_count pol |}.

Definition set_received_queue (pol : BGPPolicy)
    (q : gmap Prefix (list Announcement)) : BGPPolicy :=
  {| policy_class := policy_class pol; local_rib := local_rib pol;
     received_queue := q; dropped_count := dropped_count pol |}.

Definition set_dropped_count (pol : BGPPolicy) (n : N) : BGPPolicy :=
  {| policy_class := policy_class pol; local_rib := local_rib pol;
     received_queue := received_queue pol; dropped_count := n |}.

(** [received_queue[ann.prefix].push_back(ann)]: [operator[]] creates
    the empty vector of a prefix that has none. *)
Definition BGPPolicy_receiveAnnouncement (pol : BGPPolicy)
    (ann : Announcement) : BGPPolicy :=
  set_received_queue pol
    (<[prefix ann := default [] (received_queue pol !! prefix ann) ++ [ann]]>
       (received_queue pol)).

(** [ROV::receiveAnnouncement]. *)
Definition ROV_receiveAnnouncement (pol : BGPPolicy)
    (ann : Announcement) : BGPPolicy :=
  if rov_invalid ann
  then set_dropped_count pol ((dropped_count pol + 1) mod (SIZE_MAX + 1))
  else BGPPolicy_receiveAnnouncement pol ann.

(** The virtual call [policy->receiveAnnouncement(ann)]. *)
Definition receiveAnnouncement (pol : BGPPolicy) (ann : Announcement)
    : BGPPolicy :=
  match policy_class pol with
  | BGP => BGPPolicy_receiveAnnouncement pol ann
  | ROV => ROV_receiveAnnouncement pol ann
  end.

Definition getAnnouncement (pol : BGPPolicy) (p : Prefix)
    : option Announcement :=
  local_rib pol !! p.

Definition getLocalRIBSize (pol : BGPPolicy) : nat := size (local_rib pol).

Definition clearReceivedQueue (pol : BGPPolicy) : BGPPolicy :=
  set_received_queue pol ∅.

(** [BGPPolicy::seedAnnouncement]: [local_rib[ann.prefix] = ann]. *)
Definition seedAnnouncement (pol : BGPPolicy) (ann : Announcement)
    : BGPPolicy :=
  set_local_rib pol (<[prefix ann := ann]> (local_rib pol)).

(** The scan for the best candidate, from index 1 on. *)
Fixpoint find_best (best : Announcement) (rest : list Announcement)
    : Announcement :=
  match rest with
  | [] => best
  | c :: rest' => find_best (if isBetterThan c best then c else best) rest'
  end.

(** [stored_ann.as_path.insert(stored_ann.as_path.begin(), current_asn)]. *)
Definition prepend_asn (current_asn : N) (a : Announcement) : Announcement :=
  {| prefix := prefix a; next_hop_asn := next_hop_asn a;
     received_from := received_from a; rov_invalid := rov_invalid a;
     as_path := current_asn :: as_path a |}.

(** One iteration of the loop of [BGP::processReceivedQueue] over
    [received_queue]; the state is the RIB and the flag [changed]. *)
Definition process_entry (current_asn : N)
    (st : gmap Prefix Announcement * bool)
    (pair : Prefix * list Announcement)
    : gmap Prefix Announcement * bool :=
  match pair.2 with
  | [] => st
  | c0 :: cs =>
      let stored_ann := prepend_asn current_asn (find_best c0 cs) in
      match st.1 !! pair.1 with
      | None => (<[pair.1 := stored_ann]> st.1, true)
      | Some incumbent =>
          if isBetterThan stored_ann incumbent
          then (<[pair.1 := stored_ann]> st.1, true)
          else st
      end
  end.

(** [BGP::processReceivedQueue], inherited by [ROV]; the queue is left
    as it is, and the result of the call is the flag. *)
Definition processReceivedQueue (pol : BGPPolicy) (current_asn : N)
    : BGPPolicy * bool :=
  let r := foldl (process_entry current_asn) (local_rib pol, false)
                 (map_to_list (received_queue pol)) in
  (set_local_rib pol r.1, r.2).

(** ** as_graph.h, as_graph.cpp: the AS graph *)

(** [struct ASNode].  The three adjacency vectors hold references to
    nodes of the table; a reference is written here as the AS number of
    the node it refers to, so that [ref.get().asn] is that number and
    [ref.get().policy] is the policy of the table's node of that number.
    The flags [visited] and [in_stack] of the structure are never read
    or written by the sources and are left out. *)
Record ASNode : Type := mkASNode {
  asn : N;
  providers : list N;
  customers : list N;
  peers : list N;
  propagation_rank : Z;          (* int, -1 until ranked *)
  policy : option BGPPolicy      (* BGPPolicy*, nullptr is None *)
}.

(** [ASNode(asn_val)]. *)
Definition ASNode_new (asn_val : N) : ASNode :=
  {| asn := asn_val; providers := []; customers := []; peers := [];
     propagation_rank := (-1)%Z; policy := None |}.

Definition push_provider (r : N) (n : ASNode) : ASNode :=
  {| asn := asn n; providers := providers n ++ [r];
     customers := customers n; peers := peers n;
     propagation_rank := propagation_rank n; policy := policy n |}.

Definition push_customer (r : N) (n : ASNode) : ASNode :=
  {| asn := asn n; providers := providers n;
     customers := customers n ++ [r]; peers := peers n;
     propagation_rank := propagation_rank n; policy := policy n |}.

Definition push_peer (r : N) (n : ASNode) : ASNode :=
  {| asn := asn n; providers := providers n;
     customers := customers n; peers := peers n ++ [r];
     propagation_rank := propagation_rank n; policy := policy n |}.

Definition set_policy (n : ASNode) (p : option BGPPolicy) : ASNode :=
  {| asn := asn n; providers := providers n;
     customers := customers n; peers := peers n;
     propagation_rank := propagation_rank n; policy := p |}.

Definition set_propagation_rank (n : ASNode) (r : Z) : ASNode :=
  {| asn := asn n; providers := providers n;
     customers := customers n; peers := peers n;
     propagation_rank := r; policy := policy n |}.

(** [class ASGraph]. *)
Record ASGraph : Type := mkASGraph {
  nodes : gmap N ASNode;
  asn_set : gset N;
  edge_count : N;
  provider_customer_edges : N;
  peer_edges : N;
  ranked_ases : list (list N);
  rov_asns : gset N
}.

Definition ASGraph_new : ASGraph :=
  {| nodes := ∅; asn_set := ∅; edge_count := 0;
     provider_customer_edges := 0; peer_edges := 0;
     ranked_ases := []; rov_asns := ∅ |}.

Definition set_nodes (g : ASGraph) (ns : gmap N ASNode) : ASGraph :=
  {| nodes := ns; asn_set := asn_set g; edge_count := edge_count g;
     provider_customer_edges := provider_customer_edges g;
     peer_edges := peer_edges g; ranked_ases := ranked_ases g;
     rov_asns := rov_asns g |}.

Definition set_ranked_ases (g : ASGraph) (r : list (list N)) : ASGraph :=
  {| nodes := nodes g; asn_set := asn_set g; edge_count := edge_count g;
     provider_customer_edges := provider_customer_edges g;
     peer_edges := peer_edges g; ranked_ases := r;
     rov_asns := rov_asns g |}.

(** [getOrCreateNode]: the table after the call (the reference it
    returns is the AS number). *)
Definition getOrCreateNode (g : ASGraph) (a : N) : ASGraph :=
  match nodes g !! a with
  | Some _ => g
  | None =>
      {| nodes := <[a := ASNode_new a]> (nodes g);
         asn_set := {[a]} ∪ asn_set g; edge_count := edge_count g;
         provider_customer_edges := provider_customer_edges g;
         peer_edges := peer_edges g; ranked_ases := ranked_ases g;
         rov_asns := rov_asns g |}
  end.

Definition getNode (g : ASGraph) (a : N) : option ASNode := nodes g !! a.

Definition hasNode (g : ASGraph) (a : N) : bool := bool_decide (a ∈ asn_set g).

(** The two [push_back] calls of one case of [addRelationship]; [node1]
    and [node2] are the same node when [as1 = as2]. *)
Definition link (rel_type : RelationType.t) (as1 as2 : N)
    (ns : gmap N ASNode) : gmap N ASNode :=
  match rel_type with
  | RelationType.PROVIDER =>
      alter (push_customer as1) as2 (alter (push_provider as2) as1 ns)
  | RelationType.CUSTOMER =>
      alter (push_provider as1) as2 (alter (push_customer as2) as1 ns)
  | RelationType.PEER =>
      alter (push_peer as1) as2 (alter (push_peer as2) as1 ns)
  end.

(** [ASGraph::addRelationship]. *)
Definition addRelationship (g : ASGraph) (as1 as2 : N)
    (rel_type : RelationType.t) : ASGraph :=
  let g2 := getOrCreateNode (getOrCreateNode g as1) as2 in
  {| nodes := link rel_type as1 as2 (nodes g2);
     asn_set := asn_set g2;
     edge_count := edge_count g2 + 1;
     provider_customer_edges :=
       match rel_type with
       | RelationType.PEER => provider_customer_edges g2
       | _ => provider_customer_edges g2 + 1
       end;
     peer_edges :=
       match rel_type with
       | RelationType.PEER => peer_edges g2 + 1
       | _ => peer_edges g2
       end;
     ranked_ases := ranked_ases g2;
     rov_asns := rov_asns g2 |}.

(** A topology given as the sequence of [addRelationship] calls that
    builds it. *)
Definition build_graph (rels : list (N * N * RelationType.t)) : ASGraph :=
  foldl (fun g r => addRelationship g r.1.1 r.1.2 r.2) ASGraph_new rels.

(** [ASGraph::initializeBGP]: a [BGP] policy for every node without one. *)
Definition initializeBGP (g : ASGraph) : ASGraph :=
  set_nodes g
    ((fun n => match policy n with
               | None => set_policy n (Some (new_policy BGP))
               | Some _ => n
               end) <$> nodes g).

(** The body of the loop of [ASGraph::loadROVASNs] for one parsed AS
    number: AS 0 is skipped; a node that has a policy gets a fresh [ROV]
    one. *)
Definition load_rov_asn (g : ASGraph) (a : N) : ASGraph :=
  if a =? 0 then g
  else
    {| nodes :=
         match nodes g !! a with
         | Some n =>
             match policy n with
             | Some _ => <[a := set_policy n (Some (new_policy ROV))]> (nodes g)
             | None => nodes g
             end
         | None => nodes g
         end;
       asn_set := asn_set g; edge_count := edge_count g;
       provider_customer_edges := provider_customer_edges g;
       peer_edges := peer_edges g; ranked_ases := ranked_ases g;
       rov_asns := {[a]} ∪ rov_asns g |}.

(** ** Results of calls that can go wrong *)

(** What a call does when it does not return normally: an exception of
    the C++ library that nothing catches, a null pointer or an index out
    of a vector's range being used, or the recursion budget of a
    definition here being used up. *)
Inductive fault : Set :=
| InvalidArgument      (* std::invalid_argument *)
| OutOfRange           (* std::out_of_range *)
| NullDereference      (* member access through a null pointer *)
| IndexOutOfBounds     (* operator[] of a vector past its size *)
| FuelExhausted.

Inductive outcome (A : Type) : Type :=
| Returns (a : A)
| Fails (f : fault).
Arguments Returns {A} a.
Arguments Fails {A} f.

Definition bind_outcome {A B : Type} (o : outcome A) (k : A → outcome B)
    : outcome B :=
  match o with
  | Returns a => k a
  | Fails f => Fails f
  end.

(** ** as_graph.cpp: cycle detection *)

(** The two sets the search carries by reference, with its result. *)
Record dfs_result : Type := mkDfs {
  dfs_found : bool;
  dfs_visited : gset N;
  dfs_stack : gset N
}.

(** [ASGraph::hasCycleDFS].  Each recursive call is on an AS that was
    not visited before, so the depth is bounded by the number of ASes;
    [fuel] is that bound. *)
Fixpoint hasCycleDFS (fuel : nat) (ns : gmap N ASNode)
    (check_providers : bool) (current parent : N)
    (visited recursion_stack : gset N) : option dfs_result :=
  match fuel with
  | O => None
  | S fuel' =>
      let visited := {[current]} ∪ visited in
      let recursion_stack := {[current]} ∪ recursion_stack in
      match ns !! current with
      | None => Some (mkDfs false visited (recursion_stack ∖ {[current]}))
      | Some node =>
          let neighbors :=
            if check_providers then providers node else customers node in
          (fix scan (nbs : list N) (visited recursion_stack : gset N)
               : option dfs_result :=
             match nbs with
             | [] =>
                 Some (mkDfs false visited (recursion_stack ∖ {[current]}))
             | neighbor :: rest =>
                 if neighbor =? parent then scan rest visited recursion_stack
                 else if bool_decide (neighbor ∈ recursion_stack)
                 then Some (mkDfs true visited recursion_stack)
                 else if bool_decide (neighbor ∉ visited)
                 then
                   match hasCycleDFS fuel' ns check_providers neighbor
                           current visited recursion_stack with
                   | None => None
                   | Some r =>
                       if dfs_found r then Some r
                       else scan rest (dfs_visited r) (dfs_stack r)
                   end
                 else scan rest visited recursion_stack
             end) neighbors visited recursion_stack
      end
  end.

(** One of the two loops of [detectCycles] over the table: a search from
    every AS not visited yet, stopped by the first cycle found. *)
Fixpoint detect_from (fuel : nat) (ns : gmap N ASNode)
    (check_providers : bool) (starts : list N)
    (visited recursion_stack : gset N) : option bool :=
  match starts with
  | [] => Some false
  | a :: rest =>
      if bool_decide (a ∉ visited)
      then
        match hasCycleDFS fuel ns check_providers a 0 visited
                recursion_stack with
        | None => None
        | Some r =>
            if dfs_found r then Some true
            else detect_from fuel ns check_providers rest
                   (dfs_visited r) (dfs_stack r)
        end
      else detect_from fuel ns check_providers rest visited recursion_stack
  end.

(** The orders in which a loop over the hash map [nodes] can meet the
    ASes: each AS of the table once. *)
Definition iteration_order (ns : gmap N ASNode) (starts : list N) : Prop :=
  starts ≡ₚ (map_to_list ns).*1.

(** [ASGraph::detectCycles]: the provider direction, then, with both
    sets cleared, the customer direction.  Both loops walk the hash map
    [nodes], which is not changed in between, so both meet the ASes in
    the same order, [starts]; the table does not fix that order.
    [None] only if the recursion budget, one more than the number of
    ASes, were not enough. *)
Definition detectCycles (starts : list N) (g : ASGraph) : option bool :=
  let fuel := S (size (nodes g)) in
  match detect_from fuel (nodes g) true starts ∅ ∅ with
  | None => None
  | Some true => Some true
  | Some false => detect_from fuel (nodes g) false starts ∅ ∅
  end.

(** ** as_graph.cpp: rank assignment *)

(** The locals of [flattenGraph]: the two hash maps, the queue and the
    running maximum.  The C++ [int]s are [Z]; ranks and counts stay
    below the number of ASes and of edges. *)
Record flatten_state : Type := mkFlatten {
  ranks : gmap N Z;
  customer_count : gmap N Z;
  ready_queue : list N;
  max_rank : Z
}.

(** The first loop: rank 0 and the queue for an AS without customers,
    the number of customers for the others. *)
Definition flatten_init_step (st : flatten_state) (pair : N * ASNode)
    : flatten_state :=
  let node := pair.2 in
  match customers node with
  | [] =>
      {| ranks := <[asn node := 0%Z]> (ranks st);
         customer_count := customer_count st;
         ready_queue := ready_queue st ++ [asn node];
         max_rank := max_rank st |}
  | _ :: _ =>
      {| ranks := ranks st;
         customer_count :=
           <[asn node := Z.of_nat (length (customers node))]>
             (customer_count st);
         ready_queue := ready_queue st;
         max_rank := max_rank st |}
  end.

Definition flatten_init (ns : gmap N ASNode) : flatten_state :=
  foldl flatten_init_step (mkFlatten ∅ ∅ [] 0%Z) (map_to_list ns).

(** [ranks[k]] read: [operator[]] inserts 0 for a missing key. *)
Definition ranks_index (rk : gmap N Z) (k : N) : Z * gmap N Z :=
  match rk !! k with
  | Some r => (r, rk)
  | None => (0%Z, <[k := 0%Z]> rk)
  end.

(** The body of the loop over the providers of the AS taken from the
    queue. *)
Definition flatten_provider_step (current_rank : Z) (st : flatten_state)
    (provider_asn : N) : flatten_state :=
  match customer_count st !! provider_asn with
  | None => st
  | Some count =>
      let new_provider_rank := (current_rank + 1)%Z in
      let rk :=
        match ranks st !! provider_asn with
        | None => <[provider_asn := new_provider_rank]> (ranks st)
        | Some r =>
            <[provider_asn := Z.max r new_provider_rank]> (ranks st)
        end in
      let count' := (count - 1)%Z in
      if (count' =? 0)%Z
      then
        let (r, rk') := ranks_index rk provider_asn in
        {| ranks := rk';
           customer_count := delete provider_asn (customer_count st);
           ready_queue := ready_queue st ++ [provider_asn];
           max_rank := Z.max (max_rank st) r |}
      else
        {| ranks := rk;
           customer_count := <[provider_asn := count']> (customer_count st);
           ready_queue := ready_queue st;
           max_rank := max_rank st |}
  end.

(** One turn of the [while] loop, for the AS at the front of the queue,
    which the turn removes. *)
Definition flatten_pop (ns : gmap N ASNode) (current : N)
    (rest : list N) (st : flatten_state) : flatten_state :=
  let st1 := {| ranks := ranks st; customer_count := customer_count st;
                ready_queue := rest; max_rank := max_rank st |} in
  match ns !! current with
  | None => st1
  | Some node =>
      let (current_rank, rk) := ranks_index (ranks st1) current in
      foldl (flatten_provider_step current_rank)
        {| ranks := rk; customer_count := customer_count st1;
           ready_queue := ready_queue st1; max_rank := max_rank st1 |}
        (providers node)
  end.

(** The [while (!ready_queue.empty())] loop; [None] when [fuel] turns
    were not enough to empty the queue. *)
Fixpoint flatten_loop (fuel : nat) (ns : gmap N ASNode)
    (st : flatten_state) : option flatten_state :=
  match ready_queue st with
  | [] => Some st
  | current :: rest =>
      match fuel with
      | O => None
      | S fuel' => flatten_loop fuel' ns (flatten_pop ns current rest st)
      end
  end.

(** [ranked_ases[rank].push_back(a)]; [None] when [rank] is not an index
    of the vector. *)
Definition ranked_push (ranked : list (list N)) (rank : Z) (a : N)
    : option (list (list N)) :=
  if (rank <? 0)%Z then None
  else
    match ranked !! Z.to_nat rank with
    | None => None
    | Some row => Some (<[Z.to_nat rank := row ++ [a]]> ranked)
    end.

(** The last loop: the rank of every node, stored in the node and in
    [ranked_ases]. *)
Definition flatten_assign_step
    (acc : outcome (gmap N ASNode * list (list N) * gmap N Z))
    (pair : N * ASNode)
    : outcome (gmap N ASNode * list (list N) * gmap N Z) :=
  bind_outcome acc (fun s =>
    let '(ns, ranked, rk) := s in
    let (rank, rk') := ranks_index rk (asn pair.2) in
    match ranked_push ranked rank (asn pair.2) with
    | None => Fails IndexOutOfBounds
    | Some ranked' =>
        Returns (alter (fun n => set_propagation_rank n rank) pair.1 ns,
                 ranked', rk')
    end).

(** [ASGraph::flattenGraph].  An AS enters the queue at most once, so
    the loop takes at most as many turns as there are ASes. *)
Definition flattenGraph (g : ASGraph) : outcome ASGraph :=
  match flatten_loop (size (nodes g)) (nodes g) (flatten_init (nodes g)) with
  | None => Fails FuelExhausted
  | Some st =>
      bind_outcome
        (foldl flatten_assign_step
           (Returns (nodes g,
                     replicate (Z.to_nat (max_rank st + 1)) [],
                     ranks st))
           (map_to_list (nodes g)))
        (fun s => Returns (set_ranked_ases (set_nodes g s.1.1) s.1.2))
  end.

(** ** as_graph.cpp: propagation *)

(** The body of the innermost loop of the three phases, for one
    neighbour reference [nb] of the sender: nothing if the neighbour is
    in the path or has no policy, else the copy is handed to the
    neighbour's policy. *)
Definition deliver (sender : N) (new_rel : RelationshipType.t)
    (ann : Announcement) (ns : gmap N ASNode) (nb : N) : gmap N ASNode :=
  if containsAS ann nb then ns
  else
    match ns !! nb with
    | None => ns
    | Some n =>
        match policy n with
        | None => ns
        | Some pol =>
            <[nb := set_policy n
                      (Some (receiveAnnouncement pol
                               (copy_with_new_hop ann sender new_rel)))]> ns
        end
    end.

(** The valley-free test of [propagateUp] and [propagateAcross]:
    [true] when the entry is skipped. *)
Definition not_from_customer_or_origin (ann : Announcement) : bool :=
  negb (RelationshipType.eqb (received_from ann) RelationshipType.CUSTOMER)
  && negb (RelationshipType.eqb (received_from ann) RelationshipType.ORIGIN).

(** The loop over the RIB of a sender towards providers or peers: the
    entries that pass the valley-free test go to every neighbour. *)
Definition send_filtered (sender : N) (new_rel : RelationshipType.t)
    (neighbors : list N) (rib : gmap Prefix Announcement)
    (ns : gmap N ASNode) : gmap N ASNode :=
  foldl (fun ns rib_pair =>
           if not_from_customer_or_origin rib_pair.2 then ns
           else foldl (deliver sender new_rel rib_pair.2) ns neighbors)
        ns (map_to_list rib).

(** The loop over the RIB of a sender towards customers: every entry
    goes to every neighbour. *)
Definition send_all (sender : N) (new_rel : RelationshipType.t)
    (neighbors : list N) (rib : gmap Prefix Announcement)
    (ns : gmap N ASNode) : gmap N ASNode :=
  foldl (fun ns rib_pair =>
           foldl (deliver sender new_rel rib_pair.2) ns neighbors)
        ns (map_to_list rib).

(** The sender loop of [propagateUp] for one AS of the rank.  The RIB of
    an AS is not written while ASes send, so the entries the loop reads
    are those the AS has when its turn starts. *)
Definition send_up (ns : gmap N ASNode) (a : N) : gmap N ASNode :=
  match ns !! a with
  | None => ns
  | Some node =>
      match policy node with
      | None => ns
      | Some pol =>
          if bool_decide (providers node = []) then ns
          else if bool_decide (local_rib pol = ∅) then ns
          else send_filtered a RelationshipType.CUSTOMER (providers node)
                 (local_rib pol) ns
      end
  end.

(** The sender loop of [propagateAcross] for one AS. *)
Definition send_across (ns : gmap N ASNode) (a : N) : gmap N ASNode :=
  match ns !! a with
  | None => ns
  | Some node =>
      match policy node with
      | None => ns
      | Some pol =>
          if bool_decide (peers node = []) then ns
          else if bool_decide (local_rib pol = ∅) then ns
          else send_filtered (asn node) RelationshipType.PEER (peers node)
                 (local_rib pol) ns
      end
  end.

(** The sender loop of [propagateDown] for one AS of the rank. *)
Definition send_down (ns : gmap N ASNode) (a : N) : gmap N ASNode :=
  match ns !! a with
  | None => ns
  | Some node =>
      match policy node with
      | None => ns
      | Some pol =>
          if bool_decide (customers node = []) then ns
          else if bool_decide (local_rib pol = ∅) then ns
          else send_all a RelationshipType.PROVIDER (customers node)
                 (local_rib pol) ns
      end
  end.

(** [processReceivedQueue(asn)] then [clearReceivedQueue()] at the node
    found under [a], if it has a policy. *)
Definition process_node (ns : gmap N ASNode) (a : N) : gmap N ASNode :=
  match ns !! a with
  | None => ns
  | Some node =>
      match policy node with
      | None => ns
      | Some pol =>
          <[a := set_policy node
                   (Some (clearReceivedQueue
                            (processReceivedQueue pol a).1))]> ns
      end
  end.

(** The same for [propagateAcross], which passes the node's own [asn]. *)
Definition process_node_across (ns : gmap N ASNode) (a : N)
    : gmap N ASNode :=
  match ns !! a with
  | None => ns
  | Some node =>
      match policy node with
      | None => ns
      | Some pol =>
          <[a := set_policy node
                   (Some (clearReceivedQueue
                            (processReceivedQueue pol (asn node)).1))]> ns
      end
  end.

Definition rank_row (ranked : list (list N)) (rank : nat) : list N :=
  default [] (ranked !! rank).

(** One turn of the loop of [propagateUp] over the ranks. *)
Definition up_step (ranked : list (list N)) (ns : gmap N ASNode)
    (rank : nat) : gmap N ASNode :=
  let ns1 := foldl send_up ns (rank_row ranked rank) in
  if bool_decide (rank + 1 < length ranked)%nat
  then foldl process_node ns1 (rank_row ranked (rank + 1))
  else ns1.

(** [ASGraph::propagateUp]: ranks 0, 1, ... in turn. *)
Definition propagateUp (ranked : list (list N)) (ns : gmap N ASNode)
    : gmap N ASNode :=
  foldl (up_step ranked) ns (seq 0 (length ranked)).

(** The first loop of [propagateAcross]: every AS sends. *)
Definition across_send_all (ns : gmap N ASNode) : gmap N ASNode :=
  foldl send_across ns (map_to_list ns).*1.

(** The second loop of [propagateAcross]: every AS resolves. *)
Definition across_process_all (ns : gmap N ASNode) : gmap N ASNode :=
  foldl process_node_across ns (map_to_list ns).*1.

(** [ASGraph::propagateAcross]. *)
Definition propagateAcross (ns : gmap N ASNode) : gmap N ASNode :=
  across_process_all (across_send_all ns).

(** One turn of the loop of [propagateDown] over the ranks. *)
Definition down_step (ranked : list (list N)) (ns : gmap N ASNode)
    (rank : nat) : gmap N ASNode :=
  let ns1 := foldl send_down ns (rank_row ranked rank) in
  match rank with
  | O => ns1
  | S rank' => foldl process_node ns1 (rank_row ranked rank')
  end.

(** [ASGraph::propagateDown]: the ranks from the highest down to 0. *)
Definition propagateDown (ranked : list (list N)) (ns : gmap N ASNode)
    : gmap N ASNode :=
  foldl (down_step ranked) ns (reverse (seq 0 (length ranked))).

(** The counting loop that ends [propagateAnnouncements]:
    [pair.second.policy->getLocalRIBSize()] at every node. *)
Definition count_step (acc : outcome N) (pair : N * ASNode) : outcome N :=
  bind_outcome acc (fun total =>
    match policy pair.2 with
    | None => Fails NullDereference
    | Some pol => Returns (total + N.of_nat (getLocalRIBSize pol))
    end).

(** [ASGraph::propagateAnnouncements]: the graph after the three phases
    and the number of RIB entries it returns. *)
Definition propagateAnnouncements (g : ASGraph) : outcome (ASGraph * N) :=
  let ns1 := propagateUp (ranked_ases g) (nodes g) in
  let ns2 := propagateAcross ns1 in
  let ns3 := propagateDown (ranked_ases g) ns2 in
  bind_outcome (foldl count_step (Returns 0) (map_to_list ns3))
    (fun total => Returns (set_nodes g ns3, total)).

(** ** The C and C++ library calls of the parsers *)

Local Open Scope string_scope.

(** [isspace] in the C locale. *)
Definition isspace (c : ascii) : bool :=
  let n := N_of_ascii c in
  (n =? 32)%N || ((9 <=? n)%N && (n <=? 13)%N).

Definition digit_value (c : ascii) : option N :=
  let n := N_of_ascii c in
  if ((48 <=? n) && (n <=? 57))%N then Some (n - 48)%N else None.

Fixpoint skip_spaces (s : string) : string :=
  match s with
  | String c rest => if isspace c then skip_spaces rest else s
  | EmptyString => s
  end.

(** The longest run of decimal digits at the front of [s]: how many
    there are, their value, and what follows them. *)
Fixpoint read_digits (s : string) (count : nat) (acc : N)
    : nat * N * string :=
  match s with
  | String c rest =>
      match digit_value c with
      | Some d => read_digits rest (S count) (acc * 10 + d)%N
      | None => (count, acc, s)
      end
  | EmptyString => (count, acc, s)
  end.

(** The sign that may precede the digits: [true] for a minus. *)
Definition read_sign (s : string) : bool * string :=
  match s with
  | String "-" rest => (true, rest)
  | String "+" rest => (false, rest)
  | _ => (false, s)
  end.

Definition ULONG_MAX : N := 18446744073709551615.
Definition INT_MAX : Z := 2147483647.
Definition INT_MIN : Z := (-2147483648)%Z.

(** [strtoul(str, &end, 10)] with a 64-bit [unsigned long]: white space,
    a sign, digits.  [None] when no digit was found, which the caller
    sees as [end == str]; else the value and the text left at [end].
    A value too large is [ULONG_MAX]; a minus negates modulo 2^64. *)
Definition strtoul (s : string) : option (N * string) :=
  let (neg, s1) := read_sign (skip_spaces s) in
  let '(count, v, rest) := read_digits s1 0 0%N in
  match count with
  | O => None
  | S _ =>
      if (ULONG_MAX <? v)%N then Some (ULONG_MAX, rest)
      else if neg then Some (((ULONG_MAX + 1 - v) mod (ULONG_MAX + 1))%N, rest)
      else Some (v, rest)
  end.

(** [static_cast<ASN>] of an [unsigned long]. *)
Definition to_ASN (v : N) : N := (v mod (ASN_MAX + 1))%N.

Definition LONG_MAX : Z := 9223372036854775807.
Definition LONG_MIN : Z := (-9223372036854775808)%Z.

(** The conversion of a [long] to [int]: the low 32 bits, read as a
    number in two's complement. *)
Definition long_to_int (z : Z) : Z :=
  ((z + 2147483648) mod 4294967296 - 2147483648)%Z.

(** [atoi(str)]: white space, a sign, digits; 0 when there is no digit.
    The C library computes [(int) strtol(str, NULL, 10)]: a value
    outside a 64-bit [long] becomes [LONG_MAX] or [LONG_MIN], and the
    [long] is cut to the 32 bits of an [int]. *)
Definition atoi (s : string) : Z :=
  let (neg, s1) := read_sign (skip_spaces s) in
  let '(_, v, _) := read_digits s1 0 0%N in
  let z := if neg then (- Z.of_N v)%Z else Z.of_N v in
  long_to_int (Z.max LONG_MIN (Z.min LONG_MAX z)).

(** [std::stoi(str)]: as [atoi], but [std::invalid_argument] is thrown
    when there is no digit and [std::out_of_range] when the value does
    not fit an [int]; text after the digits is ignored. *)
Definition stoi (s : string) : outcome Z :=
  let (neg, s1) := read_sign (skip_spaces s) in
  let '(count, v, _) := read_digits s1 0 0%N in
  match count with
  | O => Fails InvalidArgument
  | S _ =>
      let z := if neg then (- Z.of_N v)%Z else Z.of_N v in
      if ((z <? INT_MIN) || (INT_MAX <? z))%Z then Fails OutOfRange
      else Returns z
  end.

(** [static_cast<uint8_t>] of an [int]. *)
Definition to_uint8 (z : Z) : N := Z.to_N (z mod 256).

(** [str.find(c)]: the index of the first [c], if any. *)
Fixpoint find_char (c : ascii) (s : string) : option nat :=
  match s with
  | EmptyString => None
  | String c' rest =>
      if Ascii.eqb c' c then Some O else S <$> find_char c rest
  end.

(** [str.substr(0, n)] and [str.substr(n)] for [n] within the string. *)
Fixpoint take_string (n : nat) (s : string) : string :=
  match n, s with
  | S n', String c rest => String c (take_string n' rest)
  | _, _ => EmptyString
  end.

Fixpoint drop_string (n : nat) (s : string) : string :=
  match n, s with
  | S n', String _ rest => drop_string n' rest
  | _, _ => s
  end.

(** ** as_graph.cpp: the topology file *)

(** The body of the loop of [buildFromFile] for one line, up to the call
    of [addRelationship]: the arguments of that call, or [None] where
    the loop [continue]s. *)
Definition parse_relationship_line (line : string)
    : option (N * N * RelationType.t) :=
  match line with
  | EmptyString => None
  | String "#" _ => None
  | _ =>
      match strtoul line with
      | Some (v1, String "|" str2) =>
          match strtoul str2 with
          | Some (v2, String "|" str3) =>
              let rel_val := atoi str3 in
              if (rel_val =? -1)%Z
              then Some (to_ASN v1, to_ASN v2, RelationType.CUSTOMER)
              else if (rel_val =? 0)%Z
              then Some (to_ASN v1, to_ASN v2, RelationType.PEER)
              else if (rel_val =? 1)%Z
              then Some (to_ASN v1, to_ASN v2, RelationType.PROVIDER)
              else None
          | _ => None
          end
      | _ => None
      end
  end.

(** [ASGraph::buildFromFile] on the lines of a file that could be
    opened. *)
Definition buildFromLines (g : ASGraph) (lines : list string) : ASGraph :=
  foldl (fun g line =>
           match parse_relationship_line line with
           | Some (as1, as2, rel_type) => addRelationship g as1 as2 rel_type
           | None => g
           end) g lines.

(** ** announcement.cpp: prefixes from text *)

Section PrefixParsing.

(** [inet_pton] of the system library is taken as given:
    [inet_pton4 s] is the address in host byte order, that is
    [ntohl(addr.s_addr)], when [inet_pton(AF_INET, s, &addr)] is 1;
    [inet_pton6 s] is the sixteen bytes [addr.s6_addr] when
    [inet_pton(AF_INET6, s, &addr)] is 1. *)
Variable inet_pton4 : string → option N.
Variable inet_pton6 : string → option (list N).

(** [IPv4Prefix::parse]. *)
Definition IPv4Prefix_parse (str : string) : outcome IPv4Prefix :=
  match find_char "/" str with
  | None => Returns IPv4Prefix_default
  | Some slash =>
      let addr_str := take_string slash str in
      bind_outcome (stoi (drop_string (slash + 1) str)) (fun len =>
        match inet_pton4 addr_str with
        | None => Returns IPv4Prefix_default
        | Some addr => Returns (mkIPv4Prefix addr (to_uint8 len))
        end)
  end.

(** [(x << 8) | byte] on a [uint64_t], over the bytes of [bs]. *)
Definition pack_bytes (bs : list N) : N :=
  foldl (fun acc b => (N.lor (N.shiftl acc 8) b) mod (SIZE_MAX + 1))%N
        0%N bs.

(** [IPv6Prefix::parse]. *)
Definition IPv6Prefix_parse (str : string) : outcome IPv6Prefix :=
  match find_char "/" str with
  | None => Returns IPv6Prefix_default
  | Some slash =>
      let addr_str := take_string slash str in
      bind_outcome (stoi (drop_string (slash + 1) str)) (fun len =>
        match inet_pton6 addr_str with
        | None => Returns IPv6Prefix_default
        | Some bytes =>
            Returns (mkIPv6Prefix (pack_bytes (take 8 bytes))
                       (pack_bytes (take 8 (drop 8 bytes)))
                       (to_uint8 len))
        end)
  end.

(** [Prefix::parse]: IPv6 when the text has a colon. *)
Definition Prefix_parse (str : string) : outcome Prefix :=
  match find_char ":" str with
  | Some _ => bind_outcome (IPv6Prefix_parse str) (fun p => Returns (PrefixV6 p))
  | None => bind_outcome (IPv4Prefix_parse str) (fun p => Returns (PrefixV4 p))
  end.

(** [ASGraph::seedAnnouncement]: nothing but a message when the AS is
    unknown or has no policy; else the prefix is parsed and the
    announcement is seeded at the policy of the AS. *)
Definition ASGraph_seedAnnouncement (g : ASGraph) (origin_asn : N)
    (prefix_str : string) (rov_inv : bool) : outcome ASGraph :=
  match nodes g !! origin_asn with
  | None => Returns g
  | Some node =>
      match policy node with
      | None => Returns g
      | Some pol =>
          bind_outcome (Prefix_parse prefix_str) (fun p =>
            let ann := Announcement_new p origin_asn
                         RelationshipType.ORIGIN rov_inv in
            Returns (set_nodes g
                       (<[origin_asn :=
                            set_policy node
                              (Some (seedAnnouncement pol ann))]>
                          (nodes g))))
      end
  end.

End PrefixParsing.

Local Close Scope string_scope.

(** ** Notions used by the statements *)

(** The calls a policy object can get, and their effect on it. *)
Inductive policy_op : Type :=
| OpReceive (ann : Announcement)
| OpProcess (current_asn : N)
| OpClear
| OpSeed (ann : Announcement).

Definition run_op (pol : BGPPolicy) (op : policy_op) : BGPPolicy :=
  match op with
  | OpReceive ann => receiveAnnouncement pol ann
  | OpProcess current_asn => (processReceivedQueue pol current_asn).1
  | OpClear => clearReceivedQueue pol
  | OpSeed ann => seedAnnouncement pol ann
  end.

(** A call that neither seeds prefix [p] nor hands over a valid
    announcement for it. *)
Definition only_invalid_for (p : Prefix) (op : policy_op) : Prop :=
  match op with
  | OpReceive ann => prefix ann = p → rov_invalid ann = true
  | OpSeed ann => prefix ann ≠ p
  | OpProcess _ | OpClear => True
  end.

(** The RIB and the staging area of the AS [a] of a node table. *)
Definition rib_of (ns : gmap N ASNode) (a : N) : gmap Prefix Announcement :=
  match ns !! a with
  | Some n => match policy n with Some pol => local_rib pol | None => ∅ end
  | None => ∅
  end.

Definition queue_of (ns : gmap N ASNode) (a : N)
    : gmap Prefix (list Announcement) :=
  match ns !! a with
  | Some n => match policy n with Some pol => received_queue pol | None => ∅ end
  | None => ∅
  end.

(** [b] is among the candidates staged at AS [x]. *)
Definition staged (ns : gmap N ASNode) (x : N) (b : Announcement) : Prop :=
  ∃ p cands, queue_of ns x !! p = Some cands ∧ b ∈ cands.

(** Whether [x] is a node of the table and, if so, whether it has a
    policy and of which class. *)
Definition policy_status (ns : gmap N ASNode) (x : N)
    : option (option PolicyClass) :=
  (λ n, policy_class <$> policy n) <$> ns !! x.

(** The fields of a node that propagation leaves alone. *)
Definition shape_of (ns : gmap N ASNode) (x : N)
    : option (N * list N * list N * list N) :=
  (λ n, (asn n, providers n, customers n, peers n)) <$> ns !! x.

(** An entry may go up to a provider or across to a peer. *)
Definition from_customer_or_origin (ann : Announcement) : Prop :=
  received_from ann = RelationshipType.ORIGIN
  ∨ received_from ann = RelationshipType.CUSTOMER.

(** One hop of a route: the RIB entry [src] of a sender, exported in one
    of the three phases and committed to the RIB of [receiver].  The
    side conditions are those of the sender loops. *)
Inductive hop : RelationshipType.t → Announcement → Announcement → Prop :=
| hop_up src sender receiver :
    not_from_customer_or_origin src = false →
    hop RelationshipType.CUSTOMER src
      (prepend_asn receiver
         (copy_with_new_hop src sender RelationshipType.CUSTOMER))
| hop_across src sender receiver :
    not_from_customer_or_origin src = false →
    hop RelationshipType.PEER src
      (prepend_asn receiver
         (copy_with_new_hop src sender RelationshipType.PEER))
| hop_down src sender receiver :
    hop RelationshipType.PROVIDER src
      (prepend_asn receiver
         (copy_with_new_hop src sender RelationshipType.PROVIDER)).

(** A propagation chain from [first] to [last], with the kinds of its
    hops in order. *)
Inductive chain : Announcement → list RelationshipType.t → Announcement → Prop :=
| chain_nil a : chain a [] a
| chain_cons a b c k ks : hop k a b → chain b ks c → chain a (k :: ks) c.

(** The number of peer hops among the kinds of a chain. *)
Definition peer_hops (ks : list RelationshipType.t) : nat :=
  length (filter (λ k, k = RelationshipType.PEER) ks).

(** No candidate tagged PEER is staged anywhere. *)
Definition no_peer_staged (ns : gmap N ASNode) : Prop :=
  ∀ x b, staged ns x b → received_from b ≠ RelationshipType.PEER.

(** [ns'] differs from [ns] by receptions only: the same RIBs, policies
    of the same classes at the same nodes, the same adjacency, and
    everything that was staged still staged. *)
Definition sends_only (ns ns' : gmap N ASNode) : Prop :=
  ∀ x, rib_of ns' x = rib_of ns x
       ∧ policy_status ns' x = policy_status ns x
       ∧ shape_of ns' x = shape_of ns x
       ∧ (∀ b, staged ns x b → staged ns' x b).

(** Propagation has staged no peer candidate in [ns'] and has put no
    peer route into a RIB that was not there in [ns]. *)
Definition no_new_peer_route (ns ns' : gmap N ASNode) : Prop :=
  no_peer_staged ns'
  ∧ ∀ x p e, rib_of ns' x !! p = Some e →
      received_from e = RelationshipType.PEER →
      rib_of ns x !! p = Some e.

(** The state a resolution step leaves, seen from the state [ns] before
    the resolution steps: entries are old or committed from a candidate
    staged in [ns]; nothing new is staged; nodes are the same. *)
Definition resolved_from (ns ns' : gmap N ASNode) : Prop :=
  (∀ x p e, rib_of ns' x !! p = Some e →
     rib_of ns x !! p = Some e
     ∨ ∃ node c, ns !! x = Some node ∧ staged ns x c
         ∧ e = prepend_asn (asn node) c)
  ∧ (∀ x b, staged ns' x b → staged ns x b)
  ∧ (∀ x, shape_of ns' x = shape_of ns x)
  ∧ (∀ x, policy_status ns' x = policy_status ns x).

(** The customer-to-provider edges of a node table: [c → p] when [p] is
    among the providers of [c]. *)
Definition provider_edge (ns : gmap N ASNode) (c p : N) : Prop :=
  ∃ n, ns !! c = Some n ∧ p ∈ providers n.

(** A cycle is a path of one edge or more from an AS back to itself. *)
Definition has_cycle (ns : gmap N ASNode) : Prop :=
  ∃ x, tc (provider_edge ns) x x.

Definition acyclic (ns : gmap N ASNode) : Prop := ¬ has_cycle ns.

(** How often [y] occurs in an adjacency vector. *)
Definition occurrences (y : N) (l : list N) : nat :=
  length (filter (λ z, z = y) l).

(** What [addRelationship] maintains of a node table: a node is stored
    under its own AS number, the neighbours of a node are nodes of the
    table, and [x] is as often a customer of [y] as [y] is a provider of
    [x]. *)
Record wf_nodes (ns : gmap N ASNode) : Prop := mk_wf_nodes {
  wf_asn : ∀ k n, ns !! k = Some n → asn n = k;
  wf_customers_closed :
    ∀ k n c, ns !! k = Some n → c ∈ customers n → is_Some (ns !! c);
  wf_providers_closed :
    ∀ k n p, ns !! k = Some n → p ∈ providers n → is_Some (ns !! p);
  wf_symmetric :
    ∀ x y nx ny, ns !! x = Some nx → ns !! y = Some ny →
      occurrences y (customers nx) = occurrences x (providers ny)
}.

(** A numbering of the ASes that grows along every customer-to-provider
    edge, checked edge by edge. *)
Definition topological_numbering (f : N → nat) (ns : gmap N ASNode) : bool :=
  forallb (λ kv : N * ASNode,
             forallb (λ p, Nat.ltb (f kv.1) (f p)) (providers kv.2))
          (map_to_list ns).

(** The customers of a node that are not in the set [D] of the ASes
    already taken from the queue of [flattenGraph], with multiplicity. *)
Definition pending_customers (D : gset N) (n : ASNode) : nat :=
  length (filter (λ c, c ∉ D) (customers n)).

(** [r] is the rank of node [n]: 0 without customers, else one more than
    the largest rank of a customer; all customers are in [D]. *)
Definition final_rank (rk : gmap N Z) (D : gset N) (n : ASNode) (r : Z)
    : Prop :=
  (0 ≤ r)%Z
  ∧ (customers n = [] → r = 0%Z)
  ∧ (∀ c, c ∈ customers n →
       c ∈ D ∧ ∃ rc, rk !! c = Some rc ∧ (rc < r)%Z)
  ∧ (customers n ≠ [] →
       ∃ c rc, c ∈ customers n ∧ rk !! c = Some rc ∧ r = (rc + 1)%Z).

(** The rank recorded so far for a node that still waits for customers:
    none while no customer is in [D], else one more than the largest
    rank of its customers in [D]. *)
Definition partial_rank (rk : gmap N Z) (D : gset N) (n : ASNode)
    (ro : option Z) : Prop :=
  match ro with
  | None => ∀ c, c ∈ customers n → c ∉ D
  | Some r =>
      (∀ c, c ∈ customers n → c ∈ D →
         ∃ rc, rk !! c = Some rc ∧ (rc < r)%Z)
      ∧ ∃ c rc, c ∈ customers n ∧ c ∈ D ∧ rk !! c = Some rc
                ∧ r = (rc + 1)%Z
  end.

(** The invariant of the [while] loop of [flattenGraph], with [D] the
    ASes taken from the queue so far. *)
Record flatten_inv (ns : gmap N ASNode) (D : gset N) (st : flatten_state)
    : Prop := mk_flatten_inv {
  inv_nodup : NoDup (ready_queue st);
  inv_queue : ∀ x, x ∈ ready_queue st → (x ∉ D) ∧ is_Some (ns !! x);
  inv_max : (0 ≤ max_rank st)%Z;
  inv_ready :
    ∀ x n, ns !! x = Some n → x ∈ D ∨ x ∈ ready_queue st →
      customer_count st !! x = None
      ∧ ∃ r, ranks st !! x = Some r ∧ (r ≤ max_rank st)%Z
             ∧ final_rank (ranks st) D n r;
  inv_pending :
    ∀ x n, ns !! x = Some n → x ∉ D → x ∉ ready_queue st →
      customer_count st !! x = Some (Z.of_nat (pending_customers D n))
      ∧ (0 < pending_customers D n)%nat
      ∧ partial_rank (ranks st) D n (ranks st !! x)
}.

(** The result of [flattenGraph] that C5 describes. *)
Definition ranked_by_customers (g g' : ASGraph) : Prop :=
  (∀ x, shape_of (nodes g') x = shape_of (nodes g) x)
  ∧ (∀ x n, nodes g' !! x = Some n →
       (customers n = [] → propagation_rank n = 0%Z)
       ∧ (∀ c, c ∈ customers n →
            ∃ nc, nodes g' !! c = Some nc
                  ∧ (propagation_rank nc < propagation_rank n)%Z)
       ∧ (customers n ≠ [] →
            ∃ c nc, c ∈ customers n ∧ nodes g' !! c = Some nc
                    ∧ propagation_rank n = (propagation_rank nc + 1)%Z))
  ∧ (∀ r x, x ∈ rank_row (ranked_ases g') r ↔
       ∃ n, nodes g' !! x = Some n ∧ propagation_rank n = Z.of_nat r).

(** The rank a provider has after a customer of rank [rc] was taken from
    the queue of [flattenGraph], from the rank [ro] it had, if any. *)
Definition raised (rc : Z) (ro : option Z) : Z :=
  match ro with
  | None => (rc + 1)%Z
  | Some r => Z.max r (rc + 1)
  end.

(** What bounds the turns the loop of [flattenGraph] still takes: an AS
    is in the queue, or still has a count, or is done with. *)
Definition flatten_measure (st : flatten_state) : nat :=
  (length (ready_queue st) + size (customer_count st))%nat.

(** [e] is at the end of a propagation chain that starts at an entry
    some RIB of [ns] holds. *)
Definition derived (ns : gmap N ASNode) (e : Announcement) : Prop :=
  ∃ y p a ks, rib_of ns y !! p = Some a ∧ chain a ks e.

(** Every RIB entry of [ns'] is derived from the RIBs of [ns], and so is
    every staged candidate once a receiver commits it. *)
Definition all_derived (ns ns' : gmap N ASNode) : Prop :=
  (∀ x p e, rib_of ns' x !! p = Some e → derived ns e)
  ∧ (∀ x b r, staged ns' x b → derived ns (prepend_asn r b)).

(** ** The topology T1 of the specification's scenarios *)

(** [1|2|-1], [2|3|-1], [1|4|-1], [2|4|0]. *)
Definition topology_T1 : ASGraph :=
  build_graph [(1, 2, RelationType.CUSTOMER); (2, 3, RelationType.CUSTOMER);
               (1, 4, RelationType.CUSTOMER); (2, 4, RelationType.PEER)].

Definition prefix_203 : Prefix := PrefixV4 (mkIPv4Prefix 3405803776 24).

(** What [inet_pton] answers for the one address of the scenarios. *)
Definition scenario_inet_pton4 (s : string) : option N :=
  if String.eqb s "203.0.113.0" then Some 3405803776 else None.

Definition scenario_inet_pton6 (s : string) : option (list N) := None.

(** T1 after [initializeBGP], [flattenGraph] and the seed of
    [203.0.113.0/24] at AS [a]; the empty graph if a step fails. *)
Definition scenario_seeded (a : N) : ASGraph :=
  match flattenGraph (initializeBGP topology_T1) with
  | Returns g =>
      match ASGraph_seedAnnouncement scenario_inet_pton4 scenario_inet_pton6
              g a "203.0.113.0/24" false with
      | Returns g' => g'
      | Fails _ => ASGraph_new
      end
  | Fails _ => ASGraph_new
  end.

Definition seed_203 (a : N) : Announcement :=
  Announcement_new prefix_203 a RelationshipType.ORIGIN false.

(** Nothing is staged at any node. *)
Definition all_queues_empty (ns : gmap N ASNode) : bool :=
  forallb (λ kv : N * ASNode,
             match policy kv.2 with
             | Some pol => bool_decide (received_queue pol = ∅)
             | None => true
             end) (map_to_list ns).

(** Two routes for one prefix, both learned from a customer, both of
    length two and both with next hop AS 1, that went through different
    ASes. *)
Definition tie_left : Announcement :=
  {| prefix := Prefix_default; next_hop_asn := 1;
     received_from := RelationshipType.CUSTOMER; rov_invalid := false;
     as_path := [1; 2] |}.

Definition tie_right : Announcement :=
  {| prefix := Prefix_default; next_hop_asn := 1;
     received_from := RelationshipType.CUSTOMER; rov_invalid := false;
     as_path := [1; 3] |}.

(** ** Further notions used by the statements *)

(** What [BGP::processReceivedQueue] leaves in the RIB at one prefix,
    from the entry [incumbent] the RIB had there and the candidates
    staged for the prefix. *)
Definition resolve (current_asn : N) (incumbent : option Announcement)
    (candidates : list Announcement) : option Announcement :=
  match candidates with
  | [] => incumbent
  | c0 :: cs =>
      let stored_ann := prepend_asn current_asn (find_best c0 cs) in
      match incumbent with
      | None => Some stored_ann
      | Some old =>
          if isBetterThan stored_ann old then Some stored_ann else Some old
      end
  end.

(** The receptions of ROV-invalid announcements among the calls. *)
Definition is_invalid_reception (op : policy_op) : bool :=
  match op with
  | OpReceive ann => rov_invalid ann
  | _ => false
  end.

Definition invalid_receptions (ops : list policy_op) : N :=
  N.of_nat (length (List.filter is_invalid_reception ops)).

(** Whether a policy of class [c] stages announcement [ann]. *)
Definition accepts (c : PolicyClass) (ann : Announcement) : bool :=
  match c with
  | BGP => true
  | ROV => negb (rov_invalid ann)
  end.

(** The staged candidates of a policy for a prefix, in the order of the
    vector; none when the prefix has no vector. *)
Definition candidates_for (pol : BGPPolicy) (p : Prefix)
    : list Announcement :=
  default [] (received_queue pol !! p).

(** [b] is among the candidates staged at AS [x] for prefix [p]. *)
Definition staged_at (ns : gmap N ASNode) (x : N) (p : Prefix)
    (b : Announcement) : Prop :=
  ∃ cands, queue_of ns x !! p = Some cands ∧ b ∈ cands.

(** The neighbours an AS sends to when the copies it sends are tagged
    [rel]: its providers in phase 1, its peers in phase 2, its customers
    in phase 3. *)
Definition export_targets (rel : RelationshipType.t) (node : ASNode)
    : list N :=
  match rel with
  | RelationshipType.CUSTOMER => providers node
  | RelationshipType.PEER => peers node
  | RelationshipType.PROVIDER => customers node
  | RelationshipType.ORIGIN => []
  end.

(** A state [ns] reached from [ns0] by propagation steps, in which every
    RIB entry satisfies [R] and every staged candidate satisfies [Q]. *)
Definition propagation_invariant (ns0 : gmap N ASNode)
    (R Q : N → Prefix → Announcement → Prop) (ns : gmap N ASNode) : Prop :=
  (∀ x, policy_status ns x = policy_status ns0 x)
  ∧ (∀ x, shape_of ns x = shape_of ns0 x)
  ∧ (∀ x p e, rib_of ns x !! p = Some e → R x p e)
  ∧ (∀ x p b, staged_at ns x p b → Q x p b).

(** The three phases of [propagateAnnouncements] on a node table. *)
Definition propagate (ranked : list (list N)) (ns : gmap N ASNode)
    : gmap N ASNode :=
  propagateDown ranked (propagateAcross (propagateUp ranked ns)).

(** Every node is stored under its own AS number. *)
Definition keyed_by_asn (ns : gmap N ASNode) : Prop :=
  ∀ x node, ns !! x = Some node → asn node = x.

(** A RIB entry [e] of AS [x] under prefix [p] that is as it should be:
    it is for [p], its path starts with [x] and repeats no AS, and,
    unless it is a seed, the path goes on with the AS it came from. *)
Definition sound_route (x : N) (p : Prefix) (e : Announcement) : Prop :=
  prefix e = p ∧ NoDup (as_path e)
  ∧ ∃ rest, as_path e = x :: rest
      ∧ (received_from e = RelationshipType.ORIGIN
         ∨ ∃ rest', rest = next_hop_asn e :: rest').

(** The same for a candidate [b] staged at AS [x] under prefix [p]: its
    path starts with the sender and does not have [x] yet. *)
Definition sound_candidate (x : N) (p : Prefix) (b : Announcement) : Prop :=
  prefix b = p ∧ NoDup (as_path b) ∧ (x ∉ as_path b)
  ∧ ∃ rest, as_path b = next_hop_asn b :: rest.

Definition sound_tables (ns : gmap N ASNode) : Prop :=
  (∀ x p e, rib_of ns x !! p = Some e → sound_route x p e)
  ∧ (∀ x p b, staged_at ns x p b → sound_candidate x p b).

(** [e], held or staged at AS [x], came over a link of the graph: the
    AS it names as next hop has [x] as a provider if the tag is
    CUSTOMER, as a peer if it is PEER, as a customer if it is
    PROVIDER. *)
Definition learned_over_link (ns : gmap N ASNode) (x : N)
    (e : Announcement) : Prop :=
  ∃ sender, ns !! next_hop_asn e = Some sender
            ∧ x ∈ export_targets (received_from e) sender.

(** [e] carries what the RIB entry [a] of some AS of [ns] carries: the
    prefix, the ROV flag, and the path of [a] with ASes put in front. *)
Definition extends_entry_of (ns : gmap N ASNode) (e : Announcement)
    : Prop :=
  ∃ y p0 a hops, rib_of ns y !! p0 = Some a
    ∧ prefix e = prefix a ∧ rov_invalid e = rov_invalid a
    ∧ as_path e = hops ++ as_path a.

(** No RIB entry of [ns] is gone in [ns']: each is still there or has
    given way to a better one. *)
Definition never_worse (ns ns' : gmap N ASNode) : Prop :=
  ∀ x p old, rib_of ns x !! p = Some old →
    ∃ e, rib_of ns' x !! p = Some e
         ∧ (e = old ∨ isBetterThan e old = true).

(** The lines of a topology that make [y] a customer, a provider or a
    peer of [x]. *)
Definition makes_customer (rels : list (N * N * RelationType.t))
    (x y : N) : Prop :=
  (x, y, RelationType.CUSTOMER) ∈ rels ∨ (y, x, RelationType.PROVIDER) ∈ rels.

Definition makes_provider (rels : list (N * N * RelationType.t))
    (x y : N) : Prop :=
  (x, y, RelationType.PROVIDER) ∈ rels ∨ (y, x, RelationType.CUSTOMER) ∈ rels.

Definition makes_peer (rels : list (N * N * RelationType.t))
    (x y : N) : Prop :=
  (x, y, RelationType.PEER) ∈ rels ∨ (y, x, RelationType.PEER) ∈ rels.

(** [x] is an end of a line of the topology. *)
Definition mentioned (rels : list (N * N * RelationType.t)) (x : N) : Prop :=
  ∃ r, r ∈ rels ∧ (r.1.1 = x ∨ r.1.2 = x).

Definition is_peer_line (r : N * N * RelationType.t) : bool :=
  match r.2 with
  | RelationType.PEER => true
  | _ => false
  end.

(** The node found under [x] before [addRelationship], or the fresh node
    the call makes for an end of the line. *)
Definition node_before (g : ASGraph) (as1 as2 x : N) : option ASNode :=
  match nodes g !! x with
  | Some n => Some n
  | None => if decide (x = as1 ∨ x = as2) then Some (ASNode_new x) else None
  end.


(** ** as_graph.cpp: the file of AS numbers that deploy ROV *)

Local Open Scope string_scope.

(** The AS number read from one line of the file by [loadROVASNs], or
    [None] where the loop [continue]s on an empty line or a comment.
    [strtoul] returns 0 when the line has no number. *)
Definition rov_line_asn (line : string) : option N :=
  match line with
  | EmptyString => None
  | String "#" _ => None
  | _ => Some (to_ASN (match strtoul line with
                       | Some (v, _) => v
                       | None => 0%N
                       end))
  end.

Local Close Scope string_scope.

(** [ASGraph::loadROVASNs] on the lines of a file that could be
    opened. *)
Definition loadROVASNs (g : ASGraph) (lines : list string) : ASGraph :=
  foldl (fun g line =>
           match rov_line_asn line with
           | Some a => load_rov_asn g a
           | None => g
           end) g lines.

(** A line of the file gives the AS number [x], which is not 0. *)
Definition rov_listed (lines : list string) (x : N) : Prop :=
  x ≠ 0%N ∧ ∃ line, line ∈ lines ∧ rov_line_asn line = Some x.

(** The policy of a node after its AS number was read from the file. *)
Definition upgrade_status (s : option (option PolicyClass))
    : option (option PolicyClass) :=
  match s with
  | Some (Some _) => Some (Some ROV)
  | _ => s
  end.

(** No node has a policy yet. *)
Definition no_policies (ns : gmap N ASNode) : Prop :=
  ∀ x n, ns !! x = Some n → policy n = None.

(** The edges [hasCycleDFS] follows: to the providers of an AS in the
    first pass of [detectCycles], to its customers in the second. *)
Definition search_edge (ns : gmap N ASNode) (check_providers : bool)
    (x y : N) : Prop :=
  ∃ n, ns !! x = Some n
       ∧ y ∈ (if check_providers then providers n else customers n).

(** Every node has a policy. *)
Definition all_have_policy (ns : gmap N ASNode) : Prop :=
  ∀ x, policy_status ns x ≠ Some None.

(** Two graphs that differ at most in the ranks of the nodes and in the
    rows of [ranked_ases]. *)
Definition same_but_ranks (g g' : ASGraph) : Prop :=
  (∀ x, shape_of (nodes g') x = shape_of (nodes g) x
        ∧ policy <$> nodes g' !! x = policy <$> nodes g !! x)
  ∧ asn_set g' = asn_set g ∧ rov_asns g' = rov_asns g
  ∧ edge_count g' = edge_count g
  ∧ provider_customer_edges g' = provider_customer_edges g
  ∧ peer_edges g' = peer_edges g.

(** The tables are keyed by AS number and hold sound routes only. *)
Definition sound_graph (g : ASGraph) : Prop :=
  keyed_by_asn (nodes g) ∧ sound_tables (nodes g).

(** The route AS [receiver] stores when it takes [src] from [sender]
    over a link of kind [rel]. *)
Definition offered (receiver sender : N) (rel : RelationshipType.t)
    (src : Announcement) : Announcement :=
  prepend_asn receiver (copy_with_new_hop src sender rel).

(** AS [c] holds, for the prefix of [cand], a route that [cand] does not
    beat. *)
Definition holds_no_worse (ns : gmap N ASNode) (c : N)
    (cand : Announcement) : Prop :=
  ∃ e, rib_of ns c !! prefix cand = Some e ∧ isBetterThan cand e = false.

(** From the state [start] on, nothing new reaches AS [c] from a
    customer: in [ns], which has the adjacency of [start], no candidate
    tagged ORIGIN or CUSTOMER is staged at [c], and the entries so
    tagged in the RIB of [c] are entries [c] had in [start]. *)
Definition settled_since (start : gmap N ASNode) (c : N)
    (ns : gmap N ASNode) : Prop :=
  (∀ x, shape_of ns x = shape_of start x)
  ∧ (∀ b, staged ns c b → ¬ from_customer_or_origin b)
  ∧ (∀ p e, rib_of ns c !! p = Some e → from_customer_or_origin e →
       rib_of start c !! p = Some e).

(** The paths propagation can build in the graph [ns], with the AS that
    holds the route and the tag of the route: a seed; or a path of an
    AS [s], tagged ORIGIN or CUSTOMER, taken over by a provider or by a
    peer of [s]; or any path of [s] taken over by a customer of [s].
    Read from the origin, such a path climbs provider links, crosses at
    most one peer link, and then descends customer links. *)
Inductive valley_free (ns : gmap N ASNode)
    : N → RelationshipType.t → list N → Prop :=
| vf_seed x : valley_free ns x RelationshipType.ORIGIN [x]
| vf_up x s tag rest node :
    valley_free ns s tag (s :: rest) →
    tag = RelationshipType.ORIGIN ∨ tag = RelationshipType.CUSTOMER →
    ns !! s = Some node → x ∈ providers node →
    valley_free ns x RelationshipType.CUSTOMER (x :: s :: rest)
| vf_across x s tag rest node :
    valley_free ns s tag (s :: rest) →
    tag = RelationshipType.ORIGIN ∨ tag = RelationshipType.CUSTOMER →
    ns !! s = Some node → x ∈ peers node →
    valley_free ns x RelationshipType.PEER (x :: s :: rest)
| vf_down x s tag rest node :
    valley_free ns s tag (s :: rest) →
    ns !! s = Some node → x ∈ customers node →
    valley_free ns x RelationshipType.PROVIDER (x :: s :: rest).

(** The rows of [ranked] put the nodes of [ns] in an order that goes up
    along every provider link: there is a rank for each node, row [r]
    holds exactly the nodes of rank [r], the customers of a node are
    nodes of lower rank and its providers nodes of higher rank.  This
    is what [flattenGraph] leaves on a graph without cycles. *)
Definition well_ranked (ranked : list (list N)) (ns : gmap N ASNode)
    : Prop :=
  ∃ rk : N → nat,
    (∀ x r, x ∈ rank_row ranked r ↔ is_Some (ns !! x) ∧ rk x = r)
    ∧ (∀ x n y, ns !! x = Some n → y ∈ customers n →
         is_Some (ns !! y) ∧ (rk y < rk x)%nat)
    ∧ (∀ x n y, ns !! x = Some n → y ∈ providers n →
         is_Some (ns !! y) ∧ (rk x < rk y)%nat).

(** [g'] is [g] after calls of [seedAnnouncement] that returned. *)
Inductive seeded_from (inet_pton4 : string → option N)
    (inet_pton6 : string → option (list N)) (g : ASGraph)
    : ASGraph → Prop :=
  | seeded_none : seeded_from inet_pton4 inet_pton6 g g
  | seeded_more (g1 g2 : ASGraph) (a : N) (s : string) (f : bool) :
      seeded_from inet_pton4 inet_pton6 g g1 →
      ASGraph_seedAnnouncement inet_pton4 inet_pton6 g1 a s f = Returns g2 →
      seeded_from inet_pton4 inet_pton6 g g2.

(** What the steps before propagation leave for it: rows that order the
    graph, nodes stored under their AS numbers, a policy at every node
    and empty staging areas. *)
Definition ready_to_propagate (g : ASGraph) : Prop :=
  well_ranked (ranked_ases g) (nodes g) ∧ keyed_by_asn (nodes g)
  ∧ all_have_policy (nodes g) ∧ ∀ x, queue_of (nodes g) x = ∅.

(** ** Further scenarios on T1 *)

(** T1 with ROV deployed at AS 4, and the ROV-invalid seed of
    [203.0.113.0/24] at AS 4 itself. *)
Definition scenario_rov_seeded : ASGraph :=
  match flattenGraph
          (loadROVASNs (initializeBGP topology_T1) ["4"%string]) with
  | Returns g =>
      match ASGraph_seedAnnouncement scenario_inet_pton4 scenario_inet_pton6
              g 4 "203.0.113.0/24" true with
      | Returns g' => g'
      | Fails _ => ASGraph_new
      end
  | Fails _ => ASGraph_new
  end.

(** The routes of scenario S3: what AS 2 learns from its peer AS 4, and
    what AS 3 learns from its provider AS 2. *)
Definition route_at_2 : Announcement :=
  prepend_asn 2 (copy_with_new_hop (seed_203 4) 4 RelationshipType.PEER).

Definition route_at_3 : Announcement :=
  prepend_asn 3 (copy_with_new_hop route_at_2 2 RelationshipType.PROVIDER).

(** The topology of scenario S4: a provider cycle through three ASes. *)
Definition topology_cycle3 : ASGraph :=
  build_graph [(1, 2, RelationType.CUSTOMER); (2, 3, RelationType.CUSTOMER);
               (3, 1, RelationType.CUSTOMER)].

(** A file of ROV AS numbers with a comment, a line without a number
    and AS 0. *)
Definition rov_lines_2 : list string :=
  ["# ROV"%string; "2"%string; "none"%string; "0"%string].

(** AS 0 as its own provider, with a chain of two customers below
    it. *)
Definition topology_loop_0 : ASGraph :=
  buildFromLines ASGraph_new
    ["0|0|-1"%string; "0|1|-1"%string; "1|2|-1"%string].

(** * Properties *)

Local Open Scope N_scope.

(** ** Route selection *)

Section Selection.

Implicit Types a b c : Announcement.

(** [isBetterThan] is the strict lexicographic comparison of the
    selection keys. *)
Lemma isBetterThan_spec a b :
  isBetterThan a b = true ↔
    let '(ra, la, ha) := selection_key a in
    let '(rb, lb, hb) := selection_key b in
    ra < rb ∨ (ra = rb ∧ ((la < lb)%nat ∨ (la = lb ∧ ha < hb))).
Proof.
  unfold isBetterThan, selection_key,
    RelationshipType.eqb, RelationshipType.ltb.
  destruct (N.eqb_spec (RelationshipType.to_N (received_from a))
              (RelationshipType.to_N (received_from b))) as [Hr|Hr]; simpl.
  - destruct (Nat.eqb_spec (length (as_path a)) (length (as_path b)))
      as [Hl|Hl]; simpl.
    + rewrite N.ltb_lt. lia.
    + rewrite Nat.ltb_lt. lia.
  - rewrite N.ltb_lt. lia.
Qed.

Lemma isBetterThan_false a b :
  isBetterThan a b = false ↔ ¬ (isBetterThan a b = true).
Proof. destruct (isBetterThan a b); split; congruence. Qed.

Lemma selection_key_eq a b :
  selection_key a = selection_key b ↔
    RelationshipType.to_N (received_from a)
      = RelationshipType.to_N (received_from b)
    ∧ length (as_path a) = length (as_path b)
    ∧ next_hop_asn a = next_hop_asn b.
Proof.
  unfold selection_key. split.
  - intros [= H1 H2 H3]. auto.
  - intros (-> & -> & ->). reflexivity.
Qed.

Lemma isBetterThan_irrefl a : isBetterThan a a = false.
Proof.
  apply isBetterThan_false. rewrite isBetterThan_spec.
  unfold selection_key. lia.
Qed.

Lemma isBetterThan_asym a b :
  isBetterThan a b = true → isBetterThan b a = false.
Proof.
  rewrite isBetterThan_false, !isBetterThan_spec.
  unfold selection_key. lia.
Qed.

Lemma isBetterThan_trans a b c :
  isBetterThan a b = true → isBetterThan b c = true →
  isBetterThan a c = true.
Proof. rewrite !isBetterThan_spec. unfold selection_key. lia. Qed.

Lemma isBetterThan_key_total a b :
  selection_key a ≠ selection_key b →
  isBetterThan a b = true ∨ isBetterThan b a = true.
Proof.
  rewrite selection_key_eq, !isBetterThan_spec.
  unfold selection_key. lia.
Qed.

Lemma isBetterThan_key_tie a b :
  selection_key a = selection_key b →
  isBetterThan a b = false ∧ isBetterThan b a = false.
Proof.
  rewrite selection_key_eq, !isBetterThan_false, !isBetterThan_spec.
  unfold selection_key. lia.
Qed.

End Selection.

(** C1, as stated, fails: it is not the case that of any two distinct
    announcements for the same prefix exactly one is better than the
    other.  [tie_left] and [tie_right] are distinct, have the same
    prefix, and neither is better. *)
Lemma isBetterThan_not_total_on_announcements :
  ¬ (∀ a b : Announcement, a ≠ b → prefix a = prefix b →
       xorb (isBetterThan a b) (isBetterThan b a) = true).
Proof.
  intros H. specialize (H tie_left tie_right).
  assert (Hne : tie_left ≠ tie_right) by (intros [=]).
  specialize (H Hne eq_refl). vm_compute in H. discriminate.
Qed.

(** C1, amended: [isBetterThan] is a strict order (irreflexive,
    asymmetric, transitive) that is total on the selection key
    (relationship tag, path length, next hop): of two announcements
    whose keys differ exactly one is better than the other, and two
    announcements with the same key tie, whatever else differs. *)
Theorem isBetterThan_strict_total_on_keys (a b c : Announcement) :
  isBetterThan a a = false
  ∧ (isBetterThan a b = true → isBetterThan b c = true →
     isBetterThan a c = true)
  ∧ (selection_key a ≠ selection_key b →
     xorb (isBetterThan a b) (isBetterThan b a) = true)
  ∧ (selection_key a = selection_key b →
     isBetterThan a b = false ∧ isBetterThan b a = false).
Proof.
  split; [apply isBetterThan_irrefl|].
  split; [apply isBetterThan_trans|].
  split.
  - intros Hk. destruct (isBetterThan_key_total a b Hk) as [H|H].
    + rewrite H, (isBetterThan_asym a b H). reflexivity.
    + rewrite H, (isBetterThan_asym b a H). reflexivity.
  - apply isBetterThan_key_tie.
Qed.

(** The amended C1 at three concrete routes: a customer route beats a
    peer route, which beats a provider route. *)
Lemma isBetterThan_strict_total_on_keys_witness :
  let a := Announcement_new Prefix_default 7 RelationshipType.CUSTOMER false in
  let b := Announcement_new Prefix_default 5 RelationshipType.PEER false in
  let c := Announcement_new Prefix_default 3 RelationshipType.PROVIDER false in
  isBetterThan a c = true
  ∧ xorb (isBetterThan a b) (isBetterThan b a) = true
  ∧ isBetterThan tie_left tie_right = false.
Proof.
  intros a b c.
  destruct (isBetterThan_strict_total_on_keys a b c) as (_ & Ht & Hx & _).
  destruct (isBetterThan_strict_total_on_keys tie_left tie_right c)
    as (_ & _ & _ & Hk).
  split; [apply Ht; reflexivity|].
  split; [apply Hx; vm_compute; congruence|].
  apply Hk. reflexivity.
Defined.

(** ** Policies: seeding and ROV filtering *)

Lemma foldl_preserves {A B : Type} (P : A → Prop) (f : A → B → A)
    (l : list B) (a : A) :
  P a → (∀ a' b, b ∈ l → P a' → P (f a' b)) → P (foldl f a l).
Proof.
  revert a. induction l as [|b l IH]; intros a Ha Hstep; simpl; [done|].
  apply IH.
  - apply Hstep; [left | done].
  - intros a' b' Hb'. apply Hstep. by right.
Qed.

Section Policy.

Implicit Types (pol : BGPPolicy) (ann : Announcement) (p : Prefix).

Lemma seedAnnouncement_lookup pol ann :
  getAnnouncement (seedAnnouncement pol ann) (prefix ann) = Some ann.
Proof. unfold getAnnouncement, seedAnnouncement. simpl. apply lookup_insert_eq. Qed.

Lemma seedAnnouncement_lookup_ne pol ann p :
  p ≠ prefix ann →
  getAnnouncement (seedAnnouncement pol ann) p = getAnnouncement pol p.
Proof.
  intros Hne. unfold getAnnouncement, seedAnnouncement. simpl.
  by rewrite lookup_insert_ne.
Qed.

(** An entry of the staging area that is not for [p] does not touch
    the RIB at [p]. *)
Lemma process_entry_lookup_ne current_asn st pair p :
  pair.1 ≠ p →
  (process_entry current_asn st pair).1 !! p = st.1 !! p.
Proof.
  intros Hne. unfold process_entry.
  destruct pair.2 as [|c0 cs]; [done|].
  destruct (st.1 !! pair.1) as [incumbent|]; simpl.
  - destruct (isBetterThan _ incumbent); simpl; [|done].
    by rewrite lookup_insert_ne.
  - by rewrite lookup_insert_ne.
Qed.

Lemma processReceivedQueue_lookup_unstaged pol current_asn p :
  received_queue pol !! p = None →
  local_rib (processReceivedQueue pol current_asn).1 !! p
    = local_rib pol !! p.
Proof.
  intros Hq. unfold processReceivedQueue. simpl.
  apply (foldl_preserves
           (λ st, st.1 !! p = local_rib pol !! p)); [done|].
  intros st [k cands] Hin Hst.
  rewrite process_entry_lookup_ne; [done|].
  apply elem_of_map_to_list in Hin. simpl. congruence.
Qed.

Lemma processReceivedQueue_queue pol current_asn :
  received_queue (processReceivedQueue pol current_asn).1
    = received_queue pol.
Proof. reflexivity. Qed.

Lemma processReceivedQueue_class pol current_asn :
  policy_class (processReceivedQueue pol current_asn).1 = policy_class pol.
Proof. reflexivity. Qed.

Lemma receiveAnnouncement_class pol ann :
  policy_class (receiveAnnouncement pol ann) = policy_class pol.
Proof.
  unfold receiveAnnouncement, ROV_receiveAnnouncement.
  destruct (policy_class pol) eqn:Hc; [done|].
  by destruct (rov_invalid ann).
Qed.

Lemma receiveAnnouncement_rib pol ann :
  local_rib (receiveAnnouncement pol ann) = local_rib pol.
Proof.
  unfold receiveAnnouncement, ROV_receiveAnnouncement.
  destruct (policy_class pol); [done|].
  by destruct (rov_invalid ann).
Qed.

(** What a policy of class [ROV] does with an invalid announcement. *)
Lemma ROV_receive_invalid pol ann :
  policy_class pol = ROV → rov_invalid ann = true →
  receiveAnnouncement pol ann
    = set_dropped_count pol ((dropped_count pol + 1) mod (SIZE_MAX + 1)).
Proof.
  intros Hc Hinv. unfold receiveAnnouncement, ROV_receiveAnnouncement.
  by rewrite Hc, Hinv.
Qed.

(** Receiving never stages anything under another prefix. *)
Lemma receiveAnnouncement_queue_ne pol ann p :
  prefix ann ≠ p →
  received_queue (receiveAnnouncement pol ann) !! p
    = received_queue pol !! p.
Proof.
  intros Hne. unfold receiveAnnouncement, ROV_receiveAnnouncement,
    BGPPolicy_receiveAnnouncement.
  destruct (policy_class pol); simpl.
  - by rewrite lookup_insert_ne.
  - destruct (rov_invalid ann); simpl; [done|]. by rewrite lookup_insert_ne.
Qed.

(** One call keeps prefix [p] out of the RIB and of the staging area
    of an ROV policy. *)
Lemma run_op_keeps_out pol op p :
  policy_class pol = ROV →
  only_invalid_for p op →
  local_rib pol !! p = None ∧ received_queue pol !! p = None →
  policy_class (run_op pol op) = ROV
  ∧ local_rib (run_op pol op) !! p = None
  ∧ received_queue (run_op pol op) !! p = None.
Proof.
  intros Hc Hop [Hrib Hq].
  destruct op as [ann|current_asn| |ann]; cbn [run_op only_invalid_for] in *.
  - rewrite receiveAnnouncement_class, receiveAnnouncement_rib.
    split; [done|]. split; [done|].
    destruct (decide (prefix ann = p)) as [Heq|Hne].
    + by rewrite (ROV_receive_invalid pol ann Hc (Hop Heq)).
    + by rewrite receiveAnnouncement_queue_ne.
  - rewrite processReceivedQueue_class, processReceivedQueue_queue.
    split; [done|].
    by rewrite processReceivedQueue_lookup_unstaged.
  - done.
  - split; [done|]. split; [|done].
    unfold seedAnnouncement. simpl. by rewrite lookup_insert_ne.
Qed.

End Policy.

(** C6: a policy of class ROV that is handed an announcement with
    [rov_invalid] set counts one more drop and keeps its staging area
    (and its RIB) as they were.  Hence, from a state with no RIB entry
    and nothing staged for prefix [p], any sequence of receive, process,
    clear and seed calls in which [p] is never seeded and every
    announcement received for [p] is invalid ends with no RIB entry for
    [p]. *)
Theorem rov_drops_invalid_at_reception
    (pol : BGPPolicy) (ann : Announcement) (p : Prefix)
    (ops : list policy_op) :
  policy_class pol = ROV →
  (rov_invalid ann = true →
     received_queue (receiveAnnouncement pol ann) = received_queue pol
     ∧ local_rib (receiveAnnouncement pol ann) = local_rib pol
     ∧ dropped_count (receiveAnnouncement pol ann)
         = (dropped_count pol + 1) mod (SIZE_MAX + 1))
  ∧ (local_rib pol !! p = None → received_queue pol !! p = None →
     Forall (only_invalid_for p) ops →
     getAnnouncement (foldl run_op pol ops) p = None).
Proof.
  intros Hc. split.
  - intros Hinv. by rewrite (ROV_receive_invalid pol ann Hc Hinv).
  - intros Hrib Hq Hops. unfold getAnnouncement.
    cut (policy_class (foldl run_op pol ops) = ROV
         ∧ local_rib (foldl run_op pol ops) !! p = None
         ∧ received_queue (foldl run_op pol ops) !! p = None);
      [tauto|].
    revert pol Hc Hrib Hq.
    induction Hops as [|op ops Hop Hops IH]; intros pol Hc Hrib Hq; simpl;
      [done|].
    destruct (run_op_keeps_out pol op p Hc Hop (conj Hrib Hq))
      as (Hc' & Hrib' & Hq').
    by apply IH.
Qed.

(** C10: seeding installs the announcement whatever the RIB held for its
    prefix, and touches nothing else; so of two seeds of one AS whose
    texts parse to the same prefix the second is the one in the RIB. *)
Theorem seed_replaces_unconditionally
    (inet_pton4 : string → option N) (inet_pton6 : string → option (list N))
    (pol : BGPPolicy) (ann : Announcement)
    (g : ASGraph) (a : N) (str1 str2 : string) (rov1 rov2 : bool) :
  getAnnouncement (seedAnnouncement pol ann) (prefix ann) = Some ann
  ∧ (∀ p, p ≠ prefix ann →
       getAnnouncement (seedAnnouncement pol ann) p = getAnnouncement pol p)
  ∧ received_queue (seedAnnouncement pol ann) = received_queue pol
  ∧ (∀ node pol0 p,
       nodes g !! a = Some node → policy node = Some pol0 →
       Prefix_parse inet_pton4 inet_pton6 str1 = Returns p →
       Prefix_parse inet_pton4 inet_pton6 str2 = Returns p →
       ∃ g1 g2,
         ASGraph_seedAnnouncement inet_pton4 inet_pton6 g a str1 rov1
           = Returns g1
         ∧ ASGraph_seedAnnouncement inet_pton4 inet_pton6 g1 a str2 rov2
           = Returns g2
         ∧ rib_of (nodes g2) a !! p
           = Some (Announcement_new p a RelationshipType.ORIGIN rov2)).
Proof.
  split; [apply seedAnnouncement_lookup|].
  split; [intros p; apply seedAnnouncement_lookup_ne|].
  split; [reflexivity|].
  intros node pol0 p Hnode Hpol Hp1 Hp2.
  unfold ASGraph_seedAnnouncement.
  rewrite Hnode, Hpol, Hp1. simpl.
  eexists. eexists. split; [reflexivity|].
  simpl. rewrite lookup_insert_eq. simpl. rewrite Hp2. simpl.
  split; [reflexivity|].
  unfold rib_of. simpl. rewrite lookup_insert_eq. simpl.
  apply lookup_insert_eq.
Qed.

(** ** Propagation: what the sender loops and the resolution do *)

Section Delivery.

Implicit Types (ns : gmap N ASNode) (ann b src : Announcement)
  (x a nb sender : N) (rel : RelationshipType.t).

(** The table after one delivery, node by node. *)
Lemma deliver_lookup sender rel ann ns nb x :
  deliver sender rel ann ns nb !! x = ns !! x
  ∨ ∃ n pol, x = nb ∧ containsAS ann nb = false ∧ ns !! x = Some n
      ∧ policy n = Some pol
      ∧ deliver sender rel ann ns nb !! x
        = Some (set_policy n
                  (Some (receiveAnnouncement pol
                           (copy_with_new_hop ann sender rel)))).
Proof.
  unfold deliver. destruct (containsAS ann nb) eqn:Hc; [by left|].
  destruct (ns !! nb) as [n|] eqn:Hn; [|by left].
  destruct (policy n) as [pol|] eqn:Hp; [|by left].
  destruct (decide (x = nb)) as [->|Hne].
  - right. exists n, pol. by rewrite lookup_insert_eq.
  - left. by rewrite lookup_insert_ne.
Qed.

Lemma deliver_rib sender rel ann ns nb x :
  rib_of (deliver sender rel ann ns nb) x = rib_of ns x.
Proof.
  unfold rib_of.
  destruct (deliver_lookup sender rel ann ns nb x)
    as [->|(n & pol & _ & _ & Hn & Hp & ->)]; [done|].
  rewrite Hn, Hp. simpl. apply receiveAnnouncement_rib.
Qed.

Lemma deliver_status sender rel ann ns nb x :
  policy_status (deliver sender rel ann ns nb) x = policy_status ns x.
Proof.
  unfold policy_status.
  destruct (deliver_lookup sender rel ann ns nb x)
    as [->|(n & pol & _ & _ & Hn & Hp & ->)]; [done|].
  rewrite Hn. simpl. rewrite Hp. simpl.
  by rewrite receiveAnnouncement_class.
Qed.

Lemma deliver_shape sender rel ann ns nb x :
  shape_of (deliver sender rel ann ns nb) x = shape_of ns x.
Proof.
  unfold shape_of.
  destruct (deliver_lookup sender rel ann ns nb x)
    as [->|(n & pol & _ & _ & Hn & Hp & ->)]; [done|].
  by rewrite Hn.
Qed.

(** What a policy has staged after a reception. *)
Lemma receiveAnnouncement_staged pol ann p cands b :
  received_queue (receiveAnnouncement pol ann) !! p = Some cands →
  b ∈ cands →
  b = ann ∨ ∃ cands0, received_queue pol !! p = Some cands0 ∧ b ∈ cands0.
Proof.
  unfold receiveAnnouncement, ROV_receiveAnnouncement,
    BGPPolicy_receiveAnnouncement.
  assert (Hins : ∀ q : gmap Prefix (list Announcement),
    <[prefix ann := default [] (q !! prefix ann) ++ [ann]]> q !! p
      = Some cands → b ∈ cands →
    b = ann ∨ ∃ cands0, q !! p = Some cands0 ∧ b ∈ cands0).
  { intros q Hq Hb. destruct (decide (prefix ann = p)) as [<-|Hne].
    - rewrite lookup_insert_eq in Hq. injection Hq as <-.
      apply elem_of_app in Hb as [Hb|Hb].
      + right. destruct (q !! prefix ann) as [c0|]; simpl in Hb.
        * by exists c0.
        * by apply elem_of_nil in Hb.
      + left. by apply list_elem_of_singleton in Hb.
    - rewrite lookup_insert_ne in Hq by done. right. by exists cands. }
  destruct (policy_class pol); simpl.
  - apply Hins.
  - destruct (rov_invalid ann); simpl; [|apply Hins].
    intros Hq Hb. right. by exists cands.
Qed.

Lemma receiveAnnouncement_keeps pol ann p cands0 b :
  received_queue pol !! p = Some cands0 → b ∈ cands0 →
  ∃ cands, received_queue (receiveAnnouncement pol ann) !! p = Some cands
           ∧ b ∈ cands.
Proof.
  intros Hq Hb.
  unfold receiveAnnouncement, ROV_receiveAnnouncement,
    BGPPolicy_receiveAnnouncement.
  assert (Hins :
    ∃ cands,
      <[prefix ann := default [] (received_queue pol !! prefix ann)
                      ++ [ann]]> (received_queue pol) !! p = Some cands
      ∧ b ∈ cands).
  { destruct (decide (prefix ann = p)) as [<-|Hne].
    - rewrite lookup_insert_eq, Hq. simpl. eexists. split; [done|].
      apply elem_of_app. by left.
    - rewrite lookup_insert_ne by done. by exists cands0. }
  destruct (policy_class pol); simpl; [done|].
  destruct (rov_invalid ann); simpl; [|done]. by exists cands0.
Qed.

Lemma receiveAnnouncement_stages pol ann :
  policy_class pol = BGP ∨ rov_invalid ann = false →
  ∃ cands, received_queue (receiveAnnouncement pol ann) !! prefix ann
             = Some cands ∧ ann ∈ cands.
Proof.
  intros Hok.
  unfold receiveAnnouncement, ROV_receiveAnnouncement,
    BGPPolicy_receiveAnnouncement.
  assert (Hins :
    ∃ cands,
      <[prefix ann := default [] (received_queue pol !! prefix ann)
                      ++ [ann]]> (received_queue pol) !! prefix ann
        = Some cands ∧ ann ∈ cands).
  { rewrite lookup_insert_eq. eexists. split; [done|].
    apply elem_of_app. right. by apply list_elem_of_singleton. }
  destruct (policy_class pol) eqn:Hc; simpl; [done|].
  destruct Hok as [Hk | Hv]; [done|]. by rewrite Hv.
Qed.

Lemma deliver_staged sender rel ann ns nb x b :
  staged (deliver sender rel ann ns nb) x b →
  staged ns x b
  ∨ (x = nb ∧ containsAS ann nb = false
     ∧ b = copy_with_new_hop ann sender rel).
Proof.
  unfold staged, queue_of. intros (p & cands & Hq & Hb).
  destruct (deliver_lookup sender rel ann ns nb x)
    as [Heq|(n & pol & -> & Hc & Hn & Hp & Heq)]; rewrite Heq in Hq.
  - left. by exists p, cands.
  - simpl in Hq.
    destruct (receiveAnnouncement_staged _ _ _ _ _ Hq Hb)
      as [->|(cands0 & Hq0 & Hb0)].
    + by right.
    + left. exists p, cands0. by rewrite Hn, Hp.
Qed.

Lemma deliver_staged_mono sender rel ann ns nb x b :
  staged ns x b → staged (deliver sender rel ann ns nb) x b.
Proof.
  unfold staged, queue_of. intros (p & cands & Hq & Hb).
  destruct (deliver_lookup sender rel ann ns nb x)
    as [->|(n & pol & -> & Hc & Hn & Hp & ->)].
  - by exists p, cands.
  - rewrite Hn, Hp in Hq. simpl.
    destruct (receiveAnnouncement_keeps pol
                (copy_with_new_hop ann sender rel) p cands b Hq Hb)
      as (cands' & Hq' & Hb').
    by exists p, cands'.
Qed.

(** A delivery to a neighbour that is not in the path and whose policy
    accepts the announcement stages the copy there. *)
Lemma deliver_stages sender rel ann ns nb k :
  containsAS ann nb = false →
  policy_status ns nb = Some (Some k) →
  k = BGP ∨ rov_invalid ann = false →
  staged (deliver sender rel ann ns nb) nb
    (copy_with_new_hop ann sender rel).
Proof.
  intros Hc Hst Hok. unfold policy_status in Hst.
  destruct (ns !! nb) as [n|] eqn:Hn; [|done]. simpl in Hst.
  destruct (policy n) as [pol|] eqn:Hp; [|done]. simpl in Hst.
  injection Hst as <-.
  unfold staged, queue_of, deliver. rewrite Hc, Hn, Hp.
  rewrite lookup_insert_eq. simpl.
  destruct (receiveAnnouncement_stages pol
              (copy_with_new_hop ann sender rel)) as (cands & Hq & Hb);
    [done|].
  by exists (prefix ann), cands.
Qed.

End Delivery.

Lemma foldl_establishes {A B : Type} (I Q : A → Prop) (f : A → B → A)
    (l : list B) (a : A) (e : B) :
  e ∈ l → I a →
  (∀ a' b, I a' → I (f a' b)) →
  (∀ a', I a' → Q (f a' e)) →
  (∀ a' b, Q a' → Q (f a' b)) →
  Q (foldl f a l).
Proof.
  intros He Ha HI HQ Hkeep. revert a Ha.
  induction l as [|b l IH]; intros a Ha; [by apply elem_of_nil in He|].
  simpl. apply elem_of_cons in He as [->|He].
  - apply (foldl_preserves Q); [by apply HQ|]. intros a' b' _. apply Hkeep.
  - apply IH; [done|]. by apply HI.
Qed.

Section Senders.

Implicit Types (ns : gmap N ASNode) (ann b src : Announcement)
  (x a nb sender : N) (rel : RelationshipType.t)
  (rib : gmap Prefix Announcement) (nbs : list N).

Lemma sends_only_refl ns : sends_only ns ns.
Proof. intros x. auto. Qed.

Lemma sends_only_trans ns1 ns2 ns3 :
  sends_only ns1 ns2 → sends_only ns2 ns3 → sends_only ns1 ns3.
Proof.
  intros H12 H23 x.
  destruct (H12 x) as (E1 & E2 & E3 & Hs12).
  destruct (H23 x) as (F1 & F2 & F3 & Hs23).
  rewrite F1, F2, F3. repeat split; [done..|]. intros b Hb. auto.
Qed.

Lemma deliver_sends_only sender rel ann ns nb :
  sends_only ns (deliver sender rel ann ns nb).
Proof.
  intros x. split; [apply deliver_rib|]. split; [apply deliver_status|].
  split; [apply deliver_shape|]. intros b. apply deliver_staged_mono.
Qed.

Lemma deliver_all_sends_only sender rel ann ns nbs :
  sends_only ns (foldl (deliver sender rel ann) ns nbs).
Proof.
  apply (foldl_preserves (sends_only ns)); [apply sends_only_refl|].
  intros ns' nb _ H. eapply sends_only_trans; [done|].
  apply deliver_sends_only.
Qed.

Lemma send_filtered_sends_only sender rel nbs rib ns :
  sends_only ns (send_filtered sender rel nbs rib ns).
Proof.
  apply (foldl_preserves (sends_only ns)); [apply sends_only_refl|].
  intros ns' pair _ H.
  destruct (not_from_customer_or_origin pair.2); [done|].
  eapply sends_only_trans; [done|]. apply deliver_all_sends_only.
Qed.

Lemma send_all_sends_only sender rel nbs rib ns :
  sends_only ns (send_all sender rel nbs rib ns).
Proof.
  apply (foldl_preserves (sends_only ns)); [apply sends_only_refl|].
  intros ns' pair _ H.
  eapply sends_only_trans; [done|]. apply deliver_all_sends_only.
Qed.

Lemma send_up_sends_only ns a : sends_only ns (send_up ns a).
Proof.
  unfold send_up. destruct (ns !! a) as [n|]; [|apply sends_only_refl].
  destruct (policy n) as [pol|]; [|apply sends_only_refl].
  repeat case_bool_decide; try apply sends_only_refl.
  apply send_filtered_sends_only.
Qed.

Lemma send_across_sends_only ns a : sends_only ns (send_across ns a).
Proof.
  unfold send_across. destruct (ns !! a) as [n|]; [|apply sends_only_refl].
  destruct (policy n) as [pol|]; [|apply sends_only_refl].
  repeat case_bool_decide; try apply sends_only_refl.
  apply send_filtered_sends_only.
Qed.

Lemma send_down_sends_only ns a : sends_only ns (send_down ns a).
Proof.
  unfold send_down. destruct (ns !! a) as [n|]; [|apply sends_only_refl].
  destruct (policy n) as [pol|]; [|apply sends_only_refl].
  repeat case_bool_decide; try apply sends_only_refl.
  apply send_all_sends_only.
Qed.

Lemma sends_only_foldl (f : gmap N ASNode → N → gmap N ASNode)
    (l : list N) ns :
  (∀ ns' a', sends_only ns' (f ns' a')) →
  sends_only ns (foldl f ns l).
Proof.
  intros Hf.
  apply (foldl_preserves (sends_only ns)); [apply sends_only_refl|].
  intros ns' a' _ H. eapply sends_only_trans; [done|]. apply Hf.
Qed.

(** Where the candidates staged by the deliveries of one entry come
    from. *)
Lemma deliver_all_staged sender rel ann ns nbs x b :
  staged (foldl (deliver sender rel ann) ns nbs) x b →
  staged ns x b
  ∨ (x ∈ nbs ∧ containsAS ann x = false
     ∧ b = copy_with_new_hop ann sender rel).
Proof.
  apply (foldl_preserves
           (λ ns', staged ns' x b →
              staged ns x b
              ∨ (x ∈ nbs ∧ containsAS ann x = false
                 ∧ b = copy_with_new_hop ann sender rel))); [by left|].
  intros ns' nb Hnb IH Hst.
  destruct (deliver_staged _ _ _ _ _ _ _ Hst) as [Hold|(-> & Hc & ->)].
  - by apply IH.
  - by right.
Qed.

Lemma send_filtered_staged sender rel nbs rib ns x b :
  staged (send_filtered sender rel nbs rib ns) x b →
  staged ns x b
  ∨ ∃ p src, rib !! p = Some src
      ∧ not_from_customer_or_origin src = false
      ∧ x ∈ nbs ∧ containsAS src x = false
      ∧ b = copy_with_new_hop src sender rel.
Proof.
  apply (foldl_preserves
           (λ ns', staged ns' x b →
              staged ns x b
              ∨ ∃ p src, rib !! p = Some src
                  ∧ not_from_customer_or_origin src = false
                  ∧ x ∈ nbs ∧ containsAS src x = false
                  ∧ b = copy_with_new_hop src sender rel)); [by left|].
  intros ns' [p src] Hin IH Hst. simpl in Hst.
  apply elem_of_map_to_list in Hin.
  destruct (not_from_customer_or_origin src) eqn:Hf; [by apply IH|].
  destruct (deliver_all_staged _ _ _ _ _ _ _ Hst) as [Hold|(Hx & Hc & ->)].
  - by apply IH.
  - right. by exists p, src.
Qed.

Lemma send_all_staged sender rel nbs rib ns x b :
  staged (send_all sender rel nbs rib ns) x b →
  staged ns x b
  ∨ ∃ p src, rib !! p = Some src
      ∧ x ∈ nbs ∧ containsAS src x = false
      ∧ b = copy_with_new_hop src sender rel.
Proof.
  apply (foldl_preserves
           (λ ns', staged ns' x b →
              staged ns x b
              ∨ ∃ p src, rib !! p = Some src
                  ∧ x ∈ nbs ∧ containsAS src x = false
                  ∧ b = copy_with_new_hop src sender rel)); [by left|].
  intros ns' [p src] Hin IH Hst. simpl in Hst.
  apply elem_of_map_to_list in Hin.
  destruct (deliver_all_staged _ _ _ _ _ _ _ Hst) as [Hold|(Hx & Hc & ->)].
  - by apply IH.
  - right. by exists p, src.
Qed.

(** Every entry reaches every customer that is not in its path and
    whose policy accepts it. *)
Lemma deliver_all_stages sender rel ann ns nbs c k :
  c ∈ nbs → containsAS ann c = false →
  policy_status ns c = Some (Some k) →
  k = BGP ∨ rov_invalid ann = false →
  staged (foldl (deliver sender rel ann) ns nbs) c
    (copy_with_new_hop ann sender rel).
Proof.
  intros Hc Hpath Hst Hok.
  apply (foldl_establishes
           (λ ns', policy_status ns' c = Some (Some k))
           (λ ns', staged ns' c (copy_with_new_hop ann sender rel))
           _ _ _ c); [done|done| | |].
  - intros ns' nb H. by rewrite deliver_status.
  - intros ns' H. by eapply deliver_stages.
  - intros ns' nb. apply deliver_staged_mono.
Qed.

Lemma send_all_stages sender rel nbs rib ns p src c k :
  rib !! p = Some src → c ∈ nbs → containsAS src c = false →
  policy_status ns c = Some (Some k) →
  k = BGP ∨ rov_invalid src = false →
  staged (send_all sender rel nbs rib ns) c
    (copy_with_new_hop src sender rel).
Proof.
  intros Hrib Hc Hpath Hst Hok.
  apply (foldl_establishes
           (λ ns', policy_status ns' c = Some (Some k))
           (λ ns', staged ns' c (copy_with_new_hop src sender rel))
           _ _ _ (p, src)).
  - by apply elem_of_map_to_list.
  - done.
  - intros ns' pair H.
    destruct (deliver_all_sends_only sender rel pair.2 ns' nbs c)
      as (_ & -> & _). done.
  - intros ns' H. simpl. by eapply deliver_all_stages.
  - intros ns' pair H.
    by apply (deliver_all_sends_only sender rel pair.2 ns' nbs c).
Qed.

End Senders.

Section Phases.

Implicit Types (ns : gmap N ASNode) (ann b src e : Announcement)
  (x a s : N) (rel : RelationshipType.t) (ranked : list (list N)).

Lemma from_customer_or_origin_spec src :
  not_from_customer_or_origin src = false ↔ from_customer_or_origin src.
Proof.
  unfold not_from_customer_or_origin, from_customer_or_origin.
  destruct (received_from src); vm_compute; split; intros H;
    try done; auto; destruct H; done.
Qed.

Lemma rib_of_lookup ns a node pol :
  ns !! a = Some node → policy node = Some pol →
  rib_of ns a = local_rib pol.
Proof. intros Hn Hp. unfold rib_of. by rewrite Hn, Hp. Qed.

Lemma rib_of_Some ns a p src :
  rib_of ns a !! p = Some src →
  ∃ node pol, ns !! a = Some node ∧ policy node = Some pol
              ∧ local_rib pol !! p = Some src.
Proof.
  unfold rib_of.
  destruct (ns !! a) as [node|];
    [|intros H; by rewrite lookup_empty in H].
  destruct (policy node) as [pol|] eqn:Hp;
    [|intros H; by rewrite lookup_empty in H].
  intros H. by exists node, pol.
Qed.

(** Phase 1, one sender. *)
Lemma send_up_staged ns a x b :
  staged (send_up ns a) x b →
  staged ns x b
  ∨ ∃ node p src, ns !! a = Some node ∧ x ∈ providers node
      ∧ rib_of ns a !! p = Some src ∧ from_customer_or_origin src
      ∧ containsAS src x = false
      ∧ b = copy_with_new_hop src a RelationshipType.CUSTOMER.
Proof.
  unfold send_up. destruct (ns !! a) as [node|] eqn:Hn; [|by left].
  destruct (policy node) as [pol|] eqn:Hp; [|by left].
  repeat case_bool_decide; try by left.
  intros Hst.
  destruct (send_filtered_staged _ _ _ _ _ _ _ Hst)
    as [Hold|(p & src & Hrib & Hf & Hx & Hc & ->)]; [by left|].
  right. exists node, p, src.
  rewrite (rib_of_lookup ns a node pol Hn Hp).
  by rewrite <- from_customer_or_origin_spec.
Qed.

(** Phase 2, one sender. *)
Lemma send_across_staged ns a x b :
  staged (send_across ns a) x b →
  staged ns x b
  ∨ ∃ node p src, ns !! a = Some node ∧ x ∈ peers node
      ∧ rib_of ns a !! p = Some src ∧ from_customer_or_origin src
      ∧ containsAS src x = false
      ∧ b = copy_with_new_hop src (asn node) RelationshipType.PEER.
Proof.
  unfold send_across. destruct (ns !! a) as [node|] eqn:Hn; [|by left].
  destruct (policy node) as [pol|] eqn:Hp; [|by left].
  repeat case_bool_decide; try by left.
  intros Hst.
  destruct (send_filtered_staged _ _ _ _ _ _ _ Hst)
    as [Hold|(p & src & Hrib & Hf & Hx & Hc & ->)]; [by left|].
  right. exists node, p, src.
  rewrite (rib_of_lookup ns a node pol Hn Hp).
  by rewrite <- from_customer_or_origin_spec.
Qed.

(** Phase 3, one sender: where the candidates come from. *)
Lemma send_down_staged ns a x b :
  staged (send_down ns a) x b →
  staged ns x b
  ∨ ∃ node p src, ns !! a = Some node ∧ x ∈ customers node
      ∧ rib_of ns a !! p = Some src
      ∧ containsAS src x = false
      ∧ b = copy_with_new_hop src a RelationshipType.PROVIDER.
Proof.
  unfold send_down. destruct (ns !! a) as [node|] eqn:Hn; [|by left].
  destruct (policy node) as [pol|] eqn:Hp; [|by left].
  repeat case_bool_decide; try by left.
  intros Hst.
  destruct (send_all_staged _ _ _ _ _ _ _ Hst)
    as [Hold|(p & src & Hrib & Hx & Hc & ->)]; [by left|].
  right. exists node, p, src.
  by rewrite (rib_of_lookup ns a node pol Hn Hp).
Qed.

(** Phase 3, one sender: nothing is held back. *)
Lemma send_down_stages ns a node p src c k :
  ns !! a = Some node → c ∈ customers node →
  rib_of ns a !! p = Some src →
  containsAS src c = false →
  policy_status ns c = Some (Some k) →
  k = BGP ∨ rov_invalid src = false →
  staged (send_down ns a) c
    (copy_with_new_hop src a RelationshipType.PROVIDER).
Proof.
  intros Hn Hc Hrib Hpath Hst Hok.
  destruct (rib_of_Some _ _ _ _ Hrib) as (node' & pol & Hn' & Hp & Hl).
  assert (node' = node) as -> by congruence.
  unfold send_down. rewrite Hn, Hp.
  rewrite bool_decide_eq_false_2
    by (intros E; rewrite E in Hc; by apply elem_of_nil in Hc).
  rewrite bool_decide_eq_false_2
    by (intros E; rewrite E in Hl; by rewrite lookup_empty in Hl).
  by eapply send_all_stages.
Qed.

End Phases.

Section Blocked.

Implicit Types (ns : gmap N ASNode) (a : N).

(** A RIB without an ORIGIN or CUSTOMER entry sends nothing up or
    across: not even a reception that the receiver drops. *)
Lemma send_filtered_blocked sender rel nbs
    (rib : gmap Prefix Announcement) ns :
  (∀ p src, rib !! p = Some src → ¬ from_customer_or_origin src) →
  send_filtered sender rel nbs rib ns = ns.
Proof.
  intros Hblocked. unfold send_filtered.
  apply (foldl_preserves (λ ns', ns' = ns)); [done|].
  intros ns' [p src] Hin ->. apply elem_of_map_to_list in Hin. simpl.
  destruct (not_from_customer_or_origin src) eqn:Hf; [done|].
  apply from_customer_or_origin_spec in Hf. by destruct (Hblocked p src).
Qed.

Lemma send_up_blocked ns a :
  (∀ p src, rib_of ns a !! p = Some src → ¬ from_customer_or_origin src) →
  send_up ns a = ns.
Proof.
  intros Hblocked. unfold send_up.
  destruct (ns !! a) as [node|] eqn:Hn; [|done].
  destruct (policy node) as [pol|] eqn:Hp; [|done].
  repeat case_bool_decide; try done.
  apply send_filtered_blocked.
  by rewrite <- (rib_of_lookup ns a node pol Hn Hp).
Qed.

Lemma send_across_blocked ns a :
  (∀ p src, rib_of ns a !! p = Some src → ¬ from_customer_or_origin src) →
  send_across ns a = ns.
Proof.
  intros Hblocked. unfold send_across.
  destruct (ns !! a) as [node|] eqn:Hn; [|done].
  destruct (policy node) as [pol|] eqn:Hp; [|done].
  repeat case_bool_decide; try done.
  apply send_filtered_blocked.
  by rewrite <- (rib_of_lookup ns a node pol Hn Hp).
Qed.

End Blocked.

(** C2: whatever the state of the graph when an AS takes its turn as a
    sender, every candidate its turn stages at a provider (phase 1) or
    at a peer (phase 2) is the copy of an entry of its RIB whose
    [received_from] is then ORIGIN or CUSTOMER, and with no such entry
    in its RIB the turn changes nothing at all; in phase 3 every entry
    of its RIB, with any [received_from], is staged at every customer
    that is not in the path and whose policy accepts it (a policy of
    class BGP, or any policy if the entry is not ROV-invalid). *)
Theorem valley_free_export (ns : gmap N ASNode) (a x : N) :
  (∀ b, staged (send_up ns a) x b →
     staged ns x b
     ∨ ∃ node p src, ns !! a = Some node ∧ x ∈ providers node
         ∧ rib_of ns a !! p = Some src ∧ from_customer_or_origin src
         ∧ b = copy_with_new_hop src a RelationshipType.CUSTOMER)
  ∧ (∀ b, staged (send_across ns a) x b →
       staged ns x b
       ∨ ∃ node p src, ns !! a = Some node ∧ x ∈ peers node
           ∧ rib_of ns a !! p = Some src ∧ from_customer_or_origin src
           ∧ b = copy_with_new_hop src (asn node) RelationshipType.PEER)
  ∧ ((∀ p src, rib_of ns a !! p = Some src →
        ¬ from_customer_or_origin src) →
     send_up ns a = ns ∧ send_across ns a = ns)
  ∧ (∀ node p src k,
       ns !! a = Some node → x ∈ customers node →
       rib_of ns a !! p = Some src →
       containsAS src x = false →
       policy_status ns x = Some (Some k) →
       k = BGP ∨ rov_invalid src = false →
       staged (send_down ns a) x
         (copy_with_new_hop src a RelationshipType.PROVIDER)).
Proof.
  split; [|split; [|split]].
  - intros b Hst.
    destruct (send_up_staged _ _ _ _ Hst)
      as [?|(node & p & src & ? & ? & ? & ? & _ & ?)]; [by left|].
    right. by exists node, p, src.
  - intros b Hst.
    destruct (send_across_staged _ _ _ _ Hst)
      as [?|(node & p & src & ? & ? & ? & ? & _ & ?)]; [by left|].
    right. by exists node, p, src.
  - intros Hblocked. split; [by apply send_up_blocked|].
    by apply send_across_blocked.
  - intros node p src k. apply send_down_stages.
Qed.

(** ** Resolution of the staged candidates *)

Section Resolution.

Implicit Types (ns : gmap N ASNode) (b c e : Announcement)
  (x a n : N) (pol : BGPPolicy).

Lemma find_best_elem c0 cs : find_best c0 cs ∈ c0 :: cs.
Proof.
  revert c0. induction cs as [|c cs IH]; intros c0; simpl; [by left|].
  destruct (isBetterThan c c0).
  - right. apply IH.
  - specialize (IH c0). apply elem_of_cons in IH as [->|IH].
    + by left.
    + right. by right.
Qed.

(** An entry of the RIB after the resolution is the old entry or the
    copy, with the AS number put in front, of a staged candidate. *)
Lemma processReceivedQueue_origin pol n p e :
  local_rib (processReceivedQueue pol n).1 !! p = Some e →
  local_rib pol !! p = Some e
  ∨ ∃ cands c, received_queue pol !! p = Some cands ∧ c ∈ cands
      ∧ e = prepend_asn n c.
Proof.
  unfold processReceivedQueue. simpl.
  apply (foldl_preserves
           (λ st, st.1 !! p = Some e →
              local_rib pol !! p = Some e
              ∨ ∃ cands c, received_queue pol !! p = Some cands
                  ∧ c ∈ cands ∧ e = prepend_asn n c)); [by left|].
  intros st [k cands] Hin IH. apply elem_of_map_to_list in Hin.
  unfold process_entry. simpl.
  destruct cands as [|c0 cs]; [done|].
  assert (Hnew : <[k := prepend_asn n (find_best c0 cs)]> st.1 !! p
                 = Some e →
                 local_rib pol !! p = Some e
                 ∨ ∃ cands c, received_queue pol !! p = Some cands
                     ∧ c ∈ cands ∧ e = prepend_asn n c).
  { destruct (decide (k = p)) as [->|Hne].
    - rewrite lookup_insert_eq. intros [= <-]. right.
      exists (c0 :: cs), (find_best c0 cs).
      split; [done|]. split; [apply find_best_elem|done].
    - rewrite lookup_insert_ne by done. apply IH. }
  destruct (st.1 !! k) as [incumbent|]; simpl; [|done].
  destruct (isBetterThan _ incumbent); simpl; done.
Qed.

(** The node table after [processReceivedQueue(n)] and
    [clearReceivedQueue()] at node [a]. *)
Lemma resolve_at ns a node pol n :
  ns !! a = Some node → policy node = Some pol →
  let ns' := <[a := set_policy node
                 (Some (clearReceivedQueue (processReceivedQueue pol n).1))]>
               ns in
  (∀ x p e, rib_of ns' x !! p = Some e →
     rib_of ns x !! p = Some e
     ∨ (x = a ∧ ∃ c, staged ns a c ∧ e = prepend_asn n c))
  ∧ (∀ x b, staged ns' x b → staged ns x b ∧ x ≠ a)
  ∧ (∀ x, shape_of ns' x = shape_of ns x)
  ∧ (∀ x, policy_status ns' x = policy_status ns x).
Proof.
  intros Hn Hp ns'. subst ns'. split; [|split; [|split]].
  - intros x p e. unfold rib_of, staged, queue_of.
    destruct (decide (x = a)) as [->|Hne].
    + rewrite lookup_insert_eq, Hn, Hp. simpl. intros He.
      destruct (processReceivedQueue_origin pol n p e He)
        as [?|(cands & c & Hq & Hc & ->)]; [by left|].
      right. split; [done|]. exists c. split; [|done]. by exists p, cands.
    + rewrite lookup_insert_ne by done. by left.
  - intros x b. unfold staged, queue_of.
    destruct (decide (x = a)) as [->|Hne].
    + rewrite lookup_insert_eq. simpl.
      intros (p & cands & Hq & _). by rewrite lookup_empty in Hq.
    + by rewrite lookup_insert_ne.
  - intros x. unfold shape_of.
    destruct (decide (x = a)) as [->|Hne].
    + by rewrite lookup_insert_eq, Hn.
    + by rewrite lookup_insert_ne.
  - intros x. unfold policy_status.
    destruct (decide (x = a)) as [->|Hne].
    + rewrite lookup_insert_eq, Hn. simpl. by rewrite Hp.
    + by rewrite lookup_insert_ne.
Qed.

Lemma process_node_spec ns a :
  (∀ x p e, rib_of (process_node ns a) x !! p = Some e →
     rib_of ns x !! p = Some e
     ∨ (x = a ∧ ∃ c, staged ns a c ∧ e = prepend_asn a c))
  ∧ (∀ x b, staged (process_node ns a) x b → staged ns x b)
  ∧ (∀ x, shape_of (process_node ns a) x = shape_of ns x)
  ∧ (∀ x, policy_status (process_node ns a) x = policy_status ns x).
Proof.
  unfold process_node. destruct (ns !! a) as [node|] eqn:Hn; [|by auto].
  destruct (policy node) as [pol|] eqn:Hp; [|by auto].
  destruct (resolve_at ns a node pol a Hn Hp) as (H1 & H2 & H3 & H4).
  split; [done|]. split; [|done]. intros x b Hst. by apply H2.
Qed.

Lemma process_node_across_spec ns a :
  (∀ x p e, rib_of (process_node_across ns a) x !! p = Some e →
     rib_of ns x !! p = Some e
     ∨ ∃ node c, ns !! x = Some node ∧ staged ns x c
         ∧ e = prepend_asn (asn node) c)
  ∧ (∀ x b, staged (process_node_across ns a) x b →
       staged ns x b ∧ x ≠ a)
  ∧ (∀ x, shape_of (process_node_across ns a) x = shape_of ns x)
  ∧ (∀ x, policy_status (process_node_across ns a) x = policy_status ns x).
Proof.
  assert (Hempty : ∀ x b, staged ns x b → x = a →
            is_Some (ns !! a ≫= policy)).
  { intros x b (p & cands & Hq & _) ->. unfold queue_of in Hq.
    destruct (ns !! a) as [node|]; [|by rewrite lookup_empty in Hq].
    simpl. destruct (policy node); [done|by rewrite lookup_empty in Hq]. }
  unfold process_node_across.
  destruct (ns !! a) as [node|] eqn:Hn.
  2:{ split; [by auto|]. split; [|by auto]. intros x b Hst.
      split; [done|]. intros ->.
      by destruct (Hempty _ _ Hst eq_refl) as [? [=]]. }
  destruct (policy node) as [pol|] eqn:Hp.
  2:{ split; [by auto|]. split; [|by auto]. intros x b Hst.
      split; [done|]. intros ->.
      destruct (Hempty _ _ Hst eq_refl) as [? Hs]. simpl in Hs.
      by rewrite Hp in Hs. }
  destruct (resolve_at ns a node pol (asn node) Hn Hp)
    as (H1 & H2 & H3 & H4).
  split; [|split; [|done]].
  - intros x p e He.
    destruct (H1 x p e He) as [?|(-> & c & Hc & ->)]; [by left|].
    right. by exists node, c.
  - intros x b Hst. destruct (H2 x b Hst) as [? Hne]. split; [done|].
    intros ->. done.
Qed.

End Resolution.

(** ** The three phases and peer routes *)

Section PeerRoutes.

Implicit Types (ns : gmap N ASNode) (b c e src : Announcement)
  (x a : N) (ranked : list (list N)).

Lemma no_new_peer_route_send (f : gmap N ASNode → N → gmap N ASNode)
    (tag : RelationshipType.t) ns ns' a :
  tag ≠ RelationshipType.PEER →
  sends_only ns' (f ns' a) →
  (∀ x b, staged (f ns' a) x b →
     staged ns' x b ∨ received_from b = tag) →
  no_new_peer_route ns ns' → no_new_peer_route ns (f ns' a).
Proof.
  intros Htag Hso Hst [Hq Hrib]. split.
  - intros x b Hb. destruct (Hst x b Hb) as [Hold| ->]; [by apply (Hq x)|done].
  - intros x p e. destruct (Hso x) as (-> & _). apply Hrib.
Qed.

Lemma no_new_peer_route_send_up ns ns' a :
  no_new_peer_route ns ns' → no_new_peer_route ns (send_up ns' a).
Proof.
  apply (no_new_peer_route_send send_up RelationshipType.CUSTOMER);
    [done|apply send_up_sends_only|].
  intros x b Hb.
  destruct (send_up_staged _ _ _ _ Hb)
    as [?|(node & p & src & _ & _ & _ & _ & _ & ->)]; [by left|by right].
Qed.

Lemma no_new_peer_route_send_down ns ns' a :
  no_new_peer_route ns ns' → no_new_peer_route ns (send_down ns' a).
Proof.
  apply (no_new_peer_route_send send_down RelationshipType.PROVIDER);
    [done|apply send_down_sends_only|].
  intros x b Hb.
  destruct (send_down_staged _ _ _ _ Hb)
    as [?|(node & p & src & _ & _ & _ & _ & ->)]; [by left|by right].
Qed.

Lemma no_new_peer_route_process ns ns' a :
  no_new_peer_route ns ns' → no_new_peer_route ns (process_node ns' a).
Proof.
  intros [Hq Hrib].
  destruct (process_node_spec ns' a) as (H1 & H2 & _ & _). split.
  - intros x b Hb. apply (Hq x). by apply H2.
  - intros x p e He Hpeer.
    destruct (H1 x p e He) as [Hold|(-> & c & Hc & ->)]; [by apply Hrib|].
    by destruct (Hq a c Hc).
Qed.

Lemma no_new_peer_route_refl ns :
  no_peer_staged ns → no_new_peer_route ns ns.
Proof. intros H. split; [done|]. auto. Qed.

(** Phase 1 puts no peer route into any RIB. *)
Lemma propagateUp_no_new_peer_route ranked ns :
  no_peer_staged ns → no_new_peer_route ns (propagateUp ranked ns).
Proof.
  intros H0. unfold propagateUp.
  apply (foldl_preserves (no_new_peer_route ns));
    [by apply no_new_peer_route_refl|].
  intros ns' rank _ H. unfold up_step.
  assert (H1 : no_new_peer_route ns
                 (foldl send_up ns' (rank_row ranked rank))).
  { apply (foldl_preserves (no_new_peer_route ns)); [done|].
    intros ns'' a _. apply no_new_peer_route_send_up. }
  case_bool_decide; [|done].
  apply (foldl_preserves (no_new_peer_route ns)); [done|].
  intros ns'' a _. apply no_new_peer_route_process.
Qed.

(** Phase 3 puts no peer route into any RIB. *)
Lemma propagateDown_no_new_peer_route ranked ns :
  no_peer_staged ns → no_new_peer_route ns (propagateDown ranked ns).
Proof.
  intros H0. unfold propagateDown.
  apply (foldl_preserves (no_new_peer_route ns));
    [by apply no_new_peer_route_refl|].
  intros ns' rank _ H. unfold down_step.
  assert (H1 : no_new_peer_route ns
                 (foldl send_down ns' (rank_row ranked rank))).
  { apply (foldl_preserves (no_new_peer_route ns)); [done|].
    intros ns'' a _. apply no_new_peer_route_send_down. }
  destruct rank as [|rank']; [done|].
  apply (foldl_preserves (no_new_peer_route ns)); [done|].
  intros ns'' a _. apply no_new_peer_route_process.
Qed.

Lemma shape_of_Some ns ns' x node :
  shape_of ns' x = shape_of ns x → ns' !! x = Some node →
  ∃ node0, ns !! x = Some node0 ∧ asn node0 = asn node
           ∧ providers node0 = providers node
           ∧ customers node0 = customers node
           ∧ peers node0 = peers node.
Proof.
  unfold shape_of. intros Hs Hn. rewrite Hn in Hs. simpl in Hs.
  destruct (ns !! x) as [node0|]; [|done]. simpl in Hs.
  injection Hs as ? ? ? ?. by exists node0.
Qed.

(** The sender loop of phase 2 as a whole: no RIB is written, and
    every candidate it stages is the copy of an ORIGIN or CUSTOMER
    entry that some AS had in its RIB before the phase, sent to one of
    its peers. *)
Lemma across_send_all_spec ns :
  sends_only ns (across_send_all ns)
  ∧ ∀ x b, staged (across_send_all ns) x b →
      staged ns x b
      ∨ ∃ a node p src, ns !! a = Some node ∧ x ∈ peers node
          ∧ rib_of ns a !! p = Some src ∧ from_customer_or_origin src
          ∧ b = copy_with_new_hop src (asn node) RelationshipType.PEER.
Proof.
  unfold across_send_all.
  apply (foldl_preserves
           (λ ns', sends_only ns ns'
              ∧ ∀ x b, staged ns' x b →
                  staged ns x b
                  ∨ ∃ a node p src, ns !! a = Some node ∧ x ∈ peers node
                      ∧ rib_of ns a !! p = Some src
                      ∧ from_customer_or_origin src
                      ∧ b = copy_with_new_hop src (asn node)
                              RelationshipType.PEER)).
  { split; [apply sends_only_refl|]. by left. }
  intros ns' a _ [Hso Hst]. split.
  - eapply sends_only_trans; [done|]. apply send_across_sends_only.
  - intros x b Hb.
    destruct (send_across_staged _ _ _ _ Hb)
      as [Hold|(node & p & src & Hn & Hx & Hrib & Hf & _ & ->)];
      [by apply Hst|].
    right. destruct (Hso a) as (Hr & _ & Hsh & _).
    destruct (shape_of_Some ns ns' a node Hsh Hn)
      as (node0 & Hn0 & Ha & _ & _ & Hp).
    exists a, node0, p, src. rewrite Ha, Hp, <- Hr. done.
Qed.

Lemma resolved_from_refl ns : resolved_from ns ns.
Proof. split; [|split; [|split]]; auto. Qed.

Lemma resolved_from_step ns ns' a :
  resolved_from ns ns' → resolved_from ns (process_node_across ns' a).
Proof.
  intros (Hrib & Hst & Hsh & Hps).
  destruct (process_node_across_spec ns' a) as (H1 & H2 & H3 & H4).
  split; [|split; [|split]].
  - intros x p e He.
    destruct (H1 x p e He) as [Hold|(node & c & Hn & Hc & ->)];
      [by apply Hrib|].
    right.
    destruct (shape_of_Some ns ns' x node (Hsh x) Hn)
      as (node0 & Hn0 & Ha & _).
    exists node0, c. rewrite Ha. split; [done|]. split; [|done].
    by apply Hst.
  - intros x b Hb. apply Hst. by apply H2.
  - intros x. by rewrite H3.
  - intros x. by rewrite H4.
Qed.

Lemma across_process_all_resolved ns :
  resolved_from ns (across_process_all ns).
Proof.
  unfold across_process_all.
  apply (foldl_preserves (resolved_from ns)); [apply resolved_from_refl|].
  intros ns' a _. apply resolved_from_step.
Qed.

(** After the resolution loop of phase 2 nothing is staged. *)
Lemma across_process_all_clears ns x b :
  ¬ staged (across_process_all ns) x b.
Proof.
  destruct (ns !! x) as [node|] eqn:Hn.
  - unfold across_process_all.
    apply (foldl_establishes (λ _, True)
             (λ ns', ¬ staged ns' x b) _ _ _ x); [|done|done| |].
    + apply list_elem_of_fmap. exists (x, node). split; [done|].
      by apply elem_of_map_to_list.
    + intros ns' _ Hb.
      destruct (process_node_across_spec ns' x) as (_ & H2 & _).
      by destruct (H2 x b Hb).
    + intros ns' a Hno Hb. apply Hno.
      destruct (process_node_across_spec ns' a) as (_ & H2 & _).
      by apply H2.
  - intros Hb.
    destruct (across_process_all_resolved ns) as (_ & Hst & _).
    destruct (Hst x b Hb) as (p & cands & Hq & _).
    unfold queue_of in Hq. rewrite Hn in Hq.
    by rewrite lookup_empty in Hq.
Qed.

(** Phase 2 as a whole: an entry of a RIB after the phase is the
    entry from before, or was committed from a candidate staged before
    the phase, or is the peer hop of an ORIGIN or CUSTOMER entry that
    a peer had in its RIB before the phase. *)
Lemma propagateAcross_origin ns x p e :
  rib_of (propagateAcross ns) x !! p = Some e →
  rib_of ns x !! p = Some e
  ∨ (∃ xn c, ns !! x = Some xn ∧ staged ns x c
       ∧ e = prepend_asn (asn xn) c)
  ∨ ∃ xn s sn p' src, ns !! x = Some xn ∧ ns !! s = Some sn
      ∧ x ∈ peers sn ∧ rib_of ns s !! p' = Some src
      ∧ from_customer_or_origin src
      ∧ e = prepend_asn (asn xn)
              (copy_with_new_hop src (asn sn) RelationshipType.PEER).
Proof.
  unfold propagateAcross. intros He.
  destruct (across_send_all_spec ns) as [Hso Hst].
  destruct (across_process_all_resolved (across_send_all ns))
    as (Hrib & _).
  destruct (Hso x) as (Hr & _ & Hsh & _).
  destruct (Hrib x p e He) as [Hold|(node & c & Hn & Hc & ->)].
  - left. by rewrite <- Hr.
  - right.
    destruct (shape_of_Some ns _ x node Hsh Hn) as (xn & Hxn & Ha & _).
    rewrite <- Ha.
    destruct (Hst x c Hc)
      as [Hold|(s & sn & p' & src & Hs & Hx & Hsrc & Hf & ->)].
    + left. by exists xn, c.
    + right. by exists xn, s, sn, p', src.
Qed.

End PeerRoutes.

Section Chains.

Import RelationshipType.

Lemma hop_received_from k a b : hop k a b → received_from b = k.
Proof. by intros []. Qed.

Lemma hop_from_blocked k a b :
  hop k a b → not_from_customer_or_origin a = true → k = PROVIDER.
Proof. intros [] Hb; congruence. Qed.

Lemma blocked_after k a b :
  hop k a b → k = PEER ∨ k = PROVIDER →
  not_from_customer_or_origin b = true.
Proof.
  intros Hh Hk. unfold not_from_customer_or_origin.
  rewrite (hop_received_from _ _ _ Hh). by destruct Hk as [-> | ->].
Qed.

(** Once a route came from a peer or a provider it only goes down. *)
Lemma chain_blocked a ks c :
  chain a ks c → not_from_customer_or_origin a = true →
  Forall (λ k, k = PROVIDER) ks.
Proof.
  induction 1 as [a|a b c k ks Hh Hc IH]; intros Hb; [constructor|].
  pose proof (hop_from_blocked _ _ _ Hh Hb) as ->.
  constructor; [done|]. apply IH. eapply blocked_after; eauto.
Qed.

Lemma chain_shape a ks c :
  chain a ks c →
  ∃ ups mid downs, ks = ups ++ mid ++ downs
    ∧ Forall (λ k, k = CUSTOMER) ups
    ∧ (mid = [] ∨ mid = [PEER])
    ∧ Forall (λ k, k = PROVIDER) downs.
Proof.
  induction 1 as [a|a b c k ks Hh Hc IH].
  - exists [], [], []. repeat split; auto.
  - destruct Hh as [src sender receiver Hf|src sender receiver Hf
                    |src sender receiver].
    + destruct IH as (ups & mid & downs & -> & Hu & Hm & Hd).
      exists (CUSTOMER :: ups), mid, downs. repeat split; auto.
    + exists [], [PEER], ks. repeat split; auto.
      eapply chain_blocked; [done|]. done.
    + exists [], [], (PROVIDER :: ks). repeat split; auto.
      constructor; [done|]. eapply chain_blocked; [done|]. done.
Qed.

Lemma peer_hops_app ks1 ks2 :
  peer_hops (ks1 ++ ks2) = (peer_hops ks1 + peer_hops ks2)%nat.
Proof. unfold peer_hops. by rewrite filter_app, length_app. Qed.

Lemma peer_hops_none (t : RelationshipType.t) ks :
  t ≠ PEER → Forall (λ k, k = t) ks → peer_hops ks = O.
Proof.
  intros Ht. unfold peer_hops.
  induction 1 as [|k ks -> _ IH]; [done|].
  rewrite filter_cons_False by done. apply IH.
Qed.

Lemma chain_peer_hops a ks c : chain a ks c → (peer_hops ks ≤ 1)%nat.
Proof.
  intros Hc.
  destruct (chain_shape a ks c Hc) as (ups & mid & downs & -> & Hu & Hm & Hd).
  rewrite !peer_hops_app.
  rewrite (peer_hops_none CUSTOMER ups), (peer_hops_none PROVIDER downs)
    by done.
  destruct Hm as [-> | ->]; vm_compute; lia.
Qed.

End Chains.

Section Provenance.

Implicit Types (ns : gmap N ASNode) (b e src : Announcement) (x a : N)
  (ranked : list (list N)).

Lemma chain_snoc (first : Announcement) ks mid k last :
  chain first ks mid → hop k mid last → chain first (ks ++ [k]) last.
Proof.
  induction 1 as [e0|e0 e1 e2 k0 ks Hh Hc IH]; intros Hk; simpl.
  - eapply chain_cons; [done|]. apply chain_nil.
  - eapply chain_cons; [done|]. by apply IH.
Qed.

Lemma derived_hop ns src k e :
  derived ns src → hop k src e → derived ns e.
Proof.
  intros (y & p & a & ks & Ha & Hc) Hh.
  exists y, p, a, (ks ++ [k]). split; [done|]. by eapply chain_snoc.
Qed.

Lemma all_derived_refl ns :
  (∀ x b, ¬ staged ns x b) → all_derived ns ns.
Proof.
  intros Hq. split.
  - intros x p e He. exists x, p, e, []. split; [done|]. apply chain_nil.
  - intros x b r Hb. by destruct (Hq x b).
Qed.

(** A sender turn keeps everything derived, if what it stages are hops
    of entries of RIBs. *)
Lemma all_derived_send (f : gmap N ASNode → N → gmap N ASNode) ns ns' a :
  sends_only ns' (f ns' a) →
  (∀ x b, staged (f ns' a) x b →
     staged ns' x b
     ∨ ∃ y p src k, rib_of ns' y !! p = Some src
         ∧ ∀ r, hop k src (prepend_asn r b)) →
  all_derived ns ns' → all_derived ns (f ns' a).
Proof.
  intros Hso Hst [Hrib Hq]. split.
  - intros x p e. destruct (Hso x) as (-> & _). apply Hrib.
  - intros x b r Hb.
    destruct (Hst x b Hb) as [Hold|(y & p & src & k & Hsrc & Hh)];
      [by eapply Hq|].
    eapply derived_hop; [by eapply Hrib|apply Hh].
Qed.

Lemma all_derived_send_up ns ns' a :
  all_derived ns ns' → all_derived ns (send_up ns' a).
Proof.
  apply (all_derived_send send_up); [apply send_up_sends_only|].
  intros x b Hb.
  destruct (send_up_staged _ _ _ _ Hb)
    as [?|(node & p & src & _ & _ & Hsrc & Hf & _ & ->)]; [by left|].
  right. exists a, p, src, RelationshipType.CUSTOMER. split; [done|].
  intros r. constructor. by apply from_customer_or_origin_spec.
Qed.

Lemma all_derived_send_across ns ns' a :
  all_derived ns ns' → all_derived ns (send_across ns' a).
Proof.
  apply (all_derived_send send_across); [apply send_across_sends_only|].
  intros x b Hb.
  destruct (send_across_staged _ _ _ _ Hb)
    as [?|(node & p & src & _ & _ & Hsrc & Hf & _ & ->)]; [by left|].
  right. exists a, p, src, RelationshipType.PEER. split; [done|].
  intros r. constructor. by apply from_customer_or_origin_spec.
Qed.

Lemma all_derived_send_down ns ns' a :
  all_derived ns ns' → all_derived ns (send_down ns' a).
Proof.
  apply (all_derived_send send_down); [apply send_down_sends_only|].
  intros x b Hb.
  destruct (send_down_staged _ _ _ _ Hb)
    as [?|(node & p & src & _ & _ & Hsrc & _ & ->)]; [by left|].
  right. exists a, p, src, RelationshipType.PROVIDER. split; [done|].
  intros r. constructor.
Qed.

Lemma all_derived_process ns ns' a :
  all_derived ns ns' → all_derived ns (process_node ns' a).
Proof.
  intros [Hrib Hq].
  destruct (process_node_spec ns' a) as (H1 & H2 & _ & _). split.
  - intros x p e He.
    destruct (H1 x p e He) as [Hold|(-> & c & Hc & ->)]; [by eapply Hrib|].
    by eapply Hq.
  - intros x b r Hb. eapply Hq. by apply H2.
Qed.

Lemma all_derived_process_across ns ns' a :
  all_derived ns ns' → all_derived ns (process_node_across ns' a).
Proof.
  intros [Hrib Hq].
  destruct (process_node_across_spec ns' a) as (H1 & H2 & _ & _). split.
  - intros x p e He.
    destruct (H1 x p e He) as [Hold|(node & c & _ & Hc & ->)];
      [by eapply Hrib|].
    by eapply Hq.
  - intros x b r Hb. eapply Hq. by apply H2.
Qed.

Lemma all_derived_foldl (f : gmap N ASNode → N → gmap N ASNode)
    (l : list N) ns ns' :
  (∀ ns'' a, all_derived ns ns'' → all_derived ns (f ns'' a)) →
  all_derived ns ns' → all_derived ns (foldl f ns' l).
Proof.
  intros Hf H. apply (foldl_preserves (all_derived ns)); [done|].
  intros ns'' a _. apply Hf.
Qed.

(** The three phases keep every RIB entry derived from the RIBs
    propagation started with. *)
Lemma propagate_all_derived ranked ns :
  (∀ x b, ¬ staged ns x b) →
  all_derived ns
    (propagateDown ranked (propagateAcross (propagateUp ranked ns))).
Proof.
  intros Hq.
  assert (Hup : all_derived ns (propagateUp ranked ns)).
  { unfold propagateUp.
    apply (foldl_preserves (all_derived ns)); [by apply all_derived_refl|].
    intros ns' rank _ H. unfold up_step.
    assert (H1 : all_derived ns (foldl send_up ns' (rank_row ranked rank)))
      by (apply all_derived_foldl; [apply all_derived_send_up|done]).
    case_bool_decide; [|done].
    apply all_derived_foldl; [apply all_derived_process|done]. }
  assert (Hacross : all_derived ns (propagateAcross (propagateUp ranked ns))).
  { unfold propagateAcross, across_process_all, across_send_all.
    apply all_derived_foldl; [apply all_derived_process_across|].
    apply all_derived_foldl; [apply all_derived_send_across|done]. }
  unfold propagateDown.
  apply (foldl_preserves (all_derived ns)); [done|].
  intros ns' rank _ H. unfold down_step.
  assert (H1 : all_derived ns (foldl send_down ns' (rank_row ranked rank)))
    by (apply all_derived_foldl; [apply all_derived_send_down|done]).
  destruct rank; [done|].
  apply all_derived_foldl; [apply all_derived_process|done].
Qed.

End Provenance.


(** ** Where the code departs from its own intent *)

Section Counting.

Implicit Types (ns : gmap N ASNode) (x : N).

Lemma propagate_status ranked ns x :
  policy_status
    (propagateDown ranked (propagateAcross (propagateUp ranked ns))) x
  = policy_status ns x.
Proof.
  assert (Hrows : ∀ (send : gmap N ASNode → N → gmap N ASNode),
    (∀ ns' a, sends_only ns' (send ns' a)) →
    ∀ row ns', policy_status (foldl send ns' row) x = policy_status ns' x).
  { intros send Hsend row ns'.
    by destruct (sends_only_foldl send row ns' Hsend x) as (_ & -> & _). }
  assert (Hproc : ∀ row ns',
    policy_status (foldl process_node ns' row) x = policy_status ns' x).
  { intros row ns'.
    apply (foldl_preserves
             (λ ns'', policy_status ns'' x = policy_status ns' x));
      [done|].
    intros ns'' a _ <-.
    by destruct (process_node_spec ns'' a) as (_ & _ & _ & ->). }
  assert (Hup : ∀ ns', policy_status (propagateUp ranked ns') x
                       = policy_status ns' x).
  { intros ns'. unfold propagateUp.
    apply (foldl_preserves
             (λ ns'', policy_status ns'' x = policy_status ns' x));
      [done|].
    intros ns'' rank _ <-. unfold up_step.
    case_bool_decide; [rewrite Hproc|];
      apply (Hrows send_up send_up_sends_only). }
  assert (Hdown : ∀ ns', policy_status (propagateDown ranked ns') x
                         = policy_status ns' x).
  { intros ns'. unfold propagateDown.
    apply (foldl_preserves
             (λ ns'', policy_status ns'' x = policy_status ns' x));
      [done|].
    intros ns'' rank _ <-. unfold down_step.
    destruct rank; [|rewrite Hproc];
      apply (Hrows send_down send_down_sends_only). }
  rewrite Hdown. unfold propagateAcross.
  destruct (across_process_all_resolved (across_send_all (propagateUp ranked ns)))
    as (_ & _ & _ & ->).
  destruct (across_send_all_spec (propagateUp ranked ns)) as [Hso _].
  destruct (Hso x) as (_ & -> & _). apply Hup.
Qed.

(** The counting loop goes through a null pointer as soon as one node
    has no policy. *)
Lemma count_null ns x :
  policy_status ns x = Some None →
  foldl count_step (Returns 0) (map_to_list ns) = Fails NullDereference.
Proof.
  intros Hx. unfold policy_status in Hx.
  destruct (ns !! x) as [n|] eqn:Hn; [|done]. simpl in Hx.
  destruct (policy n) as [pol|] eqn:Hp; [done|].
  apply (foldl_establishes
           (λ acc, acc = Fails NullDereference ∨ ∃ t, acc = Returns t)
           (λ acc, acc = Fails NullDereference) _ _ _ (x, n)).
  - by apply elem_of_map_to_list.
  - right. by exists 0.
  - intros acc pair [->|[t ->]]; [by left|]. simpl.
    destruct (policy pair.2); [right; eauto|by left].
  - intros acc [->|[t ->]]; [done|]. simpl. by rewrite Hp.
  - by intros acc pair ->.
Qed.

Lemma count_total ns :
  (∀ x, policy_status ns x ≠ Some None) →
  ∃ t, foldl count_step (Returns 0) (map_to_list ns) = Returns t.
Proof.
  intros Hall.
  apply (foldl_preserves (λ acc, ∃ t, acc = Returns t)); [by exists 0|].
  intros acc [x n] Hin [t ->]. apply elem_of_map_to_list in Hin.
  simpl. destruct (policy n) as [pol|] eqn:Hp; [eauto|].
  destruct (Hall x). unfold policy_status. rewrite Hin. simpl.
  by rewrite Hp.
Qed.

End Counting.

(** C9 does not hold of the code: the three phases skip a node without a
    policy, but the count that ends [propagateAnnouncements] does not.
    The call returns exactly when every node has a policy; with one
    policy missing it goes through the null pointer. *)
Theorem propagateAnnouncements_null_policy (g : ASGraph) :
  ((∃ x, policy_status (nodes g) x = Some None) →
   propagateAnnouncements g = Fails NullDereference)
  ∧ ((∀ x, policy_status (nodes g) x ≠ Some None) →
     ∃ r, propagateAnnouncements g = Returns r).
Proof.
  unfold propagateAnnouncements. split.
  - intros [x Hx].
    rewrite (count_null _ x); [done|]. by rewrite propagate_status.
  - intros Hall.
    destruct (count_total
                (propagateDown (ranked_ases g)
                   (propagateAcross (propagateUp (ranked_ases g) (nodes g)))))
      as [t Ht].
    + intros x. rewrite propagate_status. apply Hall.
    + rewrite Ht. simpl. eauto.
Qed.

(** The graph of the one line [1|2|-1], on which [initializeBGP] was not
    called: ranking succeeds, propagation goes through the null
    pointer. *)
Lemma propagateAnnouncements_null_policy_witness :
  ∃ g, flattenGraph (build_graph [(1, 2, RelationType.CUSTOMER)]) = Returns g
       ∧ propagateAnnouncements g = Fails NullDereference.
Proof.
  eexists. split; [vm_compute; reflexivity|].
  apply propagateAnnouncements_null_policy.
  exists 1. vm_compute. reflexivity.
Defined.

Local Open Scope string_scope.

(** A property of every order in which the hash map of a small table
    can be walked is checked order by order. *)
Lemma every_iteration_order (ns : gmap N ASNode) (f : list N → bool) :
  forallb f (permutations (map_to_list ns).*1) = true →
  ∀ starts, iteration_order ns starts → f starts = true.
Proof.
  intros Hall starts Hs. rewrite forallb_forall in Hall. apply Hall.
  apply list_elem_of_In, permutations_Permutation. by symmetry.
Qed.

(** C4 does not hold of the code: the search skips the neighbour it came
    from, so two ASes that are each recorded as the other's provider,
    a cycle of two edges, pass the validation in both directions; and
    every search starts with parent 0, so AS 0 as its own provider
    passes too; both in whatever order the hash map is walked.  The
    cycle of three edges of scenario S4 is found, in every order. *)
Theorem detectCycles_misses_two_cycle :
  has_cycle (nodes (buildFromLines ASGraph_new ["1|2|-1|bgp"; "2|1|-1|bgp"]))
  ∧ (∀ starts,
       iteration_order
         (nodes (buildFromLines ASGraph_new ["1|2|-1|bgp"; "2|1|-1|bgp"]))
         starts →
       detectCycles starts
         (buildFromLines ASGraph_new ["1|2|-1|bgp"; "2|1|-1|bgp"])
       = Some false)
  ∧ has_cycle (nodes (buildFromLines ASGraph_new ["0|0|-1|bgp"]))
  ∧ (∀ starts,
       iteration_order (nodes (buildFromLines ASGraph_new ["0|0|-1|bgp"]))
         starts →
       detectCycles starts (buildFromLines ASGraph_new ["0|0|-1|bgp"])
       = Some false)
  ∧ (∀ starts,
       iteration_order
         (nodes (buildFromLines ASGraph_new ["1|2|-1"; "2|3|-1"; "3|1|-1"]))
         starts →
       detectCycles starts
         (buildFromLines ASGraph_new ["1|2|-1"; "2|3|-1"; "3|1|-1"])
       = Some true).
Proof.
  split; [|split; [|split; [|split]]].
  - exists 1%N. apply (tc_l _ 1%N 2%N 1%N); [|apply tc_once].
    + eexists. split; [vm_compute; reflexivity|]. simpl. by left.
    + eexists. split; [vm_compute; reflexivity|]. simpl. by left.
  - intros starts Hs.
    assert (Hall :
      forallb (λ l, match detectCycles l
                            (buildFromLines ASGraph_new
                               ["1|2|-1|bgp"; "2|1|-1|bgp"]) with
                    | Some false => true
                    | _ => false
                    end)
        (permutations
           (map_to_list
              (nodes (buildFromLines ASGraph_new
                        ["1|2|-1|bgp"; "2|1|-1|bgp"]))).*1)
      = true) by (vm_compute; reflexivity).
    pose proof (every_iteration_order _ _ Hall starts Hs) as H.
    clear Hall Hs. cbv beta in H.
    by destruct (detectCycles starts _) as [[|]|].
  - exists 0%N. apply tc_once.
    eexists. split; [vm_compute; reflexivity|]. simpl. by left.
  - intros starts Hs.
    assert (Hall :
      forallb (λ l, match detectCycles l
                            (buildFromLines ASGraph_new
                               ["0|0|-1|bgp"]) with
                    | Some false => true
                    | _ => false
                    end)
        (permutations
           (map_to_list
              (nodes (buildFromLines ASGraph_new
                        ["0|0|-1|bgp"]))).*1)
      = true) by (vm_compute; reflexivity).
    pose proof (every_iteration_order _ _ Hall starts Hs) as H.
    clear Hall Hs. cbv beta in H.
    by destruct (detectCycles starts _) as [[|]|].
  - intros starts Hs.
    assert (Hall :
      forallb (λ l, match detectCycles l
                            (buildFromLines ASGraph_new
                               ["1|2|-1"; "2|3|-1"; "3|1|-1"]) with
                    | Some true => true
                    | _ => false
                    end)
        (permutations
           (map_to_list
              (nodes (buildFromLines ASGraph_new
                        ["1|2|-1"; "2|3|-1"; "3|1|-1"]))).*1)
      = true) by (vm_compute; reflexivity).
    pose proof (every_iteration_order _ _ Hall starts Hs) as H.
    clear Hall Hs. cbv beta in H.
    by destruct (detectCycles starts _) as [[|]|].
Qed.

(** C7 does not hold of the code: a relationship field that is not a
    number is read as 0 by [atoi], and the line adds a peer relationship
    instead of being skipped. *)
Theorem non_numeric_relationship_read_as_peer :
  parse_relationship_line "1|2|x|bgp" = Some (1%N, 2%N, RelationType.PEER)
  ∧ peers <$> nodes (buildFromLines ASGraph_new ["1|2|x|bgp"]) !! 1%N
    = Some [2%N]
  ∧ peer_edges (buildFromLines ASGraph_new ["1|2|x|bgp"]) = 1%N.
Proof. by vm_compute. Qed.

(** C8 does not hold of the code: with a length that is not a number
    [std::stoi] throws before the address is looked at; the sentinel is
    not returned, and [ASGraph::seedAnnouncement] does not return. *)
Theorem prefix_parse_throws_on_non_numeric_length
    (inet_pton4 : string → option N) (inet_pton6 : string → option (list N)) :
  IPv4Prefix_parse inet_pton4 "10.0.0.0/abc" = Fails InvalidArgument
  ∧ Prefix_parse inet_pton4 inet_pton6 "10.0.0.0/abc" = Fails InvalidArgument
  ∧ Prefix_parse inet_pton4 inet_pton6 "2001:db8::/" = Fails InvalidArgument
  ∧ ASGraph_seedAnnouncement inet_pton4 inet_pton6
      (initializeBGP (build_graph [(1%N, 2%N, RelationType.CUSTOMER)]))
      1%N "10.0.0.0/abc" false
    = Fails InvalidArgument.
Proof. repeat split; reflexivity. Qed.

Local Close Scope string_scope.

(** ** The statements at the scenarios of the specification *)

Lemma all_queues_empty_no_staged (ns : gmap N ASNode) :
  all_queues_empty ns = true → ∀ x b, ¬ staged ns x b.
Proof.
  unfold all_queues_empty. rewrite forallb_forall.
  intros Hall x b (p & cands & Hq & _). unfold queue_of in Hq.
  destruct (ns !! x) as [n|] eqn:Hn; [|by rewrite lookup_empty in Hq].
  destruct (policy n) as [pol|] eqn:Hp; [|by rewrite lookup_empty in Hq].
  specialize (Hall (x, n)). simpl in Hall. rewrite Hp in Hall.
  assert (Hin : In (x, n) (map_to_list ns)).
  { apply list_elem_of_In. by apply elem_of_map_to_list. }
  apply Hall in Hin. apply bool_decide_eq_true in Hin.
  rewrite Hin in Hq. by rewrite lookup_empty in Hq.
Qed.

(** C2 at scenario S3 (seed at AS 4) and S2 (seed at AS 1): what AS 4
    stages at its provider AS 1 and at its peer AS 2 comes from its
    ORIGIN entry; AS 1 stages its entry at its customer AS 2. *)
Lemma valley_free_export_witness :
  (staged (nodes (scenario_seeded 4)) 1
     (copy_with_new_hop (seed_203 4) 4 RelationshipType.CUSTOMER)
   ∨ ∃ node p src, nodes (scenario_seeded 4) !! 4 = Some node
       ∧ 1 ∈ providers node
       ∧ rib_of (nodes (scenario_seeded 4)) 4 !! p = Some src
       ∧ from_customer_or_origin src
       ∧ copy_with_new_hop (seed_203 4) 4 RelationshipType.CUSTOMER
         = copy_with_new_hop src 4 RelationshipType.CUSTOMER)
  ∧ staged (send_down (nodes (scenario_seeded 1)) 1) 2
      (copy_with_new_hop (seed_203 1) 1 RelationshipType.PROVIDER).
Proof.
  destruct (valley_free_export (nodes (scenario_seeded 4)) 4 1)
    as (Hup & _ & _ & _).
  destruct (valley_free_export (nodes (scenario_seeded 1)) 1 2)
    as (_ & _ & _ & Hdown).
  split.
  - apply Hup. exists prefix_203. eexists.
    split; [vm_compute; reflexivity|]. by left.
  - eapply (Hdown _ prefix_203 (seed_203 1) BGP).
    + vm_compute. reflexivity.
    + simpl. by left.
    + vm_compute. reflexivity.
    + reflexivity.
    + vm_compute. reflexivity.
    + by left.
Defined.

(** C6 at a fresh ROV policy: an invalid announcement for
    [203.0.113.0/24] is counted and not staged, and no sequence of calls
    with only such announcements for the prefix brings it into the
    RIB. *)
Lemma rov_drops_invalid_at_reception_witness :
  let inv := Announcement_new prefix_203 4 RelationshipType.CUSTOMER true in
  let other := Announcement_new Prefix_default 4 RelationshipType.CUSTOMER
                 false in
  dropped_count (receiveAnnouncement (new_policy ROV) inv) = 1
  ∧ getAnnouncement
      (foldl run_op (new_policy ROV)
         [OpReceive inv; OpReceive other; OpProcess 1; OpClear;
          OpSeed other; OpReceive inv; OpProcess 1])
      prefix_203 = None.
Proof.
  intros inv other.
  destruct (rov_drops_invalid_at_reception (new_policy ROV) inv prefix_203
              [OpReceive inv; OpReceive other; OpProcess 1; OpClear;
               OpSeed other; OpReceive inv; OpProcess 1] eq_refl)
    as [Hdrop Hrib].
  split.
  - destruct (Hdrop eq_refl) as (_ & _ & ->). reflexivity.
  - apply Hrib; [reflexivity|reflexivity|].
    repeat constructor; simpl; done.
Defined.

(** C10 at T1: AS 4 seeded twice with the same prefix text, first as
    valid, then as ROV-invalid, holds the second announcement; and a
    seed replaces an entry that is better than it. *)
Lemma seed_replaces_unconditionally_witness :
  let better := seed_203 4 in
  let worse := prepend_asn 4
                 (copy_with_new_hop (seed_203 1) 1
                    RelationshipType.PROVIDER) in
  (isBetterThan better worse = true
   ∧ getAnnouncement
       (seedAnnouncement (seedAnnouncement (new_policy BGP) better) worse)
       prefix_203 = Some worse)
  ∧ ∃ g1 g2,
      ASGraph_seedAnnouncement scenario_inet_pton4 scenario_inet_pton6
        (scenario_seeded 1) 4 "203.0.113.0/24" false = Returns g1
      ∧ ASGraph_seedAnnouncement scenario_inet_pton4 scenario_inet_pton6
          g1 4 "203.0.113.0/24" true = Returns g2
      ∧ rib_of (nodes g2) 4 !! prefix_203
        = Some (Announcement_new prefix_203 4 RelationshipType.ORIGIN true).
Proof.
  intros better worse.
  destruct (seed_replaces_unconditionally scenario_inet_pton4
              scenario_inet_pton6
              (seedAnnouncement (new_policy BGP) better) worse
              (scenario_seeded 1) 4 "203.0.113.0/24" "203.0.113.0/24"
              false true) as (Hlast & _ & _ & Htwice).
  split; [split; [reflexivity|apply Hlast]|].
  eapply Htwice.
  - vm_compute. reflexivity.
  - reflexivity.
  - reflexivity.
  - reflexivity.
Defined.

(** ** Rank assignment *)

Local Open Scope Z_scope.

Section Occurrences.

Implicit Types (x y : N) (l : list N).

Lemma occurrences_nil y : occurrences y [] = O.
Proof. reflexivity. Qed.

Lemma occurrences_cons_eq y l : occurrences y (y :: l) = S (occurrences y l).
Proof. unfold occurrences. by rewrite filter_cons_True. Qed.

Lemma occurrences_cons_ne x y l :
  x ≠ y → occurrences y (x :: l) = occurrences y l.
Proof. intros H. unfold occurrences. by rewrite filter_cons_False. Qed.

Lemma occurrences_app y l1 l2 :
  occurrences y (l1 ++ l2) = (occurrences y l1 + occurrences y l2)%nat.
Proof. unfold occurrences. by rewrite filter_app, length_app. Qed.

Lemma occurrences_zero y l : occurrences y l = O ↔ y ∉ l.
Proof.
  induction l as [|x l IH]; [split; [intros _; apply not_elem_of_nil|done]|].
  rewrite not_elem_of_cons. destruct (decide (x = y)) as [->|Hne].
  - rewrite occurrences_cons_eq. split; [done|]. by intros [? _].
  - rewrite occurrences_cons_ne by done. rewrite IH. split; [|tauto].
    intros ?. split; [congruence|done].
Qed.

Lemma occurrences_pos y l : (0 < occurrences y l)%nat ↔ y ∈ l.
Proof.
  destruct (decide (y ∈ l)) as [Hin|Hout].
  - split; [done|]. intros _.
    destruct (occurrences y l) eqn:E; [|lia].
    by apply occurrences_zero in E.
  - apply occurrences_zero in Hout as E. rewrite E. split; [lia|done].
Qed.

(** Taking [y] into [D] takes its occurrences out of the pending
    customers. *)
Lemma pending_customers_add (D : gset N) n y :
  y ∉ D →
  (pending_customers ({[y]} ∪ D) n + occurrences y (customers n))%nat
  = pending_customers D n.
Proof.
  intros Hy. unfold pending_customers.
  induction (customers n) as [|c l IH]; [done|].
  destruct (decide (c = y)) as [->|Hne].
  - rewrite occurrences_cons_eq.
    rewrite (filter_cons_True (λ c, c ∉ D)) by done.
    rewrite filter_cons_False by set_solver. simpl. lia.
  - rewrite occurrences_cons_ne by done.
    destruct (decide (c ∈ D)) as [Hc|Hc].
    + rewrite filter_cons_False by set_solver.
      rewrite (filter_cons_False (λ c, c ∉ D)) by (intros ?; done). done.
    + rewrite filter_cons_True by set_solver.
      rewrite (filter_cons_True (λ c, c ∉ D)) by done. simpl. lia.
Qed.

Lemma pending_customers_zero (D : gset N) n :
  pending_customers D n = O → ∀ c, c ∈ customers n → c ∈ D.
Proof.
  unfold pending_customers. intros H c Hc.
  apply length_zero_iff_nil in H.
  destruct (decide (c ∈ D)) as [|Hout]; [done|].
  assert (c ∈ filter (λ c, c ∉ D) (customers n))
    by (by apply list_elem_of_filter).
  rewrite H in *. by apply elem_of_nil in H0.
Qed.

Lemma pending_customers_pos (D : gset N) n :
  (0 < pending_customers D n)%nat →
  ∃ c, c ∈ customers n ∧ c ∉ D.
Proof.
  unfold pending_customers. intros H.
  destruct (filter (λ c, c ∉ D) (customers n)) as [|c l] eqn:E;
    [simpl in H; lia|].
  assert (Hc : c ∈ filter (λ c, c ∉ D) (customers n))
    by (rewrite E; by left).
  apply list_elem_of_filter in Hc as [? ?]. by exists c.
Qed.

End Occurrences.

(** *** Cycles *)

Section Cycles.

Lemma tc_tc {A : Type} (R : relation A) x y : tc (tc R) x y → tc R x y.
Proof.
  induction 1 as [x y H|x y z H _ IH]; [done|]. by etrans.
Qed.

(** If every element of a non-empty list has a predecessor in the list,
    the relation has a cycle. *)
Lemma predecessors_give_cycle (S : list N) :
  ∀ R : relation N,
    S ≠ [] → (∀ x, x ∈ S → ∃ y, y ∈ S ∧ R y x) → ∃ x, tc R x x.
Proof.
  induction S as [|x S IH]; intros R Hne Hpred; [done|].
  destruct (Hpred x) as (y & Hy & Ryx); [by left|].
  apply elem_of_cons in Hy as [->|Hy]; [exists x; by apply tc_once|].
  destruct (IH (tc R)) as (v & Hv).
  - intros ->. by apply elem_of_nil in Hy.
  - intros z Hz. destruct (Hpred z) as (w & Hw & Rwz); [by right|].
    apply elem_of_cons in Hw as [->|Hw].
    + exists y. split; [done|]. eapply tc_l; [done|]. by apply tc_once.
    + exists w. split; [done|]. by apply tc_once.
  - exists v. by apply tc_tc.
Qed.

Lemma topological_numbering_acyclic (f : N → nat) (ns : gmap N ASNode) :
  topological_numbering f ns = true → acyclic ns.
Proof.
  unfold topological_numbering. rewrite forallb_forall. intros Hf.
  assert (Hedge : ∀ c p, provider_edge ns c p → (f c < f p)%nat).
  { intros c p (n & Hn & Hp).
    specialize (Hf (c, n)). simpl in Hf.
    rewrite forallb_forall in Hf.
    apply Nat.ltb_lt, Hf; [|by apply list_elem_of_In].
    apply list_elem_of_In. by apply elem_of_map_to_list. }
  assert (Hpath : ∀ c p, tc (provider_edge ns) c p → (f c < f p)%nat).
  { induction 1 as [c p H|c p q H _ IH]; [by apply Hedge|].
    apply Hedge in H. lia. }
  intros [x Hx]. apply Hpath in Hx. lia.
Qed.

End Cycles.

(** *** The loop over the providers of the AS taken from the queue *)

Section ProviderLoop.

Implicit Types (st : flatten_state) (x p : N) (l : list N) (rc k : Z).

Lemma provider_step_other rc st p x :
  x ≠ p →
  customer_count (flatten_provider_step rc st p) !! x
    = customer_count st !! x
  ∧ ranks (flatten_provider_step rc st p) !! x = ranks st !! x
  ∧ (x ∈ ready_queue (flatten_provider_step rc st p)
     ↔ x ∈ ready_queue st).
Proof.
  intros Hne. unfold flatten_provider_step, ranks_index.
  destruct (customer_count st !! p) as [count|]; [|done].
  destruct (ranks st !! p) as [r|]; rewrite lookup_insert_eq;
    destruct (count - 1 =? 0); simpl;
    rewrite ?lookup_insert_ne, ?lookup_delete_ne by done;
    (split; [done|]); (split; [done|]);
    rewrite ?elem_of_app, ?list_elem_of_singleton; tauto.
Qed.

Lemma provider_step_none rc st p :
  customer_count st !! p = None → flatten_provider_step rc st p = st.
Proof. intros H. unfold flatten_provider_step. by rewrite H. Qed.

Lemma provider_step_self rc st p k :
  customer_count st !! p = Some k →
  let st' := flatten_provider_step rc st p in
  ranks st' !! p = Some (raised rc (ranks st !! p))
  ∧ (k ≠ 1 →
       customer_count st' !! p = Some (k - 1)
       ∧ (p ∈ ready_queue st' ↔ p ∈ ready_queue st)
       ∧ max_rank st' = max_rank st)
  ∧ (k = 1 →
       customer_count st' !! p = None
       ∧ p ∈ ready_queue st'
       ∧ max_rank st' = Z.max (max_rank st) (raised rc (ranks st !! p))).
Proof.
  intros Hk. unfold flatten_provider_step, ranks_index, raised. rewrite Hk.
  destruct (ranks st !! p) as [r|]; rewrite lookup_insert_eq;
    destruct (Z.eqb_spec (k - 1) 0) as [E|E]; simpl;
    rewrite ?lookup_insert_eq, ?lookup_delete_eq;
    (split; [done|]); (split; intros ?; [try lia|try lia]);
    repeat split; try done;
    rewrite ?elem_of_app, ?list_elem_of_singleton; tauto.
Qed.

Lemma provider_step_max rc st p :
  max_rank st ≤ max_rank (flatten_provider_step rc st p).
Proof.
  unfold flatten_provider_step, ranks_index.
  destruct (customer_count st !! p) as [count|]; [|done].
  destruct (ranks st !! p) as [r|]; rewrite lookup_insert_eq;
    destruct (count - 1 =? 0); simpl; lia.
Qed.

Lemma provider_loop_max rc l st :
  max_rank st ≤ max_rank (foldl (flatten_provider_step rc) st l).
Proof.
  apply (foldl_preserves (λ st', max_rank st ≤ max_rank st')); [lia|].
  intros st' p _ H. pose proof (provider_step_max rc st' p). lia.
Qed.

(** An AS without a count is not touched. *)
Lemma provider_loop_none rc l st x :
  customer_count st !! x = None →
  let st' := foldl (flatten_provider_step rc) st l in
  customer_count st' !! x = None
  ∧ ranks st' !! x = ranks st !! x
  ∧ (x ∈ ready_queue st' ↔ x ∈ ready_queue st).
Proof.
  revert st. induction l as [|p l IH]; intros st Hx; simpl; [done|].
  destruct (decide (x = p)) as [->|Hne].
  - rewrite provider_step_none by done. by apply IH.
  - destruct (provider_step_other rc st p x Hne) as (Hc & Hr & Hq).
    destruct (IH (flatten_provider_step rc st p)) as (Hc' & Hr' & Hq');
      [congruence|].
    split; [done|]. split; [congruence|]. by rewrite Hq', Hq.
Qed.

(** An AS with count [k] that occurs [m] times among the providers, [m]
    at most [k]. *)
Lemma provider_loop_some rc l : ∀ st x k,
  customer_count st !! x = Some k → 0 < k →
  Z.of_nat (occurrences x l) ≤ k →
  let st' := foldl (flatten_provider_step rc) st l in
  let m := occurrences x l in
  customer_count st' !! x
    = (if Z.of_nat m =? k then None else Some (k - Z.of_nat m))
  ∧ ranks st' !! x
    = (if Nat.eqb m 0 then ranks st !! x
       else Some (raised rc (ranks st !! x)))
  ∧ (x ∈ ready_queue st' ↔ x ∈ ready_queue st ∨ Z.of_nat m = k)
  ∧ (Z.of_nat m = k →
     raised rc (ranks st !! x) ≤ max_rank st').
Proof.
  induction l as [|p l IH]; intros st x k Hk Hpos Hocc; cbv zeta; cbn [foldl].
  - rewrite occurrences_nil. change (Z.of_nat 0) with 0.
    destruct (Z.eqb_spec 0 k); [lia|].
    rewrite Z.sub_0_r. split; [done|]. split; [done|].
    split; [|lia]. split; [by left|]. intros [?|?]; [done|lia].
  - destruct (decide (p = x)) as [->|Hne].
    + rewrite occurrences_cons_eq in *.
      destruct (provider_step_self rc st x k Hk) as (Hr & Hmany & Hlast).
      destruct (decide (k = 1)) as [->|Hk1].
      * destruct (Hlast eq_refl) as (Hc' & Hq' & Hm').
        assert (Hzero : occurrences x l = O) by lia. rewrite Hzero.
        destruct (provider_loop_none rc l
                    (flatten_provider_step rc st x) x Hc')
          as (Hc'' & Hr'' & Hq'').
        simpl. split; [done|]. split; [congruence|].
        split; [rewrite Hq''; tauto|]. intros _.
        pose proof (provider_loop_max rc l (flatten_provider_step rc st x)).
        lia.
      * destruct (Hmany Hk1) as (Hc' & Hq' & Hm').
        destruct (IH (flatten_provider_step rc st x) x (k - 1))
          as (Hc'' & Hr'' & Hq'' & Hm''); [done|lia|lia|].
        assert (Hrr : raised rc (Some (raised rc (ranks st !! x)))
                      = raised rc (ranks st !! x))
          by (unfold raised; destruct (ranks st !! x); lia).
        split.
        { rewrite Hc''.
          destruct (Z.eqb_spec (Z.of_nat (occurrences x l)) (k - 1)),
            (Z.eqb_spec (Z.of_nat (S (occurrences x l))) k);
            try lia; [done|]. f_equal. lia. }
        split.
        { rewrite Hr'', Hr, Hrr. simpl. by destruct (Nat.eqb _ 0). }
        split.
        { rewrite Hq'', Hq'. split; (intros [?|?]; [by left|right; lia]). }
        intros Hm. rewrite Hr, Hrr in Hm''. apply Hm''. lia.
    + rewrite occurrences_cons_ne in * by done.
      destruct (provider_step_other rc st p x) as (Hc & Hr & Hq); [done|].
      destruct (IH (flatten_provider_step rc st p) x k)
        as (Hc' & Hr' & Hq' & Hm'); [congruence|done|done|].
      rewrite Hr in *. rewrite Hq in *. done.
Qed.

Lemma provider_step_queue rc st p :
  ready_queue (flatten_provider_step rc st p)
  = ready_queue st
    ++ (if decide (customer_count st !! p = Some 1) then [p] else []).
Proof.
  unfold flatten_provider_step, ranks_index.
  destruct (customer_count st !! p) as [k|];
    [|rewrite decide_False by done; by rewrite app_nil_r].
  destruct (ranks st !! p) as [r|]; rewrite lookup_insert_eq;
    destruct (Z.eqb_spec (k - 1) 0) as [E|E]; simpl.
  all: try (rewrite decide_True by (f_equal; lia); done).
  all: rewrite decide_False by (intros [= ->]; lia); by rewrite app_nil_r.
Qed.

(** The queue stays free of repetitions and of ASes that have a
    count. *)
Lemma provider_loop_nodup rc l st :
  NoDup (ready_queue st) →
  (∀ x, x ∈ ready_queue st → customer_count st !! x = None) →
  NoDup (ready_queue (foldl (flatten_provider_step rc) st l)).
Proof.
  intros Hnd Hq.
  cut (NoDup (ready_queue (foldl (flatten_provider_step rc) st l))
       ∧ ∀ x, x ∈ ready_queue (foldl (flatten_provider_step rc) st l) →
           customer_count (foldl (flatten_provider_step rc) st l) !! x = None);
    [tauto|].
  apply (foldl_preserves
           (λ st', NoDup (ready_queue st')
                   ∧ ∀ x, x ∈ ready_queue st' →
                       customer_count st' !! x = None)); [done|].
  clear. intros st p _ [Hnd Hq].
  destruct (customer_count st !! p) as [k|] eqn:Hk;
    [|by rewrite provider_step_none].
  assert (Hp : p ∉ ready_queue st) by (intros H; apply Hq in H; congruence).
  destruct (provider_step_self rc st p k Hk) as (_ & Hmany & Hlast).
  rewrite provider_step_queue, Hk. split.
  - case_decide; [|by rewrite app_nil_r].
    apply NoDup_app. split; [done|]. split; [|apply NoDup_singleton].
    intros y Hy Hy'. by apply list_elem_of_singleton in Hy' as ->.
  - intros y Hy. destruct (decide (y = p)) as [->|Hne].
    + case_decide as Hone.
      * injection Hone as ->. by destruct (Hlast eq_refl).
      * rewrite app_nil_r in Hy. done.
    + destruct (provider_step_other rc st p y Hne) as (-> & _).
      apply Hq. apply elem_of_app in Hy as [Hy|Hy]; [done|].
      case_decide; [|by apply elem_of_nil in Hy].
      by apply list_elem_of_singleton in Hy.
Qed.

End ProviderLoop.

(** *** Ranks recorded for a node *)

Section RankFacts.

Implicit Types (rk rkb : gmap N Z) (D : gset N) (n : ASNode) (y : N).

Lemma final_rank_keep rk rkb D n r y :
  (∀ c, c ∈ customers n → c ∈ D → rkb !! c = rk !! c) →
  final_rank rk D n r → final_rank rkb ({[y]} ∪ D) n r.
Proof.
  intros Hag (H0 & Hnone & Hall & Hex).
  split; [done|]. split; [done|]. split.
  - intros c Hc. destruct (Hall c Hc) as (HcD & rc & Hrc & Hlt).
    split; [set_solver|]. exists rc. by rewrite Hag.
  - intros Hne. destruct (Hex Hne) as (c & rc & Hc & Hrc & ->).
    exists c, rc. destruct (Hall c Hc) as (HcD & _). by rewrite Hag.
Qed.

Lemma partial_rank_keep rk rkb D n ro y :
  (∀ c, c ∈ customers n → c ∈ D → rkb !! c = rk !! c) →
  y ∉ customers n →
  partial_rank rk D n ro → partial_rank rkb ({[y]} ∪ D) n ro.
Proof.
  intros Hag Hy. destruct ro as [r|]; simpl.
  - intros (Hall & c & rc & Hc & HcD & Hrc & ->). split.
    + intros c' Hc' Hc'D.
      assert (c' ∈ D) by set_solver.
      destruct (Hall c' Hc') as (rc' & ? & ?); [done|].
      exists rc'. by rewrite Hag.
    + exists c, rc. rewrite Hag by done. split; [done|].
      split; [set_solver|done].
  - intros Hall c Hc. specialize (Hall c Hc). set_solver.
Qed.

Lemma partial_rank_raise rk rkb D n ro y rc :
  (∀ c, c ∈ customers n → c ∈ D → rkb !! c = rk !! c) →
  y ∈ customers n → y ∉ D → rkb !! y = Some rc →
  partial_rank rk D n ro →
  partial_rank rkb ({[y]} ∪ D) n (Some (raised rc ro)).
Proof.
  intros Hag Hy HyD Hrc. destruct ro as [r|]; simpl.
  - intros (Hall & c & rc0 & Hc & HcD & Hrc0 & ->). split.
    + intros c' Hc' Hc'D. destruct (decide (c' = y)) as [->|Hne].
      * exists rc. split; [done|lia].
      * assert (c' ∈ D) by set_solver.
        destruct (Hall c' Hc') as (rc' & ? & ?); [done|].
        exists rc'. rewrite Hag by done. split; [done|lia].
    + destruct (Z.max_spec (rc0 + 1) (rc + 1)) as [[? ->]|[? ->]].
      * exists y, rc. split; [done|]. split; [set_solver|done].
      * exists c, rc0. rewrite Hag by done. split; [done|].
        split; [set_solver|done].
  - intros Hall. split.
    + intros c' Hc' Hc'D. destruct (decide (c' = y)) as [->|Hne].
      * exists rc. split; [done|lia].
      * specialize (Hall c' Hc'). set_solver.
    + exists y, rc. split; [done|]. split; [set_solver|done].
Qed.

Lemma partial_rank_final rk D n r :
  partial_rank rk D n (Some r) → 0 ≤ r →
  (∀ c, c ∈ customers n → c ∈ D) →
  final_rank rk D n r.
Proof.
  intros (Hall & c & rc & Hc & HcD & Hrc & ->) H0 Hin.
  split; [done|]. split.
  - intros E. rewrite E in Hc. by apply elem_of_nil in Hc.
  - split; [|intros _; by exists c, rc].
    intros c' Hc'. split; [by apply Hin|]. apply Hall; [done|by apply Hin].
Qed.

End RankFacts.

(** *** The [while] loop *)

Section FlattenLoop.

Variable ns : gmap N ASNode.
Hypothesis Hwf : wf_nodes ns.

Implicit Types (st : flatten_state) (D : gset N) (x current : N)
  (rest : list N).

Lemma provider_loop_queue_from rc l st x :
  x ∈ ready_queue (foldl (flatten_provider_step rc) st l) →
  x ∈ ready_queue st ∨ x ∈ l.
Proof.
  revert st. induction l as [|p l IH]; intros st; simpl; [by left|].
  intros Hx. destruct (IH _ Hx) as [Hq|Hl]; [|right; by right].
  rewrite provider_step_queue in Hq.
  apply elem_of_app in Hq as [Hq|Hq]; [by left|].
  case_decide; [|by apply elem_of_nil in Hq].
  apply list_elem_of_singleton in Hq as ->. right. by left.
Qed.

(** One turn of the loop keeps the invariant, with the AS taken from the
    queue added to [D]. *)
Lemma flatten_pop_inv D st current rest :
  flatten_inv ns D st → ready_queue st = current :: rest →
  flatten_inv ns ({[current]} ∪ D) (flatten_pop ns current rest st).
Proof using Hwf.
  intros [Hnd Hqueue Hmax Hready Hpending] Hq. rewrite Hq in *.
  destruct (Hqueue current) as [HcD [nc Hnc]]; [by left|].
  destruct (Hready current nc Hnc) as (Hcc_c & rc & Hrc & Hrc_max & Hfin_c);
    [right; by left|].
  apply NoDup_cons in Hnd as [Hc_rest Hnd].
  unfold flatten_pop, ranks_index. rewrite Hnc. simpl. rewrite Hrc.
  set (st1 := {| ranks := ranks st; customer_count := customer_count st;
                 ready_queue := rest; max_rank := max_rank st |}).
  set (st2 := foldl (flatten_provider_step rc) st1 (providers nc)).
  assert (Hrc0 : 0 ≤ rc) by (by destruct Hfin_c).
  (* nodes that were in [D] or in the queue *)
  assert (Hstable : ∀ x n, ns !! x = Some n →
            x ∈ D ∨ x ∈ current :: rest →
            customer_count st2 !! x = None
            ∧ ranks st2 !! x = ranks st !! x
            ∧ (x ∈ ready_queue st2 ↔ x ∈ rest)).
  { intros x n Hn Hx. destruct (Hready x n Hn Hx) as (Hcc & _).
    apply (provider_loop_none rc (providers nc) st1 x Hcc). }
  assert (Hagree : ∀ n c, c ∈ customers n → c ∈ D →
            is_Some (ns !! c) → ranks st2 !! c = ranks st !! c).
  { intros n c _ HcD' [n' Hn']. apply (Hstable c n' Hn'). by left. }
  (* nodes that were waiting *)
  assert (Hwait : ∀ x n, ns !! x = Some n → x ∉ D → x ∉ current :: rest →
            let k := pending_customers D n in
            let m := occurrences current (customers n) in
            (m ≤ k)%nat ∧ (0 < k)%nat
            ∧ pending_customers ({[current]} ∪ D) n = (k - m)%nat
            ∧ customer_count st2 !! x
              = (if Nat.eqb m k then None else Some (Z.of_nat (k - m)))
            ∧ ranks st2 !! x
              = (if Nat.eqb m 0 then ranks st !! x
                 else Some (raised rc (ranks st !! x)))
            ∧ (x ∈ ready_queue st2 ↔ m = k)
            ∧ (m = k → raised rc (ranks st !! x) ≤ max_rank st2)
            ∧ partial_rank (ranks st) D n (ranks st !! x)).
  { intros x n Hn HxD Hxq k m.
    destruct (Hpending x n Hn HxD Hxq) as (Hcc & Hpos & Hpart).
    pose proof (pending_customers_add D n current HcD) as Hadd.
    fold k m in Hadd, Hcc, Hpos.
    assert (Hsym : occurrences x (providers nc) = m)
      by (symmetry; by apply (wf_symmetric ns Hwf x current n nc)).
    destruct (provider_loop_some rc (providers nc) st1 x (Z.of_nat k))
      as (H1 & H2 & H3 & H4); [done|lia|lia|].
    fold st2 in H1, H2, H3, H4. rewrite Hsym in *.
    split; [lia|]. split; [done|]. split; [lia|].
    split.
    { rewrite H1. destruct (Nat.eqb_spec m k), (Z.eqb_spec (Z.of_nat m) (Z.of_nat k));
        try lia; [done|]. f_equal. lia. }
    split; [done|]. split.
    { rewrite H3. simpl. split; [intros [?|?]; [|lia]|intros ->; by right].
      destruct Hxq. by right. }
    split; [intros ->; by apply H4|done]. }
  assert (Hmax2 : max_rank st ≤ max_rank st2)
    by apply (provider_loop_max rc (providers nc) st1).
  assert (Hcases : ∀ x, x ∈ D ∨ x ∈ current :: rest
                        ∨ ((x ∉ D) ∧ x ∉ current :: rest)).
  { intros x. destruct (decide (x ∈ D)); [by left|].
    destruct (decide (x ∈ current :: rest)); [right; by left|].
    right. by right. }
  split.
  - (* no repetition in the queue *)
    apply provider_loop_nodup; [done|].
    intros x Hx. simpl in *. destruct (Hqueue x) as [_ [n Hn]]; [by right|].
    apply (Hready x n Hn). right. by right.
  - (* the queue holds nodes that are not in [D] *)
    intros x Hx.
    assert (Hdom : is_Some (ns !! x)).
    { destruct (provider_loop_queue_from _ _ _ _ Hx) as [Hr|Hp].
      - apply Hqueue. by right.
      - by apply (wf_providers_closed ns Hwf current nc x). }
    split; [|done]. destruct Hdom as [n Hn].
    destruct (Hcases x) as [HD|[HQ|[HD HQ]]].
    + destruct (Hstable x n Hn) as (_ & _ & Hiff); [by left|].
      apply Hiff in Hx. destruct (Hqueue x) as [? _]; [by right|].
      rewrite not_elem_of_union, not_elem_of_singleton.
      split; [|done]. intros ->. done.
    + destruct (Hstable x n Hn) as (_ & _ & Hiff); [by right|].
      apply Hiff in Hx. destruct (Hqueue x) as [? _]; [by right|].
      rewrite not_elem_of_union, not_elem_of_singleton.
      split; [|done]. intros ->. done.
    + rewrite not_elem_of_union, not_elem_of_singleton.
      split; [|done]. intros ->. apply HQ. by left.
  - lia.
  - (* nodes in [D] or in the queue have their rank *)
    intros x n Hn Hx.
    assert (Hag : ∀ c, c ∈ customers n → c ∈ D →
              ranks st2 !! c = ranks st !! c).
    { intros c Hc HcD'. apply (Hagree n c Hc HcD').
      by apply (wf_customers_closed ns Hwf x n c). }
    destruct (Hcases x) as [HD|[HQ|[HD HQ]]].
    + destruct (Hstable x n Hn) as (Hcc & Hr & _); [by left|].
      destruct (Hready x n Hn) as (_ & r & Hrk & Hle & Hfin); [by left|].
      split; [done|]. exists r. rewrite Hr. split; [done|]. split; [lia|].
      by apply (final_rank_keep (ranks st)).
    + destruct (Hstable x n Hn) as (Hcc & Hr & _); [by right|].
      destruct (Hready x n Hn) as (_ & r & Hrk & Hle & Hfin); [by right|].
      split; [done|]. exists r. rewrite Hr. split; [done|]. split; [lia|].
      by apply (final_rank_keep (ranks st)).
    + destruct (Hwait x n Hn HD HQ)
        as (Hmk & Hpos & Hpend & Hcc & Hr & Hin & Hle & Hpart).
      assert (Hxq : x ∈ ready_queue st2).
      { destruct Hx as [Hx|Hx]; [|done].
        apply elem_of_union in Hx as [Hx|Hx]; [|done].
        apply elem_of_singleton in Hx as ->. destruct HQ. by left. }
      apply Hin in Hxq. rewrite Hxq in *.
      rewrite Nat.eqb_refl in Hcc.
      destruct (Nat.eqb_spec (pending_customers D n) 0) as [E|E]; [lia|].
      split; [done|]. eexists. split; [done|]. split; [by apply Hle|].
      assert (Hcur : current ∈ customers n)
        by (apply occurrences_pos; lia).
      apply partial_rank_final.
      * apply (partial_rank_raise (ranks st)); try done.
        destruct (Hstable current nc Hnc) as (_ & -> & _); [right; by left|].
        done.
      * unfold raised. destruct (ranks st !! x); lia.
      * apply pending_customers_zero. lia.
  - (* nodes still waiting have their count *)
    intros x n Hn HxD Hxq.
    assert (Hag : ∀ c, c ∈ customers n → c ∈ D →
              ranks st2 !! c = ranks st !! c).
    { intros c Hc HcD'. apply (Hagree n c Hc HcD').
      by apply (wf_customers_closed ns Hwf x n c). }
    apply not_elem_of_union in HxD as [Hxc HxD'].
    apply not_elem_of_singleton in Hxc.
    assert (HQ : x ∉ current :: rest).
    { intros HQ. apply elem_of_cons in HQ as [?|HQ]; [done|].
      destruct (Hstable x n Hn) as (_ & _ & Hiff); [right; by right|].
      apply Hxq, Hiff, HQ. }
    destruct (Hwait x n Hn HxD' HQ)
      as (Hmk & Hpos & Hpend & Hcc & Hr & Hin & Hle & Hpart).
    assert (Hne : occurrences current (customers n) ≠ pending_customers D n)
      by (intros E; by apply Hxq, Hin).
    destruct (Nat.eqb_spec (occurrences current (customers n))
                (pending_customers D n)) as [?|_]; [done|].
    rewrite Hpend. split; [done|]. split; [lia|].
    rewrite Hr.
    destruct (Nat.eqb_spec (occurrences current (customers n)) 0) as [E|E].
    + apply (partial_rank_keep (ranks st)); [done| |done].
      by apply occurrences_zero.
    + apply (partial_rank_raise (ranks st)); try done.
      * apply occurrences_pos. lia.
      * destruct (Hstable current nc Hnc) as (_ & -> & _); [right; by left|].
        done.
Qed.

End FlattenLoop.

Section Termination.

Implicit Types (st : flatten_state) (ns : gmap N ASNode).

Lemma provider_step_measure rc st p :
  (flatten_measure (flatten_provider_step rc st p) ≤ flatten_measure st)%nat.
Proof.
  unfold flatten_measure. rewrite provider_step_queue, length_app.
  destruct (customer_count st !! p) as [k|] eqn:Hk;
    [|rewrite provider_step_none by done;
      rewrite decide_False by done; simpl; lia].
  destruct (provider_step_self rc st p k Hk) as (_ & Hmany & Hlast).
  assert (Hsize : size (customer_count st) ≠ O)
    by (apply (map_size_ne_0_lookup_2 _ p); by rewrite Hk).
  unfold flatten_provider_step, ranks_index in *. rewrite Hk in *.
  destruct (ranks st !! p) as [r|]; rewrite lookup_insert_eq in *;
    destruct (Z.eqb_spec (k - 1) 0) as [E|E]; simpl in *.
  all: try (rewrite decide_True by (f_equal; lia);
            rewrite map_size_delete_Some by (by rewrite Hk); simpl; lia).
  all: rewrite decide_False by (intros [= ->]; lia);
    rewrite map_size_insert_Some by (by rewrite Hk); simpl; lia.
Qed.

Lemma flatten_pop_measure ns st current rest :
  ready_queue st = current :: rest →
  (flatten_measure (flatten_pop ns current rest st) < flatten_measure st)%nat.
Proof.
  intros Hq. unfold flatten_pop.
  assert (Hfold : ∀ rc l st1,
    (flatten_measure (foldl (flatten_provider_step rc) st1 l)
     ≤ flatten_measure st1)%nat).
  { intros rc l st1.
    apply (foldl_preserves
             (λ st', (flatten_measure st' ≤ flatten_measure st1)%nat)); [lia|].
    intros st' p _ H. pose proof (provider_step_measure rc st' p). lia. }
  destruct (ns !! current) as [node|].
  - destruct (ranks_index _ current) as [rc rk].
    eapply Nat.le_lt_trans; [apply Hfold|].
    unfold flatten_measure. simpl. rewrite Hq. simpl. lia.
  - unfold flatten_measure. simpl. rewrite Hq. simpl. lia.
Qed.

(** The loop ends within as many turns as the measure says. *)
Lemma flatten_loop_terminates ns fuel : ∀ st,
  (flatten_measure st ≤ fuel)%nat → is_Some (flatten_loop fuel ns st).
Proof.
  induction fuel as [|fuel IH]; intros st Hm.
  - unfold flatten_measure in Hm.
    destruct (ready_queue st) as [|c rest] eqn:Hq; [|simpl in Hm; lia].
    simpl. by rewrite Hq.
  - simpl. destruct (ready_queue st) as [|c rest] eqn:Hq; [done|].
    apply IH. pose proof (flatten_pop_measure ns st c rest Hq). lia.
Qed.

Lemma flatten_init_measure ns :
  (flatten_measure (flatten_init ns) ≤ size ns)%nat.
Proof.
  unfold flatten_init. rewrite <- length_map_to_list.
  generalize (map_to_list ns). intros l.
  cut (∀ st, (flatten_measure (foldl flatten_init_step st l)
              ≤ flatten_measure st + length l)%nat).
  { intros H. specialize (H (mkFlatten ∅ ∅ [] 0)).
    unfold flatten_measure at 2 in H. simpl in H.
    rewrite map_size_empty in H. done. }
  induction l as [|kv l IH]; intros st; simpl; [lia|].
  etrans; [apply IH|].
  cut (flatten_measure (flatten_init_step st kv) ≤ S (flatten_measure st))%nat;
    [lia|].
  unfold flatten_init_step, flatten_measure.
  destruct (customers kv.2); simpl.
  - rewrite length_app. simpl. lia.
  - rewrite map_size_insert. destruct (customer_count st !! asn kv.2); simpl; lia.
Qed.

(** The loop keeps the invariant and ends with an empty queue. *)
Lemma flatten_loop_inv ns fuel : ∀ st st' D,
  wf_nodes ns →
  flatten_loop fuel ns st = Some st' → flatten_inv ns D st →
  ∃ D', flatten_inv ns D' st' ∧ ready_queue st' = [].
Proof.
  induction fuel as [|fuel IH]; intros st st' D Hwf Hloop Hinv; simpl in Hloop.
  - destruct (ready_queue st) eqn:Hq; [|done].
    injection Hloop as <-. by exists D.
  - destruct (ready_queue st) as [|c rest] eqn:Hq.
    + injection Hloop as <-. by exists D.
    + eapply IH; [done|done|]. by apply flatten_pop_inv.
Qed.

End Termination.

(** *** The first loop *)

Section FlattenInit.

Implicit Types (st : flatten_state) (ns : gmap N ASNode) (x : N)
  (kv : N * ASNode) (l : list (N * ASNode)).

Lemma init_step_other st kv x :
  x ≠ asn kv.2 →
  ranks (flatten_init_step st kv) !! x = ranks st !! x
  ∧ customer_count (flatten_init_step st kv) !! x = customer_count st !! x
  ∧ (x ∈ ready_queue (flatten_init_step st kv) ↔ x ∈ ready_queue st).
Proof.
  intros Hne. unfold flatten_init_step. destruct (customers kv.2); simpl.
  - rewrite lookup_insert_ne by done. split; [done|]. split; [done|].
    rewrite elem_of_app, list_elem_of_singleton. tauto.
  - rewrite lookup_insert_ne by done. done.
Qed.

Lemma init_step_self st kv :
  max_rank (flatten_init_step st kv) = max_rank st
  ∧ (customers kv.2 = [] →
     ranks (flatten_init_step st kv) !! asn kv.2 = Some 0
     ∧ customer_count (flatten_init_step st kv) !! asn kv.2
       = customer_count st !! asn kv.2
     ∧ ready_queue (flatten_init_step st kv) = ready_queue st ++ [asn kv.2])
  ∧ (customers kv.2 ≠ [] →
     customer_count (flatten_init_step st kv) !! asn kv.2
       = Some (Z.of_nat (length (customers kv.2)))
     ∧ ranks (flatten_init_step st kv) !! asn kv.2 = ranks st !! asn kv.2
     ∧ ready_queue (flatten_init_step st kv) = ready_queue st).
Proof.
  unfold flatten_init_step. destruct (customers kv.2); simpl.
  - split; [done|]. split; [|done]. intros _. by rewrite lookup_insert_eq.
  - split; [done|]. split; [done|]. intros _. by rewrite lookup_insert_eq.
Qed.

Lemma init_fold l : ∀ st,
  NoDup l.*1 →
  (∀ kv, kv ∈ l → asn kv.2 = kv.1) →
  (∀ kv, kv ∈ l → kv.1 ∉ ready_queue st) →
  let st' := foldl flatten_init_step st l in
  max_rank st' = max_rank st
  ∧ (NoDup (ready_queue st) → NoDup (ready_queue st'))
  ∧ (∀ x, x ∉ l.*1 →
       ranks st' !! x = ranks st !! x
       ∧ customer_count st' !! x = customer_count st !! x
       ∧ (x ∈ ready_queue st' ↔ x ∈ ready_queue st))
  ∧ (∀ x n, (x, n) ∈ l →
       (customers n = [] →
          ranks st' !! x = Some 0
          ∧ customer_count st' !! x = customer_count st !! x
          ∧ x ∈ ready_queue st')
       ∧ (customers n ≠ [] →
            customer_count st' !! x = Some (Z.of_nat (length (customers n)))
            ∧ ranks st' !! x = ranks st !! x
            ∧ (x ∈ ready_queue st' ↔ x ∈ ready_queue st))).
Proof.
  induction l as [|[k n] l IH]; intros st Hnd Hasn Hfresh; simpl.
  - split; [done|]. split; [done|]. split; [done|].
    intros x n Hin. by apply elem_of_nil in Hin.
  - simpl in Hnd. apply NoDup_cons in Hnd as [Hk Hnd].
    assert (Hkn : asn n = k) by (apply (Hasn (k, n)); by left).
    destruct (init_step_self st (k, n)) as (Hmax & Hempty & Hsome).
    simpl in Hempty, Hsome. rewrite Hkn in Hempty, Hsome.
    assert (Hother : ∀ x, x ≠ k →
      ranks (flatten_init_step st (k, n)) !! x = ranks st !! x
      ∧ customer_count (flatten_init_step st (k, n)) !! x
        = customer_count st !! x
      ∧ (x ∈ ready_queue (flatten_init_step st (k, n))
         ↔ x ∈ ready_queue st)).
    { intros x Hx. apply init_step_other. simpl. by rewrite Hkn. }
    destruct (IH (flatten_init_step st (k, n))) as (IH1 & IH2 & IH3 & IH4).
    + done.
    + intros kv Hkv. apply Hasn. by right.
    + intros kv Hkv.
      assert (kv.1 ≠ k).
      { intros E. apply Hk. rewrite <- E. apply list_elem_of_fmap.
        by exists kv. }
      destruct (Hother kv.1) as (_ & _ & ->); [done|].
      apply Hfresh. by right.
    + split; [congruence|]. split.
      { intros Hq. apply IH2.
        destruct (customers n) as [|c cs] eqn:Hcs.
        - destruct Hempty as (_ & _ & ->); [done|].
          apply NoDup_app. split; [done|]. split; [|apply NoDup_singleton].
          intros y Hy Hy'. apply list_elem_of_singleton in Hy' as ->.
          apply (Hfresh (k, n)); [by left|done].
        - destruct Hsome as (_ & _ & ->); done. }
      split.
      { intros x Hx. apply not_elem_of_cons in Hx as [Hxk Hx].
        destruct (IH3 x Hx) as (-> & -> & ->). by apply Hother. }
      intros x n' Hin. apply elem_of_cons in Hin as [[= -> ->]|Hin].
      * destruct (IH3 k Hk) as (-> & -> & ->). split.
        -- intros E. destruct (Hempty E) as (-> & -> & ->).
           split; [done|]. split; [done|]. apply elem_of_app. right.
           by apply list_elem_of_singleton.
        -- intros E. destruct (Hsome E) as (-> & -> & ->). done.
      * assert (x ≠ k).
        { intros ->. apply Hk. apply list_elem_of_fmap. by exists (k, n'). }
        destruct (Hother x) as (Hr & Hc & Hq); [done|].
        destruct (IH4 x n' Hin) as [He Hs]. split.
        -- intros E. destruct (He E) as (-> & -> & ?). done.
        -- intros E. destruct (Hs E) as (-> & -> & ->). done.
Qed.

Lemma pending_customers_empty n :
  pending_customers ∅ n = length (customers n).
Proof.
  unfold pending_customers. induction (customers n) as [|c l IH]; [done|].
  rewrite filter_cons_True by set_solver. simpl. by rewrite IH.
Qed.

(** The state the first loop leaves satisfies the invariant, with
    nothing taken from the queue yet. *)
Lemma flatten_init_inv ns :
  wf_nodes ns → flatten_inv ns ∅ (flatten_init ns).
Proof.
  intros Hwf. unfold flatten_init.
  destruct (init_fold (map_to_list ns) (mkFlatten ∅ ∅ [] 0))
    as (Hmax & Hnd & Hout & Hin).
  - apply NoDup_fst_map_to_list.
  - intros [k n] Hkv. apply elem_of_map_to_list in Hkv.
    by apply (wf_asn ns Hwf).
  - intros kv _. apply not_elem_of_nil.
  - set (st := foldl flatten_init_step (mkFlatten ∅ ∅ [] 0) (map_to_list ns))
      in *.
    assert (Hkeys : ∀ x, x ∈ ready_queue st → is_Some (ns !! x)).
    { intros x Hx. destruct (ns !! x) as [n|] eqn:Hn; [done|].
      destruct (Hout x) as (_ & _ & Hq).
      - intros Hx'. apply list_elem_of_fmap in Hx' as ([k n] & -> & Hkn).
        apply elem_of_map_to_list in Hkn. simpl in Hn. congruence.
      - apply Hq in Hx. by apply elem_of_nil in Hx. }
    split.
    + apply Hnd. apply NoDup_nil_2.
    + intros x Hx. split; [set_solver|by apply Hkeys].
    + rewrite Hmax. done.
    + intros x n Hn [Hx|Hx]; [set_solver|].
      destruct (Hin x n) as [He Hs]; [by apply elem_of_map_to_list|].
      destruct (customers n) as [|c cs] eqn:Hcs.
      * destruct (He eq_refl) as (Hr & Hc & _).
        split; [by rewrite Hc|]. exists 0. split; [done|].
        split; [by rewrite Hmax|].
        split; [done|]. split; [done|]. rewrite Hcs. split.
        -- intros c Hc'. by apply elem_of_nil in Hc'.
        -- done.
      * destruct Hs as (_ & _ & Hq); [done|]. apply Hq in Hx.
        by apply elem_of_nil in Hx.
    + intros x n Hn _ Hx.
      destruct (Hin x n) as [He Hs]; [by apply elem_of_map_to_list|].
      destruct (customers n) as [|c cs] eqn:Hcs.
      * by destruct (He eq_refl) as (_ & _ & ?).
      * destruct Hs as (Hc & Hr & _); [done|].
        rewrite pending_customers_empty, Hcs, Hc, Hr. simpl.
        rewrite lookup_empty.
        split; [done|]. split; [lia|]. intros c' _. set_solver.
Qed.

End FlattenInit.

(** *** Every AS is ranked when the graph has no cycle *)

Lemma flatten_all_done (ns : gmap N ASNode) (D : gset N)
    (st : flatten_state) :
  wf_nodes ns → acyclic ns →
  flatten_inv ns D st → ready_queue st = [] →
  ∀ x n, ns !! x = Some n → x ∈ D.
Proof.
  intros Hwf Hacyc Hinv Hq x n Hn.
  destruct (decide (x ∈ D)) as [|Hx]; [done|]. exfalso. apply Hacyc.
  apply (predecessors_give_cycle
           (filter (λ y, y ∉ D) (map_to_list ns).*1)).
  - intros E.
    assert (Hin : x ∈ filter (λ y, y ∉ D) (map_to_list ns).*1).
    { apply list_elem_of_filter. split; [done|].
      apply list_elem_of_fmap. exists (x, n).
      split; [done|]. by apply elem_of_map_to_list. }
    rewrite E in Hin. by apply elem_of_nil in Hin.
  - intros y Hy. apply list_elem_of_filter in Hy as [HyD Hy].
    apply list_elem_of_fmap in Hy as ([k ny] & -> & Hy).
    apply elem_of_map_to_list in Hy. simpl in *.
    destruct (inv_pending ns D st Hinv k ny Hy HyD) as (_ & Hpos & _).
    { rewrite Hq. apply not_elem_of_nil. }
    destruct (pending_customers_pos D ny Hpos) as (c & Hc & HcD).
    destruct (wf_customers_closed ns Hwf k ny c Hy Hc) as [nc Hnc].
    exists c. split.
    + apply list_elem_of_filter. split; [done|].
      apply list_elem_of_fmap. exists (c, nc).
      split; [done|]. by apply elem_of_map_to_list.
    + exists nc. split; [done|]. apply occurrences_pos.
      rewrite <- (wf_symmetric ns Hwf k c ny nc Hy Hnc).
      by apply occurrences_pos.
Qed.

(** *** The last loop *)

Section FlattenAssign.

Implicit Types (ranked : list (list N)) (rk : gmap N Z)
  (nsa : gmap N ASNode) (l : list (N * ASNode)).

Lemma ranked_push_spec ranked r a :
  0 ≤ r < Z.of_nat (length ranked) →
  ∃ ranked', ranked_push ranked r a = Some ranked'
    ∧ length ranked' = length ranked
    ∧ ∀ i x, x ∈ rank_row ranked' i
             ↔ x ∈ rank_row ranked i ∨ (x = a ∧ Z.of_nat i = r).
Proof.
  intros Hr. unfold ranked_push.
  destruct (Z.ltb_spec r 0) as [?|_]; [lia|].
  destruct (lookup_lt_is_Some_2 ranked (Z.to_nat r)) as [row Hrow]; [lia|].
  rewrite Hrow. eexists. split; [done|].
  split; [by rewrite length_insert|].
  intros i x. unfold rank_row.
  destruct (decide (Z.to_nat r = i)) as [<-|Hne].
  - rewrite list_lookup_insert_eq by lia. rewrite Hrow. simpl.
    rewrite elem_of_app, list_elem_of_singleton.
    split; (intros [?|?]; [by left|right]); [split; [done|lia]|tauto].
  - rewrite list_lookup_insert_ne by done.
    split; [by left|]. intros [?|[_ ?]]; [done|lia].
Qed.

Lemma assign_fold rk l : ∀ nsa ranked,
  NoDup l.*1 →
  (∀ kv, kv ∈ l →
     asn kv.2 = kv.1
     ∧ ∃ r, rk !! kv.1 = Some r ∧ 0 ≤ r < Z.of_nat (length ranked)) →
  ∃ nsa' ranked',
    foldl flatten_assign_step (Returns (nsa, ranked, rk)) l
      = Returns (nsa', ranked', rk)
    ∧ (∀ x, x ∉ l.*1 → nsa' !! x = nsa !! x)
    ∧ (∀ x r, x ∈ l.*1 → rk !! x = Some r →
         nsa' !! x = (λ n, set_propagation_rank n r) <$> nsa !! x)
    ∧ (∀ i x, x ∈ rank_row ranked' i
              ↔ x ∈ rank_row ranked i
                ∨ (x ∈ l.*1 ∧ rk !! x = Some (Z.of_nat i))).
Proof.
  induction l as [|[k n] l IH]; intros nsa ranked Hnd Hl; simpl.
  - exists nsa, ranked. split; [done|]. split; [done|]. split.
    + intros x r Hx. by apply elem_of_nil in Hx.
    + intros i x. split; [by left|]. intros [?|[Hx _]]; [done|].
      by apply elem_of_nil in Hx.
  - simpl in Hnd. apply NoDup_cons in Hnd as [Hk Hnd].
    destruct (Hl (k, n)) as (Hasn & r & Hr & Hbound); [by left|].
    simpl in Hasn, Hr. unfold ranks_index. rewrite Hasn, Hr.
    destruct (ranked_push_spec ranked r k Hbound)
      as (ranked1 & -> & Hlen & Hrows).
    destruct (IH (alter (λ n0, set_propagation_rank n0 r) k nsa) ranked1)
      as (nsa' & ranked' & -> & Hout & Hin & Hrows'); [done| |].
    { intros kv Hkv. rewrite Hlen. apply Hl. by right. }
    exists nsa', ranked'. split; [done|]. split; [|split].
    + intros x Hx. apply not_elem_of_cons in Hx as [Hxk Hx].
      rewrite Hout by done. by rewrite lookup_alter_ne.
    + intros x rx Hx Hrx. apply elem_of_cons in Hx as [->|Hx].
      * assert (rx = r) as -> by congruence.
        rewrite Hout by done. by rewrite lookup_alter_eq.
      * rewrite (Hin x rx) by done. rewrite lookup_alter_ne; [done|].
        intros ->. done.
    + intros i x. rewrite Hrows', Hrows, elem_of_cons. split.
      * intros [[?|[-> <-]]|[? ?]]; [by left|right..]; [|tauto].
        split; [by left|done].
      * intros [?|[[->|?] Hx]]; [left; by left| |right; done].
        left. right. split; [done|]. congruence.
Qed.

End FlattenAssign.

(** The turns allowed to the loop are always enough. *)
Lemma flattenGraph_fuel (g : ASGraph) : flattenGraph g ≠ Fails FuelExhausted.
Proof.
  unfold flattenGraph.
  destruct (flatten_loop_terminates (nodes g) (size (nodes g))
              (flatten_init (nodes g)) (flatten_init_measure (nodes g)))
    as [st ->].
  assert (H : foldl flatten_assign_step
                 (Returns (nodes g,
                           replicate (Z.to_nat (max_rank st + 1))
                             ([] : list N),
                           ranks st))
                 (map_to_list (nodes g))
              ≠ Fails FuelExhausted).
  { apply (foldl_preserves (λ acc, acc ≠ Fails FuelExhausted)); [done|].
    intros acc kv _ Hacc.
    destruct acc as [[[nsa ranked] rk]|f]; simpl; [|done].
    destruct (ranks_index rk (asn kv.2)) as [r rk'].
    by destruct (ranked_push ranked r (asn kv.2)). }
  destruct (foldl flatten_assign_step _ (map_to_list (nodes g)))
    as [?|f]; simpl; [done|]. intros [= ->]. done.
Qed.

(** C5: for a node table as [addRelationship] builds it whose
    customer-to-provider graph has no cycle, [flattenGraph] returns; in
    its result the adjacency is what it was, an AS without customers has
    rank 0, an AS with customers has a rank above the rank of each of
    its customers and one more than the rank of one of them, that is 1
    plus the largest, and row [r] of [ranked_ases] holds exactly the
    ASes of rank [r]. *)
Theorem flattenGraph_ranks (g : ASGraph) :
  wf_nodes (nodes g) → acyclic (nodes g) →
  ∃ g', flattenGraph g = Returns g' ∧ ranked_by_customers g g'.
Proof.
  intros Hwf Hacyc. unfold flattenGraph.
  destruct (flatten_loop_terminates (nodes g) (size (nodes g))
              (flatten_init (nodes g)) (flatten_init_measure (nodes g)))
    as [st Hloop].
  rewrite Hloop.
  destruct (flatten_loop_inv (nodes g) _ _ _ ∅ Hwf Hloop
              (flatten_init_inv (nodes g) Hwf)) as (D & Hinv & Hq).
  pose proof (flatten_all_done (nodes g) D st Hwf Hacyc Hinv Hq) as Hdone.
  assert (Hrank : ∀ x n, nodes g !! x = Some n →
            ∃ r, ranks st !! x = Some r ∧ r ≤ max_rank st
                 ∧ final_rank (ranks st) D n r).
  { intros x n Hn. apply (inv_ready _ _ _ Hinv x n Hn). left. by eapply Hdone. }
  pose proof (inv_max _ _ _ Hinv) as Hmax.
  destruct (assign_fold (ranks st) (map_to_list (nodes g)) (nodes g)
              (replicate (Z.to_nat (max_rank st + 1)) []))
    as (ns' & ranked' & -> & Hout & Hin & Hrows).
  { apply NoDup_fst_map_to_list. }
  { intros [k n] Hkv. apply elem_of_map_to_list in Hkv. simpl.
    split; [by apply (wf_asn _ Hwf)|].
    destruct (Hrank k n Hkv) as (r & Hr & Hle & H0 & _).
    exists r. rewrite length_replicate. split; [done|lia]. }
  simpl. eexists. split; [done|].
  assert (Hkeys : ∀ x n, nodes g !! x = Some n → x ∈ (map_to_list (nodes g)).*1).
  { intros x n Hn. apply list_elem_of_fmap. exists (x, n).
    split; [done|]. by apply elem_of_map_to_list. }
  assert (Hnode : ∀ x n, nodes g !! x = Some n →
            ∃ r, ranks st !! x = Some r
                 ∧ ns' !! x = Some (set_propagation_rank n r)
                 ∧ final_rank (ranks st) D n r).
  { intros x n Hn. destruct (Hrank x n Hn) as (r & Hr & _ & Hfin).
    exists r. split; [done|]. split; [|done].
    rewrite (Hin x r) by eauto. by rewrite Hn. }
  assert (Hnone : ∀ x, nodes g !! x = None → ns' !! x = None).
  { intros x Hn. rewrite Hout; [done|]. intros Hx.
    apply list_elem_of_fmap in Hx as ([k n] & -> & Hkn).
    apply elem_of_map_to_list in Hkn. simpl in Hn. congruence. }
  assert (Hback : ∀ x n', ns' !! x = Some n' →
            ∃ n r, nodes g !! x = Some n ∧ ranks st !! x = Some r
                   ∧ n' = set_propagation_rank n r
                   ∧ final_rank (ranks st) D n r).
  { intros x n' Hn'. destruct (nodes g !! x) as [n|] eqn:Hn.
    - destruct (Hnode x n Hn) as (r & Hr & Hns & Hfin).
      exists n, r. split; [done|]. split; [done|]. split; [congruence|done].
    - rewrite (Hnone x Hn) in Hn'. done. }
  unfold ranked_by_customers. simpl. split; [|split].
  - intros x. unfold shape_of. destruct (nodes g !! x) as [n|] eqn:Hn.
    + destruct (Hnode x n Hn) as (r & _ & -> & _). done.
    + by rewrite (Hnone x Hn).
  - intros x n' Hn'.
    destruct (Hback x n' Hn') as (n & r & Hn & Hr & -> & H0 & Hempty & Hall & Hex).
    simpl. split; [done|]. split.
    + intros c Hc. destruct (Hall c Hc) as (_ & rc & Hrc & Hlt).
      destruct (wf_customers_closed _ Hwf x n c Hn Hc) as [nc Hnc].
      destruct (Hnode c nc Hnc) as (rc' & Hrc' & Hns & _).
      exists (set_propagation_rank nc rc'). split; [done|]. simpl. congruence.
    + intros Hne. destruct (Hex Hne) as (c & rc & Hc & Hrc & ->).
      destruct (wf_customers_closed _ Hwf x n c Hn Hc) as [nc Hnc].
      destruct (Hnode c nc Hnc) as (rc' & Hrc' & Hns & _).
      exists c, (set_propagation_rank nc rc'). split; [done|].
      split; [done|]. simpl. congruence.
  - intros i x. rewrite Hrows. unfold rank_row at 1.
    assert (Hrow0 : default [] (replicate (Z.to_nat (max_rank st + 1))
                                  ([] : list N) !! i) = []).
    { destruct (replicate _ _ !! i) as [row|] eqn:E; [|done].
      apply lookup_replicate in E as [-> _]. done. }
    rewrite Hrow0. split.
    + intros [Hx|[Hx Hr]]; [by apply elem_of_nil in Hx|].
      apply list_elem_of_fmap in Hx as ([k n] & -> & Hkn).
      apply elem_of_map_to_list in Hkn. simpl in *.
      destruct (Hnode k n Hkn) as (r & Hr' & Hns & _).
      exists (set_propagation_rank n r). split; [done|]. simpl. congruence.
    + intros (n' & Hn' & Hp). right.
      destruct (Hback x n' Hn') as (n & r & Hn & Hr & -> & _).
      simpl in Hp. split; [by eapply Hkeys|congruence].
Qed.

(** ** What [addRelationship] maintains *)

Section WellFormed.

Implicit Types (ns : gmap N ASNode) (g : ASGraph) (x y a : N).

(** A table whose nodes got new customers [ec x] and new providers
    [ep x] at the end of their vectors, and nothing else that matters
    here. *)
Lemma wf_nodes_extend ns ns' (ec ep : N → list N) :
  wf_nodes ns →
  (∀ x, match ns !! x, ns' !! x with
        | Some n, Some n' =>
            asn n' = asn n
            ∧ customers n' = customers n ++ ec x
            ∧ providers n' = providers n ++ ep x
        | None, None => True
        | _, _ => False
        end) →
  (∀ x y, y ∈ ec x ∨ y ∈ ep x → is_Some (ns !! y)) →
  (∀ x y, occurrences y (ec x) = occurrences x (ep y)) →
  wf_nodes ns'.
Proof.
  intros [Hasn Hcc Hpc Hsym] Hrel Hdom Hocc.
  assert (Hback : ∀ x n', ns' !! x = Some n' →
            ∃ n, ns !! x = Some n ∧ asn n' = asn n
                 ∧ customers n' = customers n ++ ec x
                 ∧ providers n' = providers n ++ ep x).
  { intros x n' Hn'. specialize (Hrel x). rewrite Hn' in Hrel.
    destruct (ns !! x) as [n|]; [|done]. by exists n. }
  assert (Hfwd : ∀ x, is_Some (ns !! x) → is_Some (ns' !! x)).
  { intros x [n Hn]. specialize (Hrel x). rewrite Hn in Hrel.
    by destruct (ns' !! x). }
  split.
  - intros k n' Hn'. destruct (Hback k n' Hn') as (n & Hn & -> & _).
    by apply Hasn.
  - intros k n' c Hn' Hc. destruct (Hback k n' Hn') as (n & Hn & _ & Hcs & _).
    rewrite Hcs in Hc. apply Hfwd. apply elem_of_app in Hc as [Hc|Hc].
    + by eapply Hcc.
    + apply (Hdom k c). by left.
  - intros k n' p Hn' Hp. destruct (Hback k n' Hn') as (n & Hn & _ & _ & Hps).
    rewrite Hps in Hp. apply Hfwd. apply elem_of_app in Hp as [Hp|Hp].
    + by eapply Hpc.
    + apply (Hdom k p). by right.
  - intros x y nx' ny' Hx Hy.
    destruct (Hback x nx' Hx) as (nx & Hnx & _ & -> & _).
    destruct (Hback y ny' Hy) as (ny & Hny & _ & _ & ->).
    rewrite !occurrences_app, (Hsym x y nx ny Hnx Hny), Hocc. done.
Qed.

Lemma getOrCreateNode_wf g a :
  wf_nodes (nodes g) →
  wf_nodes (nodes (getOrCreateNode g a))
  ∧ is_Some (nodes (getOrCreateNode g a) !! a)
  ∧ ∀ x, is_Some (nodes g !! x) → is_Some (nodes (getOrCreateNode g a) !! x).
Proof.
  intros Hwf. unfold getOrCreateNode.
  destruct (nodes g !! a) as [n|] eqn:Hn; simpl.
  { split; [done|]. split; [by rewrite Hn|done]. }
  split; [|split; [by rewrite lookup_insert_eq|]].
  2:{ intros x Hx. destruct (decide (x = a)) as [->|];
        [by rewrite lookup_insert_eq|by rewrite lookup_insert_ne]. }
  destruct Hwf as [Hasn Hcc Hpc Hsym].
  assert (Hnew : ∀ x n', <[a := ASNode_new a]> (nodes g) !! x = Some n' →
            (x = a ∧ n' = ASNode_new a) ∨ (x ≠ a ∧ nodes g !! x = Some n')).
  { intros x n'. destruct (decide (x = a)) as [->|Hne].
    - rewrite lookup_insert_eq. intros [= <-]. by left.
    - rewrite lookup_insert_ne by done. by right. }
  assert (Hkeep : ∀ x, is_Some (nodes g !! x) →
            is_Some (<[a := ASNode_new a]> (nodes g) !! x)).
  { intros x Hx. destruct (decide (x = a)) as [->|];
      [by rewrite lookup_insert_eq|by rewrite lookup_insert_ne]. }
  split.
  - intros k n' Hn'. destruct (Hnew k n' Hn') as [[-> ->]|[_ Hk]]; [done|].
    by apply Hasn.
  - intros k n' c Hn' Hc. destruct (Hnew k n' Hn') as [[-> ->]|[_ Hk]].
    + by apply elem_of_nil in Hc.
    + apply Hkeep. by eapply Hcc.
  - intros k n' p Hn' Hp. destruct (Hnew k n' Hn') as [[-> ->]|[_ Hk]].
    + by apply elem_of_nil in Hp.
    + apply Hkeep. by eapply Hpc.
  - intros x y nx ny Hx Hy.
    destruct (Hnew x nx Hx) as [[-> ->]|[Hxa Hx']],
             (Hnew y ny Hy) as [[-> ->]|[Hya Hy']]; simpl.
    + done.
    + rewrite occurrences_nil. symmetry. apply occurrences_zero.
      intros Hin. destruct (Hpc y ny a Hy' Hin) as [? ?]. congruence.
    + rewrite occurrences_nil. apply occurrences_zero.
      intros Hin. destruct (Hcc x nx a Hx' Hin) as [? ?]. congruence.
    + by apply Hsym.
Qed.

Lemma occurrences_edge (p c x y : N) :
  occurrences y (if decide (x = p) then [c] else [])
  = occurrences x (if decide (y = c) then [p] else []).
Proof.
  destruct (decide (x = p)) as [->|Hx], (decide (y = c)) as [->|Hy].
  - by rewrite !occurrences_cons_eq.
  - rewrite occurrences_cons_ne by done. done.
  - rewrite occurrences_cons_ne by done. done.
  - done.
Qed.

Lemma link_wf rel_type as1 as2 ns :
  wf_nodes ns → is_Some (ns !! as1) → is_Some (ns !! as2) →
  wf_nodes (link rel_type as1 as2 ns).
Proof.
  intros Hwf H1 H2. destruct rel_type; simpl.
  - (* as1 provider of as2 *)
    apply (wf_nodes_extend ns _
             (λ x, if decide (x = as1) then [as2] else [])
             (λ x, if decide (x = as2) then [as1] else [])); [done| | |].
    + intros x. rewrite !lookup_alter.
      destruct (ns !! x) as [n|] eqn:Hn; repeat case_decide; subst;
        simpl; rewrite ?Hn; simpl; rewrite ?app_nil_r; try done.
    + intros x y [Hy|Hy]; case_decide; try (by apply elem_of_nil in Hy);
        apply list_elem_of_singleton in Hy as ->; done.
    + intros x y. apply occurrences_edge.
  - (* peers *)
    apply (wf_nodes_extend ns _ (λ _, []) (λ _, [])); [done| | |].
    + intros x. rewrite !lookup_alter.
      destruct (ns !! x) as [n|] eqn:Hn; repeat case_decide; subst;
        simpl; rewrite ?Hn; simpl; rewrite ?app_nil_r; try done.
    + intros x y [Hy|Hy]; by apply elem_of_nil in Hy.
    + done.
  - (* as1 customer of as2 *)
    apply (wf_nodes_extend ns _
             (λ x, if decide (x = as2) then [as1] else [])
             (λ x, if decide (x = as1) then [as2] else [])); [done| | |].
    + intros x. rewrite !lookup_alter.
      destruct (ns !! x) as [n|] eqn:Hn; repeat case_decide; subst;
        simpl; rewrite ?Hn; simpl; rewrite ?app_nil_r; try done.
    + intros x y [Hy|Hy]; case_decide; try (by apply elem_of_nil in Hy);
        apply list_elem_of_singleton in Hy as ->; done.
    + intros x y. apply occurrences_edge.
Qed.

Lemma addRelationship_wf g as1 as2 rel_type :
  wf_nodes (nodes g) → wf_nodes (nodes (addRelationship g as1 as2 rel_type)).
Proof.
  intros Hwf. unfold addRelationship. cbn [nodes].
  destruct (getOrCreateNode_wf g as1 Hwf) as (Hwf1 & Hin1 & _).
  destruct (getOrCreateNode_wf (getOrCreateNode g as1) as2 Hwf1)
    as (Hwf2 & Hin2 & Hkeep).
  apply link_wf; [done| |done]. by apply Hkeep.
Qed.

Lemma wf_nodes_empty : wf_nodes ∅.
Proof. split; intros *; by rewrite lookup_empty. Qed.

(** Every topology is well formed. *)
Lemma build_graph_wf (rels : list (N * N * RelationType.t)) :
  wf_nodes (nodes (build_graph rels)).
Proof.
  unfold build_graph.
  apply (foldl_preserves (λ g, wf_nodes (nodes g))); [apply wf_nodes_empty|].
  intros g r _. apply addRelationship_wf.
Qed.

(** Installing policies does not touch the adjacency. *)
Lemma initializeBGP_wf g :
  wf_nodes (nodes g) → wf_nodes (nodes (initializeBGP g)).
Proof.
  intros Hwf. unfold initializeBGP. simpl.
  apply (wf_nodes_extend (nodes g) _ (λ _, []) (λ _, [])); [done| | |].
  - intros x. rewrite lookup_fmap.
    destruct (nodes g !! x) as [n|]; simpl; [|done].
    rewrite !app_nil_r. by destruct (policy n).
  - intros x y [Hy|Hy]; by apply elem_of_nil in Hy.
  - done.
Qed.

(** Neither does the upgrade of a policy to ROV. *)
Lemma load_rov_asn_wf g a :
  wf_nodes (nodes g) → wf_nodes (nodes (load_rov_asn g a)).
Proof.
  intros Hwf. unfold load_rov_asn. destruct (a =? 0)%N; [done|]. simpl.
  destruct (nodes g !! a) as [n|] eqn:Hn; [|done].
  destruct (policy n) as [pol|]; [|done].
  apply (wf_nodes_extend (nodes g) _ (λ _, []) (λ _, [])); [done| | |].
  - intros x. destruct (decide (x = a)) as [->|Hne].
    + rewrite lookup_insert_eq, Hn. simpl. by rewrite !app_nil_r.
    + rewrite lookup_insert_ne by done.
      destruct (nodes g !! x); [|done]. by rewrite !app_nil_r.
  - intros x y [Hy|Hy]; by apply elem_of_nil in Hy.
  - done.
Qed.

Lemma initializeBGP_acyclic g :
  acyclic (nodes g) → acyclic (nodes (initializeBGP g)).
Proof.
  intros Hacyc [x Hx]. apply Hacyc. exists x.
  eapply tc_congruence with (f := id); [|done].
  clear. intros c p (n' & Hn' & Hp). unfold initializeBGP in Hn'.
  simpl in Hn'. rewrite lookup_fmap in Hn'.
  destruct (nodes g !! c) as [n|] eqn:Hn; [|done]. simpl in Hn'.
  exists n. split; [done|]. injection Hn' as <-. by destruct (policy n).
Qed.

End WellFormed.

(** C5 at the topology T1 with its policies installed: the numbering
    AS 1 ↦ 2, AS 2 ↦ 1, AS 3, AS 4 ↦ 0 grows along every edge, so T1 has
    no cycle, and [flattenGraph] ranks it. *)
Lemma flattenGraph_ranks_witness :
  ∃ g', flattenGraph (initializeBGP topology_T1) = Returns g'
        ∧ ranked_by_customers (initializeBGP topology_T1) g'.
Proof.
  apply flattenGraph_ranks.
  - apply initializeBGP_wf, build_graph_wf.
  - apply initializeBGP_acyclic.
    apply (topological_numbering_acyclic
             (λ x, if (x =? 1)%N then 2%nat
                   else if (x =? 2)%N then 1%nat else 0%nat)).
    vm_compute. reflexivity.
Defined.

(** * Further properties of the code *)

(** ** The resolution of one policy *)

Section Resolve.

Implicit Types (pol : BGPPolicy) (c b e : Announcement) (p : Prefix)
  (n : N).

(** A candidate that beats [b] beats whatever does not beat [b]. *)
Lemma isBetterThan_beats_unbeaten c b e :
  isBetterThan c b = true → isBetterThan e b = false →
  isBetterThan c e = true.
Proof.
  rewrite isBetterThan_false, !isBetterThan_spec.
  unfold selection_key. lia.
Qed.

Lemma isBetterThan_unbeaten_trans c b e :
  isBetterThan c b = false → isBetterThan b e = false →
  isBetterThan c e = false.
Proof.
  rewrite !isBetterThan_false, !isBetterThan_spec.
  unfold selection_key. lia.
Qed.

(** Putting the same AS number in front of two paths does not change
    which of two announcements is better. *)
Lemma isBetterThan_prepend n c b :
  isBetterThan (prepend_asn n c) (prepend_asn n b) = isBetterThan c b.
Proof.
  apply eq_true_iff_eq. rewrite !isBetterThan_spec.
  unfold selection_key. simpl. lia.
Qed.

Lemma find_best_split_from pre best mid rest :
  (∀ c, c ∈ pre → isBetterThan best c = true) →
  (∀ c, c ∈ mid → isBetterThan c best = false) →
  ∃ pre' post',
    pre ++ best :: mid ++ rest = pre' ++ find_best best rest :: post'
    ∧ (∀ c, c ∈ pre' → isBetterThan (find_best best rest) c = true)
    ∧ (∀ c, c ∈ post' → isBetterThan c (find_best best rest) = false).
Proof.
  revert pre best mid. induction rest as [|c rest IH]; intros pre best mid
    Hpre Hmid; simpl.
  - exists pre, mid. by rewrite app_nil_r.
  - destruct (isBetterThan c best) eqn:Hc.
    + destruct (IH (pre ++ best :: mid) c []) as (pre' & post' & E & H1 & H2).
      * intros x Hx. apply elem_of_app in Hx as [Hx|Hx].
        -- eapply isBetterThan_trans; [done|]. by apply Hpre.
        -- apply elem_of_cons in Hx as [->|Hx]; [done|].
           eapply isBetterThan_beats_unbeaten; [done|]. by apply Hmid.
      * intros x Hx. by apply elem_of_nil in Hx.
      * exists pre', post'. split; [|done]. rewrite <- E.
        by rewrite <- !app_assoc.
    + destruct (IH pre best (mid ++ [c])) as (pre' & post' & E & H1 & H2).
      * done.
      * intros x Hx. apply elem_of_app in Hx as [Hx|Hx]; [by apply Hmid|].
        by apply list_elem_of_singleton in Hx as ->.
      * exists pre', post'. split; [|done]. rewrite <- E.
        by rewrite <- !app_assoc.
Qed.

(** The entry at prefix [p] after one step of the loop for [p]. *)
Lemma process_entry_at n st p cands :
  (process_entry n st (p, cands)).1 !! p = resolve n (st.1 !! p) cands.
Proof.
  unfold process_entry, resolve. simpl.
  destruct cands as [|c0 cs]; [done|].
  destruct (st.1 !! p) as [old|] eqn:Hold; simpl.
  - destruct (isBetterThan _ old); simpl; [|done]. by rewrite lookup_insert_eq.
  - by rewrite lookup_insert_eq.
Qed.

(** The flag is raised exactly by a step that changes the entry. *)
Lemma process_entry_flag n st p cands :
  (process_entry n st (p, cands)).2 = true
  ↔ st.2 = true ∨ resolve n (st.1 !! p) cands ≠ st.1 !! p.
Proof.
  unfold process_entry, resolve. simpl.
  destruct cands as [|c0 cs]; [tauto|].
  destruct (st.1 !! p) as [old|] eqn:Hold; simpl.
  - destruct (isBetterThan _ old) eqn:Hb; simpl.
    + split; [|done]. intros _. right. intros [= E].
      rewrite E, isBetterThan_irrefl in Hb. done.
    + tauto.
  - split; [|done]. intros _. by right.
Qed.

Lemma process_fold_lookup n p (l : list (Prefix * list Announcement)) :
  ∀ st, NoDup l.*1 →
    (foldl (process_entry n) st l).1 !! p
    = match list_to_map (M := gmap Prefix (list Announcement)) l !! p with
      | Some cands => resolve n (st.1 !! p) cands
      | None => st.1 !! p
      end.
Proof.
  induction l as [|[k cands] l IH]; intros st Hnd; simpl; [done|].
  simpl in Hnd. apply NoDup_cons in Hnd as [Hk Hnd].
  rewrite IH by done. destruct (decide (k = p)) as [->|Hne].
  - rewrite lookup_insert_eq.
    rewrite (not_elem_of_list_to_map_1 _ p) by done.
    apply process_entry_at.
  - rewrite lookup_insert_ne by done.
    by rewrite (process_entry_lookup_ne n st (k, cands) p Hne).
Qed.

Lemma process_fold_flag n (l : list (Prefix * list Announcement)) :
  ∀ st, NoDup l.*1 →
    (foldl (process_entry n) st l).2 = true
    ↔ st.2 = true
      ∨ ∃ p cands, (p, cands) ∈ l ∧ resolve n (st.1 !! p) cands ≠ st.1 !! p.
Proof.
  induction l as [|[k cands] l IH]; intros st Hnd; simpl.
  - split; [by left|]. intros [?|(p & c & Hin & _)]; [done|].
    by apply elem_of_nil in Hin.
  - simpl in Hnd. apply NoDup_cons in Hnd as [Hk Hnd].
    rewrite IH by done. rewrite process_entry_flag. split.
    + intros [[?|?]|(p & c & Hin & Hne)].
      * by left.
      * right. exists k, cands. split; [by left|done].
      * right. exists p, c. split; [by right|].
        rewrite process_entry_lookup_ne in Hne; [done|]. simpl.
        intros ->. apply Hk. apply list_elem_of_fmap. by exists (p, c).
    + intros [?|(p & c & Hin & Hne)]; [left; by left|].
      apply elem_of_cons in Hin as [[= -> ->]|Hin]; [left; by right|].
      right. exists p, c. split; [done|].
      rewrite process_entry_lookup_ne; [done|]. simpl.
      intros ->. apply Hk. apply list_elem_of_fmap. by exists (p, c).
Qed.

Lemma find_best_split c0 (cs : list Announcement) :
  ∃ pre post,
    c0 :: cs = pre ++ find_best c0 cs :: post
    ∧ (∀ c, c ∈ pre → isBetterThan (find_best c0 cs) c = true)
    ∧ (∀ c, c ∈ post → isBetterThan c (find_best c0 cs) = false).
Proof.
  destruct (find_best_split_from [] c0 [] cs) as (pre & post & E & H1 & H2).
  - intros c Hc. by apply elem_of_nil in Hc.
  - intros c Hc. by apply elem_of_nil in Hc.
  - by exists pre, post.
Qed.

Lemma processReceivedQueue_lookup pol n p :
  local_rib (processReceivedQueue pol n).1 !! p
  = resolve n (local_rib pol !! p) (default [] (received_queue pol !! p)).
Proof.
  unfold processReceivedQueue. simpl.
  rewrite process_fold_lookup by apply NoDup_fst_map_to_list.
  rewrite list_to_map_to_list. simpl.
  by destruct (received_queue pol !! p).
Qed.

Lemma processReceivedQueue_unbeaten pol n p cands c :
  received_queue pol !! p = Some cands → c ∈ cands →
  ∃ e, local_rib (processReceivedQueue pol n).1 !! p = Some e
       ∧ isBetterThan (prepend_asn n c) e = false.
Proof.
  rewrite processReceivedQueue_lookup. intros -> Hc. simpl. unfold resolve.
  destruct cands as [|c0 cs]; [by apply elem_of_nil in Hc|].
  assert (Hbest : isBetterThan (prepend_asn n c)
                    (prepend_asn n (find_best c0 cs)) = false).
  { rewrite isBetterThan_prepend.
    destruct (find_best_split c0 cs) as (pre & post & E & H1 & H2).
    rewrite E in Hc. apply elem_of_app in Hc as [Hc|Hc].
    - by apply isBetterThan_asym, H1.
    - apply elem_of_cons in Hc as [->|Hc];
        [apply isBetterThan_irrefl|by apply H2]. }
  destruct (local_rib pol !! p) as [old|]; [|eauto].
  destruct (isBetterThan _ old) eqn:Hb; [eauto|].
  exists old. split; [done|].
  by eapply isBetterThan_unbeaten_trans.
Qed.

End Resolve.

(** X1: the scan of [processReceivedQueue] returns the first of the
    candidates that none beats: it beats every candidate before it and
    is beaten by no candidate after it. *)
Theorem find_best_first_unbeaten (c0 : Announcement)
    (cs : list Announcement) :
  ∃ pre post,
    c0 :: cs = pre ++ find_best c0 cs :: post
    ∧ (∀ c, c ∈ pre → isBetterThan (find_best c0 cs) c = true)
    ∧ (∀ c, c ∈ post → isBetterThan c (find_best c0 cs) = false).
Proof.
  apply find_best_split.
Qed.

(** X2: after [processReceivedQueue] the entry of the RIB at any prefix
    is [resolve] of the entry before and of the candidates staged for
    that prefix, whatever the order in which the hash map is walked: the
    incumbent stays unless the best candidate, with the AS number in
    front, beats it; a prefix with nothing staged keeps its entry. *)
Theorem processReceivedQueue_pointwise (pol : BGPPolicy) (n : N)
    (p : Prefix) :
  local_rib (processReceivedQueue pol n).1 !! p
  = resolve n (local_rib pol !! p) (default [] (received_queue pol !! p)).
Proof.
  apply processReceivedQueue_lookup.
Qed.

(** X3: no entry is ever removed by [processReceivedQueue], an entry is
    only replaced by one that beats it, and the entry left at a prefix
    is beaten by no staged candidate with the AS number in front. *)
Theorem processReceivedQueue_improves (pol : BGPPolicy) (n : N)
    (p : Prefix) :
  (∀ old, local_rib pol !! p = Some old →
     ∃ e, local_rib (processReceivedQueue pol n).1 !! p = Some e
          ∧ (e = old ∨ isBetterThan e old = true))
  ∧ (∀ cands c, received_queue pol !! p = Some cands → c ∈ cands →
       ∃ e, local_rib (processReceivedQueue pol n).1 !! p = Some e
            ∧ isBetterThan (prepend_asn n c) e = false).
Proof.
  split.
  - intros old. rewrite processReceivedQueue_lookup. intros ->.
    unfold resolve.
    destruct (default [] _) as [|c0 cs]; [by exists old; auto|].
    destruct (isBetterThan _ old) eqn:Hb; eauto.
  - rewrite processReceivedQueue_lookup. intros cands c -> Hc. simpl. unfold resolve.
    destruct cands as [|c0 cs]; [by apply elem_of_nil in Hc|].
    assert (Hbest : isBetterThan (prepend_asn n c)
                      (prepend_asn n (find_best c0 cs)) = false).
    { rewrite isBetterThan_prepend.
      destruct (find_best_split c0 cs) as (pre & post & E & H1 & H2).
      rewrite E in Hc. apply elem_of_app in Hc as [Hc|Hc].
      - by apply isBetterThan_asym, H1.
      - apply elem_of_cons in Hc as [->|Hc];
          [apply isBetterThan_irrefl|by apply H2]. }
    destruct (local_rib pol !! p) as [old|]; [|eauto].
    destruct (isBetterThan _ old) eqn:Hb; [eauto|].
    exists old. split; [done|].
    by eapply isBetterThan_unbeaten_trans.
Qed.

(** X4: the flag [processReceivedQueue] returns is false exactly when
    the RIB is left as it was. *)
Theorem processReceivedQueue_flag (pol : BGPPolicy) (n : N) :
  (processReceivedQueue pol n).2 = false
  ↔ local_rib (processReceivedQueue pol n).1 = local_rib pol.
Proof.
  assert (Hflag : (processReceivedQueue pol n).2 = true
            ↔ ∃ p cands, received_queue pol !! p = Some cands
                ∧ resolve n (local_rib pol !! p) cands ≠ local_rib pol !! p).
  { unfold processReceivedQueue. simpl.
    rewrite process_fold_flag by apply NoDup_fst_map_to_list. simpl.
    split.
    - intros [?|(p & c & Hin & Hne)]; [done|].
      apply elem_of_map_to_list in Hin. by exists p, c.
    - intros (p & c & Hq & Hne). right. exists p, c.
      split; [by apply elem_of_map_to_list|done]. }
  split.
  - intros Hf. apply map_eq. intros p.
    rewrite processReceivedQueue_lookup.
    destruct (received_queue pol !! p) as [cands|] eqn:Hq; [|done]. simpl.
    destruct (decide (resolve n (local_rib pol !! p) cands
                      = local_rib pol !! p)) as [|Hne]; [done|].
    assert ((processReceivedQueue pol n).2 = true)
      by (apply Hflag; by exists p, cands).
    congruence.
  - intros Heq. apply not_true_is_false. intros Ht.
    apply Hflag in Ht as (p & cands & Hq & Hne). apply Hne.
    rewrite <- Heq at 2. rewrite processReceivedQueue_lookup.
    by rewrite Hq.
Qed.

(** ** Reception *)

Section Reception.

Local Open Scope N_scope.

Lemma run_op_dropped_count (pol : BGPPolicy) (op : policy_op) :
  policy_class (run_op pol op) = policy_class pol
  ∧ dropped_count (run_op pol op)
    = match policy_class pol with
      | BGP => dropped_count pol
      | ROV => if is_invalid_reception op
               then (dropped_count pol + 1) mod (SIZE_MAX + 1)
               else dropped_count pol
      end.
Proof.
  destruct op as [ann|n| |ann]; simpl.
  - unfold receiveAnnouncement, ROV_receiveAnnouncement.
    destruct (policy_class pol) eqn:Hc; simpl; [done|].
    destruct (rov_invalid ann); simpl; by rewrite ?Hc.
  - by destruct (policy_class pol).
  - by destruct (policy_class pol).
  - by destruct (policy_class pol).
Qed.

Lemma receiveAnnouncement_candidates (pol : BGPPolicy) (ann : Announcement)
    (p : Prefix) :
  candidates_for (receiveAnnouncement pol ann) p
  = candidates_for pol p
    ++ (if accepts (policy_class pol) ann
        then if decide (prefix ann = p) then [ann] else []
        else []).
Proof.
  unfold candidates_for, receiveAnnouncement, ROV_receiveAnnouncement,
    BGPPolicy_receiveAnnouncement, accepts.
  assert (Hstage :
    default [] (<[prefix ann := default [] (received_queue pol !! prefix ann)
                                ++ [ann]]> (received_queue pol) !! p)
    = default [] (received_queue pol !! p)
      ++ (if decide (prefix ann = p) then [ann] else [])).
  { destruct (decide (prefix ann = p)) as [->|Hne].
    - by rewrite lookup_insert_eq.
    - rewrite lookup_insert_ne by done. by rewrite app_nil_r. }
  destruct (policy_class pol); simpl; [done|].
  destruct (rov_invalid ann); simpl; [by rewrite app_nil_r|done].
Qed.

(** X5: the counter of an ROV policy goes up by one, modulo 2^64, at
    each reception of an ROV-invalid announcement and at nothing else;
    under a BGP policy it never moves.  Any sequence of receptions,
    resolutions, clearings and seedings is covered. *)
Theorem dropped_count_counts_invalid_receptions (pol : BGPPolicy)
    (ops : list policy_op) :
  dropped_count pol ≤ SIZE_MAX →
  dropped_count (foldl run_op pol ops)
  = match policy_class pol with
    | BGP => dropped_count pol
    | ROV => (dropped_count pol + invalid_receptions ops) mod (SIZE_MAX + 1)
    end.
Proof.
  unfold invalid_receptions. revert pol.
  induction ops as [|op ops IH]; intros pol Hle.
  - simpl. destruct (policy_class pol); [done|].
    rewrite N.add_0_r, N.mod_small; [done|]. unfold SIZE_MAX in *. lia.
  - cbn [foldl List.filter].
    destruct (run_op_dropped_count pol op) as [Hc Hd].
    assert (Hle' : dropped_count (run_op pol op) ≤ SIZE_MAX).
    { rewrite Hd. destruct (policy_class pol); [done|].
      destruct (is_invalid_reception op); [|done].
      pose proof (N.mod_upper_bound (dropped_count pol + 1) (SIZE_MAX + 1)).
      unfold SIZE_MAX in *. lia. }
    rewrite (IH _ Hle'), Hc, Hd.
    destruct (policy_class pol); [done|].
    destruct (is_invalid_reception op); [|done].
    cbn [length]. rewrite Nat2N.inj_succ.
    rewrite N.Div0.add_mod_idemp_l. f_equal. lia.
Qed.

Lemma dropped_count_counts_invalid_receptions_witness :
  dropped_count
    (foldl run_op (new_policy ROV)
       [OpReceive (mkAnnouncement prefix_203 1 RelationshipType.CUSTOMER
                     true [1]);
        OpReceive (mkAnnouncement prefix_203 2 RelationshipType.CUSTOMER
                     false [2]);
        OpProcess 3;
        OpReceive (mkAnnouncement prefix_203 1 RelationshipType.PEER
                     true [1])])
  = 2.
Proof.
  rewrite (dropped_count_counts_invalid_receptions (new_policy ROV)).
  - reflexivity.
  - simpl. unfold SIZE_MAX. lia.
Defined.

(** X6: receptions stage, for each prefix, exactly the announcements of
    that prefix the policy accepts (all of them under BGP, the valid
    ones under ROV), after what was staged before and in the order of
    arrival. *)
Theorem receptions_stage_in_arrival_order (pol : BGPPolicy)
    (anns : list Announcement) (p : Prefix) :
  candidates_for (foldl receiveAnnouncement pol anns) p
  = candidates_for pol p
    ++ List.filter (λ ann, accepts (policy_class pol) ann
                           && bool_decide (prefix ann = p)) anns.
Proof.
  revert pol. induction anns as [|ann anns IH]; intros pol.
  - simpl. by rewrite app_nil_r.
  - cbn [foldl List.filter]. rewrite IH, receiveAnnouncement_candidates.
    rewrite receiveAnnouncement_class, <- app_assoc. f_equal.
    destruct (accepts (policy_class pol) ann); simpl; [|done].
    by destruct (decide (prefix ann = p)) as [Hp|Hp];
      [rewrite bool_decide_eq_true_2|rewrite bool_decide_eq_false_2].
Qed.

End Reception.

(** ** Invariants of propagation *)

Section KeyedStaging.

Implicit Types (ns : gmap N ASNode) (ann b src : Announcement)
  (x a nb s : N) (rel : RelationshipType.t) (p : Prefix).

Lemma candidates_for_Some pol p cands :
  received_queue pol !! p = Some cands → candidates_for pol p = cands.
Proof. unfold candidates_for. by intros ->. Qed.

Lemma candidates_for_elem pol p b :
  b ∈ candidates_for pol p →
  ∃ cands, received_queue pol !! p = Some cands ∧ b ∈ cands.
Proof.
  unfold candidates_for. destruct (received_queue pol !! p) as [cands|].
  - by exists cands.
  - intros H. by apply elem_of_nil in H.
Qed.

(** Under which prefix a reception stages, and when. *)
Lemma receiveAnnouncement_staged_at pol ann p cands b :
  received_queue (receiveAnnouncement pol ann) !! p = Some cands →
  b ∈ cands →
  (∃ cands0, received_queue pol !! p = Some cands0 ∧ b ∈ cands0)
  ∨ (b = ann ∧ p = prefix ann ∧ accepts (policy_class pol) ann = true).
Proof.
  intros Hq Hb. apply candidates_for_Some in Hq.
  rewrite receiveAnnouncement_candidates in Hq. subst cands.
  apply elem_of_app in Hb as [Hb|Hb].
  - left. by apply candidates_for_elem.
  - right. destruct (accepts (policy_class pol) ann);
      [|by apply elem_of_nil in Hb].
    destruct (decide (prefix ann = p)) as [<-|];
      [|by apply elem_of_nil in Hb].
    by apply list_elem_of_singleton in Hb as ->.
Qed.

Lemma deliver_staged_at s rel ann ns nb x p b :
  staged_at (deliver s rel ann ns nb) x p b →
  staged_at ns x p b
  ∨ (x = nb ∧ containsAS ann nb = false
     ∧ b = copy_with_new_hop ann s rel ∧ p = prefix ann
     ∧ ∃ k, policy_status ns nb = Some (Some k) ∧ accepts k ann = true).
Proof.
  unfold staged_at, queue_of. intros (cands & Hq & Hb).
  destruct (deliver_lookup s rel ann ns nb x)
    as [Heq|(n & pol & -> & Hc & Hn & Hp & Heq)]; rewrite Heq in Hq.
  - left. by exists cands.
  - simpl in Hq.
    destruct (receiveAnnouncement_staged_at _ _ _ _ _ Hq Hb)
      as [(cands0 & Hq0 & Hb0)|(-> & -> & Hacc)].
    + left. exists cands0. by rewrite Hn, Hp.
    + right. repeat split; try done.
      exists (policy_class pol). split; [|done].
      unfold policy_status. rewrite Hn. simpl. by rewrite Hp.
Qed.

Lemma scan_path_elem (path : list N) x :
  scan_path path x = true ↔ x ∈ path.
Proof.
  induction path as [|y path IH]; simpl.
  - split; [done|]. intros H. by apply elem_of_nil in H.
  - destruct (N.eqb_spec y x) as [->|Hne].
    + split; [|done]. intros _. by left.
    + rewrite IH. split; [by right|].
      intros H. apply elem_of_cons in H as [?|?]; [congruence|done].
Qed.

Lemma containsAS_false ann x : containsAS ann x = false ↔ x ∉ as_path ann.
Proof.
  unfold containsAS. rewrite <- scan_path_elem.
  by destruct (scan_path (as_path ann) x).
Qed.

End KeyedStaging.

Section Invariant.

Variable ns0 : gmap N ASNode.
Variables R Q : N → Prefix → Announcement → Prop.

(** What is asked of [R] and [Q]: the copy an AS makes of an entry with
    [R], for a neighbour that is not in the path and accepts it, has
    [Q]; a candidate with [Q] has [R] once committed. *)
Hypothesis Hexport : ∀ a node0 s p src rel nb k,
  ns0 !! a = Some node0 → s = a ∨ s = asn node0 →
  nb ∈ export_targets rel node0 →
  R a p src →
  (rel ≠ RelationshipType.PROVIDER → from_customer_or_origin src) →
  containsAS src nb = false →
  policy_status ns0 nb = Some (Some k) → accepts k src = true →
  Q nb (prefix src) (copy_with_new_hop src s rel).

Hypothesis Hcommit : ∀ x node0 n p c,
  ns0 !! x = Some node0 → n = x ∨ n = asn node0 →
  Q x p c → R x p (prepend_asn n c).

Implicit Types (ns : gmap N ASNode) (ann b src : Announcement)
  (x a nb s : N) (rel : RelationshipType.t) (p : Prefix)
  (rib : gmap Prefix Announcement) (nbs : list N).

Lemma inv_deliver ns a node0 s p src rel nb :
  ns0 !! a = Some node0 → s = a ∨ s = asn node0 →
  nb ∈ export_targets rel node0 →
  R a p src →
  (rel ≠ RelationshipType.PROVIDER → from_customer_or_origin src) →
  propagation_invariant ns0 R Q ns →
  propagation_invariant ns0 R Q (deliver s rel src ns nb).
Proof using Hexport.
  intros Hn0 Hs Hnb HR Hf (Hst & Hsh & Hrib & Hq).
  split; [|split; [|split]].
  - intros x. by rewrite deliver_status.
  - intros x. by rewrite deliver_shape.
  - intros x q e. rewrite deliver_rib. apply Hrib.
  - intros x q b Hb.
    destruct (deliver_staged_at _ _ _ _ _ _ _ _ Hb)
      as [Hold|(-> & Hc & -> & -> & k & Hk & Hacc)]; [by apply Hq|].
    rewrite Hst in Hk. by eapply Hexport.
Qed.

Lemma inv_deliver_all ns a node0 s p src rel nbs :
  ns0 !! a = Some node0 → s = a ∨ s = asn node0 →
  (∀ nb, nb ∈ nbs → nb ∈ export_targets rel node0) →
  R a p src →
  (rel ≠ RelationshipType.PROVIDER → from_customer_or_origin src) →
  propagation_invariant ns0 R Q ns →
  propagation_invariant ns0 R Q (foldl (deliver s rel src) ns nbs).
Proof using Hexport.
  intros Hn0 Hs Hnbs HR Hf Hinv.
  apply (foldl_preserves (propagation_invariant ns0 R Q)); [done|].
  intros ns' nb Hnb. eapply inv_deliver; eauto.
Qed.

Lemma inv_send_filtered ns a node0 s rel nbs rib :
  ns0 !! a = Some node0 → s = a ∨ s = asn node0 →
  (∀ nb, nb ∈ nbs → nb ∈ export_targets rel node0) →
  (∀ p src, rib !! p = Some src → R a p src) →
  propagation_invariant ns0 R Q ns →
  propagation_invariant ns0 R Q (send_filtered s rel nbs rib ns).
Proof using Hexport.
  intros Hn0 Hs Hnbs HR Hinv.
  apply (foldl_preserves (propagation_invariant ns0 R Q)); [done|].
  intros ns' [p src] Hin Hinv'. simpl.
  apply elem_of_map_to_list in Hin.
  destruct (not_from_customer_or_origin src) eqn:Hf; [done|].
  eapply inv_deliver_all; eauto.
  intros _. by apply from_customer_or_origin_spec.
Qed.

Lemma inv_send_all ns a node0 s nbs rib :
  ns0 !! a = Some node0 → s = a ∨ s = asn node0 →
  (∀ nb, nb ∈ nbs → nb ∈ export_targets RelationshipType.PROVIDER node0) →
  (∀ p src, rib !! p = Some src → R a p src) →
  propagation_invariant ns0 R Q ns →
  propagation_invariant ns0 R Q
    (send_all s RelationshipType.PROVIDER nbs rib ns).
Proof using Hexport.
  intros Hn0 Hs Hnbs HR Hinv.
  apply (foldl_preserves (propagation_invariant ns0 R Q)); [done|].
  intros ns' [p src] Hin Hinv'. simpl.
  apply elem_of_map_to_list in Hin.
  eapply inv_deliver_all; eauto. done.
Qed.

Lemma inv_send_up ns a :
  propagation_invariant ns0 R Q ns →
  propagation_invariant ns0 R Q (send_up ns a).
Proof using Hexport.
  intros Hinv. unfold send_up.
  destruct (ns !! a) as [node|] eqn:Hn; [|done].
  destruct (policy node) as [pol|] eqn:Hp; [|done].
  repeat case_bool_decide; try done.
  destruct Hinv as (Hst & Hsh & Hrib & Hq).
  destruct (shape_of_Some ns0 ns a node (Hsh a) Hn)
    as (node0 & Hn0 & Ha & Hprov & Hcust & Hpeer).
  eapply (inv_send_filtered ns a node0); eauto.
  - simpl. by rewrite Hprov.
  - intros p src Hsrc. apply Hrib.
    by rewrite (rib_of_lookup ns a node pol Hn Hp).
  - done.
Qed.

Lemma inv_send_across ns a :
  propagation_invariant ns0 R Q ns →
  propagation_invariant ns0 R Q (send_across ns a).
Proof using Hexport.
  intros Hinv. unfold send_across.
  destruct (ns !! a) as [node|] eqn:Hn; [|done].
  destruct (policy node) as [pol|] eqn:Hp; [|done].
  repeat case_bool_decide; try done.
  destruct Hinv as (Hst & Hsh & Hrib & Hq).
  destruct (shape_of_Some ns0 ns a node (Hsh a) Hn)
    as (node0 & Hn0 & Ha & Hprov & Hcust & Hpeer).
  eapply (inv_send_filtered ns a node0); eauto.
  - simpl. by rewrite Hpeer.
  - intros p src Hsrc. apply Hrib.
    by rewrite (rib_of_lookup ns a node pol Hn Hp).
  - done.
Qed.

Lemma inv_send_down ns a :
  propagation_invariant ns0 R Q ns →
  propagation_invariant ns0 R Q (send_down ns a).
Proof using Hexport.
  intros Hinv. unfold send_down.
  destruct (ns !! a) as [node|] eqn:Hn; [|done].
  destruct (policy node) as [pol|] eqn:Hp; [|done].
  repeat case_bool_decide; try done.
  destruct Hinv as (Hst & Hsh & Hrib & Hq).
  destruct (shape_of_Some ns0 ns a node (Hsh a) Hn)
    as (node0 & Hn0 & Ha & Hprov & Hcust & Hpeer).
  eapply (inv_send_all ns a node0); eauto.
  - simpl. by rewrite Hcust.
  - intros p src Hsrc. apply Hrib.
    by rewrite (rib_of_lookup ns a node pol Hn Hp).
  - done.
Qed.

Lemma inv_resolve ns a node pol n :
  ns !! a = Some node → policy node = Some pol →
  n = a ∨ n = asn node →
  propagation_invariant ns0 R Q ns →
  propagation_invariant ns0 R Q
    (<[a := set_policy node
              (Some (clearReceivedQueue (processReceivedQueue pol n).1))]>
       ns).
Proof using Hcommit.
  intros Hn Hp Hna (Hst & Hsh & Hrib & Hq).
  destruct (resolve_at ns a node pol n Hn Hp) as (_ & _ & H3 & H4).
  destruct (shape_of_Some ns0 ns a node (Hsh a) Hn)
    as (node0 & Hn0 & Ha & _).
  split; [|split; [|split]].
  - intros x. by rewrite H4.
  - intros x. by rewrite H3.
  - intros x p e. unfold rib_of.
    destruct (decide (x = a)) as [->|Hne].
    + rewrite lookup_insert_eq. simpl. intros He.
      destruct (processReceivedQueue_origin pol n p e He)
        as [Hold|(cands & c & Hc & Hin & ->)].
      * apply Hrib. by rewrite (rib_of_lookup ns a node pol Hn Hp).
      * eapply Hcommit; [done|by rewrite Ha|].
        apply Hq. exists cands. unfold queue_of. by rewrite Hn, Hp.
    + rewrite lookup_insert_ne by done. apply Hrib.
  - intros x p b. unfold staged_at, queue_of.
    destruct (decide (x = a)) as [->|Hne].
    + rewrite lookup_insert_eq. simpl.
      intros (cands & Hc & _). by rewrite lookup_empty in Hc.
    + rewrite lookup_insert_ne by done. apply Hq.
Qed.

Lemma inv_process ns a :
  propagation_invariant ns0 R Q ns →
  propagation_invariant ns0 R Q (process_node ns a).
Proof using Hcommit.
  intros Hinv. unfold process_node.
  destruct (ns !! a) as [node|] eqn:Hn; [|done].
  destruct (policy node) as [pol|] eqn:Hp; [|done].
  apply inv_resolve; auto.
Qed.

Lemma inv_process_across ns a :
  propagation_invariant ns0 R Q ns →
  propagation_invariant ns0 R Q (process_node_across ns a).
Proof using Hcommit.
  intros Hinv. unfold process_node_across.
  destruct (ns !! a) as [node|] eqn:Hn; [|done].
  destruct (policy node) as [pol|] eqn:Hp; [|done].
  apply inv_resolve; auto.
Qed.

Lemma inv_foldl (f : gmap N ASNode → N → gmap N ASNode) (l : list N) ns :
  (∀ ns' a, propagation_invariant ns0 R Q ns' →
            propagation_invariant ns0 R Q (f ns' a)) →
  propagation_invariant ns0 R Q ns →
  propagation_invariant ns0 R Q (foldl f ns l).
Proof.
  intros Hf H. apply (foldl_preserves (propagation_invariant ns0 R Q));
    [done|].
  intros ns' a _. apply Hf.
Qed.

Lemma inv_propagateUp ranked ns :
  propagation_invariant ns0 R Q ns →
  propagation_invariant ns0 R Q (propagateUp ranked ns).
Proof using Hexport Hcommit.
  intros Hinv. unfold propagateUp.
  apply (foldl_preserves (propagation_invariant ns0 R Q)); [done|].
  intros ns' rank _ H. unfold up_step.
  assert (H1 : propagation_invariant ns0 R Q
                 (foldl send_up ns' (rank_row ranked rank)))
    by (apply inv_foldl; [apply inv_send_up|done]).
  case_bool_decide; [|done].
  apply inv_foldl; [apply inv_process|done].
Qed.

Lemma inv_propagateAcross ns :
  propagation_invariant ns0 R Q ns →
  propagation_invariant ns0 R Q (propagateAcross ns).
Proof using Hexport Hcommit.
  intros Hinv. unfold propagateAcross, across_process_all, across_send_all.
  apply inv_foldl; [apply inv_process_across|].
  apply inv_foldl; [apply inv_send_across|done].
Qed.

Lemma inv_propagateDown ranked ns :
  propagation_invariant ns0 R Q ns →
  propagation_invariant ns0 R Q (propagateDown ranked ns).
Proof using Hexport Hcommit.
  intros Hinv. unfold propagateDown.
  apply (foldl_preserves (propagation_invariant ns0 R Q)); [done|].
  intros ns' rank _ H. unfold down_step.
  assert (H1 : propagation_invariant ns0 R Q
                 (foldl send_down ns' (rank_row ranked rank)))
    by (apply inv_foldl; [apply inv_send_down|done]).
  destruct rank; [done|].
  apply inv_foldl; [apply inv_process|done].
Qed.

(** The three phases keep [R] on the RIBs and [Q] on what is staged. *)
Lemma inv_propagate ranked :
  (∀ x p e, rib_of ns0 x !! p = Some e → R x p e) →
  (∀ x p b, staged_at ns0 x p b → Q x p b) →
  propagation_invariant ns0 R Q (propagate ranked ns0).
Proof using Hexport Hcommit.
  intros HR HQ. unfold propagate.
  apply inv_propagateDown, inv_propagateAcross, inv_propagateUp.
  by repeat split.
Qed.

End Invariant.

(** The node table [propagateAnnouncements] leaves. *)
Lemma propagateAnnouncements_nodes (g g' : ASGraph) (total : N) :
  propagateAnnouncements g = Returns (g', total) →
  nodes g' = propagate (ranked_ases g) (nodes g).
Proof.
  unfold propagateAnnouncements, propagate.
  destruct (foldl count_step _ _) as [t|f]; simpl; [|done].
  by intros [= <- _].
Qed.

(** ** What propagation keeps true of the routes *)

Lemma staged_at_staged (ns : gmap N ASNode) x p b :
  staged_at ns x p b → staged ns x b.
Proof. intros (cands & Hq & Hb). by exists p, cands. Qed.

Lemma propagate_keeps_sound (ranked : list (list N)) (ns : gmap N ASNode) :
  keyed_by_asn ns → sound_tables ns → sound_tables (propagate ranked ns).
Proof.
  intros Hkey [Hrib Hq].
  assert (Hs : ∀ a node0 s, ns !! a = Some node0 →
                 s = a ∨ s = asn node0 → s = a).
  { intros a node0 s Hn [->| ->]; [done|by apply Hkey]. }
  destruct (inv_propagate ns sound_route sound_candidate) with (ranked := ranked)
    as (_ & _ & H3 & H4); [| |done|done|done].
  - intros a node0 s p src rel nb k Hn Hsa Hnb HR Hf Hc _ _.
    apply (Hs _ _ _ Hn) in Hsa as ->.
    destruct HR as (Hp & Hnd & rest & Hpath & _).
    split; [done|]. split; [done|]. split; [by apply containsAS_false|].
    exists rest. done.
  - intros x node0 n p c Hn Hnx (Hp & Hnd & Hx & rest & Hpath).
    apply (Hs _ _ _ Hn) in Hnx as ->.
    split; [done|]. split; [by apply NoDup_cons|].
    exists (as_path c). split; [done|]. right. by exists rest.
Qed.

(** X7: propagation keeps the routes sound.  If every node is stored
    under its AS number, every RIB entry is for the prefix it is stored
    under, with a path that starts at the AS holding it and repeats no
    AS, and staged candidates are likewise sound, then the same holds
    of the tables [propagateAnnouncements] leaves; and an entry that is
    not a seed has the AS it names as next hop second in its path. *)
Theorem propagateAnnouncements_keeps_routes_sound (g g' : ASGraph)
    (total : N) :
  keyed_by_asn (nodes g) → sound_tables (nodes g) →
  propagateAnnouncements g = Returns (g', total) →
  sound_tables (nodes g').
Proof.
  intros Hkey Hs Hrun.
  rewrite (propagateAnnouncements_nodes _ _ _ Hrun).
  by apply propagate_keeps_sound.
Qed.

(** X8: an AS with an ROV policy never takes an ROV-invalid route from
    a neighbour.  If no invalid candidate is staged at an ROV AS when
    propagation starts, an invalid entry in the RIB of an ROV AS after
    [propagateAnnouncements] is an entry that RIB held before, at the
    same prefix (a seed bypasses the check). *)
Theorem rov_as_installs_no_invalid_route (g g' : ASGraph) (total : N) :
  (∀ x b, staged (nodes g) x b →
     policy_status (nodes g) x = Some (Some ROV) → rov_invalid b = false) →
  propagateAnnouncements g = Returns (g', total) →
  ∀ x p e, rib_of (nodes g') x !! p = Some e →
    policy_status (nodes g) x = Some (Some ROV) →
    rov_invalid e = true →
    rib_of (nodes g) x !! p = Some e.
Proof.
  intros Hq Hrun. rewrite (propagateAnnouncements_nodes _ _ _ Hrun).
  destruct (inv_propagate (nodes g)
              (λ x p e, policy_status (nodes g) x = Some (Some ROV) →
                        rov_invalid e = true →
                        rib_of (nodes g) x !! p = Some e)
              (λ x p b, policy_status (nodes g) x = Some (Some ROV) →
                        rov_invalid b = false))
    with (ranked := ranked_ases g) as (_ & _ & H3 & _); [| | | |done].
  - intros a node0 s p src rel nb k _ _ _ _ _ _ Hk Hacc Hrov.
    rewrite Hk in Hrov. injection Hrov as ->. simpl in Hacc.
    simpl. by destruct (rov_invalid src).
  - intros x node0 n p c _ _ HQ Hrov Hinv. simpl in Hinv.
    rewrite (HQ Hrov) in Hinv. done.
  - done.
  - intros x p b Hb. apply Hq. by eapply staged_at_staged.
Qed.

Lemma propagate_makes_no_origin (ranked : list (list N))
    (ns : gmap N ASNode) :
  (∀ x b, staged ns x b → received_from b ≠ RelationshipType.ORIGIN) →
  ∀ x p e, rib_of (propagate ranked ns) x !! p = Some e →
    received_from e = RelationshipType.ORIGIN →
    rib_of ns x !! p = Some e.
Proof.
  intros Hq.
  destruct (inv_propagate ns
              (λ x p e, received_from e = RelationshipType.ORIGIN →
                        rib_of ns x !! p = Some e)
              (λ x p b, received_from b ≠ RelationshipType.ORIGIN))
    with (ranked := ranked) as (_ & _ & H3 & _); [| | | |done].
  - intros a node0 s p src rel nb k _ _ Hnb _ _ _ _ _. simpl.
    intros ->. simpl in Hnb. by apply elem_of_nil in Hnb.
  - intros x node0 n p c _ _ HQ Ho. simpl in Ho. done.
  - done.
  - intros x p b Hb. apply (Hq x). by eapply staged_at_staged.
Qed.

(** X9: propagation makes no ORIGIN entry.  If no candidate tagged
    ORIGIN is staged when propagation starts, an entry tagged ORIGIN
    after [propagateAnnouncements] is an entry the same RIB held before
    at the same prefix. *)
Theorem origin_routes_are_seeds (g g' : ASGraph) (total : N) :
  (∀ x b, staged (nodes g) x b →
     received_from b ≠ RelationshipType.ORIGIN) →
  propagateAnnouncements g = Returns (g', total) →
  ∀ x p e, rib_of (nodes g') x !! p = Some e →
    received_from e = RelationshipType.ORIGIN →
    rib_of (nodes g) x !! p = Some e.
Proof.
  intros Hq Hrun. rewrite (propagateAnnouncements_nodes _ _ _ Hrun).
  by apply propagate_makes_no_origin.
Qed.

(** X10: propagation carries the content of the entries it starts from
    and only that.  If nothing is staged when propagation starts, every
    RIB entry after [propagateAnnouncements] has the prefix and the ROV
    flag of an entry some RIB held before, and a path that ends with
    the path of that entry: ASes are only ever put in front. *)
Theorem routes_extend_initial_entries (g g' : ASGraph) (total : N) :
  (∀ x b, ¬ staged (nodes g) x b) →
  propagateAnnouncements g = Returns (g', total) →
  ∀ x p e, rib_of (nodes g') x !! p = Some e →
    extends_entry_of (nodes g) e.
Proof.
  intros Hq Hrun. rewrite (propagateAnnouncements_nodes _ _ _ Hrun).
  destruct (inv_propagate (nodes g)
              (λ _ _ e, extends_entry_of (nodes g) e)
              (λ _ _ b, extends_entry_of (nodes g) b))
    with (ranked := ranked_ases g) as (_ & _ & H3 & _); [| | | |done].
  - intros a node0 s p src rel nb k _ _ _ HR _ _ _ _.
    destruct HR as (y & p0 & a0 & hops & Ha & Hp & Hf & Hpath).
    by exists y, p0, a0, hops.
  - intros x node0 n p c _ _ (y & p0 & a0 & hops & Ha & Hp & Hf & Hpath).
    exists y, p0, a0, (n :: hops). simpl. by rewrite Hpath.
  - intros x p e He. exists x, p, e, []. done.
  - intros x p b Hb. destruct (Hq x b). by eapply staged_at_staged.
Qed.

(** X11: routes only travel over the links of the graph, and the tag of
    an entry names the kind of link.  If every node is stored under its
    AS number and nothing is staged when propagation starts, a RIB
    entry of AS [x] after [propagateAnnouncements] is either the entry
    that RIB held before, or its next hop is a node that has [x] among
    its providers (tag CUSTOMER), its peers (tag PEER) or its customers
    (tag PROVIDER). *)
Theorem routes_follow_links (g g' : ASGraph) (total : N) :
  keyed_by_asn (nodes g) →
  (∀ x b, ¬ staged (nodes g) x b) →
  propagateAnnouncements g = Returns (g', total) →
  ∀ x p e, rib_of (nodes g') x !! p = Some e →
    rib_of (nodes g) x !! p = Some e
    ∨ learned_over_link (nodes g) x e.
Proof.
  intros Hkey Hq Hrun. rewrite (propagateAnnouncements_nodes _ _ _ Hrun).
  destruct (inv_propagate (nodes g)
              (λ x p e, rib_of (nodes g) x !! p = Some e
                        ∨ learned_over_link (nodes g) x e)
              (λ x _ b, learned_over_link (nodes g) x b))
    with (ranked := ranked_ases g) as (_ & _ & H3 & _); [| | | |done].
  - intros a node0 s p src rel nb k Hn Hs Hnb _ _ _ _ _.
    assert (s = a) as -> by (destruct Hs as [->| ->]; [done|by apply Hkey]).
    exists node0. done.
  - intros x node0 n p c _ _ HQ. right. done.
  - intros x p e He. by left.
  - intros x p b Hb. destruct (Hq x b). by eapply staged_at_staged.
Qed.

(** ** RIBs only improve *)

Section Monotone.

Implicit Types (ns : gmap N ASNode) (x a : N).

Lemma processReceivedQueue_keeps (pol : BGPPolicy) (n : N) (p : Prefix)
    (old : Announcement) :
  local_rib pol !! p = Some old →
  ∃ e, local_rib (processReceivedQueue pol n).1 !! p = Some e
       ∧ (e = old ∨ isBetterThan e old = true).
Proof.
  rewrite processReceivedQueue_lookup. intros ->. unfold resolve.
  destruct (default [] _) as [|c0 cs]; [by exists old; auto|].
  destruct (isBetterThan _ old) eqn:Hb; eauto.
Qed.

Lemma never_worse_refl ns : never_worse ns ns.
Proof. intros x p old H. exists old. auto. Qed.

Lemma never_worse_trans ns1 ns2 ns3 :
  never_worse ns1 ns2 → never_worse ns2 ns3 → never_worse ns1 ns3.
Proof.
  intros H12 H23 x p old H.
  destruct (H12 x p old H) as (e & He & Hbe).
  destruct (H23 x p e He) as (e' & He' & Hbe').
  exists e'. split; [done|].
  destruct Hbe as [->|Hbe]; [done|]. right.
  destruct Hbe' as [->|Hbe']; [done|].
  by eapply isBetterThan_trans.
Qed.

Lemma never_worse_sends_only ns ns' : sends_only ns ns' → never_worse ns ns'.
Proof.
  intros Hso x p old H. exists old. destruct (Hso x) as (-> & _). auto.
Qed.

Lemma never_worse_resolve ns a node pol n :
  ns !! a = Some node → policy node = Some pol →
  never_worse ns
    (<[a := set_policy node
              (Some (clearReceivedQueue (processReceivedQueue pol n).1))]>
       ns).
Proof.
  intros Hn Hp x p old. unfold rib_of.
  destruct (decide (x = a)) as [->|Hne].
  - rewrite lookup_insert_eq, Hn, Hp. simpl.
    apply processReceivedQueue_keeps.
  - rewrite lookup_insert_ne by done. intros H. exists old. auto.
Qed.

Lemma never_worse_process ns a : never_worse ns (process_node ns a).
Proof.
  unfold process_node.
  destruct (ns !! a) as [node|] eqn:Hn; [|apply never_worse_refl].
  destruct (policy node) as [pol|] eqn:Hp; [|apply never_worse_refl].
  by apply never_worse_resolve.
Qed.

Lemma never_worse_process_across ns a :
  never_worse ns (process_node_across ns a).
Proof.
  unfold process_node_across.
  destruct (ns !! a) as [node|] eqn:Hn; [|apply never_worse_refl].
  destruct (policy node) as [pol|] eqn:Hp; [|apply never_worse_refl].
  by apply never_worse_resolve.
Qed.

Lemma never_worse_foldl {B : Type} (f : gmap N ASNode → B → gmap N ASNode)
    (l : list B) ns :
  (∀ ns' b, never_worse ns' (f ns' b)) → never_worse ns (foldl f ns l).
Proof.
  intros Hf.
  apply (foldl_preserves (never_worse ns)); [apply never_worse_refl|].
  intros ns' b _ H. eapply never_worse_trans; [done|apply Hf].
Qed.

Lemma never_worse_propagate (ranked : list (list N)) ns :
  never_worse ns (propagate ranked ns).
Proof.
  unfold propagate.
  apply (never_worse_trans _ (propagateUp ranked ns));
    [|apply (never_worse_trans _ (propagateAcross (propagateUp ranked ns)))].
  - unfold propagateUp. apply never_worse_foldl. intros ns' rank.
    unfold up_step.
    assert (H1 : never_worse ns' (foldl send_up ns' (rank_row ranked rank))).
    { apply never_worse_foldl. intros ns'' a.
      apply never_worse_sends_only, send_up_sends_only. }
    case_bool_decide; [|done].
    eapply never_worse_trans; [done|].
    apply never_worse_foldl. apply never_worse_process.
  - unfold propagateAcross.
    apply (never_worse_trans _ (across_send_all (propagateUp ranked ns)));
      unfold across_process_all, across_send_all.
    + apply never_worse_foldl. intros ns'' a.
      apply never_worse_sends_only, send_across_sends_only.
    + apply never_worse_foldl. apply never_worse_process_across.
  - unfold propagateDown. apply never_worse_foldl. intros ns' rank.
    unfold down_step.
    assert (H1 : never_worse ns'
                   (foldl send_down ns' (rank_row ranked rank))).
    { apply never_worse_foldl. intros ns'' a.
      apply never_worse_sends_only, send_down_sends_only. }
    destruct rank; [done|].
    eapply never_worse_trans; [done|].
    apply never_worse_foldl. apply never_worse_process.
Qed.

End Monotone.

(** X12: propagation never withdraws a route.  Every RIB entry there is
    when [propagateAnnouncements] starts is, when it returns, still in
    the RIB or replaced by an entry that beats it. *)
Theorem propagation_never_withdraws (g g' : ASGraph) (total : N) :
  propagateAnnouncements g = Returns (g', total) →
  never_worse (nodes g) (nodes g').
Proof.
  intros Hrun. rewrite (propagateAnnouncements_nodes _ _ _ Hrun).
  apply never_worse_propagate.
Qed.

(** X21: an origin keeps its own route.  If no candidate tagged ORIGIN
    is staged when propagation starts, an ORIGIN entry of a RIB is still
    that RIB's entry for the prefix when [propagateAnnouncements]
    returns: nothing a neighbour sends replaces a seed. *)
Theorem origin_keeps_its_route (g g' : ASGraph) (total : N) :
  (∀ x b, staged (nodes g) x b →
     received_from b ≠ RelationshipType.ORIGIN) →
  propagateAnnouncements g = Returns (g', total) →
  ∀ x p e, rib_of (nodes g) x !! p = Some e →
    received_from e = RelationshipType.ORIGIN →
    rib_of (nodes g') x !! p = Some e.
Proof.
  intros Hq Hrun x p e He Ho.
  rewrite (propagateAnnouncements_nodes _ _ _ Hrun).
  destruct (never_worse_propagate (ranked_ases g) (nodes g) x p e He)
    as (e' & He' & [->|Hb]); [done|].
  assert (Ho' : received_from e' = RelationshipType.ORIGIN).
  { apply isBetterThan_spec in Hb. unfold selection_key in Hb.
    rewrite Ho in Hb. simpl in Hb.
    destruct (received_from e'); simpl in Hb; [done|lia..]. }
  pose proof (propagate_makes_no_origin (ranked_ases g) (nodes g) Hq
                x p e' He' Ho') as Hold.
  assert (e' = e) as -> by congruence.
  by rewrite isBetterThan_irrefl in Hb.
Qed.

(** ** The graph [addRelationship] builds *)

Section Build.

Implicit Types (g : ASGraph) (ns : gmap N ASNode) (x y a : N)
  (rels : list (N * N * RelationType.t)).

Lemma getOrCreateNode_lookup g a x :
  nodes (getOrCreateNode g a) !! x
  = match nodes g !! x with
    | Some n => Some n
    | None => if decide (x = a) then Some (ASNode_new a) else None
    end.
Proof.
  unfold getOrCreateNode. destruct (nodes g !! a) as [n|] eqn:Hn; simpl.
  - destruct (nodes g !! x) as [n'|] eqn:Hx; [done|].
    case_decide; [congruence|done].
  - destruct (decide (x = a)) as [->|Hne].
    + by rewrite lookup_insert_eq, Hn.
    + rewrite lookup_insert_ne by done. by destruct (nodes g !! x).
Qed.

Lemma addRelationship_lookup g as1 as2 rel_type x :
  match nodes (addRelationship g as1 as2 rel_type) !! x with
  | None => node_before g as1 as2 x = None
  | Some n' =>
      ∃ n, node_before g as1 as2 x = Some n
        ∧ asn n' = asn n ∧ policy n' = policy n
        ∧ propagation_rank n' = propagation_rank n
        ∧ (∀ y, y ∈ customers n' ↔
             y ∈ customers n
             ∨ (rel_type = RelationType.CUSTOMER ∧ x = as1 ∧ y = as2)
             ∨ (rel_type = RelationType.PROVIDER ∧ x = as2 ∧ y = as1))
        ∧ (∀ y, y ∈ providers n' ↔
             y ∈ providers n
             ∨ (rel_type = RelationType.PROVIDER ∧ x = as1 ∧ y = as2)
             ∨ (rel_type = RelationType.CUSTOMER ∧ x = as2 ∧ y = as1))
        ∧ (∀ y, y ∈ peers n' ↔
             y ∈ peers n
             ∨ (rel_type = RelationType.PEER
                ∧ ((x = as1 ∧ y = as2) ∨ (x = as2 ∧ y = as1))))
  end.
Proof.
  unfold addRelationship, node_before. cbn [nodes].
  assert (Hbase : nodes (getOrCreateNode (getOrCreateNode g as1) as2) !! x
                  = match nodes g !! x with
                    | Some n => Some n
                    | None => if decide (x = as1 ∨ x = as2)
                              then Some (ASNode_new x) else None
                    end).
  { rewrite !getOrCreateNode_lookup.
    destruct (nodes g !! x) as [n|]; [done|].
    destruct (decide (x = as1)) as [->|H1].
    - by rewrite decide_True by auto.
    - destruct (decide (x = as2)) as [->|H2].
      + by rewrite decide_True by auto.
      + by rewrite decide_False by tauto. }
  unfold link.
  destruct (decide (x = as1)) as [E1|E1];
    destruct (decide (x = as2)) as [E2|E2]; subst;
    destruct rel_type;
    repeat (rewrite lookup_alter_eq || rewrite lookup_alter_ne by done);
    rewrite Hbase; clear Hbase;
    (destruct (nodes g !! _) as [n|] eqn:Hn);
    repeat case_decide; simpl; try done; try tauto;
    eexists; (split; [reflexivity|]); simpl;
    (split; [done|]); (split; [done|]); (split; [done|]);
    (split; [|split]); intros y;
    rewrite ?elem_of_app, ?elem_of_cons, ?elem_of_nil;
    naive_solver.
Qed.

Lemma build_graph_snoc rels as1 as2 rel_type :
  build_graph (rels ++ [(as1, as2, rel_type)])
  = addRelationship (build_graph rels) as1 as2 rel_type.
Proof. unfold build_graph. by rewrite foldl_app. Qed.

Lemma makes_customer_mentioned rels x y :
  makes_customer rels x y → mentioned rels x.
Proof. intros [H|H]; eexists; (split; [exact H|]); simpl; auto. Qed.

Lemma makes_provider_mentioned rels x y :
  makes_provider rels x y → mentioned rels x.
Proof. intros [H|H]; eexists; (split; [exact H|]); simpl; auto. Qed.

Lemma makes_peer_mentioned rels x y :
  makes_peer rels x y → mentioned rels x.
Proof. intros [H|H]; eexists; (split; [exact H|]); simpl; auto. Qed.

Lemma mentioned_snoc rels as1 as2 rel_type x :
  mentioned (rels ++ [(as1, as2, rel_type)]) x
  ↔ mentioned rels x ∨ x = as1 ∨ x = as2.
Proof.
  unfold mentioned. split.
  - intros (r & Hr & Hx). apply elem_of_app in Hr as [Hr|Hr].
    + left. by exists r.
    + apply list_elem_of_singleton in Hr as ->. simpl in Hx.
      right. destruct Hx; auto.
  - intros [(r & Hr & Hx)|Hx].
    + exists r. split; [|done]. apply elem_of_app. by left.
    + exists (as1, as2, rel_type). split.
      * apply elem_of_app. right. by apply list_elem_of_singleton.
      * simpl. destruct Hx; auto.
Qed.

Lemma makes_customer_snoc rels as1 as2 rel_type x y :
  makes_customer (rels ++ [(as1, as2, rel_type)]) x y
  ↔ makes_customer rels x y
    ∨ (rel_type = RelationType.CUSTOMER ∧ x = as1 ∧ y = as2)
    ∨ (rel_type = RelationType.PROVIDER ∧ x = as2 ∧ y = as1).
Proof.
  unfold makes_customer.
  rewrite !elem_of_app, !list_elem_of_singleton. naive_solver.
Qed.

Lemma makes_provider_snoc rels as1 as2 rel_type x y :
  makes_provider (rels ++ [(as1, as2, rel_type)]) x y
  ↔ makes_provider rels x y
    ∨ (rel_type = RelationType.PROVIDER ∧ x = as1 ∧ y = as2)
    ∨ (rel_type = RelationType.CUSTOMER ∧ x = as2 ∧ y = as1).
Proof.
  unfold makes_provider.
  rewrite !elem_of_app, !list_elem_of_singleton. naive_solver.
Qed.

Lemma makes_peer_snoc rels as1 as2 rel_type x y :
  makes_peer (rels ++ [(as1, as2, rel_type)]) x y
  ↔ makes_peer rels x y
    ∨ (rel_type = RelationType.PEER
       ∧ ((x = as1 ∧ y = as2) ∨ (x = as2 ∧ y = as1))).
Proof.
  unfold makes_peer.
  rewrite !elem_of_app, !list_elem_of_singleton. naive_solver.
Qed.

Lemma build_graph_lookup rels x :
  match nodes (build_graph rels) !! x with
  | None => ¬ mentioned rels x
  | Some n =>
      mentioned rels x ∧ asn n = x ∧ policy n = None
      ∧ propagation_rank n = (-1)%Z
      ∧ (∀ y, y ∈ customers n ↔ makes_customer rels x y)
      ∧ (∀ y, y ∈ providers n ↔ makes_provider rels x y)
      ∧ (∀ y, y ∈ peers n ↔ makes_peer rels x y)
  end.
Proof.
  induction rels as [|[[as1 as2] rel_type] rels IH] using rev_ind.
  - simpl. rewrite lookup_empty. intros (r & Hr & _).
    by apply elem_of_nil in Hr.
  - rewrite build_graph_snoc.
    pose proof (addRelationship_lookup (build_graph rels) as1 as2
                  rel_type x) as Hstep.
    unfold node_before in Hstep.
    destruct (nodes (addRelationship _ _ _ _) !! x) as [n'|].
    + destruct Hstep as (n & Hn & Hasn & Hpol & Hrank & Hc & Hp & Hpe).
      rewrite Hasn, Hpol, Hrank.
      destruct (nodes (build_graph rels) !! x) as [n0|].
      * injection Hn as ->.
        destruct IH as (Hm & -> & -> & -> & Hc0 & Hp0 & Hpe0).
        split; [apply mentioned_snoc; by left|].
        do 3 (split; [done|]).
        split; [|split]; intros y.
        -- rewrite Hc, makes_customer_snoc, Hc0. done.
        -- rewrite Hp, makes_provider_snoc, Hp0. done.
        -- rewrite Hpe, makes_peer_snoc, Hpe0. done.
      * case_decide as Hx; [|done]. injection Hn as <-. simpl.
        split; [apply mentioned_snoc; by right|].
        do 3 (split; [done|]).
        split; [|split]; intros y.
        -- rewrite Hc, makes_customer_snoc. simpl. rewrite elem_of_nil.
           split; [tauto|]. intros [H|H]; [|tauto].
           destruct IH. by eapply makes_customer_mentioned.
        -- rewrite Hp, makes_provider_snoc. simpl. rewrite elem_of_nil.
           split; [tauto|]. intros [H|H]; [|tauto].
           destruct IH. by eapply makes_provider_mentioned.
        -- rewrite Hpe, makes_peer_snoc. simpl. rewrite elem_of_nil.
           split; [tauto|]. intros [H|H]; [|tauto].
           destruct IH. by eapply makes_peer_mentioned.
    + destruct (nodes (build_graph rels) !! x) as [n0|]; [done|].
      case_decide as Hx; [done|].
      rewrite mentioned_snoc. tauto.
Qed.

Lemma addRelationship_dom g as1 as2 rel_type :
  asn_set g = dom (nodes g) →
  asn_set (addRelationship g as1 as2 rel_type)
  = dom (nodes (addRelationship g as1 as2 rel_type)).
Proof.
  intros Hdom.
  assert (Hgoc : ∀ g' a, asn_set g' = dom (nodes g') →
            asn_set (getOrCreateNode g' a) = dom (nodes (getOrCreateNode g' a))).
  { intros g' a Hg'. unfold getOrCreateNode.
    destruct (nodes g' !! a); [done|]. simpl.
    rewrite dom_insert_L. by rewrite Hg'. }
  unfold addRelationship. cbn [nodes asn_set].
  rewrite (Hgoc _ as2 (Hgoc g as1 Hdom)).
  unfold link. destruct rel_type; by rewrite !dom_alter_L.
Qed.

End Build.

(** X13: the graph a sequence of [addRelationship] calls builds.  An AS
    is a node exactly when a line names it; the node is stored under its
    AS number, without a policy and unranked; and [y] is among its
    customers, providers or peers exactly when a line says so, read from
    either end: the line (x, y, CUSTOMER) or (y, x, PROVIDER) makes [y]
    a customer of [x], and so on. *)
Theorem build_graph_adjacency (rels : list (N * N * RelationType.t))
    (x : N) :
  match getNode (build_graph rels) x with
  | None => ¬ mentioned rels x
  | Some n =>
      mentioned rels x ∧ asn n = x ∧ policy n = None
      ∧ propagation_rank n = (-1)%Z
      ∧ (∀ y, y ∈ customers n ↔ makes_customer rels x y)
      ∧ (∀ y, y ∈ providers n ↔ makes_provider rels x y)
      ∧ (∀ y, y ∈ peers n ↔ makes_peer rels x y)
  end.
Proof. apply build_graph_lookup. Qed.

(** X14: the book-keeping of [addRelationship].  [hasNode], which reads
    the set of AS numbers, agrees with the node table; the edge counter
    is the number of calls, and it is the sum of the two counters by
    kind, which count the peer lines and the others. *)
Theorem build_graph_counters (rels : list (N * N * RelationType.t)) :
  let g := build_graph rels in
  (∀ x, hasNode g x = true ↔ is_Some (getNode g x))
  ∧ edge_count g = N.of_nat (length rels)
  ∧ peer_edges g = N.of_nat (length (List.filter is_peer_line rels))
  ∧ (provider_customer_edges g + peer_edges g = edge_count g)%N.
Proof.
  intros g. subst g.
  assert (Hdom : asn_set (build_graph rels) = dom (nodes (build_graph rels))).
  { unfold build_graph.
    apply (foldl_preserves (λ g, asn_set g = dom (nodes g))).
    - simpl. by rewrite dom_empty_L.
    - intros g r _. apply addRelationship_dom. }
  split.
  { intros x. unfold hasNode, getNode. rewrite Hdom.
    rewrite bool_decide_eq_true. apply elem_of_dom. }
  clear Hdom.
  induction rels as [|[[as1 as2] rel_type] rels IH] using rev_ind.
  - done.
  - rewrite build_graph_snoc. destruct IH as (He & Hp & Hs).
    rewrite length_app, List.filter_app, length_app. cbn [length List.filter].
    unfold addRelationship. cbn [edge_count peer_edges provider_customer_edges].
    assert (Hgoc : ∀ g' a, edge_count (getOrCreateNode g' a) = edge_count g'
                 ∧ peer_edges (getOrCreateNode g' a) = peer_edges g'
                 ∧ provider_customer_edges (getOrCreateNode g' a)
                   = provider_customer_edges g').
    { intros g' a. unfold getOrCreateNode. by destruct (nodes g' !! a). }
    destruct (Hgoc (getOrCreateNode (build_graph rels) as1) as2)
      as (-> & -> & ->).
    destruct (Hgoc (build_graph rels) as1) as (-> & -> & ->).
    rewrite He, Hp. rewrite He, Hp in Hs.
    set (k := length (List.filter is_peer_line rels)) in *.
    destruct rel_type; simpl; lia.
Qed.

(** ** Which ASes deploy ROV *)

Section Deploy.

Implicit Types (g : ASGraph) (ns : gmap N ASNode) (x a : N)
  (lines : list string).

Lemma load_rov_asn_other g a x :
  x ≠ a ∨ a = 0%N →
  nodes (load_rov_asn g a) !! x = nodes g !! x
  ∧ (x ∈ rov_asns (load_rov_asn g a) ↔ x ∈ rov_asns g).
Proof.
  intros Hx. unfold load_rov_asn.
  destruct (N.eqb_spec a 0) as [->|Ha]; [done|]. simpl.
  destruct Hx as [Hx|Hx]; [|done]. split.
  - destruct (nodes g !! a) as [n|]; [|done].
    destruct (policy n); [|done]. by rewrite lookup_insert_ne.
  - set_solver.
Qed.

Lemma load_rov_asn_self g a :
  a ≠ 0%N →
  shape_of (nodes (load_rov_asn g a)) a = shape_of (nodes g) a
  ∧ policy_status (nodes (load_rov_asn g a)) a
    = upgrade_status (policy_status (nodes g) a)
  ∧ rib_of (nodes (load_rov_asn g a)) a = ∅
  ∧ a ∈ rov_asns (load_rov_asn g a).
Proof.
  intros Ha. unfold load_rov_asn.
  destruct (N.eqb_spec a 0) as [?|_]; [done|]. simpl.
  unfold shape_of, policy_status, rib_of, upgrade_status.
  split; [|split; [|split; [|set_solver]]];
    destruct (nodes g !! a) as [n|] eqn:Hn; simpl; rewrite ?Hn; try done;
    destruct (policy n) as [pol|] eqn:Hp; simpl;
    rewrite ?lookup_insert_eq, ?Hn; simpl; rewrite ?Hp; done.
Qed.

Lemma load_rov_asn_shape g a x :
  shape_of (nodes (load_rov_asn g a)) x = shape_of (nodes g) x.
Proof.
  destruct (decide (x ≠ a ∨ a = 0%N)) as [Hx|Hx].
  - unfold shape_of. by destruct (load_rov_asn_other g a x Hx) as [-> _].
  - assert (x = a ∧ a ≠ 0%N) as [-> Ha].
    { destruct (decide (x = a)), (decide (a = 0%N)); tauto. }
    by destruct (load_rov_asn_self g a Ha) as [-> _].
Qed.

Lemma upgrade_status_idemp s :
  upgrade_status (upgrade_status s) = upgrade_status s.
Proof. by destruct s as [[k|]|]. Qed.

Lemma loadROVASNs_snoc g lines line :
  loadROVASNs g (lines ++ [line])
  = match rov_line_asn line with
    | Some a => load_rov_asn (loadROVASNs g lines) a
    | None => loadROVASNs g lines
    end.
Proof. unfold loadROVASNs. by rewrite foldl_app. Qed.

Lemma rov_listed_snoc lines line x :
  rov_listed (lines ++ [line]) x
  ↔ rov_listed lines x ∨ (x ≠ 0%N ∧ rov_line_asn line = Some x).
Proof.
  unfold rov_listed. split.
  - intros (Hx & l & Hl & Hp). apply elem_of_app in Hl as [Hl|Hl].
    + left. split; [done|]. by exists l.
    + apply list_elem_of_singleton in Hl as ->. by right.
  - intros [(Hx & l & Hl & Hp)|(Hx & Hp)]; (split; [done|]).
    + exists l. split; [|done]. apply elem_of_app. by left.
    + exists line. split; [|done]. apply elem_of_app. right.
      by apply list_elem_of_singleton.
Qed.

Lemma rov_listed_dec lines x : rov_listed lines x ∨ ¬ rov_listed lines x.
Proof.
  destruct (decide (x ≠ 0%N ∧ Exists (λ l, rov_line_asn l = Some x) lines))
    as [[H0 He]|Hn].
  - left. split; [done|]. apply Exists_exists in He as (l & Hl & Hp).
    by exists l.
  - right. intros (H0 & l & Hl & Hp). apply Hn. split; [done|].
    apply Exists_exists. by exists l.
Qed.

Lemma loadROVASNs_spec g lines x :
  shape_of (nodes (loadROVASNs g lines)) x = shape_of (nodes g) x
  ∧ (rov_listed lines x →
       policy_status (nodes (loadROVASNs g lines)) x
         = upgrade_status (policy_status (nodes g) x)
       ∧ rib_of (nodes (loadROVASNs g lines)) x = ∅
       ∧ x ∈ rov_asns (loadROVASNs g lines))
  ∧ (¬ rov_listed lines x →
       nodes (loadROVASNs g lines) !! x = nodes g !! x
       ∧ (x ∈ rov_asns (loadROVASNs g lines) ↔ x ∈ rov_asns g)).
Proof.
  induction lines as [|line lines IH] using rev_ind.
  - simpl. split; [done|]. split; [|done].
    intros (_ & l & Hl & _). by apply elem_of_nil in Hl.
  - rewrite loadROVASNs_snoc. destruct IH as (Hsh & Hin & Hout).
    destruct (rov_line_asn line) as [a|] eqn:Hline.
    2:{ split; [done|]. split.
        - intros Hl. apply Hin. apply rov_listed_snoc in Hl as [?|[_ ?]];
            [done|congruence].
        - intros Hl. apply Hout. intros Hl'. apply Hl.
          apply rov_listed_snoc. by left. }
    split; [by rewrite load_rov_asn_shape|].
    destruct (decide (x ≠ a ∨ a = 0%N)) as [Hx|Hx].
    + destruct (load_rov_asn_other (loadROVASNs g lines) a x Hx)
        as [Hn Hr].
      assert (Hiff : rov_listed (lines ++ [line]) x ↔ rov_listed lines x).
      { rewrite rov_listed_snoc. split; [|by left].
        intros [?|[Hx0 Hp]]; [done|]. rewrite Hline in Hp.
        injection Hp as ->. destruct Hx; done. }
      rewrite Hiff. unfold policy_status, rib_of. rewrite Hn, Hr.
      split; [apply Hin|apply Hout].
    + assert (x = a ∧ a ≠ 0%N) as [-> Ha].
      { destruct (decide (x = a)), (decide (a = 0%N)); tauto. }
      destruct (load_rov_asn_self (loadROVASNs g lines) a Ha)
        as (_ & Hst & Hrib & Hr).
      split.
      * intros _. split; [|done]. rewrite Hst.
        destruct (rov_listed_dec lines a) as [Hl|Hl].
        -- destruct (Hin Hl) as (-> & _). apply upgrade_status_idemp.
        -- destruct (Hout Hl) as (Hn & _). unfold policy_status.
           by rewrite Hn.
      * intros Hl. destruct Hl. apply rov_listed_snoc. by right.
Qed.

Lemma initializeBGP_status g x :
  policy_status (nodes (initializeBGP g)) x
  = match policy_status (nodes g) x with
    | Some None => Some (Some BGP)
    | s => s
    end.
Proof.
  unfold policy_status, initializeBGP. simpl. rewrite lookup_fmap.
  destruct (nodes g !! x) as [n|]; simpl; [|done].
  destruct (policy n) as [pol|] eqn:Hp; simpl; by rewrite ?Hp.
Qed.

Lemma loadROVASNs_no_policies g lines :
  no_policies (nodes g) → nodes (loadROVASNs g lines) = nodes g.
Proof.
  intros Hno. unfold loadROVASNs.
  apply (foldl_preserves (λ g', nodes g' = nodes g)); [done|].
  intros g' line _ Hg'. destruct (rov_line_asn line) as [a|]; [|done].
  unfold load_rov_asn. destruct (a =? 0)%N; [done|]. simpl.
  rewrite Hg'. destruct (nodes g !! a) as [n|] eqn:Hn; [|done].
  by rewrite (Hno a n Hn).
Qed.

End Deploy.


(** X16: ROV is deployed only if [initializeBGP] ran first.  On a graph
    whose nodes have no policy yet, [loadROVASNs] changes no node, so
    [initializeBGP] after it gives every node a plain BGP policy; in the
    other order every listed node ends with an ROV policy and every
    other node with a BGP policy. *)
Theorem rov_deployment_needs_policies (g : ASGraph) (lines : list string)
    (x : N) :
  no_policies (nodes g) → is_Some (nodes g !! x) →
  policy_status (nodes (initializeBGP (loadROVASNs g lines))) x
    = Some (Some BGP)
  ∧ (rov_listed lines x →
       policy_status (nodes (loadROVASNs (initializeBGP g) lines)) x
         = Some (Some ROV))
  ∧ (¬ rov_listed lines x →
       policy_status (nodes (loadROVASNs (initializeBGP g) lines)) x
         = Some (Some BGP)).
Proof.
  intros Hno [n Hn].
  assert (Hst : policy_status (nodes g) x = Some None).
  { unfold policy_status. rewrite Hn. simpl. by rewrite (Hno x n Hn). }
  assert (Hinit : policy_status (nodes (initializeBGP g)) x
                  = Some (Some BGP))
    by (by rewrite initializeBGP_status, Hst).
  split; [|split].
  - rewrite initializeBGP_status. unfold policy_status.
    rewrite (loadROVASNs_no_policies g lines Hno), Hn. simpl.
    by rewrite (Hno x n Hn).
  - intros Hl.
    destruct (loadROVASNs_spec (initializeBGP g) lines x) as (_ & Hin & _).
    destruct (Hin Hl) as (-> & _). by rewrite Hinit.
  - intros Hl.
    destruct (loadROVASNs_spec (initializeBGP g) lines x) as (_ & _ & Hout).
    destruct (Hout Hl) as (Hnode & _).
    unfold policy_status in *. by rewrite Hnode.
Qed.

(** ** Cycle detection raises no false alarm *)

Section Search.

Variable ns : gmap N ASNode.
Variable check_providers : bool.

Implicit Types (current parent x y : N) (visited stack : gset N).

Lemma unvisited_fewer current visited (v : gset N) :
  is_Some (ns !! current) → current ∉ visited →
  {[current]} ∪ visited ⊆ v →
  (size (dom ns ∖ v) < size (dom ns ∖ visited))%nat.
Proof.
  intros Hin Hc Hsub. apply subset_size.
  apply elem_of_dom in Hin. set_solver.
Qed.

(** A search from an AS that was not visited, with a stack of ASes that
    all reach it, returns; if it reports a cycle there is one along the
    edges it follows; if not, it leaves the stack as it found it. *)
Lemma hasCycleDFS_spec fuel :
  ∀ current parent visited stack,
    current ∉ visited → stack ⊆ visited →
    (∀ s, s ∈ stack → tc (search_edge ns check_providers) s current) →
    (size (dom ns ∖ visited) < fuel)%nat →
    ∃ r, hasCycleDFS fuel ns check_providers current parent visited stack
         = Some r
      ∧ {[current]} ∪ visited ⊆ dfs_visited r
      ∧ (dfs_found r = true →
           ∃ x, tc (search_edge ns check_providers) x x)
      ∧ (dfs_found r = false → dfs_stack r = stack).
Proof.
  induction fuel as [|fuel IH]; intros current parent visited stack
    Hcur Hsub Hreach Hfuel; [lia|].
  cbn [hasCycleDFS].
  destruct (ns !! current) as [node|] eqn:Hnode.
  2:{ eexists. split; [done|]. simpl. split; [done|]. split; [done|].
      intros _. set_solver. }
  set (neighbors := if check_providers then providers node
                    else customers node).
  assert (Hedge : ∀ nb, nb ∈ neighbors →
            search_edge ns check_providers current nb).
  { intros nb Hnb. by exists node. }
  clearbody neighbors.
  set (stack1 := {[current]} ∪ stack).
  assert (Hstack1 : ∀ s nb, s ∈ stack1 → nb ∈ neighbors →
            tc (search_edge ns check_providers) s nb).
  { intros s nb Hs Hnb. apply elem_of_union in Hs as [Hs|Hs].
    - apply elem_of_singleton in Hs as ->. apply tc_once. by apply Hedge.
    - eapply tc_r; [by apply Hreach|by apply Hedge]. }
  assert (Hv1 : {[current]} ∪ visited ⊆ {[current]} ∪ visited) by done.
  revert Hv1. generalize ({[current]} ∪ visited) at 2 3 as v.
  induction neighbors as [|nb rest IHn]; intros v Hv.
  - eexists. split; [done|]. simpl. split; [done|]. split; [done|].
    intros _. subst stack1. set_solver.
  - assert (Hrest : ∀ nb', nb' ∈ rest →
              search_edge ns check_providers current nb')
      by (intros nb' H'; apply Hedge; by right).
    assert (Hrest1 : ∀ s nb', s ∈ stack1 → nb' ∈ rest →
              tc (search_edge ns check_providers) s nb')
      by (intros s nb' Hs H'; apply Hstack1; [done|by right]).
    destruct (N.eqb_spec nb parent) as [_|_]; [by apply IHn|].
    case_bool_decide as Hin.
    { eexists. split; [done|]. simpl. split; [done|]. split; [|done].
      intros _. exists nb. apply Hstack1; [done|by left]. }
    case_bool_decide as Hvis; [|by apply IHn].
    destruct (IH nb current v stack1) as (r & -> & Hr1 & Hr2 & Hr3).
    + done.
    + subst stack1. set_solver.
    + intros s Hs. apply Hstack1; [done|by left].
    + pose proof (unvisited_fewer current visited v) as Hlt.
      specialize (Hlt ltac:(by eexists) Hcur Hv). lia.
    + destruct (dfs_found r) eqn:Hfound.
      * eexists. split; [done|]. split; [set_solver|].
        split; [by rewrite Hfound|]. by rewrite Hfound.
      * rewrite (Hr3 eq_refl).
        destruct (IHn Hrest Hrest1 (dfs_visited r)) as (r' & -> & H1 & H2);
          [set_solver|].
        exists r'. split; [done|]. split; [set_solver|done].
Qed.

Lemma detect_from_spec fuel (starts : list N) :
  ∀ visited,
    (size (dom ns) < fuel)%nat →
    ∃ b, detect_from fuel ns check_providers starts visited ∅ = Some b
      ∧ (b = true → ∃ x, tc (search_edge ns check_providers) x x).
Proof.
  induction starts as [|a rest IH]; intros visited Hfuel; simpl.
  - by exists false.
  - case_bool_decide as Hvis; [|by apply IH].
    destruct (hasCycleDFS_spec fuel a 0%N visited ∅)
      as (r & -> & _ & Hr2 & Hr3).
    + done.
    + set_solver.
    + intros s Hs. by apply elem_of_empty in Hs.
    + eapply Nat.le_lt_trans; [|done]. apply subseteq_size. set_solver.
    + destruct (dfs_found r) eqn:Hfound.
      * exists true. split; [done|]. intros _. by apply Hr2.
      * rewrite (Hr3 eq_refl). by apply IH.
Qed.

End Search.

Section Directions.

Implicit Types (ns : gmap N ASNode) (x y : N).

Lemma provider_search_edge ns x y :
  search_edge ns true x y → provider_edge ns x y.
Proof. done. Qed.

(** In a well-formed table a customer edge is a provider edge read
    backwards. *)
Lemma customer_search_edge ns x y :
  wf_nodes ns → search_edge ns false x y → provider_edge ns y x.
Proof.
  intros Hwf (nx & Hx & Hy).
  destruct (wf_customers_closed ns Hwf x nx y Hx Hy) as [ny Hny].
  exists ny. split; [done|]. apply occurrences_pos.
  rewrite <- (wf_symmetric ns Hwf x y nx ny Hx Hny).
  by apply occurrences_pos.
Qed.

Lemma tc_flip {A : Type} (R S : A → A → Prop) (x y : A) :
  (∀ a b, R a b → S b a) → tc R x y → tc S y x.
Proof.
  intros HRS. induction 1 as [a b Hab|a b c Hab _ IH].
  - apply tc_once. by apply HRS.
  - eapply tc_r; [done|]. by apply HRS.
Qed.

End Directions.

(** X17: [detectCycles] always returns, and it raises no false alarm,
    in whatever order its loops meet the ASes: on a table as
    [addRelationship] builds it, the answer [true] means that some AS
    is, through a chain of one or more provider links, its own
    provider. *)
Theorem detectCycles_sound (starts : list N) (g : ASGraph) :
  (∃ b, detectCycles starts g = Some b)
  ∧ (wf_nodes (nodes g) → detectCycles starts g = Some true →
     has_cycle (nodes g)).
Proof.
  unfold detectCycles.
  assert (Hfuel : (size (dom (nodes g)) < S (size (nodes g)))%nat)
    by (rewrite size_dom; lia).
  destruct (detect_from_spec (nodes g) true (S (size (nodes g)))
              starts ∅ Hfuel) as (b1 & -> & H1).
  destruct (detect_from_spec (nodes g) false (S (size (nodes g)))
              starts ∅ Hfuel) as (b2 & -> & H2).
  split; [destruct b1; eauto|].
  intros Hwf Hres. destruct b1.
  - destruct (H1 eq_refl) as [x Hx]. exists x.
    eapply tc_congruence with (f := id); [|exact Hx]. done.
  - injection Hres as ->. destruct (H2 eq_refl) as [x Hx]. exists x.
    eapply tc_flip; [|exact Hx].
    intros a b. by apply customer_search_edge.
Qed.

Lemma iteration_order_check (ns : gmap N ASNode) (starts : list N) :
  existsb (λ l, bool_decide (l = starts)) (permutations (map_to_list ns).*1)
  = true →
  iteration_order ns starts.
Proof.
  intros H. apply existsb_exists in H as (l & Hl & E).
  apply bool_decide_eq_true in E as ->.
  unfold iteration_order. symmetry.
  by apply permutations_Permutation, list_elem_of_In.
Qed.

(** X29: the answer of [detectCycles] is not fixed by the graph.  On
    the table of the lines [0|0|-1], [0|1|-1] and [1|2|-1], where AS 0
    is its own provider, the loops that meet AS 2 first report the
    cycle, and the loops that meet AS 0 first report none: a search
    from AS 0 skips the neighbour 0 as the parent it starts with and
    marks AS 0 visited, so no later search enters it. *)
Theorem detectCycles_depends_on_order :
  has_cycle (nodes topology_loop_0)
  ∧ iteration_order (nodes topology_loop_0) [2%N; 1%N; 0%N]
  ∧ iteration_order (nodes topology_loop_0) [0%N; 1%N; 2%N]
  ∧ detectCycles [2%N; 1%N; 0%N] topology_loop_0 = Some true
  ∧ detectCycles [0%N; 1%N; 2%N] topology_loop_0 = Some false.
Proof.
  split; [|split; [|split; [|split]]].
  - exists 0%N. apply tc_once.
    eexists. split; [vm_compute; reflexivity|]. simpl. by left.
  - apply iteration_order_check. vm_compute. reflexivity.
  - apply iteration_order_check. vm_compute. reflexivity.
  - vm_compute. reflexivity.
  - vm_compute. reflexivity.
Qed.

(** ** The steps of the simulation, one after the other *)

Section Steps.

Implicit Types (g : ASGraph) (ns : gmap N ASNode) (x : N).

Lemma flatten_assign_frame g :
  ∀ (init : list (list N)) (rk : gmap N Z) ns' ranked' rk',
    foldl flatten_assign_step (Returns (nodes g, init, rk))
      (map_to_list (nodes g)) = Returns (ns', ranked', rk') →
    ∀ x, shape_of ns' x = shape_of (nodes g) x
         ∧ policy <$> ns' !! x = policy <$> nodes g !! x.
Proof.
  intros init rk ns' ranked' rk'.
  assert (H : match foldl flatten_assign_step (Returns (nodes g, init, rk))
                      (map_to_list (nodes g)) with
              | Returns s =>
                  ∀ x, shape_of s.1.1 x = shape_of (nodes g) x
                       ∧ policy <$> s.1.1 !! x = policy <$> nodes g !! x
              | Fails _ => True
              end).
  { apply (foldl_preserves
             (λ acc, match acc with
                     | Returns s =>
                         ∀ x, shape_of s.1.1 x = shape_of (nodes g) x
                              ∧ policy <$> s.1.1 !! x
                                = policy <$> nodes g !! x
                     | Fails _ => True
                     end)); [done|].
    intros [[[nsa ranked] rka]|f] [k n] _ Hacc; simpl; [|done].
    destruct (ranks_index rka (asn n)) as [r rka'].
    destruct (ranked_push ranked r (asn n)); simpl; [|done].
    intros x. destruct (Hacc x) as [Hs Hp]. simpl in Hs, Hp.
    rewrite <- Hs, <- Hp. unfold shape_of.
    destruct (decide (x = k)) as [->|Hne].
    - rewrite lookup_alter_eq. by destruct (nsa !! k).
    - by rewrite lookup_alter_ne. }
  intros Heq. rewrite Heq in H. apply H.
Qed.

Lemma flattenGraph_frame g g' :
  flattenGraph g = Returns g' → same_but_ranks g g'.
Proof.
  unfold flattenGraph.
  destruct (flatten_loop _ _ _) as [st|]; [|done].
  destruct (foldl flatten_assign_step _ _) as [[[ns' ranked'] rk']|f] eqn:Hf;
    simpl; [|done].
  intros [= <-]. split; [|done]. simpl.
  by eapply flatten_assign_frame.
Qed.

Lemma flattenGraph_status g g' x :
  flattenGraph g = Returns g' →
  policy_status (nodes g') x = policy_status (nodes g) x
  ∧ rib_of (nodes g') x = rib_of (nodes g) x.
Proof.
  intros Hf. destruct (flattenGraph_frame g g' Hf) as [Hx _].
  destruct (Hx x) as [_ Hp]. unfold policy_status, rib_of.
  destruct (nodes g' !! x) as [n'|], (nodes g !! x) as [n|];
    simpl in *; try done.
  injection Hp as ->. done.
Qed.

Lemma flattenGraph_faults g :
  (∃ g', flattenGraph g = Returns g')
  ∨ flattenGraph g = Fails IndexOutOfBounds.
Proof.
  unfold flattenGraph.
  destruct (flatten_loop_terminates (nodes g) (size (nodes g))
              (flatten_init (nodes g)) (flatten_init_measure (nodes g)))
    as [st ->].
  assert (H : ∀ l acc,
            (∃ s, acc = Returns s) ∨ acc = Fails IndexOutOfBounds →
            (∃ s, foldl flatten_assign_step acc l = Returns s)
            ∨ foldl flatten_assign_step acc l = Fails IndexOutOfBounds).
  { intros l acc Hacc.
    apply (foldl_preserves
             (λ acc, (∃ s, acc = Returns s)
                     ∨ acc = Fails IndexOutOfBounds)); [done|].
    intros acc' kv _ [[[[nsa ranked] rk] ->]| ->]; simpl; [|by right].
    destruct (ranks_index rk (asn kv.2)) as [r rk'].
    destruct (ranked_push ranked r (asn kv.2)); [left; eauto|by right]. }
  destruct (H (map_to_list (nodes g))
              (Returns (nodes g,
                        replicate (Z.to_nat (max_rank st + 1)) ([] : list N),
                        ranks st))) as [[s ->]| ->].
  - left. eauto.
  - left. simpl. eauto.
  - by right.
Qed.

Lemma loadROVASNs_all_have_policy g (lines : list string) :
  all_have_policy (nodes g) → all_have_policy (nodes (loadROVASNs g lines)).
Proof.
  intros Hall x.
  destruct (loadROVASNs_spec g lines x) as (_ & Hin & Hout).
  destruct (rov_listed_dec lines x) as [Hl|Hl].
  - destruct (Hin Hl) as (-> & _). specialize (Hall x).
    by destruct (policy_status (nodes g) x) as [[k|]|].
  - destruct (Hout Hl) as (Hn & _). unfold policy_status. rewrite Hn.
    apply Hall.
Qed.

End Steps.

Section Seeding.

Variable inet_pton4 : string → option N.
Variable inet_pton6 : string → option (list N).

Implicit Types (g : ASGraph) (x origin_asn : N).

(** What a seeding leaves: the announcement for the parsed prefix in
    the RIB of the AS, everything else as it was. *)
Lemma ASGraph_seedAnnouncement_spec g g' origin_asn (prefix_str : string)
    (rov_inv : bool) :
  ASGraph_seedAnnouncement inet_pton4 inet_pton6 g origin_asn prefix_str
    rov_inv = Returns g' →
  (∀ x, policy_status (nodes g') x = policy_status (nodes g) x
        ∧ shape_of (nodes g') x = shape_of (nodes g) x
        ∧ queue_of (nodes g') x = queue_of (nodes g) x)
  ∧ (g' = g
     ∨ ∃ p, Prefix_parse inet_pton4 inet_pton6 prefix_str = Returns p
         ∧ is_Some (policy_status (nodes g) origin_asn ≫= id)
         ∧ ∀ x, rib_of (nodes g') x
                = if decide (x = origin_asn)
                  then <[p := Announcement_new p origin_asn
                                RelationshipType.ORIGIN rov_inv]>
                         (rib_of (nodes g) x)
                  else rib_of (nodes g) x).
Proof.
  unfold ASGraph_seedAnnouncement.
  destruct (nodes g !! origin_asn) as [node|] eqn:Hn;
    [|intros [= <-]; split; [done|by left]].
  destruct (policy node) as [pol|] eqn:Hp;
    [|intros [= <-]; split; [done|by left]].
  destruct (Prefix_parse _ _ prefix_str) as [p|f]; simpl; [|done].
  intros [= <-]. simpl. split.
  - intros x. unfold policy_status, shape_of, queue_of.
    destruct (decide (x = origin_asn)) as [->|Hne].
    + rewrite lookup_insert_eq, Hn. simpl. by rewrite Hp.
    + by rewrite lookup_insert_ne.
  - right. exists p. split; [done|]. split.
    + unfold policy_status. rewrite Hn. simpl. rewrite Hp. simpl. eauto.
    + intros x. unfold rib_of. destruct (decide (x = origin_asn)) as [->|Hne].
      * by rewrite lookup_insert_eq, Hn, Hp.
      * by rewrite lookup_insert_ne.
Qed.

End Seeding.

(** X18: the loop of [flattenGraph] ends on every graph, cyclic or not:
    the call returns or indexes [ranked_ases] out of range, and nothing
    else.  When it returns, the graph differs from the one it was given
    at most in the ranks: nodes, adjacency, policies with their RIBs,
    the set of AS numbers and the counters are the same. *)
Theorem flattenGraph_ends_and_keeps (g : ASGraph) :
  ((∃ g', flattenGraph g = Returns g')
   ∨ flattenGraph g = Fails IndexOutOfBounds)
  ∧ (∀ g', flattenGraph g = Returns g' → same_but_ranks g g').
Proof.
  split; [apply flattenGraph_faults|]. intros g'. apply flattenGraph_frame.
Qed.

(** X19: once [initializeBGP] has run, no later step meets a node
    without a policy.  [initializeBGP] gives every node a policy;
    [loadROVASNs], [flattenGraph] and [seedAnnouncement] keep that; and
    on such a graph [propagateAnnouncements] returns, with every node
    still holding a policy. *)
Theorem policies_stay_installed (inet_pton4 : string → option N)
    (inet_pton6 : string → option (list N)) (g : ASGraph) :
  all_have_policy (nodes (initializeBGP g))
  ∧ (all_have_policy (nodes g) →
     (∀ lines, all_have_policy (nodes (loadROVASNs g lines)))
     ∧ (∀ g', flattenGraph g = Returns g' → all_have_policy (nodes g'))
     ∧ (∀ a s f g',
          ASGraph_seedAnnouncement inet_pton4 inet_pton6 g a s f
            = Returns g' →
          all_have_policy (nodes g'))
     ∧ ∃ g' total, propagateAnnouncements g = Returns (g', total)
                   ∧ all_have_policy (nodes g')).
Proof.
  split.
  { intros x. rewrite initializeBGP_status.
    by destruct (policy_status (nodes g) x) as [[k|]|]. }
  intros Hall. split; [|split; [|split]].
  - intros lines. by apply loadROVASNs_all_have_policy.
  - intros g' Hf x. destruct (flattenGraph_status g g' x Hf) as [-> _].
    apply Hall.
  - intros a s f g' Hs x.
    destruct (ASGraph_seedAnnouncement_spec _ _ _ _ _ _ _ Hs) as [Hx _].
    destruct (Hx x) as (-> & _). apply Hall.
  - unfold propagateAnnouncements.
    destruct (count_total
                (propagateDown (ranked_ases g)
                   (propagateAcross (propagateUp (ranked_ases g) (nodes g)))))
      as [t Ht].
    + intros x. rewrite propagate_status. apply Hall.
    + rewrite Ht. simpl. eexists _, _. split; [done|]. simpl.
      intros x. rewrite propagate_status. apply Hall.
Qed.

(** ** Sound routes from the first step on *)

Section Setup.

Implicit Types (g : ASGraph) (ns : gmap N ASNode) (x : N).

Lemma keyed_by_asn_shape ns ns' :
  (∀ x, shape_of ns' x = shape_of ns x) →
  keyed_by_asn ns → keyed_by_asn ns'.
Proof.
  intros Hsh Hkey x n' Hn'.
  destruct (shape_of_Some ns ns' x n' (Hsh x) Hn') as (n & Hn & <- & _).
  by apply Hkey.
Qed.

(** Tables whose RIBs and staging areas are those of sound tables, or
    empty, are sound. *)
Lemma sound_tables_shrink ns ns' :
  (∀ x, rib_of ns' x = rib_of ns x ∨ rib_of ns' x = ∅) →
  (∀ x, queue_of ns' x = queue_of ns x ∨ queue_of ns' x = ∅) →
  sound_tables ns → sound_tables ns'.
Proof.
  intros Hrib Hq [Hr Hs]. split.
  - intros x p e He. destruct (Hrib x) as [E|E]; rewrite E in He.
    + by apply Hr.
    + by rewrite lookup_empty in He.
  - intros x p b (cands & Hc & Hb).
    destruct (Hq x) as [E|E]; rewrite E in Hc.
    + apply Hs. by exists cands.
    + by rewrite lookup_empty in Hc.
Qed.

Lemma initializeBGP_tables g x :
  (rib_of (nodes (initializeBGP g)) x = rib_of (nodes g) x)
  ∧ (queue_of (nodes (initializeBGP g)) x = queue_of (nodes g) x)
  ∧ shape_of (nodes (initializeBGP g)) x = shape_of (nodes g) x.
Proof.
  unfold rib_of, queue_of, shape_of, initializeBGP. simpl.
  rewrite lookup_fmap. destruct (nodes g !! x) as [n|]; simpl; [|done].
  destruct (policy n) as [pol|] eqn:Hp; simpl; by rewrite ?Hp.
Qed.

Lemma load_rov_asn_tables g a x :
  (rib_of (nodes (load_rov_asn g a)) x = rib_of (nodes g) x
   ∨ rib_of (nodes (load_rov_asn g a)) x = ∅)
  ∧ (queue_of (nodes (load_rov_asn g a)) x = queue_of (nodes g) x
     ∨ queue_of (nodes (load_rov_asn g a)) x = ∅).
Proof.
  unfold load_rov_asn. destruct (a =? 0)%N; [by auto|]. simpl.
  destruct (nodes g !! a) as [n|] eqn:Hn; [|by auto].
  destruct (policy n) as [pol|] eqn:Hp; [|by auto].
  unfold rib_of, queue_of. destruct (decide (x = a)) as [->|Hne].
  - rewrite lookup_insert_eq. simpl. auto.
  - rewrite lookup_insert_ne by done. auto.
Qed.

Lemma loadROVASNs_tables g (lines : list string) x :
  (rib_of (nodes (loadROVASNs g lines)) x = rib_of (nodes g) x
   ∨ rib_of (nodes (loadROVASNs g lines)) x = ∅)
  ∧ (queue_of (nodes (loadROVASNs g lines)) x = queue_of (nodes g) x
     ∨ queue_of (nodes (loadROVASNs g lines)) x = ∅).
Proof.
  unfold loadROVASNs.
  apply (foldl_preserves
           (λ g', (rib_of (nodes g') x = rib_of (nodes g) x
                   ∨ rib_of (nodes g') x = ∅)
                  ∧ (queue_of (nodes g') x = queue_of (nodes g) x
                     ∨ queue_of (nodes g') x = ∅))); [by auto|].
  intros g' line _ [Hr Hq]. destruct (rov_line_asn line) as [a|]; [|done].
  destruct (load_rov_asn_tables g' a x) as [Hr' Hq']. split.
  - destruct Hr' as [->| ->]; auto.
  - destruct Hq' as [->| ->]; auto.
Qed.

Lemma flattenGraph_tables g g' x :
  flattenGraph g = Returns g' →
  rib_of (nodes g') x = rib_of (nodes g) x
  ∧ queue_of (nodes g') x = queue_of (nodes g) x.
Proof.
  intros Hf. destruct (flattenGraph_frame g g' Hf) as [Hx _].
  destruct (Hx x) as [_ Hp]. unfold queue_of, rib_of.
  destruct (nodes g' !! x) as [n'|], (nodes g !! x) as [n|];
    simpl in *; try done.
  injection Hp as ->. done.
Qed.

Lemma initializeBGP_build_sound (rels : list (N * N * RelationType.t)) :
  sound_graph (initializeBGP (build_graph rels)).
Proof.
  split.
  + apply (keyed_by_asn_shape (nodes (build_graph rels))).
    * intros x. apply initializeBGP_tables.
    * intros x n. apply (wf_asn _ (build_graph_wf rels)).
  + assert (Hnone : ∀ x n, nodes (build_graph rels) !! x = Some n →
              policy n = None).
    { intros x n Hn. pose proof (build_graph_lookup rels x) as H.
      rewrite Hn in H. tauto. }
    split.
    * intros x p e. destruct (initializeBGP_tables (build_graph rels) x)
        as (-> & _). unfold rib_of.
      destruct (nodes (build_graph rels) !! x) as [n|] eqn:Hn;
        [rewrite (Hnone x n Hn)|]; intros H; by rewrite lookup_empty in H.
    * intros x p b (cands & Hc & _).
      destruct (initializeBGP_tables (build_graph rels) x) as (_ & E & _).
      rewrite E in Hc. unfold queue_of in Hc.
      destruct (nodes (build_graph rels) !! x) as [n|] eqn:Hn;
        [rewrite (Hnone x n Hn) in Hc|]; by rewrite lookup_empty in Hc.
Qed.

Lemma loadROVASNs_sound g (lines : list string) :
  sound_graph g → sound_graph (loadROVASNs g lines).
Proof.
  intros [Hkey Hs]. split.
  + apply (keyed_by_asn_shape (nodes g)); [|done].
    intros x. apply loadROVASNs_spec.
  + apply (sound_tables_shrink (nodes g)); [| |done];
      intros x; apply loadROVASNs_tables.
Qed.

Lemma flattenGraph_sound g g' :
  sound_graph g → flattenGraph g = Returns g' → sound_graph g'.
Proof.
  intros [Hkey Hs] Hf. split.
  + apply (keyed_by_asn_shape (nodes g)); [|done].
    intros x. apply (flattenGraph_frame g g' Hf).
  + apply (sound_tables_shrink (nodes g)); [| |done]; intros x; left;
      by apply flattenGraph_tables.
Qed.

Lemma seedAnnouncement_sound (inet_pton4 : string → option N)
    (inet_pton6 : string → option (list N)) g a (s : string) (f : bool) g' :
  sound_graph g →
  ASGraph_seedAnnouncement inet_pton4 inet_pton6 g a s f = Returns g' →
  sound_graph g'.
Proof.
  intros [Hkey [Hr Hq]] Hseed.
  destruct (ASGraph_seedAnnouncement_spec _ _ _ _ _ _ _ Hseed)
    as [Hx Hrib].
  split.
  + apply (keyed_by_asn_shape (nodes g)); [|done].
    intros x. apply Hx.
  + split.
    * destruct Hrib as [->|(p & _ & _ & Hrib)]; [done|].
      intros x q e. rewrite Hrib.
      destruct (decide (x = a)) as [->|Hne]; [|apply Hr].
      destruct (decide (q = p)) as [->|Hq'].
      -- rewrite lookup_insert_eq. intros [= <-].
         split; [done|]. split; [apply NoDup_singleton|].
         exists []. split; [done|]. by left.
      -- rewrite lookup_insert_ne by done. apply Hr.
    * intros x q b (cands & Hc & Hb). apply Hq. exists cands.
      destruct (Hx x) as (_ & _ & <-). done.
Qed.

End Setup.

(** X20: every step before propagation leaves sound tables.  The graph
    of any topology after [initializeBGP] is keyed by AS number and has
    sound tables, and [loadROVASNs], [flattenGraph] and
    [seedAnnouncement] keep both: a route in a RIB is for the prefix it
    is stored under, and its path starts at the AS holding it and
    repeats no AS. *)
Theorem setup_keeps_routes_sound (inet_pton4 : string → option N)
    (inet_pton6 : string → option (list N)) :
  (∀ rels, sound_graph (initializeBGP (build_graph rels)))
  ∧ (∀ g lines, sound_graph g → sound_graph (loadROVASNs g lines))
  ∧ (∀ g g', sound_graph g → flattenGraph g = Returns g' → sound_graph g')
  ∧ (∀ g a s f g', sound_graph g →
       ASGraph_seedAnnouncement inet_pton4 inet_pton6 g a s f = Returns g' →
       sound_graph g').
Proof.
  split; [|split; [|split]].
  - apply initializeBGP_build_sound.
  - apply loadROVASNs_sound.
  - apply flattenGraph_sound.
  - intros g a s f g'. apply seedAnnouncement_sound.
Qed.

(** ** Every route is offered to the customers *)

Section Offers.

Implicit Types (ns : gmap N ASNode) (ann b src cand : Announcement)
  (x a c nb s : N) (rel : RelationshipType.t) (p : Prefix)
  (ranked : list (list N)) (row : list N).

(** A state that differs from [ns] by steps of propagation has the same
    nodes with the same policies' classes and the same adjacency. *)
Lemma trivial_invariant ns :
  propagation_invariant ns (λ _ _ _, True) (λ _ _ _, True) ns.
Proof. by repeat split. Qed.

Lemma deliver_keeps_staged_at s rel ann ns nb x p b :
  staged_at ns x p b → staged_at (deliver s rel ann ns nb) x p b.
Proof.
  unfold staged_at, queue_of. intros (cands & Hq & Hb).
  destruct (deliver_lookup s rel ann ns nb x)
    as [->|(n & pol & -> & Hc & Hn & Hp & ->)].
  - by exists cands.
  - rewrite Hn, Hp in Hq. simpl.
    by apply (receiveAnnouncement_keeps pol _ p cands b).
Qed.

Lemma deliver_stages_at s rel ann ns nb k :
  containsAS ann nb = false →
  policy_status ns nb = Some (Some k) → accepts k ann = true →
  staged_at (deliver s rel ann ns nb) nb (prefix ann)
    (copy_with_new_hop ann s rel).
Proof.
  intros Hc Hst Hok. unfold policy_status in Hst.
  destruct (ns !! nb) as [n|] eqn:Hn; [|done]. simpl in Hst.
  destruct (policy n) as [pol|] eqn:Hp; [|done]. simpl in Hst.
  injection Hst as <-.
  unfold staged_at, queue_of, deliver. rewrite Hc, Hn, Hp.
  rewrite lookup_insert_eq. simpl.
  apply (receiveAnnouncement_stages pol (copy_with_new_hop ann s rel)).
  destruct (policy_class pol); [by left|right].
  simpl in Hok. simpl. by destruct (rov_invalid ann).
Qed.

Lemma send_all_keeps_staged_at s rel nbs (rib : gmap Prefix Announcement)
    ns x p b :
  staged_at ns x p b → staged_at (send_all s rel nbs rib ns) x p b.
Proof.
  intros H. apply (foldl_preserves (λ ns', staged_at ns' x p b)); [done|].
  intros ns' pair _ H'.
  apply (foldl_preserves (λ ns'', staged_at ns'' x p b)); [done|].
  intros ns'' nb _. apply deliver_keeps_staged_at.
Qed.

Lemma send_filtered_keeps_staged_at s rel nbs
    (rib : gmap Prefix Announcement) ns x p b :
  staged_at ns x p b → staged_at (send_filtered s rel nbs rib ns) x p b.
Proof.
  intros H. apply (foldl_preserves (λ ns', staged_at ns' x p b)); [done|].
  intros ns' pair _ H'.
  destruct (not_from_customer_or_origin pair.2); [done|].
  apply (foldl_preserves (λ ns'', staged_at ns'' x p b)); [done|].
  intros ns'' nb _. apply deliver_keeps_staged_at.
Qed.

Lemma send_up_keeps_staged_at ns a x p b :
  staged_at ns x p b → staged_at (send_up ns a) x p b.
Proof.
  intros H. unfold send_up. destruct (ns !! a) as [node|]; [|done].
  destruct (policy node) as [pol|]; [|done].
  repeat case_bool_decide; try done. by apply send_filtered_keeps_staged_at.
Qed.

Lemma send_across_keeps_staged_at ns a x p b :
  staged_at ns x p b → staged_at (send_across ns a) x p b.
Proof.
  intros H. unfold send_across. destruct (ns !! a) as [node|]; [|done].
  destruct (policy node) as [pol|]; [|done].
  repeat case_bool_decide; try done. by apply send_filtered_keeps_staged_at.
Qed.

Lemma send_down_keeps_staged_at ns a x p b :
  staged_at ns x p b → staged_at (send_down ns a) x p b.
Proof.
  intros H. unfold send_down. destruct (ns !! a) as [node|]; [|done].
  destruct (policy node) as [pol|]; [|done].
  repeat case_bool_decide; try done. by apply send_all_keeps_staged_at.
Qed.

Lemma send_all_stages_at s rel nbs (rib : gmap Prefix Announcement)
    ns p src c k :
  rib !! p = Some src → c ∈ nbs → containsAS src c = false →
  policy_status ns c = Some (Some k) → accepts k src = true →
  staged_at (send_all s rel nbs rib ns) c (prefix src)
    (copy_with_new_hop src s rel).
Proof.
  intros Hrib Hc Hpath Hst Hok.
  apply (foldl_establishes
           (λ ns', policy_status ns' c = Some (Some k))
           (λ ns', staged_at ns' c (prefix src)
                     (copy_with_new_hop src s rel))
           _ _ _ (p, src)).
  - by apply elem_of_map_to_list.
  - done.
  - intros ns' pair H.
    destruct (deliver_all_sends_only s rel pair.2 ns' nbs c)
      as (_ & -> & _). done.
  - intros ns' H. simpl.
    apply (foldl_establishes
             (λ ns'', policy_status ns'' c = Some (Some k))
             (λ ns'', staged_at ns'' c (prefix src)
                        (copy_with_new_hop src s rel))
             _ _ _ c); [done|done| | |].
    + intros ns'' nb H'. by rewrite deliver_status.
    + intros ns'' H'. by eapply deliver_stages_at.
    + intros ns'' nb. apply deliver_keeps_staged_at.
  - intros ns' pair H.
    apply (foldl_preserves
             (λ ns'', staged_at ns'' c (prefix src)
                        (copy_with_new_hop src s rel))); [done|].
    intros ns'' nb _. apply deliver_keeps_staged_at.
Qed.

Lemma send_filtered_stages_at s rel nbs (rib : gmap Prefix Announcement)
    ns p src c k :
  rib !! p = Some src → from_customer_or_origin src →
  c ∈ nbs → containsAS src c = false →
  policy_status ns c = Some (Some k) → accepts k src = true →
  staged_at (send_filtered s rel nbs rib ns) c (prefix src)
    (copy_with_new_hop src s rel).
Proof.
  intros Hrib Hf Hc Hpath Hst Hok.
  apply from_customer_or_origin_spec in Hf.
  apply (foldl_establishes
           (λ ns', policy_status ns' c = Some (Some k))
           (λ ns', staged_at ns' c (prefix src)
                     (copy_with_new_hop src s rel))
           _ _ _ (p, src)).
  - by apply elem_of_map_to_list.
  - done.
  - intros ns' pair H.
    destruct (not_from_customer_or_origin pair.2); [done|].
    destruct (deliver_all_sends_only s rel pair.2 ns' nbs c)
      as (_ & -> & _). done.
  - intros ns' H. simpl. rewrite Hf.
    apply (foldl_establishes
             (λ ns'', policy_status ns'' c = Some (Some k))
             (λ ns'', staged_at ns'' c (prefix src)
                        (copy_with_new_hop src s rel))
             _ _ _ c); [done|done| | |].
    + intros ns'' nb H'. by rewrite deliver_status.
    + intros ns'' H'. by eapply deliver_stages_at.
    + intros ns'' nb. apply deliver_keeps_staged_at.
  - intros ns' pair H.
    destruct (not_from_customer_or_origin pair.2); [done|].
    apply (foldl_preserves
             (λ ns'', staged_at ns'' c (prefix src)
                        (copy_with_new_hop src s rel))); [done|].
    intros ns'' nb _. apply deliver_keeps_staged_at.
Qed.

Lemma send_up_stages_at ns c node p src a k :
  ns !! c = Some node → a ∈ providers node →
  rib_of ns c !! p = Some src → from_customer_or_origin src →
  containsAS src a = false →
  policy_status ns a = Some (Some k) → accepts k src = true →
  staged_at (send_up ns c) a (prefix src)
    (copy_with_new_hop src c RelationshipType.CUSTOMER).
Proof.
  intros Hn Ha Hrib Hf Hpath Hst Hok.
  destruct (rib_of_Some _ _ _ _ Hrib) as (node' & pol & Hn' & Hp & Hl).
  assert (node' = node) as -> by congruence.
  unfold send_up. rewrite Hn, Hp.
  rewrite bool_decide_eq_false_2
    by (intros E; rewrite E in Ha; by apply elem_of_nil in Ha).
  rewrite bool_decide_eq_false_2
    by (intros E; rewrite E in Hl; by rewrite lookup_empty in Hl).
  by eapply send_filtered_stages_at.
Qed.

Lemma send_across_stages_at ns c node p src a k :
  ns !! c = Some node → a ∈ peers node →
  rib_of ns c !! p = Some src → from_customer_or_origin src →
  containsAS src a = false →
  policy_status ns a = Some (Some k) → accepts k src = true →
  staged_at (send_across ns c) a (prefix src)
    (copy_with_new_hop src (asn node) RelationshipType.PEER).
Proof.
  intros Hn Ha Hrib Hf Hpath Hst Hok.
  destruct (rib_of_Some _ _ _ _ Hrib) as (node' & pol & Hn' & Hp & Hl).
  assert (node' = node) as -> by congruence.
  unfold send_across. rewrite Hn, Hp.
  rewrite bool_decide_eq_false_2
    by (intros E; rewrite E in Ha; by apply elem_of_nil in Ha).
  rewrite bool_decide_eq_false_2
    by (intros E; rewrite E in Hl; by rewrite lookup_empty in Hl).
  by eapply send_filtered_stages_at.
Qed.

Lemma send_down_stages_at ns a node p src c k :
  ns !! a = Some node → c ∈ customers node →
  rib_of ns a !! p = Some src →
  containsAS src c = false →
  policy_status ns c = Some (Some k) → accepts k src = true →
  staged_at (send_down ns a) c (prefix src)
    (copy_with_new_hop src a RelationshipType.PROVIDER).
Proof.
  intros Hn Hc Hrib Hpath Hst Hok.
  destruct (rib_of_Some _ _ _ _ Hrib) as (node' & pol & Hn' & Hp & Hl).
  assert (node' = node) as -> by congruence.
  unfold send_down. rewrite Hn, Hp.
  rewrite bool_decide_eq_false_2
    by (intros E; rewrite E in Hc; by apply elem_of_nil in Hc).
  rewrite bool_decide_eq_false_2
    by (intros E; rewrite E in Hl; by rewrite lookup_empty in Hl).
  by eapply send_all_stages_at.
Qed.

(** Resolution at another AS leaves the tables of [c] alone. *)
Lemma process_node_other ns x c :
  x ≠ c →
  rib_of (process_node ns x) c = rib_of ns c
  ∧ queue_of (process_node ns x) c = queue_of ns c.
Proof.
  intros Hne. unfold process_node.
  destruct (ns !! x) as [node|]; [|done].
  destruct (policy node) as [pol|]; [|done].
  unfold rib_of, queue_of. by rewrite lookup_insert_ne.
Qed.

Lemma process_node_across_other ns x c :
  x ≠ c →
  rib_of (process_node_across ns x) c = rib_of ns c
  ∧ queue_of (process_node_across ns x) c = queue_of ns c.
Proof.
  intros Hne. unfold process_node_across.
  destruct (ns !! x) as [node|]; [|done].
  destruct (policy node) as [pol|]; [|done].
  unfold rib_of, queue_of. by rewrite lookup_insert_ne.
Qed.

Lemma process_node_across_commits ns c p cand :
  (∀ node, ns !! c = Some node → asn node = c) →
  staged_at ns c p cand →
  ∃ e, rib_of (process_node_across ns c) c !! p = Some e
       ∧ isBetterThan (prepend_asn c cand) e = false.
Proof.
  intros Hkey (cands & Hq & Hin). unfold queue_of in Hq.
  unfold process_node_across.
  destruct (ns !! c) as [node|] eqn:Hn; [|by rewrite lookup_empty in Hq].
  destruct (policy node) as [pol|] eqn:Hp; [|by rewrite lookup_empty in Hq].
  unfold rib_of. rewrite lookup_insert_eq. simpl.
  rewrite (Hkey node eq_refl).
  by eapply processReceivedQueue_unbeaten.
Qed.

(** Resolution at [c] commits something no staged candidate beats. *)
Lemma process_node_commits ns c p cand :
  staged_at ns c p cand →
  ∃ e, rib_of (process_node ns c) c !! p = Some e
       ∧ isBetterThan (prepend_asn c cand) e = false.
Proof.
  intros (cands & Hq & Hin). unfold queue_of in Hq. unfold process_node.
  destruct (ns !! c) as [node|] eqn:Hn; [|by rewrite lookup_empty in Hq].
  destruct (policy node) as [pol|] eqn:Hp; [|by rewrite lookup_empty in Hq].
  unfold rib_of. rewrite lookup_insert_eq. simpl.
  by eapply processReceivedQueue_unbeaten.
Qed.

Lemma holds_no_worse_keeps ns ns' c cand :
  never_worse ns ns' → holds_no_worse ns c cand → holds_no_worse ns' c cand.
Proof.
  intros Hnw (e & He & Hb). destruct (Hnw c _ e He) as (e' & He' & Hor).
  exists e'. split; [done|]. destruct Hor as [->|Hbetter]; [done|].
  destruct (isBetterThan cand e') eqn:Hc; [|done].
  by rewrite (isBetterThan_trans cand e' e Hc Hbetter) in Hb.
Qed.

Lemma never_worse_sends (f : gmap N ASNode → N → gmap N ASNode) ns row :
  (∀ ns' x, sends_only ns' (f ns' x)) → never_worse ns (foldl f ns row).
Proof.
  intros Hf. apply never_worse_foldl. intros ns' x.
  apply never_worse_sends_only, Hf.
Qed.

Lemma never_worse_process_row ns row :
  never_worse ns (foldl process_node ns row).
Proof. apply never_worse_foldl. apply never_worse_process. Qed.

Lemma never_worse_up_step ranked ns t : never_worse ns (up_step ranked ns t).
Proof.
  unfold up_step.
  assert (H1 : never_worse ns (foldl send_up ns (rank_row ranked t)))
    by apply never_worse_sends, send_up_sends_only.
  case_bool_decide; [|done].
  eapply never_worse_trans; [done|apply never_worse_process_row].
Qed.

Lemma never_worse_down_step ranked ns t :
  never_worse ns (down_step ranked ns t).
Proof.
  unfold down_step.
  assert (H1 : never_worse ns (foldl send_down ns (rank_row ranked t)))
    by apply never_worse_sends, send_down_sends_only.
  destruct t as [|t]; [done|].
  eapply never_worse_trans; [done|apply never_worse_process_row].
Qed.

Lemma never_worse_across ns : never_worse ns (propagateAcross ns).
Proof.
  unfold propagateAcross.
  apply (never_worse_trans _ (across_send_all ns));
    unfold across_process_all, across_send_all.
  - apply never_worse_sends, send_across_sends_only.
  - apply never_worse_foldl. apply never_worse_process_across.
Qed.

Lemma never_worse_down ranked ns : never_worse ns (propagateDown ranked ns).
Proof.
  unfold propagateDown. apply never_worse_foldl.
  apply never_worse_down_step.
Qed.

Lemma rank_row_bound ranked x r :
  x ∈ rank_row ranked r → (r < length ranked)%nat.
Proof.
  unfold rank_row. destruct (ranked !! r) as [row|] eqn:Hr.
  - intros _. by eapply lookup_lt_Some.
  - intros H. by apply elem_of_nil in H.
Qed.

(** *** The frame of the steps *)

Lemma frame_lookup ns0 ns x node0 :
  propagation_invariant ns0 (λ _ _ _, True) (λ _ _ _, True) ns →
  ns0 !! x = Some node0 →
  ∃ node, ns !! x = Some node ∧ asn node = asn node0
          ∧ providers node = providers node0
          ∧ customers node = customers node0
          ∧ peers node = peers node0.
Proof.
  intros (_ & Hsh & _) Hn0.
  assert (Hsh' : shape_of ns0 x = shape_of ns x) by done.
  destruct (shape_of_Some ns ns0 x node0 Hsh' Hn0) as (node & Hn & H).
  exists node. split; [done|]. destruct H as (-> & -> & -> & ->). done.
Qed.

Lemma frame_sends_down ns0 ns row :
  propagation_invariant ns0 (λ _ _ _, True) (λ _ _ _, True) ns →
  propagation_invariant ns0 (λ _ _ _, True) (λ _ _ _, True)
    (foldl send_down ns row).
Proof. intros H. apply inv_foldl; [|done]. by apply inv_send_down. Qed.

Lemma frame_sends_up ns0 ns row :
  propagation_invariant ns0 (λ _ _ _, True) (λ _ _ _, True) ns →
  propagation_invariant ns0 (λ _ _ _, True) (λ _ _ _, True)
    (foldl send_up ns row).
Proof. intros H. apply inv_foldl; [|done]. by apply inv_send_up. Qed.

Lemma frame_process_row ns0 ns row :
  propagation_invariant ns0 (λ _ _ _, True) (λ _ _ _, True) ns →
  propagation_invariant ns0 (λ _ _ _, True) (λ _ _ _, True)
    (foldl process_node ns row).
Proof. intros H. apply inv_foldl; [|done]. by apply inv_process. Qed.

Lemma frame_down_turns ranked ns0 (l : list nat) ns :
  propagation_invariant ns0 (λ _ _ _, True) (λ _ _ _, True) ns →
  propagation_invariant ns0 (λ _ _ _, True) (λ _ _ _, True)
    (foldl (down_step ranked) ns l).
Proof.
  intros H.
  apply (foldl_preserves
           (propagation_invariant ns0 (λ _ _ _, True) (λ _ _ _, True)));
    [done|].
  intros ns' t _ H'. unfold down_step.
  destruct t; [by apply frame_sends_down|].
  by apply frame_process_row, frame_sends_down.
Qed.

Lemma frame_up_turns ranked ns0 (l : list nat) ns :
  propagation_invariant ns0 (λ _ _ _, True) (λ _ _ _, True) ns →
  propagation_invariant ns0 (λ _ _ _, True) (λ _ _ _, True)
    (foldl (up_step ranked) ns l).
Proof.
  intros H.
  apply (foldl_preserves
           (propagation_invariant ns0 (λ _ _ _, True) (λ _ _ _, True)));
    [done|].
  intros ns' t _ H'. unfold up_step.
  case_bool_decide; [|by apply frame_sends_up].
  by apply frame_process_row, frame_sends_up.
Qed.

Lemma sends_rib (f : gmap N ASNode → N → gmap N ASNode) ns row x :
  (∀ ns' y, sends_only ns' (f ns' y)) →
  rib_of (foldl f ns row) x = rib_of ns x.
Proof.
  intros Hf. by destruct (sends_only_foldl f row ns Hf x) as (-> & _).
Qed.

Lemma process_row_rib ns row a :
  a ∉ row → rib_of (foldl process_node ns row) a = rib_of ns a.
Proof.
  intros Ha.
  apply (foldl_preserves (λ ns', rib_of ns' a = rib_of ns a)); [done|].
  intros ns' x Hx <-.
  apply process_node_other. intros ->. done.
Qed.

(** After the resolution of a row, nothing is staged at its ASes. *)
Lemma process_row_clears ns row x b :
  x ∈ row → ¬ staged (foldl process_node ns row) x b.
Proof.
  intros Hx.
  assert (H : queue_of (foldl process_node ns row) x = ∅).
  { apply (foldl_establishes (λ _, True) (λ ns', queue_of ns' x = ∅)
             _ _ _ x); [done|done|done| |].
    - intros ns' _. unfold process_node, queue_of.
      destruct (ns' !! x) as [node|] eqn:Hn; [|by rewrite Hn].
      destruct (policy node) as [pol|] eqn:Hp; [|by rewrite Hn, Hp].
      by rewrite lookup_insert_eq.
    - intros ns' y Hq. destruct (decide (y = x)) as [->|Hne].
      + unfold process_node, queue_of.
        destruct (ns' !! x) as [node|] eqn:Hn; [|by rewrite Hn].
        destruct (policy node) as [pol|] eqn:Hp; [|by rewrite Hn, Hp].
        by rewrite lookup_insert_eq.
      + by destruct (process_node_other ns' y x Hne) as [_ ->]. }
  intros (p & cands & Hq & _). rewrite H in Hq.
  by rewrite lookup_empty in Hq.
Qed.

End Offers.

Section Candidate.

Variables rcv snd : N.
Variable rel : RelationshipType.t.
Variable src : Announcement.

Implicit Types (ns : gmap N ASNode) (row : list N) (x : N).

(** The candidate [snd] sends to [rcv], and the two things that can be
    true of it: it is staged at [rcv], or [rcv] holds a route it does
    not beat. *)
Local Notation pending ns :=
  (staged_at ns rcv (prefix src) (copy_with_new_hop src snd rel)).
Local Notation good ns := (holds_no_worse ns rcv (offered rcv snd rel src)).

Lemma sends_keep (f : gmap N ASNode → N → gmap N ASNode) ns row :
  (∀ ns' x, sends_only ns' (f ns' x)) →
  (∀ ns' x y p b, staged_at ns' y p b → staged_at (f ns' x) y p b) →
  good ns ∨ pending ns →
  good (foldl f ns row) ∨ pending (foldl f ns row).
Proof.
  intros Hso Hkeep H.
  apply (foldl_preserves (λ ns', good ns' ∨ pending ns')); [done|].
  intros ns' x _ [Hg|Hp].
  - left. eapply holds_no_worse_keeps; [|done].
    apply never_worse_sends_only, Hso.
  - right. by apply Hkeep.
Qed.

Lemma process_step ns x :
  good ns ∨ pending ns →
  (good (process_node ns x) ∨ pending (process_node ns x))
  ∧ (x = rcv → good (process_node ns x)).
Proof.
  intros [Hg|Hp].
  - assert (good (process_node ns x))
      by (eapply holds_no_worse_keeps; [apply never_worse_process|done]).
    auto.
  - destruct (decide (x = rcv)) as [->|Hne].
    + assert (good (process_node ns rcv)) by by apply process_node_commits.
      auto.
    + split; [|done]. right. unfold staged_at.
      by destruct (process_node_other ns x rcv Hne) as [_ ->].
Qed.

Lemma process_row_keeps ns row :
  good ns ∨ pending ns →
  good (foldl process_node ns row) ∨ pending (foldl process_node ns row).
Proof.
  intros H.
  apply (foldl_preserves (λ ns', good ns' ∨ pending ns')); [done|].
  intros ns' x _ H'. by apply process_step.
Qed.

Lemma process_row_commits ns row :
  rcv ∈ row → good ns ∨ pending ns → good (foldl process_node ns row).
Proof.
  intros Hc H.
  apply (foldl_establishes (λ ns', good ns' ∨ pending ns')
           (λ ns', good ns') _ _ _ rcv); [done|done| | |].
  - intros ns' x H'. by apply process_step.
  - intros ns' H'. by apply process_step.
  - intros ns' x Hg.
    eapply holds_no_worse_keeps; [apply never_worse_process|done].
Qed.

(** The same for the resolution of phase 2, which passes the [asn] of
    the node. *)
Lemma process_across_row_commits ns0 ns row :
  (∀ node, ns0 !! rcv = Some node → asn node = rcv) →
  propagation_invariant ns0 (λ _ _ _, True) (λ _ _ _, True) ns →
  rcv ∈ row → pending ns → good (foldl process_node_across ns row).
Proof.
  intros Hkey Hf Hc H.
  apply (foldl_establishes
           (λ ns', propagation_invariant ns0 (λ _ _ _, True)
                     (λ _ _ _, True) ns'
                   ∧ (good ns' ∨ pending ns'))
           (λ ns', good ns') _ _ _ rcv); [done|by auto| | |].
  - intros ns' x [Hf' H']. split; [by apply inv_process_across|].
    destruct H' as [Hg|Hp].
    + left. eapply holds_no_worse_keeps;
        [apply never_worse_process_across|done].
    + destruct (decide (x = rcv)) as [->|Hne].
      * left. apply process_node_across_commits; [|done].
        intros node Hn. destruct Hf' as (_ & Hsh & _).
        destruct (shape_of_Some ns0 ns' rcv node (Hsh rcv) Hn)
          as (node0 & Hn0 & <- & _). by apply Hkey.
      * right. unfold staged_at.
        by destruct (process_node_across_other ns' x rcv Hne) as [_ ->].
  - intros ns' [Hf' [Hg|Hp]].
    + eapply holds_no_worse_keeps; [apply never_worse_process_across|done].
    + apply process_node_across_commits; [|done].
      intros node Hn. destruct Hf' as (_ & Hsh & _).
      destruct (shape_of_Some ns0 ns' rcv node (Hsh rcv) Hn)
        as (node0 & Hn0 & <- & _). by apply Hkey.
  - intros ns' x Hg.
    eapply holds_no_worse_keeps; [apply never_worse_process_across|done].
Qed.

End Candidate.

Section DownPhase.

Variable ranked : list (list N).
Variables a c : N.
Variable src : Announcement.

Local Notation pending ns :=
  (staged_at ns c (prefix src)
     (copy_with_new_hop src a RelationshipType.PROVIDER)).
Local Notation good ns :=
  (holds_no_worse ns c (offered c a RelationshipType.PROVIDER src)).

Variable rc : nat.
Hypothesis Hrc : c ∈ rank_row ranked rc.

(** The turns [m - 1], ..., 0 of the loop of phase 3 bring the candidate
    into the RIB of [c] if the row of [c] is still to be resolved. *)
Lemma down_turns_commit (m : nat) :
  ∀ ns, good ns ∨ (pending ns ∧ (rc + 1 < m)%nat) →
        good (foldl (down_step ranked) ns (reverse (seq 0 m))).
Proof using Hrc.
  induction m as [|m IH]; intros ns H.
  - simpl. destruct H as [?|[_ ?]]; [done|lia].
  - rewrite seq_S, reverse_app. simpl. apply IH.
    destruct H as [Hg|[Hp Hlt]].
    { left. eapply holds_no_worse_keeps;
        [apply never_worse_down_step|done]. }
    assert (H1 : good (foldl send_down ns (rank_row ranked m))
                 ∨ pending (foldl send_down ns (rank_row ranked m))).
    { apply sends_keep; [apply send_down_sends_only| |by right].
      intros ns' x y p b. apply send_down_keeps_staged_at. }
    unfold down_step. destruct m as [|t]; [lia|].
    destruct (decide (rc = t)) as [<-|Hne].
    + left. by apply process_row_commits.
    + destruct (process_row_keeps _ _ _ _ _ (rank_row ranked t) H1)
        as [Hg|Hp']; [by left|].
      right. split; [done|lia].
Qed.

Variable ra : nat.
Hypothesis Hra : a ∈ rank_row ranked ra.
Hypothesis Hlow : ∀ r, (r < ra)%nat → a ∉ rank_row ranked r.

Lemma down_turns_rib (l : list nat) :
  ∀ ns, (∀ t, t ∈ l → (t ≤ ra)%nat) →
        rib_of (foldl (down_step ranked) ns l) a = rib_of ns a.
Proof using Hlow.
  induction l as [|t l IH]; intros ns Hl; [done|].
  simpl. rewrite IH by (intros t' Ht'; apply Hl; by right).
  unfold down_step.
  destruct t as [|t']; [apply sends_rib, send_down_sends_only|].
  rewrite process_row_rib; [apply sends_rib, send_down_sends_only|].
  apply Hlow. assert (S t' ≤ ra)%nat by (apply Hl; by left). lia.
Qed.

Lemma down_turns_split :
  reverse (seq 0 (length ranked))
  = reverse (seq (S ra) (length ranked - S ra)) ++ ra :: reverse (seq 0 ra).
Proof using Hra.
  pose proof (rank_row_bound ranked a ra Hra) as Hlt.
  replace (length ranked) with (S ra + (length ranked - S ra))%nat at 1
    by lia.
  rewrite seq_app, reverse_app. f_equal.
  rewrite seq_S, reverse_app. done.
Qed.

(** Phase 3 alone: what [a] holds at the end, [c] was offered. *)
Lemma propagateDown_offers ns node k p :
  ns !! a = Some node → c ∈ customers node →
  policy_status ns c = Some (Some k) →
  (rc < ra)%nat →
  rib_of (propagateDown ranked ns) a !! p = Some src →
  containsAS src c = false → accepts k src = true →
  good (propagateDown ranked ns).
Proof using Hrc Hra Hlow.
  intros Hn Hc Hst Hlt Hsrc Hpath Hok.
  unfold propagateDown in *. rewrite down_turns_split in *.
  rewrite foldl_app in *.
  set (nsA := foldl (down_step ranked) ns
                (reverse (seq (S ra) (length ranked - S ra)))) in *.
  assert (HfA : propagation_invariant ns (λ _ _ _, True) (λ _ _ _, True) nsA)
    by (apply frame_down_turns, trivial_invariant).
  rewrite down_turns_rib in Hsrc.
  2:{ intros t Ht. apply elem_of_cons in Ht as [->|Ht]; [done|].
      apply elem_of_reverse, elem_of_seq in Ht. lia. }
  cbn [foldl]. apply down_turns_commit.
  destruct ra as [|ra'] eqn:Era; [lia|]. unfold down_step.
  assert (Hpend : pending (foldl send_down nsA (rank_row ranked (S ra')))).
  { apply (foldl_establishes
             (λ ns', propagation_invariant ns (λ _ _ _, True)
                       (λ _ _ _, True) ns'
                     ∧ rib_of ns' a = rib_of nsA a)
             (λ ns', pending ns') _ _ _ a); [done|done| | |].
    - intros ns' x [Hf Hr]. split; [by apply inv_send_down|].
      by destruct (send_down_sends_only ns' x a) as (-> & _).
    - intros ns' [Hf Hr].
      destruct (frame_lookup ns ns' a node Hf Hn)
        as (node' & Hn' & _ & _ & Hcust & _).
      eapply send_down_stages_at; try done.
      + by rewrite Hcust.
      + by rewrite Hr.
      + destruct Hf as (Hs & _). by rewrite Hs.
    - intros ns' x. apply send_down_keeps_staged_at. }
  destruct (decide (rc = ra')) as [<-|Hne].
  - left. apply process_row_commits; [done|by right].
  - destruct (process_row_keeps c a RelationshipType.PROVIDER src
                (foldl send_down nsA (rank_row ranked (S ra')))
                (rank_row ranked ra')) as [Hg|Hp]; [by right|by left|].
    right. split; [done|lia].
Qed.

End DownPhase.

(** X22: every route is offered to the customers.  Let AS [a] be in row
    [ra] of [ranked_ases] and in no lower row, and let its customer [c],
    which has a policy, be in a lower row, as [flattenGraph] arranges
    it.  Then for every route [a] holds when [propagateAnnouncements]
    returns, unless [c] is already in its path or [c] runs ROV and the
    route is invalid, [c] holds a route for the same prefix that the
    route taken from [a] does not beat. *)
Theorem customers_are_offered_every_route (g g' : ASGraph) (total : N)
    (a c : N) (node : ASNode) (k : PolicyClass) (ra rc : nat) :
  propagateAnnouncements g = Returns (g', total) →
  nodes g !! a = Some node → c ∈ customers node →
  policy_status (nodes g) c = Some (Some k) →
  a ∈ rank_row (ranked_ases g) ra →
  (∀ r, (r < ra)%nat → a ∉ rank_row (ranked_ases g) r) →
  c ∈ rank_row (ranked_ases g) rc → (rc < ra)%nat →
  ∀ p src, rib_of (nodes g') a !! p = Some src →
    containsAS src c = false → accepts k src = true →
    holds_no_worse (nodes g') c
      (offered c a RelationshipType.PROVIDER src).
Proof.
  intros Hrun Hn Hc Hst Hra Hlow Hrc Hlt p src Hsrc Hpath Hok.
  rewrite (propagateAnnouncements_nodes _ _ _ Hrun) in *.
  unfold propagate in *.
  set (ns2 := propagateAcross (propagateUp (ranked_ases g) (nodes g))) in *.
  assert (Hf : propagation_invariant (nodes g) (λ _ _ _, True)
                 (λ _ _ _, True) ns2).
  { apply inv_propagateAcross; [done..|].
    apply inv_propagateUp; [done..|]. apply trivial_invariant. }
  destruct (frame_lookup (nodes g) ns2 a node Hf Hn)
    as (node2 & Hn2 & _ & _ & Hcust & _).
  eapply (propagateDown_offers (ranked_ases g) a c src rc Hrc ra Hra Hlow
            ns2 node2 k p); try done.
  - by rewrite Hcust.
  - destruct Hf as (Hs & _). by rewrite Hs.
Qed.

(** ** Routes from customers are settled before an AS sends *)

Section Settled.

Variable start : gmap N ASNode.
Variable c : N.

Implicit Types (ns : gmap N ASNode) (x y : N) (b e src : Announcement)
  (ranked : list (list N)).

Lemma settled_refl :
  (∀ b, staged start c b → ¬ from_customer_or_origin b) →
  settled_since start c start.
Proof. intros H. by repeat split. Qed.

Lemma copy_not_from_customer src s rel :
  rel = RelationshipType.PEER ∨ rel = RelationshipType.PROVIDER →
  ¬ from_customer_or_origin (copy_with_new_hop src s rel).
Proof. intros [->| ->] [H|H]; simpl in H; done. Qed.

(** A sender turn keeps the state settled if what it stages at [c] is
    not tagged CUSTOMER. *)
Lemma settled_send (f : gmap N ASNode → N → gmap N ASNode) ns x :
  sends_only ns (f ns x) →
  (∀ b, staged (f ns x) c b →
     staged ns c b ∨ ¬ from_customer_or_origin b) →
  settled_since start c ns → settled_since start c (f ns x).
Proof.
  intros Hso Hst (Hsh & Hq & Hrib). split; [|split].
  - intros y. destruct (Hso y) as (_ & _ & -> & _). apply Hsh.
  - intros b Hb. destruct (Hst b Hb) as [Hold|Hnew]; [by apply Hq|done].
  - intros p e. destruct (Hso c) as (-> & _). apply Hrib.
Qed.

Lemma settled_send_up ns x :
  (∀ node, start !! x = Some node → c ∉ providers node) →
  settled_since start c ns → settled_since start c (send_up ns x).
Proof.
  intros Hx Hs. apply (settled_send send_up); [apply send_up_sends_only| |done].
  intros b Hb.
  destruct (send_up_staged _ _ _ _ Hb)
    as [?|(node & p & src & Hn & Hc & _)]; [by left|].
  destruct Hs as (Hsh & _).
  destruct (shape_of_Some start ns x node (Hsh x) Hn)
    as (node0 & Hn0 & _ & Hprov & _).
  destruct (Hx node0 Hn0). by rewrite Hprov.
Qed.

Lemma settled_send_across ns x :
  settled_since start c ns → settled_since start c (send_across ns x).
Proof.
  apply (settled_send send_across); [apply send_across_sends_only|].
  intros b Hb.
  destruct (send_across_staged _ _ _ _ Hb)
    as [?|(node & p & src & _ & _ & _ & _ & _ & ->)]; [by left|].
  right. apply copy_not_from_customer. by left.
Qed.

Lemma settled_send_down ns x :
  settled_since start c ns → settled_since start c (send_down ns x).
Proof.
  apply (settled_send send_down); [apply send_down_sends_only|].
  intros b Hb.
  destruct (send_down_staged _ _ _ _ Hb)
    as [?|(node & p & src & _ & _ & _ & _ & ->)]; [by left|].
  right. apply copy_not_from_customer. by right.
Qed.

Lemma prepend_from_customer n b :
  from_customer_or_origin (prepend_asn n b) ↔ from_customer_or_origin b.
Proof. done. Qed.

Lemma settled_process ns y :
  settled_since start c ns → settled_since start c (process_node ns y).
Proof.
  intros (Hsh & Hq & Hrib).
  destruct (process_node_spec ns y) as (H1 & H2 & H3 & _).
  split; [|split].
  - intros x. rewrite H3. apply Hsh.
  - intros b Hb. apply Hq. by apply H2.
  - intros p e He Hf.
    destruct (H1 c p e He) as [Hold|(<- & c0 & Hc0 & ->)]; [by apply Hrib|].
    destruct (Hq c0 Hc0). by apply prepend_from_customer in Hf.
Qed.

Lemma settled_process_across ns y :
  settled_since start c ns →
  settled_since start c (process_node_across ns y).
Proof.
  intros (Hsh & Hq & Hrib).
  destruct (process_node_across_spec ns y) as (H1 & H2 & H3 & _).
  split; [|split].
  - intros x. rewrite H3. apply Hsh.
  - intros b Hb. apply Hq. by apply H2.
  - intros p e He Hf.
    destruct (H1 c p e He) as [Hold|(node & c0 & _ & Hc0 & ->)];
      [by apply Hrib|].
    destruct (Hq c0 Hc0). by apply prepend_from_customer in Hf.
Qed.

Lemma settled_foldl (f : gmap N ASNode → N → gmap N ASNode)
    (l : list N) ns :
  (∀ ns' x, x ∈ l → settled_since start c ns' →
            settled_since start c (f ns' x)) →
  settled_since start c ns → settled_since start c (foldl f ns l).
Proof.
  intros Hf H. apply (foldl_preserves (settled_since start c)); [done|].
  intros ns' x Hx. by apply Hf.
Qed.

(** The turns of phase 1 in which no customer of [c] sends. *)
Lemma settled_up_turns ranked (l : list nat) ns :
  (∀ t x node, t ∈ l → x ∈ rank_row ranked t → start !! x = Some node →
     c ∉ providers node) →
  settled_since start c ns →
  settled_since start c (foldl (up_step ranked) ns l).
Proof.
  intros Hl H. apply (foldl_preserves (settled_since start c)); [done|].
  intros ns' t Ht H'. unfold up_step.
  assert (H1 : settled_since start c
                 (foldl send_up ns' (rank_row ranked t))).
  { apply settled_foldl; [|done]. intros ns'' x Hx.
    apply settled_send_up. intros node. by apply (Hl t). }
  case_bool_decide; [|done].
  apply settled_foldl; [|done]. intros ns'' x _. apply settled_process.
Qed.

Lemma settled_across ns :
  settled_since start c ns → settled_since start c (propagateAcross ns).
Proof.
  intros H. unfold propagateAcross, across_process_all, across_send_all.
  apply settled_foldl; [intros ns' x _; apply settled_process_across|].
  apply settled_foldl; [intros ns' x _; apply settled_send_across|done].
Qed.

Lemma settled_down ranked ns :
  settled_since start c ns →
  settled_since start c (propagateDown ranked ns).
Proof.
  intros H. unfold propagateDown.
  apply (foldl_preserves (settled_since start c)); [done|].
  intros ns' t _ H'. unfold down_step.
  assert (H1 : settled_since start c
                 (foldl send_down ns' (rank_row ranked t))).
  { apply settled_foldl; [|done]. intros ns'' x _. apply settled_send_down. }
  destruct t; [done|].
  apply settled_foldl; [|done]. intros ns'' x _. apply settled_process.
Qed.

End Settled.

(** ** Every customer route is offered to the providers and the peers *)

Section UpPhase.

Variable ranked : list (list N).
Variable ns0 : gmap N ASNode.
Variables c a : N.
Variable src : Announcement.
Variables rc ra : nat.

Hypothesis Hrc : c ∈ rank_row ranked rc.
Hypothesis Hra : a ∈ rank_row ranked ra.
Hypothesis Hlt : (rc < ra)%nat.

(** Nothing from a customer is staged at [c] at the start, and whoever
    has [c] as a provider is in rows below the row of [c]. *)
Hypothesis Hq0 : ∀ b, staged ns0 c b → ¬ from_customer_or_origin b.
Hypothesis Hbelow : ∀ t x node,
  x ∈ rank_row ranked t → ns0 !! x = Some node → c ∈ providers node →
  (t < rc)%nat.

Local Notation frame ns :=
  (propagation_invariant ns0 (λ _ _ _, True) (λ _ _ _, True) ns).
Local Notation pending ns :=
  (staged_at ns a (prefix src)
     (copy_with_new_hop src c RelationshipType.CUSTOMER)).
Local Notation good ns :=
  (holds_no_worse ns a (offered a c RelationshipType.CUSTOMER src)).

(** The state when the turn of the row of [c] starts. *)
Local Notation at_turn_of_c := (foldl (up_step ranked) ns0 (seq 0 rc)).

Lemma up_turns_split :
  seq 0 (length ranked) = seq 0 rc ++ rc :: seq (S rc) (length ranked - S rc).
Proof using Hrc.
  clear Hlt. pose proof (rank_row_bound ranked c rc Hrc) as Hn.
  replace (length ranked) with (rc + S (length ranked - S rc))%nat at 1
    by lia.
  by rewrite seq_app.
Qed.

Lemma at_turn_of_c_frame : frame at_turn_of_c.
Proof. apply frame_up_turns, trivial_invariant. Qed.

Lemma at_turn_of_c_clear :
  ∀ b, staged at_turn_of_c c b → ¬ from_customer_or_origin b.
Proof using Hrc Hq0.
  clear Hlt Hbelow. pose proof (rank_row_bound ranked c rc Hrc) as Hn.
  destruct rc as [|r] eqn:Erc; [done|].
  rewrite seq_S, foldl_app. cbn [foldl]. unfold up_step at 1.
  rewrite bool_decide_eq_true_2 by lia.
  intros b Hb. exfalso. revert Hb. apply process_row_clears.
  by rewrite Nat.add_1_r.
Qed.

(** From the turn of [c] on, the routes [c] has from customers are
    settled. *)
Lemma settled_from_turn_of_c (l : list nat) ns :
  (∀ t, t ∈ l → (rc ≤ t)%nat) →
  settled_since at_turn_of_c c ns →
  settled_since at_turn_of_c c (foldl (up_step ranked) ns l).
Proof using Hbelow.
  clear Hlt. intros Hl. apply settled_up_turns.
  intros t x node Ht Hx Hn Hc.
  destruct (at_turn_of_c_frame) as (_ & Hsh & _).
  destruct (shape_of_Some ns0 _ x node (Hsh x) Hn)
    as (node0 & Hn0 & _ & Hprov & _).
  rewrite <- Hprov in Hc.
  pose proof (Hbelow t x node0 Hx Hn0 Hc). specialize (Hl t Ht). lia.
Qed.

Lemma propagateUp_settled :
  settled_since at_turn_of_c c (propagateUp ranked ns0).
Proof using Hrc Hq0 Hbelow.
  clear Hlt. unfold propagateUp. rewrite up_turns_split, foldl_app.
  apply settled_from_turn_of_c.
  - intros t Ht. apply elem_of_cons in Ht as [->|Ht]; [done|].
    apply elem_of_seq in Ht. lia.
  - apply settled_refl, at_turn_of_c_clear.
Qed.

(** The turns [t0], [t0 + 1], ... of phase 1 bring the candidate into
    the RIB of [a] if the row of [a] is still to be resolved. *)
Lemma up_turns_commit (k : nat) :
  ∀ t0 ns, (t0 + k = length ranked)%nat →
    good ns ∨ (pending ns ∧ (t0 < ra)%nat) →
    good (foldl (up_step ranked) ns (seq t0 k)).
Proof using Hra.
  clear Hlt. pose proof (rank_row_bound ranked a ra Hra) as Hn.
  induction k as [|k IH]; intros t0 ns Hk H.
  - simpl. destruct H as [?|[_ ?]]; [done|lia].
  - cbn [seq foldl]. apply IH; [lia|].
    destruct H as [Hg|[Hp Ht0]].
    { left. eapply holds_no_worse_keeps; [apply never_worse_up_step|done]. }
    assert (H1 : good (foldl send_up ns (rank_row ranked t0))
                 ∨ pending (foldl send_up ns (rank_row ranked t0))).
    { apply sends_keep; [apply send_up_sends_only| |by right].
      intros ns' x y p b. apply send_up_keeps_staged_at. }
    unfold up_step. rewrite bool_decide_eq_true_2 by lia.
    destruct (decide (ra = t0 + 1)%nat) as [<-|Hne].
    + left. by apply process_row_commits.
    + destruct (process_row_keeps _ _ _ _ _ (rank_row ranked (t0 + 1)) H1)
        as [Hg|Hp']; [by left|].
      right. split; [done|lia].
Qed.

(** The three phases: a route [c] holds at the end and has from a
    customer, or as a seed, was offered to its provider [a]. *)
Lemma propagate_offers_up node k p :
  ns0 !! c = Some node → a ∈ providers node →
  policy_status ns0 a = Some (Some k) →
  rib_of (propagate ranked ns0) c !! p = Some src →
  from_customer_or_origin src →
  containsAS src a = false → accepts k src = true →
  good (propagate ranked ns0).
Proof using Hrc Hra Hlt Hq0 Hbelow.
  intros Hn Ha Hst Hsrc Hf Hpath Hok.
  pose proof (rank_row_bound ranked a ra Hra) as Hna.
  (* the route was in the RIB of [c] when its turn started *)
  assert (Hstart : rib_of at_turn_of_c c !! p = Some src).
  { assert (Hs : settled_since at_turn_of_c c (propagate ranked ns0)).
    { unfold propagate. apply settled_down, settled_across.
      apply propagateUp_settled. }
    destruct Hs as (_ & _ & Hrib). by apply Hrib. }
  unfold propagate.
  eapply holds_no_worse_keeps; [apply never_worse_down|].
  eapply holds_no_worse_keeps; [apply never_worse_across|].
  unfold propagateUp. rewrite up_turns_split, foldl_app.
  cbn [foldl]. apply up_turns_commit; [lia|].
  unfold up_step. rewrite bool_decide_eq_true_2 by lia.
  assert (Hpend : pending (foldl send_up at_turn_of_c (rank_row ranked rc))).
  { apply (foldl_establishes
             (λ ns', frame ns' ∧ rib_of ns' c = rib_of at_turn_of_c c)
             (λ ns', pending ns') _ _ _ c); [done| | | |].
    - split; [apply at_turn_of_c_frame|done].
    - intros ns' x [Hfr Hr]. split; [by apply inv_send_up|].
      by destruct (send_up_sends_only ns' x c) as (-> & _).
    - intros ns' [Hfr Hr].
      destruct (frame_lookup ns0 ns' c node Hfr Hn)
        as (node' & Hn' & _ & Hprov & _).
      eapply send_up_stages_at; try done.
      + by rewrite Hprov.
      + by rewrite Hr.
      + destruct Hfr as (Hs & _). by rewrite Hs.
    - intros ns' x. apply send_up_keeps_staged_at. }
  destruct (decide (ra = rc + 1)%nat) as [<-|Hne].
  - left. apply process_row_commits; [done|by right].
  - destruct (process_row_keeps a c RelationshipType.CUSTOMER src
                (foldl send_up at_turn_of_c (rank_row ranked rc))
                (rank_row ranked (rc + 1))) as [Hg|Hp];
      [by right|by left|].
    right. split; [done|lia].
Qed.

End UpPhase.

Section AcrossPhase.

Variable ranked : list (list N).
Variable ns0 : gmap N ASNode.
Variables c a : N.
Variable src : Announcement.
Variable rc : nat.

Hypothesis Hrc : c ∈ rank_row ranked rc.
Hypothesis Hq0 : ∀ b, staged ns0 c b → ¬ from_customer_or_origin b.
Hypothesis Hbelow : ∀ t x node,
  x ∈ rank_row ranked t → ns0 !! x = Some node → c ∈ providers node →
  (t < rc)%nat.
Hypothesis Hkey : keyed_by_asn ns0.

Local Notation frame ns :=
  (propagation_invariant ns0 (λ _ _ _, True) (λ _ _ _, True) ns).
Local Notation pending ns :=
  (staged_at ns a (prefix src)
     (copy_with_new_hop src c RelationshipType.PEER)).
Local Notation good ns :=
  (holds_no_worse ns a (offered a c RelationshipType.PEER src)).

Lemma key_of_node (ns : gmap N ASNode) x node :
  ns !! x = Some node → x ∈ (map_to_list ns).*1.
Proof.
  intros Hn. apply list_elem_of_fmap. exists (x, node).
  split; [done|]. by apply elem_of_map_to_list.
Qed.

(** The three phases: a route [c] holds at the end and has from a
    customer, or as a seed, was offered to its peer [a]. *)
Lemma propagate_offers_across node k p :
  ns0 !! c = Some node → a ∈ peers node →
  policy_status ns0 a = Some (Some k) →
  rib_of (propagate ranked ns0) c !! p = Some src →
  from_customer_or_origin src →
  containsAS src a = false → accepts k src = true →
  good (propagate ranked ns0).
Proof using Hrc Hq0 Hbelow Hkey.
  intros Hn Ha Hst Hsrc Hf Hpath Hok.
  set (ns1 := propagateUp ranked ns0).
  assert (Hf1 : frame ns1)
    by (apply inv_propagateUp; [done..|apply trivial_invariant]).
  (* nothing from a customer is staged at [c] after phase 1 *)
  assert (Hclear : ∀ b, staged ns1 c b → ¬ from_customer_or_origin b).
  { by destruct (propagateUp_settled ranked ns0 c rc Hrc Hq0 Hbelow)
      as (_ & Hq & _). }
  assert (Hstart : rib_of ns1 c !! p = Some src).
  { assert (Hs : settled_since ns1 c (propagate ranked ns0)).
    { unfold propagate. apply settled_down, settled_across.
      by apply settled_refl. }
    destruct Hs as (_ & _ & Hrib). by apply Hrib. }
  unfold propagate.
  eapply holds_no_worse_keeps; [apply never_worse_down|].
  fold ns1. unfold propagateAcross, across_process_all.
  set (ns2 := across_send_all ns1).
  assert (Hf2 : frame ns2).
  { unfold ns2, across_send_all. apply inv_foldl; [|done].
    intros ns' x. by apply inv_send_across. }
  assert (Hpend : pending ns2).
  { unfold ns2, across_send_all.
    destruct (frame_lookup ns0 ns1 c node Hf1 Hn) as (node1 & Hn1 & _).
    apply (foldl_establishes
             (λ ns', frame ns' ∧ rib_of ns' c = rib_of ns1 c)
             (λ ns', pending ns') _ _ _ c).
    - by eapply key_of_node.
    - done.
    - intros ns' x [Hfr Hr]. split; [by apply inv_send_across|].
      by destruct (send_across_sends_only ns' x c) as (-> & _).
    - intros ns' [Hfr Hr].
      destruct (frame_lookup ns0 ns' c node Hfr Hn)
        as (node' & Hn' & Hasn & _ & _ & Hpeers).
      assert (Hc : asn node' = c) by (rewrite Hasn; by apply Hkey).
      rewrite <- Hc at 2.
      eapply send_across_stages_at; try done.
      + by rewrite Hpeers.
      + by rewrite Hr.
      + destruct Hfr as (Hs & _). by rewrite Hs.
    - intros ns' x. apply send_across_keeps_staged_at. }
  assert (Hnode_a : ∃ node_a, ns2 !! a = Some node_a).
  { destruct Hf2 as (Hs & _). specialize (Hs a). rewrite Hst in Hs.
    unfold policy_status in Hs. destruct (ns2 !! a); [eauto|done]. }
  destruct Hnode_a as [node_a Hna].
  eapply (process_across_row_commits a c RelationshipType.PEER src ns0);
    [|done|by eapply key_of_node|done].
  intros node0 Hn0. by apply Hkey.
Qed.

End AcrossPhase.

(** X23: every route from a customer is offered to the providers.  Let
    nothing tagged ORIGIN or CUSTOMER be staged at AS [c] when
    propagation starts, let every AS that has [c] as a provider be in
    rows below the row of [c], and let the provider [a] of [c], which
    has a policy, be in a higher row.  Then for every route tagged
    ORIGIN or CUSTOMER that [c] holds when [propagateAnnouncements]
    returns, unless [a] is in its path or runs ROV and the route is
    invalid, [a] holds a route for the same prefix that the route taken
    from [c] does not beat. *)
Theorem providers_are_offered_customer_routes (g g' : ASGraph) (total : N)
    (c a : N) (node : ASNode) (k : PolicyClass) (rc ra : nat) :
  propagateAnnouncements g = Returns (g', total) →
  (∀ b, staged (nodes g) c b → ¬ from_customer_or_origin b) →
  (∀ t x nx, x ∈ rank_row (ranked_ases g) t → nodes g !! x = Some nx →
     c ∈ providers nx → (t < rc)%nat) →
  nodes g !! c = Some node → a ∈ providers node →
  policy_status (nodes g) a = Some (Some k) →
  c ∈ rank_row (ranked_ases g) rc → a ∈ rank_row (ranked_ases g) ra →
  (rc < ra)%nat →
  ∀ p src, rib_of (nodes g') c !! p = Some src →
    from_customer_or_origin src →
    containsAS src a = false → accepts k src = true →
    holds_no_worse (nodes g') a
      (offered a c RelationshipType.CUSTOMER src).
Proof.
  intros Hrun Hq0 Hbelow Hn Ha Hst Hrc Hra Hlt p src Hsrc Hf Hpath Hok.
  rewrite (propagateAnnouncements_nodes _ _ _ Hrun) in *.
  by eapply (propagate_offers_up (ranked_ases g) (nodes g) c a src rc ra).
Qed.

(** X24: every route from a customer is offered to the peers.  Under
    the same conditions on [c], with nodes stored under their AS
    numbers, for every route tagged ORIGIN or CUSTOMER that [c] holds
    when [propagateAnnouncements] returns and every peer [a] of [c]
    with a policy, unless [a] is in the path or runs ROV and the route
    is invalid, [a] holds a route for the same prefix that the route
    taken from [c] does not beat. *)
Theorem peers_are_offered_customer_routes (g g' : ASGraph) (total : N)
    (c a : N) (node : ASNode) (k : PolicyClass) (rc : nat) :
  propagateAnnouncements g = Returns (g', total) →
  keyed_by_asn (nodes g) →
  (∀ b, staged (nodes g) c b → ¬ from_customer_or_origin b) →
  (∀ t x nx, x ∈ rank_row (ranked_ases g) t → nodes g !! x = Some nx →
     c ∈ providers nx → (t < rc)%nat) →
  nodes g !! c = Some node → a ∈ peers node →
  policy_status (nodes g) a = Some (Some k) →
  c ∈ rank_row (ranked_ases g) rc →
  ∀ p src, rib_of (nodes g') c !! p = Some src →
    from_customer_or_origin src →
    containsAS src a = false → accepts k src = true →
    holds_no_worse (nodes g') a (offered a c RelationshipType.PEER src).
Proof.
  intros Hrun Hkey Hq0 Hbelow Hn Ha Hst Hrc p src Hsrc Hf Hpath Hok.
  rewrite (propagateAnnouncements_nodes _ _ _ Hrun) in *.
  by eapply (propagate_offers_across (ranked_ases g) (nodes g) c a src rc).
Qed.

(** ** Paths are valley-free walks in the graph *)

Lemma valley_free_head (ns : gmap N ASNode) x tag path :
  valley_free ns x tag path → ∃ rest, path = x :: rest.
Proof. destruct 1; eauto. Qed.

Lemma propagate_valley_free (ranked : list (list N)) (ns : gmap N ASNode) :
  keyed_by_asn ns →
  (∀ x b, ¬ staged ns x b) →
  (∀ x p e, rib_of ns x !! p = Some e →
     valley_free ns x (received_from e) (as_path e)) →
  ∀ x p e, rib_of (propagate ranked ns) x !! p = Some e →
    valley_free ns x (received_from e) (as_path e).
Proof.
  intros Hkey Hq Hrib.
  destruct (inv_propagate ns
              (λ x _ e, valley_free ns x (received_from e) (as_path e))
              (λ x _ b, valley_free ns x (received_from b)
                          (x :: as_path b)))
    with (ranked := ranked) as (_ & _ & H3 & _); [| | | |done].
  - intros a node0 s p src rel nb k Hn Hs Hnb HR Hf _ _ _. simpl.
    destruct (valley_free_head _ _ _ _ HR) as [rest Hpath].
    rewrite Hpath in *.
    destruct rel; simpl in Hnb.
    + by apply elem_of_nil in Hnb.
    + eapply vf_up; [exact HR| |exact Hn|done].
      destruct Hf as [?|?]; [done|by left|by right].
    + eapply vf_across; [exact HR| |exact Hn|done].
      destruct Hf as [?|?]; [done|by left|by right].
    + eapply vf_down; [exact HR|exact Hn|done].
  - intros x node0 n p c Hn Hnx HQ. simpl.
    assert (n = x) as -> by (destruct Hnx as [->| ->]; [done|by apply Hkey]).
    done.
  - done.
  - intros x p b Hb. destruct (Hq x b). by eapply staged_at_staged.
Qed.

(** X25: every path is a valley-free walk in the graph.  If nodes are
    stored under their AS numbers, nothing is staged, and the RIB
    entries there are when propagation starts have valley-free paths
    (as every seed has), then every RIB entry after
    [propagateAnnouncements] has a path that starts at the AS holding
    it and follows links of the graph back to the origin: seen from the
    origin it goes up to providers, then over at most one peer link,
    then down to customers, and the tag of the entry is the kind of
    its last link. *)
Theorem routes_are_valley_free (g g' : ASGraph) (total : N) :
  keyed_by_asn (nodes g) →
  (∀ x b, ¬ staged (nodes g) x b) →
  (∀ x p e, rib_of (nodes g) x !! p = Some e →
     valley_free (nodes g) x (received_from e) (as_path e)) →
  propagateAnnouncements g = Returns (g', total) →
  ∀ x p e, rib_of (nodes g') x !! p = Some e →
    valley_free (nodes g) x (received_from e) (as_path e).
Proof.
  intros Hkey Hq Hrib Hrun.
  rewrite (propagateAnnouncements_nodes _ _ _ Hrun).
  by apply propagate_valley_free.
Qed.

(** ** Nothing is left staged, and a second run changes nothing *)

Section QueuesEmpty.

Variable ranked : list (list N).
Variable ns0 : gmap N ASNode.
Variable rk : N → nat.

Hypothesis Hrows :
  ∀ x r, x ∈ rank_row ranked r ↔ is_Some (ns0 !! x) ∧ rk x = r.
Hypothesis Hcust : ∀ x n y, ns0 !! x = Some n → y ∈ customers n →
  is_Some (ns0 !! y) ∧ (rk y < rk x)%nat.

Variable c : N.

Implicit Types (ns : gmap N ASNode) (b : Announcement).

Local Notation frame ns :=
  (propagation_invariant ns0 (λ _ _ _, True) (λ _ _ _, True) ns).
Local Notation clear ns := (∀ b, ¬ staged ns c b).

Lemma reverse_seq_split (m n : nat) :
  (m < n)%nat →
  reverse (seq 0 n)
  = reverse (seq (S m) (n - S m)) ++ m :: reverse (seq 0 m).
Proof.
  intros Hlt.
  replace n with (S m + (n - S m))%nat at 1 by lia.
  rewrite seq_app, reverse_app. f_equal.
  rewrite seq_S, reverse_app. done.
Qed.

(** A sender of a row not above the row of [c] stages nothing at
    [c]. *)
Lemma send_down_row_clear ns (t : nat) :
  (t ≤ rk c)%nat → frame ns → clear ns →
  clear (foldl send_down ns (rank_row ranked t)).
Proof using Hrows Hcust.
  intros Ht Hf Hc.
  cut (frame (foldl send_down ns (rank_row ranked t))
       ∧ clear (foldl send_down ns (rank_row ranked t))); [tauto|].
  apply (foldl_preserves (λ ns', frame ns' ∧ clear ns')); [done|].
  intros ns' x Hx [Hf' Hc']. split; [by apply inv_send_down|].
  intros b Hb.
  destruct (send_down_staged _ _ _ _ Hb)
    as [Hold|(node & p & src & Hn & Hin & _)]; [by apply (Hc' b)|].
  destruct Hf' as (_ & Hsh & _).
  destruct (shape_of_Some ns0 ns' x node (Hsh x) Hn)
    as (node0 & Hn0 & _ & _ & Hcs & _).
  rewrite <- Hcs in Hin.
  destruct (Hcust x node0 c Hn0 Hin) as [_ Hlt].
  apply Hrows in Hx as [_ Hx]. lia.
Qed.

Lemma process_row_keeps_clear ns row :
  clear ns → clear (foldl process_node ns row).
Proof.
  intros Hc. apply (foldl_preserves (λ ns', clear ns')); [done|].
  intros ns' x _ Hc' b Hb. apply (Hc' b).
  destruct (process_node_spec ns' x) as (_ & H2 & _). by apply H2.
Qed.

Lemma down_turns_keep_clear (l : list nat) :
  ∀ ns, (∀ t, t ∈ l → (t ≤ rk c)%nat) → frame ns → clear ns →
        clear (foldl (down_step ranked) ns l).
Proof using Hrows Hcust.
  induction l as [|t l IH]; intros ns Hl Hf Hc; [done|].
  simpl. apply IH.
  - intros t' Ht'. apply Hl. by right.
  - by apply (frame_down_turns ranked ns0 [t]).
  - unfold down_step.
    assert (H1 : clear (foldl send_down ns (rank_row ranked t))).
    { apply send_down_row_clear; [|done|done]. apply Hl. by left. }
    destruct t; [done|]. by apply process_row_keeps_clear.
Qed.

(** Phase 3 leaves nothing staged if it starts with nothing staged. *)
Lemma propagateDown_clear ns :
  frame ns → (∀ x b, ¬ staged ns x b) →
  clear (propagateDown ranked ns).
Proof using Hrows Hcust.
  intros Hf Hall b Hb.
  assert (Hnode : is_Some (ns0 !! c)).
  { pose proof (frame_down_turns ranked ns0
                  (reverse (seq 0 (length ranked))) ns Hf)
      as (_ & Hsh & _).
    destruct Hb as (p & cands & Hq & _). unfold queue_of in Hq.
    fold (propagateDown ranked ns) in Hsh.
    destruct (propagateDown ranked ns !! c) as [node|] eqn:Hn;
      [|by rewrite lookup_empty in Hq].
    destruct (shape_of_Some ns0 _ c node (Hsh c) Hn) as (node0 & -> & _).
    done. }
  assert (Hrow : c ∈ rank_row ranked (rk c)) by (by apply Hrows).
  pose proof (rank_row_bound ranked c (rk c) Hrow) as Hlt.
  revert b Hb. unfold propagateDown.
  destruct (decide (S (rk c) < length ranked)%nat) as [Hin|Htop].
  - rewrite (reverse_seq_split (S (rk c))) by done.
    rewrite foldl_app. cbn [foldl].
    apply down_turns_keep_clear.
    + intros t Ht. apply elem_of_reverse, elem_of_seq in Ht. lia.
    + apply (frame_down_turns ranked ns0 [S (rk c)]).
      by apply frame_down_turns.
    + unfold down_step. intros b. by apply process_row_clears.
  - apply down_turns_keep_clear; [|done|apply Hall].
    intros t Ht. apply elem_of_reverse, elem_of_seq in Ht. lia.
Qed.

End QueuesEmpty.

Lemma propagate_clear (ranked : list (list N)) (ns0 : gmap N ASNode) :
  well_ranked ranked ns0 → ∀ x b, ¬ staged (propagate ranked ns0) x b.
Proof.
  intros (rk & Hrows & Hcust & _) x. unfold propagate.
  apply (propagateDown_clear ranked ns0 rk Hrows Hcust).
  - apply inv_propagateAcross; [done..|].
    apply inv_propagateUp; [done..|]. apply trivial_invariant.
  - intros y b. apply across_process_all_clears.
Qed.

(** X26: no candidate is left staged.  On a graph whose rows put the
    nodes in an order that goes up along the provider links, as
    [flattenGraph] leaves them, every staging area is empty when
    [propagateAnnouncements] returns, whatever was staged when it
    started: every candidate received was resolved. *)
Theorem nothing_left_staged (g g' : ASGraph) (total : N) :
  well_ranked (ranked_ases g) (nodes g) →
  propagateAnnouncements g = Returns (g', total) →
  ∀ x b, ¬ staged (nodes g') x b.
Proof.
  intros Hw Hrun.
  rewrite (propagateAnnouncements_nodes _ _ _ Hrun).
  by apply propagate_clear.
Qed.

Section Offers.

Variable ranked : list (list N).
Variable ns0 : gmap N ASNode.
Variable rk : N → nat.

Hypothesis Hrows :
  ∀ x r, x ∈ rank_row ranked r ↔ is_Some (ns0 !! x) ∧ rk x = r.
Hypothesis Hcust : ∀ x n y, ns0 !! x = Some n → y ∈ customers n →
  is_Some (ns0 !! y) ∧ (rk y < rk x)%nat.
Hypothesis Hprov : ∀ x n y, ns0 !! x = Some n → y ∈ providers n →
  is_Some (ns0 !! y) ∧ (rk x < rk y)%nat.
Hypothesis Hkey : keyed_by_asn ns0.
Hypothesis Hq0 : ∀ x b, ¬ staged ns0 x b.

Lemma propagate_offers_down a c node k p src :
  ns0 !! a = Some node → c ∈ customers node →
  policy_status ns0 c = Some (Some k) →
  rib_of (propagate ranked ns0) a !! p = Some src →
  containsAS src c = false → accepts k src = true →
  holds_no_worse (propagate ranked ns0) c
    (offered c a RelationshipType.PROVIDER src).
Proof using Hrows Hcust.
  intros Hn Hc Hst Hsrc Hpath Hok. unfold propagate in *.
  set (ns2 := propagateAcross (propagateUp ranked ns0)) in *.
  assert (Hf : propagation_invariant ns0 (λ _ _ _, True)
                 (λ _ _ _, True) ns2).
  { apply inv_propagateAcross; [done..|].
    apply inv_propagateUp; [done..|]. apply trivial_invariant. }
  destruct (frame_lookup ns0 ns2 a node Hf Hn)
    as (node2 & Hn2 & _ & _ & Hcs & _).
  destruct (Hcust a node c Hn Hc) as [Hcn Hlt].
  eapply (propagateDown_offers ranked a c src (rk c) _ (rk a) _ _
            ns2 node2 k p); try done.
  - by rewrite Hcs.
  - destruct Hf as (Hs & _). by rewrite Hs.
  Unshelve.
  + by apply Hrows.
  + apply Hrows. eauto.
  + intros r Hr Ha. apply Hrows in Ha as [_ Ha]. lia.
Qed.

(** Whatever an AS exports from its final RIB, the receiver holds
    something no worse. *)
Lemma propagate_offers a node rel nb k p src :
  ns0 !! a = Some node → nb ∈ export_targets rel node →
  rib_of (propagate ranked ns0) a !! p = Some src →
  (rel ≠ RelationshipType.PROVIDER → from_customer_or_origin src) →
  containsAS src nb = false →
  policy_status ns0 nb = Some (Some k) → accepts k src = true →
  holds_no_worse (propagate ranked ns0) nb (offered nb a rel src).
Proof using Hrows Hcust Hprov Hkey Hq0.
  intros Hn Hnb Hsrc Hf Hpath Hst Hok.
  assert (Hbelow : ∀ t x nx, x ∈ rank_row ranked t → ns0 !! x = Some nx →
            a ∈ providers nx → (t < rk a)%nat).
  { intros t x nx Hx Hnx Ha. apply Hrows in Hx as [_ <-].
    by destruct (Hprov x nx a Hnx Ha). }
  assert (Hrow : a ∈ rank_row ranked (rk a)) by (apply Hrows; eauto).
  assert (Hq0' : ∀ b, staged ns0 a b → ¬ from_customer_or_origin b)
    by (intros b Hb; by destruct (Hq0 a b)).
  destruct rel; simpl in Hnb.
  - by apply elem_of_nil in Hnb.
  - destruct (Hprov a node nb Hn Hnb) as [Hnode Hlt].
    eapply (propagate_offers_up ranked ns0 a nb src (rk a) (rk nb));
      try done.
    + by apply Hrows.
    + by apply Hf.
  - eapply (propagate_offers_across ranked ns0 a nb src (rk a));
      try done.
    by apply Hf.
  - by eapply propagate_offers_down.
Qed.

End Offers.

Section SecondRun.

Variable ranked : list (list N).
Variable nsF : gmap N ASNode.

Hypothesis HkeyF : keyed_by_asn nsF.
Hypothesis Hoffer : ∀ a node rel nb k p src,
  nsF !! a = Some node → nb ∈ export_targets rel node →
  rib_of nsF a !! p = Some src →
  (rel ≠ RelationshipType.PROVIDER → from_customer_or_origin src) →
  containsAS src nb = false →
  policy_status nsF nb = Some (Some k) → accepts k src = true →
  holds_no_worse nsF nb (offered nb a rel src).

Implicit Types (ns : gmap N ASNode) (x : N).

(** The state of a second run: the RIBs of the first, and staged
    candidates that beat nothing. *)
Local Notation invariant ns :=
  (propagation_invariant nsF
     (λ x p e, rib_of nsF x !! p = Some e)
     (λ x p b, prefix b = p ∧ holds_no_worse nsF x (prepend_asn x b)) ns).
Local Notation stable ns :=
  (invariant ns ∧ ∀ x, rib_of ns x = rib_of nsF x).

Lemma harmless_export a node0 s p src rel nb k :
  nsF !! a = Some node0 → s = a ∨ s = asn node0 →
  nb ∈ export_targets rel node0 →
  rib_of nsF a !! p = Some src →
  (rel ≠ RelationshipType.PROVIDER → from_customer_or_origin src) →
  containsAS src nb = false →
  policy_status nsF nb = Some (Some k) → accepts k src = true →
  prefix (copy_with_new_hop src s rel) = prefix src
  ∧ holds_no_worse nsF nb (prepend_asn nb (copy_with_new_hop src s rel)).
Proof using HkeyF Hoffer.
  intros Hn Hs Hnb Hsrc Hf Hpath Hst Hok.
  assert (s = a) as -> by (destruct Hs as [->| ->]; [done|by apply HkeyF]).
  split; [done|]. by eapply Hoffer.
Qed.

Lemma stable_send (f : gmap N ASNode → N → gmap N ASNode) ns x :
  sends_only ns (f ns x) →
  (invariant ns → invariant (f ns x)) →
  stable ns → stable (f ns x).
Proof.
  intros Hso Hinv [Hi Hr]. split; [by apply Hinv|].
  intros y. destruct (Hso y) as (-> & _). apply Hr.
Qed.

Lemma stable_resolve ns x node pol :
  ns !! x = Some node → policy node = Some pol →
  stable ns →
  stable (<[x := set_policy node
                   (Some (clearReceivedQueue
                            (processReceivedQueue pol x).1))]> ns).
Proof.
  intros Hn Hp [(Hst & Hsh & Hrib & Hq) Hr].
  destruct (resolve_at ns x node pol x Hn Hp) as (_ & _ & H3 & H4).
  assert (Hsame : local_rib (processReceivedQueue pol x).1 = local_rib pol).
  { apply map_eq. intros p. rewrite processReceivedQueue_lookup.
    destruct (received_queue pol !! p) as [[|c0 cs]|] eqn:Hc; try done.
    simpl. unfold resolve.
    destruct (Hq x p (find_best c0 cs)) as [Hpre (e & He & Hb)].
    { exists (c0 :: cs). unfold queue_of. rewrite Hn, Hp.
      split; [done|apply find_best_elem]. }
    simpl in He. rewrite Hpre, <- Hr in He.
    rewrite (rib_of_lookup ns x node pol Hn Hp) in He.
    by rewrite He, Hb. }
  assert (Hribs : ∀ y, rib_of (<[x := set_policy node
                     (Some (clearReceivedQueue
                              (processReceivedQueue pol x).1))]> ns) y
                       = rib_of nsF y).
  { intros y. rewrite <- Hr. unfold rib_of.
    destruct (decide (y = x)) as [->|Hne].
    - rewrite lookup_insert_eq, Hn, Hp. simpl. done.
    - by rewrite lookup_insert_ne. }
  split; [|done]. split; [|split; [|split]].
  - intros y. by rewrite H4.
  - intros y. by rewrite H3.
  - intros y p e. by rewrite Hribs.
  - intros y p b. unfold staged_at, queue_of.
    destruct (decide (y = x)) as [->|Hne].
    + rewrite lookup_insert_eq. simpl.
      intros (cands & Hc & _). by rewrite lookup_empty in Hc.
    + rewrite lookup_insert_ne by done. apply Hq.
Qed.

Lemma stable_process ns x : stable ns → stable (process_node ns x).
Proof.
  intros H. unfold process_node.
  destruct (ns !! x) as [node|] eqn:Hn; [|done].
  destruct (policy node) as [pol|] eqn:Hp; [|done].
  by apply stable_resolve.
Qed.

Lemma stable_process_across ns x :
  stable ns → stable (process_node_across ns x).
Proof using HkeyF.
  intros H. unfold process_node_across.
  destruct (ns !! x) as [node|] eqn:Hn; [|done].
  destruct (policy node) as [pol|] eqn:Hp; [|done].
  assert (asn node = x) as ->; [|by apply stable_resolve].
  destruct H as [(_ & Hsh & _) _].
  destruct (shape_of_Some nsF ns x node (Hsh x) Hn) as (n0 & Hn0 & <- & _).
  by apply HkeyF.
Qed.

Lemma stable_foldl (f : gmap N ASNode → N → gmap N ASNode)
    (l : list N) ns :
  (∀ ns' x, stable ns' → stable (f ns' x)) →
  stable ns → stable (foldl f ns l).
Proof.
  intros Hf H. apply (foldl_preserves (λ ns', stable ns')); [done|].
  intros ns' x _. apply Hf.
Qed.

Lemma stable_propagate :
  (∀ x b, ¬ staged nsF x b) → stable (propagate ranked nsF).
Proof using HkeyF Hoffer.
  intros Hempty.
  assert (Hup : ∀ ns x, stable ns → stable (send_up ns x)).
  { intros ns x. apply (stable_send send_up); [apply send_up_sends_only|].
    apply inv_send_up. apply harmless_export. }
  assert (Hacross : ∀ ns x, stable ns → stable (send_across ns x)).
  { intros ns x.
    apply (stable_send send_across); [apply send_across_sends_only|].
    apply inv_send_across. apply harmless_export. }
  assert (Hdown : ∀ ns x, stable ns → stable (send_down ns x)).
  { intros ns x.
    apply (stable_send send_down); [apply send_down_sends_only|].
    apply inv_send_down. apply harmless_export. }
  assert (H0 : stable nsF).
  { split; [|done]. split; [done|]. split; [done|]. split; [done|].
    intros x p b Hb. destruct (Hempty x b). by eapply staged_at_staged. }
  unfold propagate.
  assert (H1 : stable (propagateUp ranked nsF)).
  { unfold propagateUp.
    apply (foldl_preserves (λ ns', stable ns')); [done|].
    intros ns' t _ H. unfold up_step.
    assert (stable (foldl send_up ns' (rank_row ranked t)))
      by (by apply stable_foldl).
    case_bool_decide; [|done].
    apply stable_foldl; [apply stable_process|done]. }
  assert (H2 : stable (propagateAcross (propagateUp ranked nsF))).
  { unfold propagateAcross, across_process_all, across_send_all.
    apply stable_foldl; [apply stable_process_across|].
    by apply stable_foldl. }
  unfold propagateDown.
  apply (foldl_preserves (λ ns', stable ns')); [done|].
  intros ns' t _ H. unfold down_step.
  assert (stable (foldl send_down ns' (rank_row ranked t)))
    by (by apply stable_foldl).
  destruct t; [done|].
  apply stable_foldl; [apply stable_process|done].
Qed.

End SecondRun.

Lemma propagateAnnouncements_graph (g g' : ASGraph) (total : N) :
  propagateAnnouncements g = Returns (g', total) →
  g' = set_nodes g (propagate (ranked_ases g) (nodes g))
  ∧ all_have_policy (nodes g).
Proof.
  intros Hrun. split.
  - revert Hrun. unfold propagateAnnouncements, propagate.
    destruct (foldl count_step _ _) as [t|f]; simpl; [|done].
    by intros [= <- _].
  - intros x Hx. unfold propagateAnnouncements in Hrun.
    rewrite (count_null _ x) in Hrun; [done|].
    by rewrite propagate_status.
Qed.

Lemma propagate_stable (ranked : list (list N)) (ns0 : gmap N ASNode) :
  well_ranked ranked ns0 → keyed_by_asn ns0 →
  (∀ x b, ¬ staged ns0 x b) →
  ∀ x, rib_of (propagate ranked (propagate ranked ns0)) x
       = rib_of (propagate ranked ns0) x.
Proof.
  intros Hw Hkey Hq0.
  pose proof (propagate_clear ranked ns0 Hw) as Hempty.
  destruct Hw as (rk & Hrows & Hcust & Hprov).
  assert (Hf : propagation_invariant ns0 (λ _ _ _, True) (λ _ _ _, True)
                 (propagate ranked ns0)).
  { unfold propagate. apply inv_propagateDown; [done..|].
    apply inv_propagateAcross; [done..|].
    apply inv_propagateUp; [done..|]. apply trivial_invariant. }
  destruct Hf as (Hst & Hsh & _).
  apply (stable_propagate ranked (propagate ranked ns0)); [| |done].
  - by apply (keyed_by_asn_shape ns0).
  - intros a node rel nb k p src Hn Hnb Hsrc Hfl Hpath Hk Hok.
    destruct (shape_of_Some ns0 _ a node (Hsh a) Hn)
      as (node0 & Hn0 & _ & Hp & Hc & Hpe).
    rewrite Hst in Hk.
    eapply (propagate_offers ranked ns0 rk Hrows Hcust Hprov Hkey Hq0
              a node0 rel nb k p src); try done.
    destruct rel; simpl in *; congruence.
Qed.

Lemma propagateAnnouncements_stable (g g1 : ASGraph) (total1 : N) :
  well_ranked (ranked_ases g) (nodes g) → keyed_by_asn (nodes g) →
  (∀ x b, ¬ staged (nodes g) x b) →
  propagateAnnouncements g = Returns (g1, total1) →
  ∃ g2 total2,
    propagateAnnouncements g1 = Returns (g2, total2)
    ∧ ∀ x, rib_of (nodes g2) x = rib_of (nodes g1) x.
Proof.
  intros Hw Hkey Hq0 Hrun.
  destruct (propagateAnnouncements_graph g g1 total1 Hrun) as [-> Hall].
  assert (Hall1 : all_have_policy
                    (nodes (set_nodes g
                              (propagate (ranked_ases g) (nodes g))))).
  { intros x. simpl. unfold propagate. rewrite propagate_status.
    apply Hall. }
  destruct (propagateAnnouncements
              (set_nodes g (propagate (ranked_ases g) (nodes g))))
    as [[g2 total2]|f] eqn:Hrun2.
  - exists g2, total2. split; [done|].
    rewrite (propagateAnnouncements_nodes _ _ _ Hrun2). simpl.
    by apply propagate_stable.
  - exfalso. revert Hrun2. unfold propagateAnnouncements.
    destruct (count_total
                (propagateDown (ranked_ases (set_nodes g
                     (propagate (ranked_ases g) (nodes g))))
                   (propagateAcross
                      (propagateUp (ranked_ases (set_nodes g
                           (propagate (ranked_ases g) (nodes g))))
                         (nodes (set_nodes g
                           (propagate (ranked_ases g) (nodes g))))))))
      as [t Ht].
    + intros x. rewrite propagate_status. apply Hall1.
    + rewrite Ht. done.
Qed.

(** X27: the result is stable.  On a graph whose rows put the nodes in
    an order that goes up along the provider links, with nodes stored
    under their AS numbers and nothing staged, a second call of
    [propagateAnnouncements] on the result of the first returns and
    leaves every RIB as the first call left it: the routes are a fixed
    point of propagation. *)
Theorem propagation_is_stable (g g1 : ASGraph) (total1 : N) :
  well_ranked (ranked_ases g) (nodes g) → keyed_by_asn (nodes g) →
  (∀ x b, ¬ staged (nodes g) x b) →
  propagateAnnouncements g = Returns (g1, total1) →
  ∃ g2 total2,
    propagateAnnouncements g1 = Returns (g2, total2)
    ∧ ∀ x, rib_of (nodes g2) x = rib_of (nodes g1) x.
Proof. apply propagateAnnouncements_stable. Qed.


(** ** The rows of [flattenGraph] order the graph *)

Section Ranked.

Local Open Scope Z_scope.

(** What [flattenGraph] returns for a table without cycle, with the fact
    that no rank is negative. *)
Lemma flattenGraph_ranked (g : ASGraph) :
  wf_nodes (nodes g) → acyclic (nodes g) →
  ∃ g', flattenGraph g = Returns g'
        ∧ ranked_by_customers g g'
        ∧ ∀ x n, nodes g' !! x = Some n → 0 ≤ propagation_rank n.
Proof.
  intros Hwf Hacyc. unfold flattenGraph.
  destruct (flatten_loop_terminates (nodes g) (size (nodes g))
              (flatten_init (nodes g)) (flatten_init_measure (nodes g)))
    as [st Hloop].
  rewrite Hloop.
  destruct (flatten_loop_inv (nodes g) _ _ _ ∅ Hwf Hloop
              (flatten_init_inv (nodes g) Hwf)) as (D & Hinv & Hq).
  pose proof (flatten_all_done (nodes g) D st Hwf Hacyc Hinv Hq) as Hdone.
  assert (Hrank : ∀ x n, nodes g !! x = Some n →
            ∃ r, ranks st !! x = Some r ∧ r ≤ max_rank st
                 ∧ final_rank (ranks st) D n r).
  { intros x n Hn. apply (inv_ready _ _ _ Hinv x n Hn). left. by eapply Hdone. }
  pose proof (inv_max _ _ _ Hinv) as Hmax.
  destruct (assign_fold (ranks st) (map_to_list (nodes g)) (nodes g)
              (replicate (Z.to_nat (max_rank st + 1)) []))
    as (ns' & ranked' & -> & Hout & Hin & Hrows).
  { apply NoDup_fst_map_to_list. }
  { intros [k n] Hkv. apply elem_of_map_to_list in Hkv. simpl.
    split; [by apply (wf_asn _ Hwf)|].
    destruct (Hrank k n Hkv) as (r & Hr & Hle & H0 & _).
    exists r. rewrite length_replicate. split; [done|lia]. }
  simpl. eexists. split; [done|].
  assert (Hkeys : ∀ x n, nodes g !! x = Some n → x ∈ (map_to_list (nodes g)).*1).
  { intros x n Hn. apply list_elem_of_fmap. exists (x, n).
    split; [done|]. by apply elem_of_map_to_list. }
  assert (Hnode : ∀ x n, nodes g !! x = Some n →
            ∃ r, ranks st !! x = Some r
                 ∧ ns' !! x = Some (set_propagation_rank n r)
                 ∧ final_rank (ranks st) D n r).
  { intros x n Hn. destruct (Hrank x n Hn) as (r & Hr & _ & Hfin).
    exists r. split; [done|]. split; [|done].
    rewrite (Hin x r) by eauto. by rewrite Hn. }
  assert (Hnone : ∀ x, nodes g !! x = None → ns' !! x = None).
  { intros x Hn. rewrite Hout; [done|]. intros Hx.
    apply list_elem_of_fmap in Hx as ([k n] & -> & Hkn).
    apply elem_of_map_to_list in Hkn. simpl in Hn. congruence. }
  assert (Hback : ∀ x n', ns' !! x = Some n' →
            ∃ n r, nodes g !! x = Some n ∧ ranks st !! x = Some r
                   ∧ n' = set_propagation_rank n r
                   ∧ final_rank (ranks st) D n r).
  { intros x n' Hn'. destruct (nodes g !! x) as [n|] eqn:Hn.
    - destruct (Hnode x n Hn) as (r & Hr & Hns & Hfin).
      exists n, r. split; [done|]. split; [done|]. split; [congruence|done].
    - rewrite (Hnone x Hn) in Hn'. done. }
  split; [unfold ranked_by_customers; simpl; split; [|split]|].
  - intros x. unfold shape_of. destruct (nodes g !! x) as [n|] eqn:Hn.
    + destruct (Hnode x n Hn) as (r & _ & -> & _). done.
    + by rewrite (Hnone x Hn).
  - intros x n' Hn'.
    destruct (Hback x n' Hn') as (n & r & Hn & Hr & -> & H0 & Hempty & Hall & Hex).
    simpl. split; [done|]. split.
    + intros c Hc. destruct (Hall c Hc) as (_ & rc & Hrc & Hlt).
      destruct (wf_customers_closed _ Hwf x n c Hn Hc) as [nc Hnc].
      destruct (Hnode c nc Hnc) as (rc' & Hrc' & Hns & _).
      exists (set_propagation_rank nc rc'). split; [done|]. simpl. congruence.
    + intros Hne. destruct (Hex Hne) as (c & rc & Hc & Hrc & ->).
      destruct (wf_customers_closed _ Hwf x n c Hn Hc) as [nc Hnc].
      destruct (Hnode c nc Hnc) as (rc' & Hrc' & Hns & _).
      exists c, (set_propagation_rank nc rc'). split; [done|].
      split; [done|]. simpl. congruence.
  - intros i x. rewrite Hrows. unfold rank_row at 1.
    assert (Hrow0 : default [] (replicate (Z.to_nat (max_rank st + 1))
                                  ([] : list N) !! i) = []).
    { destruct (replicate _ _ !! i) as [row|] eqn:E; [|done].
      apply lookup_replicate in E as [-> _]. done. }
    rewrite Hrow0. split.
    + intros [Hx|[Hx Hr]]; [by apply elem_of_nil in Hx|].
      apply list_elem_of_fmap in Hx as ([k n] & -> & Hkn).
      apply elem_of_map_to_list in Hkn. simpl in *.
      destruct (Hnode k n Hkn) as (r & Hr' & Hns & _).
      exists (set_propagation_rank n r). split; [done|]. simpl. congruence.
    + intros (n' & Hn' & Hp). right.
      destruct (Hback x n' Hn') as (n & r & Hn & Hr & -> & _).
      simpl in Hp. split; [by eapply Hkeys|congruence].
  - intros x n' Hn'. simpl in Hn'.
    destruct (Hback x n' Hn') as (n & r & _ & _ & -> & H0 & _). done.
Qed.

(** In a table as [addRelationship] builds it, a provider of [x] has
    [x] among its customers. *)
Lemma provider_has_customer (ns : gmap N ASNode) (x y : N) (nx : ASNode) :
  wf_nodes ns → ns !! x = Some nx → y ∈ providers nx →
  ∃ ny, ns !! y = Some ny ∧ x ∈ customers ny.
Proof.
  intros Hwf Hx Hy.
  destruct (wf_providers_closed _ Hwf x nx y Hx Hy) as [ny Hny].
  exists ny. split; [done|]. apply occurrences_pos.
  rewrite (wf_symmetric _ Hwf y x ny nx Hny Hx). by apply occurrences_pos.
Qed.

Lemma ranked_well_ranked (g g' : ASGraph) :
  wf_nodes (nodes g) → ranked_by_customers g g' →
  (∀ x n, nodes g' !! x = Some n → 0 ≤ propagation_rank n) →
  well_ranked (ranked_ases g') (nodes g').
Proof.
  intros Hwf (Hsh & Hrk & Hrows) Hpos.
  exists (λ x, match nodes g' !! x with
               | Some n => Z.to_nat (propagation_rank n)
               | None => 0%nat
               end).
  split; [|split].
  - intros x r. rewrite Hrows. split.
    + intros (n & Hn & Hr). rewrite Hn. split; [done|]. rewrite Hr. lia.
    + intros [[n Hn] Hr]. rewrite Hn in Hr. exists n. split; [done|].
      specialize (Hpos x n Hn). lia.
  - intros x n y Hn Hy. destruct (Hrk x n Hn) as (_ & Hc & _).
    destruct (Hc y Hy) as (nc & Hnc & Hlt). rewrite Hn, Hnc.
    split; [done|]. pose proof (Hpos y nc Hnc). lia.
  - intros x n y Hn Hy.
    destruct (shape_of_Some _ _ x n (Hsh x) Hn) as (n0 & Hn0 & _ & Hp & _).
    rewrite <- Hp in Hy.
    destruct (provider_has_customer _ x y n0 Hwf Hn0 Hy) as (ny0 & Hny0 & Hx).
    destruct (shape_of_Some _ _ y ny0 (eq_sym (Hsh y)) Hny0)
      as (ny & Hny & _ & _ & Hc & _).
    rewrite <- Hc in Hx. destruct (Hrk y ny Hny) as (_ & Hcs & _).
    destruct (Hcs x Hx) as (nx & Hnx & Hlt).
    rewrite Hn in Hnx. injection Hnx as <-. rewrite Hn, Hny.
    split; [done|]. pose proof (Hpos x n Hn). lia.
Qed.

(** A change that keeps the adjacency keeps the order of the rows. *)
Lemma well_ranked_shape (ranked : list (list N)) (ns ns' : gmap N ASNode) :
  (∀ x, shape_of ns' x = shape_of ns x) →
  well_ranked ranked ns → well_ranked ranked ns'.
Proof.
  intros Hsh (rk & Hrows & Hcust & Hprov).
  assert (Hsome : ∀ x, is_Some (ns' !! x) ↔ is_Some (ns !! x)).
  { intros x. specialize (Hsh x). unfold shape_of in Hsh.
    destruct (ns' !! x), (ns !! x); simpl in Hsh; done. }
  exists rk. split; [|split].
  - intros x r. rewrite Hrows. by rewrite Hsome.
  - intros x n y Hn Hy.
    destruct (shape_of_Some _ _ x n (Hsh x) Hn) as (n0 & Hn0 & _ & _ & Hc & _).
    rewrite <- Hc in Hy. rewrite Hsome. by apply (Hcust x n0 y).
  - intros x n y Hn Hy.
    destruct (shape_of_Some _ _ x n (Hsh x) Hn) as (n0 & Hn0 & _ & Hp & _).
    rewrite <- Hp in Hy. rewrite Hsome. by apply (Hprov x n0 y).
Qed.

End Ranked.

(** ** From the topology to a fixed point *)

Section Converge.

Variable inet_pton4 : string → option N.
Variable inet_pton6 : string → option (list N).

Lemma wf_nodes_shape (ns ns' : gmap N ASNode) :
  (∀ x, shape_of ns' x = shape_of ns x) → wf_nodes ns → wf_nodes ns'.
Proof.
  intros Hsh Hwf.
  assert (Hsome : ∀ x, is_Some (ns !! x) → is_Some (ns' !! x)).
  { intros x. specialize (Hsh x). unfold shape_of in Hsh.
    destruct (ns' !! x), (ns !! x); simpl in Hsh; done. }
  split.
  - intros k n Hn.
    destruct (shape_of_Some _ _ k n (Hsh k) Hn) as (n0 & Hn0 & <- & _).
    by apply (wf_asn _ Hwf).
  - intros k n c Hn Hc.
    destruct (shape_of_Some _ _ k n (Hsh k) Hn) as (n0 & Hn0 & _ & _ & E & _).
    rewrite <- E in Hc. apply Hsome.
    by apply (wf_customers_closed _ Hwf k n0).
  - intros k n p Hn Hp.
    destruct (shape_of_Some _ _ k n (Hsh k) Hn) as (n0 & Hn0 & _ & E & _).
    rewrite <- E in Hp. apply Hsome.
    by apply (wf_providers_closed _ Hwf k n0).
  - intros x y nx ny Hx Hy.
    destruct (shape_of_Some _ _ x nx (Hsh x) Hx) as (nx0 & Hx0 & _ & _ & <- & _).
    destruct (shape_of_Some _ _ y ny (Hsh y) Hy) as (ny0 & Hy0 & _ & <- & _).
    by apply (wf_symmetric _ Hwf).
Qed.

Lemma acyclic_shape (ns ns' : gmap N ASNode) :
  (∀ x, shape_of ns' x = shape_of ns x) → acyclic ns → acyclic ns'.
Proof.
  intros Hsh Hacyc [x Hx]. apply Hacyc. exists x.
  eapply tc_congruence with (f := id); [|done].
  intros c p (n & Hn & Hp).
  destruct (shape_of_Some _ _ c n (Hsh c) Hn) as (n0 & Hn0 & _ & E & _).
  exists n0. split; [done|]. by rewrite E.
Qed.

Lemma no_staged_of_empty (ns : gmap N ASNode) :
  (∀ x, queue_of ns x = ∅) → ∀ x b, ¬ staged ns x b.
Proof.
  intros Hq x b (p & cands & Hc & _). rewrite Hq in Hc.
  by rewrite lookup_empty in Hc.
Qed.

(** The graph of a topology without cycle is ready once its policies
    are installed and its ranks assigned, whatever ROV file was read. *)
Lemma setup_ready (rels : list (N * N * RelationType.t))
    (lines : list string) :
  acyclic (nodes (build_graph rels)) →
  ∃ g1, flattenGraph (loadROVASNs (initializeBGP (build_graph rels)) lines)
        = Returns g1
        ∧ ready_to_propagate g1.
Proof.
  intros Hacyc.
  set (g0 := loadROVASNs (initializeBGP (build_graph rels)) lines).
  assert (Hsh : ∀ x, shape_of (nodes g0) x
                     = shape_of (nodes (build_graph rels)) x).
  { intros x. unfold g0.
    destruct (loadROVASNs_spec (initializeBGP (build_graph rels)) lines x)
      as [-> _].
    apply initializeBGP_tables. }
  assert (Hwf : wf_nodes (nodes g0)).
  { apply (wf_nodes_shape (nodes (build_graph rels))); [done|].
    apply build_graph_wf. }
  assert (Hac : acyclic (nodes g0))
    by by apply (acyclic_shape (nodes (build_graph rels))).
  destruct (flattenGraph_ranked g0 Hwf Hac) as (g1 & Hf & Hrk & Hpos).
  exists g1. split; [done|]. split; [|split; [|split]].
  - by apply (ranked_well_ranked g0).
  - apply (flattenGraph_sound g0 g1); [|done].
    apply loadROVASNs_sound, initializeBGP_build_sound.
  - intros x. destruct (flattenGraph_status g0 g1 x Hf) as [-> _].
    apply loadROVASNs_all_have_policy. clear. intros x.
    rewrite initializeBGP_status.
    by destruct (policy_status (nodes (build_graph rels)) x) as [[k|]|].
  - intros x. destruct (flattenGraph_tables g0 g1 x Hf) as [_ ->].
    unfold g0.
    destruct (loadROVASNs_tables (initializeBGP (build_graph rels)) lines x)
      as [_ [-> | ->]]; [|done].
    destruct (initializeBGP_tables (build_graph rels) x) as (_ & -> & _).
    unfold queue_of.
    destruct (nodes (build_graph rels) !! x) as [n|] eqn:Hn; [|done].
    pose proof (build_graph_lookup rels x) as H. rewrite Hn in H.
    destruct H as (_ & _ & -> & _). done.
Qed.

Lemma seed_ready (g g' : ASGraph) (a : N) (s : string) (f : bool) :
  ready_to_propagate g →
  ASGraph_seedAnnouncement inet_pton4 inet_pton6 g a s f = Returns g' →
  ready_to_propagate g'.
Proof.
  intros (Hw & Hkey & Hall & Hq) Hs.
  destruct (ASGraph_seedAnnouncement_spec _ _ _ _ _ _ _ Hs) as [Hx _].
  assert (Hrows : ranked_ases g' = ranked_ases g).
  { revert Hs. unfold ASGraph_seedAnnouncement.
    destruct (nodes g !! a) as [node|]; [|by intros [= <-]].
    destruct (policy node) as [pol|]; [|by intros [= <-]].
    destruct (Prefix_parse _ _ s) as [p|e]; simpl; [|done].
    by intros [= <-]. }
  split; [|split; [|split]].
  - rewrite Hrows. apply (well_ranked_shape _ (nodes g)); [|done].
    intros x. apply Hx.
  - apply (keyed_by_asn_shape (nodes g)); [|done]. intros x. apply Hx.
  - intros x. destruct (Hx x) as (-> & _). apply Hall.
  - intros x. destruct (Hx x) as (_ & _ & ->). apply Hq.
Qed.

Lemma seeded_ready (g g' : ASGraph) :
  ready_to_propagate g → seeded_from inet_pton4 inet_pton6 g g' →
  ready_to_propagate g'.
Proof.
  intros Hr Hs. induction Hs as [|g1 g2 a s f _ IH Hstep]; [done|].
  by apply (seed_ready g1 g2 a s f).
Qed.

(** On a ready graph propagation returns, leaves nothing staged, and a
    second run returns and changes no RIB. *)
Lemma ready_converges (g : ASGraph) :
  ready_to_propagate g →
  ∃ g1 total1 g2 total2,
    propagateAnnouncements g = Returns (g1, total1)
    ∧ (∀ x b, ¬ staged (nodes g1) x b)
    ∧ propagateAnnouncements g1 = Returns (g2, total2)
    ∧ ∀ x, rib_of (nodes g2) x = rib_of (nodes g1) x.
Proof.
  intros (Hw & Hkey & Hall & Hq).
  destruct (propagateAnnouncements g) as [[g1 total1]|e] eqn:Hrun.
  - destruct (propagateAnnouncements_stable g g1 total1 Hw Hkey
                (no_staged_of_empty _ Hq) Hrun) as (g2 & total2 & Hrun2 & Hfix).
    exists g1, total1, g2, total2. split; [done|]. split; [|done].
    rewrite (propagateAnnouncements_nodes _ _ _ Hrun).
    by apply propagate_clear.
  - exfalso. revert Hrun. unfold propagateAnnouncements.
    destruct (count_total
                (propagateDown (ranked_ases g)
                   (propagateAcross (propagateUp (ranked_ases g) (nodes g)))))
      as [t Ht].
    + intros x. rewrite propagate_status. apply Hall.
    + by rewrite Ht.
Qed.

End Converge.

(** X28: from an acyclic topology the simulation reaches a fixed point.
    For a relationship list whose provider links form no cycle and any
    ROV file, [flattenGraph] after [initializeBGP] and [loadROVASNs]
    returns; and after any calls of [seedAnnouncement] that return,
    [propagateAnnouncements] returns with nothing left staged, and a
    second call returns and changes no RIB. *)
Theorem acyclic_topology_converges (inet_pton4 : string → option N)
    (inet_pton6 : string → option (list N))
    (rels : list (N * N * RelationType.t)) (lines : list string) :
  acyclic (nodes (build_graph rels)) →
  ∃ g1, flattenGraph (loadROVASNs (initializeBGP (build_graph rels)) lines)
        = Returns g1
        ∧ ∀ g2, seeded_from inet_pton4 inet_pton6 g1 g2 →
            ∃ g3 total3 g4 total4,
              propagateAnnouncements g2 = Returns (g3, total3)
              ∧ (∀ x b, ¬ staged (nodes g3) x b)
              ∧ propagateAnnouncements g3 = Returns (g4, total4)
              ∧ ∀ x, rib_of (nodes g4) x = rib_of (nodes g3) x.
Proof.
  intros Hacyc. destruct (setup_ready rels lines Hacyc) as (g1 & Hf & Hr).
  exists g1. split; [done|]. intros g2 Hs.
  apply ready_converges. by apply (seeded_ready inet_pton4 inet_pton6 g1).
Qed.

(** ** Phase 2: one hop across, and no more *)

Section PeerHop.

(** Phase 2 on its own: what AS [c] holds from a customer, or as a
    seed, before the phase, each peer of [c] holds no worse after it. *)
Lemma propagateAcross_offers (ns : gmap N ASNode) (c a : N)
    (node : ASNode) (k : PolicyClass) (p : Prefix) (src : Announcement) :
  keyed_by_asn ns → ns !! c = Some node → a ∈ peers node →
  policy_status ns a = Some (Some k) →
  rib_of ns c !! p = Some src → from_customer_or_origin src →
  containsAS src a = false → accepts k src = true →
  holds_no_worse (propagateAcross ns) a
    (offered a c RelationshipType.PEER src).
Proof.
  intros Hkey Hn Ha Hst Hsrc Hf Hpath Hok.
  unfold propagateAcross, across_process_all.
  set (ns2 := across_send_all ns).
  assert (Hf2 : propagation_invariant ns (λ _ _ _, True) (λ _ _ _, True) ns2).
  { unfold ns2, across_send_all. apply inv_foldl; [|apply trivial_invariant].
    intros ns' x. by apply inv_send_across. }
  assert (Hpend : staged_at ns2 a (prefix src)
                    (copy_with_new_hop src c RelationshipType.PEER)).
  { unfold ns2, across_send_all.
    apply (foldl_establishes
             (λ ns', propagation_invariant ns (λ _ _ _, True)
                       (λ _ _ _, True) ns'
                     ∧ rib_of ns' c = rib_of ns c)
             (λ ns', staged_at ns' a (prefix src)
                       (copy_with_new_hop src c RelationshipType.PEER))
             _ _ _ c).
    - by eapply key_of_node.
    - split; [apply trivial_invariant|done].
    - intros ns' x [Hfr Hr]. split; [by apply inv_send_across|].
      by destruct (send_across_sends_only ns' x c) as (-> & _).
    - intros ns' [Hfr Hr].
      destruct (frame_lookup ns ns' c node Hfr Hn)
        as (node' & Hn' & Hasn & _ & _ & Hpeers).
      assert (Hc : asn node' = c) by (rewrite Hasn; by apply Hkey).
      rewrite <- Hc at 2.
      eapply send_across_stages_at; try done.
      + by rewrite Hpeers.
      + by rewrite Hr.
      + destruct Hfr as (Hs & _). by rewrite Hs.
    - intros ns' x. apply send_across_keeps_staged_at. }
  assert (Hnode_a : ∃ node_a, ns2 !! a = Some node_a).
  { destruct Hf2 as (Hs & _). specialize (Hs a). rewrite Hst in Hs.
    unfold policy_status in Hs. destruct (ns2 !! a); [eauto|done]. }
  destruct Hnode_a as [node_a Hna].
  eapply (process_across_row_commits a c RelationshipType.PEER src ns);
    [|done|by eapply key_of_node|done].
  intros node0 Hn0. by apply Hkey.
Qed.

End PeerHop.

(** C3: peer routes go one hop.  In phase 2 the RIBs are the same after
    the sender loop as before it, and every candidate the loop stages
    is the copy of an entry that was in a RIB before the phase with
    [received_from] ORIGIN or CUSTOMER, so no route received from a peer
    is sent on to a peer.  If no peer candidate is staged when
    propagation starts, a RIB entry tagged PEER after the three phases
    is either the entry the RIB held before propagation or one peer hop,
    made in phase 2, of an ORIGIN or CUSTOMER entry of the RIBs phase 1
    left.  If nothing is staged when propagation starts, every RIB entry
    after the three phases is at the end of a propagation chain from an
    entry a RIB held before; and a propagation chain is hops up, then at
    most one peer hop, then hops down.  And the hop is made:
    [propagateAcross] brings every ORIGIN or CUSTOMER entry an AS holds
    before the phase to each of its peers that has a policy, is not in
    the path and does not drop the entry as ROV-invalid, so that the
    peer ends the phase with an entry for the prefix that the copy
    tagged PEER does not beat; a RIB entry after the phase is the entry
    from before, or a candidate that was staged before the phase, or
    the peer hop of an ORIGIN or CUSTOMER entry a peer held before the
    phase; and the phase ends with nothing staged.  After the three
    phases too: if nothing tagged ORIGIN or CUSTOMER is staged at AS [c]
    when propagation starts and every AS that has [c] as a provider is
    in a row below the row of [c], each such peer of [c] ends with an
    entry that the peer hop of what [c] ends with does not beat. *)
Theorem peer_routes_one_hop (ranked : list (list N))
    (ns : gmap N ASNode) :
  (∀ x, rib_of (across_send_all ns) x = rib_of ns x)
  ∧ (∀ x b, staged (across_send_all ns) x b →
       staged ns x b
       ∨ ∃ a node p src, ns !! a = Some node ∧ x ∈ peers node
           ∧ rib_of ns a !! p = Some src ∧ from_customer_or_origin src
           ∧ b = copy_with_new_hop src (asn node) RelationshipType.PEER)
  ∧ (no_peer_staged ns →
     ∀ x p e,
       rib_of (propagateDown ranked
                 (propagateAcross (propagateUp ranked ns))) x !! p = Some e →
       received_from e = RelationshipType.PEER →
       rib_of ns x !! p = Some e
       ∨ ∃ s p' src,
           rib_of (propagateUp ranked ns) s !! p' = Some src
           ∧ from_customer_or_origin src
           ∧ hop RelationshipType.PEER src e)
  ∧ ((∀ x b, ¬ staged ns x b) →
     ∀ x p e,
       rib_of (propagateDown ranked
                 (propagateAcross (propagateUp ranked ns))) x !! p = Some e →
       ∃ y p0 a ks, rib_of ns y !! p0 = Some a ∧ chain a ks e)
  ∧ (∀ a ks c, chain a ks c →
       (peer_hops ks ≤ 1)%nat
       ∧ ∃ ups mid downs, ks = ups ++ mid ++ downs
           ∧ Forall (λ k, k = RelationshipType.CUSTOMER) ups
           ∧ (mid = [] ∨ mid = [RelationshipType.PEER])
           ∧ Forall (λ k, k = RelationshipType.PROVIDER) downs)
  ∧ (keyed_by_asn ns →
     ∀ c node a k p src,
       ns !! c = Some node → a ∈ peers node →
       policy_status ns a = Some (Some k) →
       rib_of ns c !! p = Some src → from_customer_or_origin src →
       containsAS src a = false → accepts k src = true →
       holds_no_worse (propagateAcross ns) a
         (offered a c RelationshipType.PEER src))
  ∧ (∀ x p e, rib_of (propagateAcross ns) x !! p = Some e →
       rib_of ns x !! p = Some e
       ∨ (∃ xn c, ns !! x = Some xn ∧ staged ns x c
            ∧ e = prepend_asn (asn xn) c)
       ∨ ∃ xn s sn p' src, ns !! x = Some xn ∧ ns !! s = Some sn
           ∧ x ∈ peers sn ∧ rib_of ns s !! p' = Some src
           ∧ from_customer_or_origin src
           ∧ e = prepend_asn (asn xn)
                   (copy_with_new_hop src (asn sn) RelationshipType.PEER))
  ∧ (∀ x b, ¬ staged (propagateAcross ns) x b)
  ∧ (keyed_by_asn ns →
     ∀ c node a k rc,
       (∀ b, staged ns c b → ¬ from_customer_or_origin b) →
       (∀ t x nx, x ∈ rank_row ranked t → ns !! x = Some nx →
          c ∈ providers nx → (t < rc)%nat) →
       ns !! c = Some node → a ∈ peers node →
       policy_status ns a = Some (Some k) →
       c ∈ rank_row ranked rc →
       ∀ p src,
         rib_of (propagateDown ranked
                   (propagateAcross (propagateUp ranked ns))) c !! p
           = Some src →
         from_customer_or_origin src →
         containsAS src a = false → accepts k src = true →
         holds_no_worse
           (propagateDown ranked (propagateAcross (propagateUp ranked ns)))
           a (offered a c RelationshipType.PEER src)).
Proof.
  destruct (across_send_all_spec ns) as [Hso Hst].
  split; [intros x; apply (Hso x)|]. split; [done|].
  split; [|split; [|split; [|split; [|split; [|split]]]]].
  - intros H0 x p e He Hpeer.
    pose proof (propagateUp_no_new_peer_route ranked ns H0) as [Hq1 Hrib1].
    set (ns1 := propagateUp ranked ns) in *.
    assert (H2 : no_peer_staged (propagateAcross ns1)).
    { intros y b Hb. by destruct (across_process_all_clears _ _ _ Hb). }
    pose proof (propagateDown_no_new_peer_route ranked _ H2) as [_ Hrib3].
    specialize (Hrib3 x p e He Hpeer).
    destruct (propagateAcross_origin ns1 x p e Hrib3)
      as [Hold|[(xn & c & _ & Hc & ->)
               |(xn & s & sn & p' & src & _ & _ & _ & Hsrc & Hf & ->)]].
    + left. by apply Hrib1.
    + by destruct (Hq1 x c Hc).
    + right. exists s, p', src. split; [done|]. split; [done|].
      constructor. by apply from_customer_or_origin_spec.
  - intros Hq x p e He.
    destruct (propagate_all_derived ranked ns Hq) as [Hrib _].
    by apply (Hrib x p e).
  - intros a ks c Hc. split; [by eapply chain_peer_hops|].
    by eapply chain_shape.
  - intros Hkey c node a k p src. by apply propagateAcross_offers.
  - apply propagateAcross_origin.
  - intros x b. apply across_process_all_clears.
  - intros Hkey c node a k rc Hq0 Hbelow Hn Ha Hstatus Hrc p src Hsrc Hf
      Hpath Hok.
    by eapply (propagate_offers_across ranked ns c a src rc).
Qed.

(** ** The further properties at the scenarios *)

Lemma sound_graph_new : sound_graph ASGraph_new.
Proof.
  split; [intros x n H; simpl in H; by rewrite lookup_empty in H|]. split.
  - intros x p e H. unfold rib_of in H. simpl in H.
    by rewrite !lookup_empty in H.
  - intros x p b (cands & H & _). unfold queue_of in H. simpl in H.
    by rewrite !lookup_empty in H.
Qed.

Lemma scenario_seeded_sound (a : N) : sound_graph (scenario_seeded a).
Proof.
  unfold scenario_seeded.
  destruct (flattenGraph (initializeBGP topology_T1)) as [g|f] eqn:Hf;
    [|apply sound_graph_new].
  destruct (ASGraph_seedAnnouncement _ _ g a _ _) as [g'|f] eqn:Hs;
    [|apply sound_graph_new].
  eapply seedAnnouncement_sound; [|exact Hs].
  eapply flattenGraph_sound; [|exact Hf].
  apply initializeBGP_build_sound.
Qed.

Lemma scenario_seeded_nothing_staged :
  ∀ x b, ¬ staged (nodes (scenario_seeded 4)) x b.
Proof. by apply all_queues_empty_no_staged. Qed.

Lemma scenario_rov_seeded_nothing_staged :
  ∀ x b, ¬ staged (nodes scenario_rov_seeded) x b.
Proof. by apply all_queues_empty_no_staged. Qed.

(** X7 at scenario S3: propagation returns
    and leaves sound tables. *)
Lemma propagateAnnouncements_keeps_routes_sound_witness :
  ∃ g' total,
    propagateAnnouncements (scenario_seeded 4) = Returns (g', total)
    ∧ sound_tables (nodes g').
Proof.
  destruct (propagateAnnouncements (scenario_seeded 4))
    as [[g' total]|f] eqn:Hrun; [|by vm_compute in Hrun].
  exists g', total. split; [done|].
  apply (propagateAnnouncements_keeps_routes_sound
           (scenario_seeded 4) g' total);
    [apply scenario_seeded_sound|apply scenario_seeded_sound|done].
Defined.

(** X8 with ROV at AS 4 and the invalid seed at AS 4: the invalid entry
    AS 4 holds after propagation is the seed. *)
Lemma rov_as_installs_no_invalid_route_witness :
  rib_of (nodes scenario_rov_seeded) 4 !! prefix_203
  = Some (Announcement_new prefix_203 4 RelationshipType.ORIGIN true).
Proof.
  destruct (propagateAnnouncements scenario_rov_seeded)
    as [[g' total]|f] eqn:Hrun; [|by vm_compute in Hrun].
  apply (rov_as_installs_no_invalid_route scenario_rov_seeded g' total).
  - intros x b Hb. by destruct (scenario_rov_seeded_nothing_staged x b).
  - done.
  - vm_compute in Hrun. injection Hrun as <- _. vm_compute. reflexivity.
  - vm_compute. reflexivity.
  - reflexivity.
Defined.

(** X9 at scenario S3: the ORIGIN entry of AS 4 after propagation is
    the seed. *)
Lemma origin_routes_are_seeds_witness :
  rib_of (nodes (scenario_seeded 4)) 4 !! prefix_203 = Some (seed_203 4).
Proof.
  destruct (propagateAnnouncements (scenario_seeded 4))
    as [[g' total]|f] eqn:Hrun; [|by vm_compute in Hrun].
  apply (origin_routes_are_seeds (scenario_seeded 4) g' total).
  - intros x b Hb. by destruct (scenario_seeded_nothing_staged x b).
  - done.
  - vm_compute in Hrun. injection Hrun as <- _. vm_compute. reflexivity.
  - reflexivity.
Defined.

(** X10 at scenario S3: the route of AS 3 extends an entry of the RIBs
    before propagation. *)
Lemma routes_extend_initial_entries_witness :
  extends_entry_of (nodes (scenario_seeded 4)) route_at_3.
Proof.
  destruct (propagateAnnouncements (scenario_seeded 4))
    as [[g' total]|f] eqn:Hrun; [|by vm_compute in Hrun].
  apply (routes_extend_initial_entries (scenario_seeded 4) g' total
           scenario_seeded_nothing_staged Hrun 3%N prefix_203).
  vm_compute in Hrun. injection Hrun as <- _. vm_compute. reflexivity.
Defined.

(** X11 at scenario S3: the route of AS 3 came over a link. *)
Lemma routes_follow_links_witness :
  rib_of (nodes (scenario_seeded 4)) 3 !! prefix_203 = Some route_at_3
  ∨ learned_over_link (nodes (scenario_seeded 4)) 3 route_at_3.
Proof.
  destruct (propagateAnnouncements (scenario_seeded 4))
    as [[g' total]|f] eqn:Hrun; [|by vm_compute in Hrun].
  apply (routes_follow_links (scenario_seeded 4) g' total).
  - apply scenario_seeded_sound.
  - apply scenario_seeded_nothing_staged.
  - done.
  - vm_compute in Hrun. injection Hrun as <- _. vm_compute. reflexivity.
Defined.

(** X12 at scenario S3. *)
Lemma propagation_never_withdraws_witness :
  ∃ g' total,
    propagateAnnouncements (scenario_seeded 4) = Returns (g', total)
    ∧ never_worse (nodes (scenario_seeded 4)) (nodes g').
Proof.
  destruct (propagateAnnouncements (scenario_seeded 4))
    as [[g' total]|f] eqn:Hrun; [|by vm_compute in Hrun].
  exists g', total. split; [done|].
  by apply (propagation_never_withdraws (scenario_seeded 4) g' total).
Defined.

(** X16 at T1 and a file that lists AS 2. *)
Lemma rov_deployment_needs_policies_witness :
  policy_status (nodes (initializeBGP (loadROVASNs topology_T1 rov_lines_2)))
    2 = Some (Some BGP)
  ∧ policy_status (nodes (loadROVASNs (initializeBGP topology_T1)
                            rov_lines_2)) 2 = Some (Some ROV)
  ∧ policy_status (nodes (loadROVASNs (initializeBGP topology_T1)
                            rov_lines_2)) 3 = Some (Some BGP).
Proof.
  assert (Hno : no_policies (nodes topology_T1)).
  { intros x n Hn. unfold topology_T1 in Hn.
    pose proof (build_graph_lookup
                  [(1%N, 2%N, RelationType.CUSTOMER);
                   (2%N, 3%N, RelationType.CUSTOMER);
                   (1%N, 4%N, RelationType.CUSTOMER);
                   (2%N, 4%N, RelationType.PEER)] x) as H.
    rewrite Hn in H. tauto. }
  destruct (rov_deployment_needs_policies topology_T1 rov_lines_2 2 Hno)
    as (H1 & H2 & _); [by vm_compute; eauto|].
  destruct (rov_deployment_needs_policies topology_T1 rov_lines_2 3 Hno)
    as (_ & _ & H3); [by vm_compute; eauto|].
  split; [done|]. split.
  - apply H2. split; [done|]. exists "2"%string. split; [|reflexivity].
    unfold rov_lines_2. right. left.
  - apply H3. intros (_ & line & Hl & Hp). unfold rov_lines_2 in Hl.
    repeat (apply elem_of_cons in Hl as [->|Hl]; [by vm_compute in Hp|]).
    by apply elem_of_nil in Hl.
Defined.

(** X17 at scenario S4: the alarm [detectCycles] raises on the cycle
    through three ASes is a true one. *)
Lemma detectCycles_sound_witness : has_cycle (nodes topology_cycle3).
Proof.
  destruct (detectCycles_sound [3%N; 1%N; 2%N] topology_cycle3) as [_ H].
  apply H; [apply build_graph_wf|]. vm_compute. reflexivity.
Defined.

(** X21 at scenario S3: the seed of AS 4 is still its route after
    propagation. *)
Lemma origin_keeps_its_route_witness :
  ∃ g' total,
    propagateAnnouncements (scenario_seeded 4) = Returns (g', total)
    ∧ rib_of (nodes g') 4 !! prefix_203 = Some (seed_203 4).
Proof.
  destruct (propagateAnnouncements (scenario_seeded 4))
    as [[g' total]|f] eqn:Hrun; [|by vm_compute in Hrun].
  exists g', total. split; [done|].
  apply (origin_keeps_its_route (scenario_seeded 4) g' total).
  - intros x b Hb. by destruct (scenario_seeded_nothing_staged x b).
  - done.
  - vm_compute. reflexivity.
  - reflexivity.
Defined.

Lemma scenario_seeded_rows :
  ranked_ases (scenario_seeded 4) = [[4%N; 3%N]; [2%N]; [1%N]].
Proof. vm_compute. reflexivity. Qed.

(** In T1 the ASes that have AS 4 as a provider are none. *)
Lemma scenario_seeded_below_4 (t : nat) (x : N) (nx : ASNode) :
  x ∈ rank_row (ranked_ases (scenario_seeded 4)) t →
  nodes (scenario_seeded 4) !! x = Some nx →
  4%N ∈ providers nx → (t < 0)%nat.
Proof.
  intros _ Hn Hp. exfalso. apply elem_of_map_to_list in Hn.
  assert (Hchk : forallb (λ kv : N * ASNode,
                            forallb (λ y, negb (y =? 4)%N) (providers kv.2))
                   (map_to_list (nodes (scenario_seeded 4))) = true)
    by (vm_compute; reflexivity).
  rewrite forallb_forall in Hchk.
  apply list_elem_of_In in Hn. apply Hchk in Hn. simpl in Hn.
  rewrite forallb_forall in Hn.
  apply list_elem_of_In in Hp. apply Hn in Hp.
  by rewrite N.eqb_refl in Hp.
Qed.

(** X22 at scenario S3: AS 3 holds what its provider AS 2 offers. *)
Lemma customers_are_offered_every_route_witness :
  ∃ g' total,
    propagateAnnouncements (scenario_seeded 4) = Returns (g', total)
    ∧ holds_no_worse (nodes g') 3
        (offered 3 2 RelationshipType.PROVIDER route_at_2).
Proof.
  destruct (propagateAnnouncements (scenario_seeded 4))
    as [[g' total]|f] eqn:Hrun; [|by vm_compute in Hrun].
  exists g', total. split; [done|].
  eapply (customers_are_offered_every_route (scenario_seeded 4) g' total
            2 3 _ BGP 1 0 Hrun) with (p := prefix_203).
  - vm_compute. reflexivity.
  - simpl. by left.
  - vm_compute. reflexivity.
  - rewrite scenario_seeded_rows. simpl. by left.
  - intros r Hr. assert (r = 0)%nat as -> by lia.
    rewrite scenario_seeded_rows. simpl. intros H.
    repeat (apply elem_of_cons in H as [H|H]; [done|]).
    by apply elem_of_nil in H.
  - rewrite scenario_seeded_rows. simpl. right. by left.
  - lia.
  - vm_compute in Hrun. injection Hrun as <- _. vm_compute. reflexivity.
  - reflexivity.
  - reflexivity.
Defined.

(** X23 at scenario S3: AS 1 holds what its customer AS 4 offers. *)
Lemma providers_are_offered_customer_routes_witness :
  ∃ g' total,
    propagateAnnouncements (scenario_seeded 4) = Returns (g', total)
    ∧ holds_no_worse (nodes g') 1
        (offered 1 4 RelationshipType.CUSTOMER (seed_203 4)).
Proof.
  destruct (propagateAnnouncements (scenario_seeded 4))
    as [[g' total]|f] eqn:Hrun; [|by vm_compute in Hrun].
  exists g', total. split; [done|].
  eapply (providers_are_offered_customer_routes (scenario_seeded 4) g' total
            4 1 _ BGP 0 2 Hrun) with (p := prefix_203).
  - intros b Hb. by destruct (scenario_seeded_nothing_staged 4%N b).
  - apply scenario_seeded_below_4.
  - vm_compute. reflexivity.
  - simpl. by left.
  - vm_compute. reflexivity.
  - rewrite scenario_seeded_rows. simpl. by left.
  - rewrite scenario_seeded_rows. simpl. by left.
  - lia.
  - vm_compute in Hrun. injection Hrun as <- _. vm_compute. reflexivity.
  - by left.
  - reflexivity.
  - reflexivity.
Defined.

(** X24 at scenario S3: AS 2 holds what its peer AS 4 offers. *)
Lemma peers_are_offered_customer_routes_witness :
  ∃ g' total,
    propagateAnnouncements (scenario_seeded 4) = Returns (g', total)
    ∧ holds_no_worse (nodes g') 2
        (offered 2 4 RelationshipType.PEER (seed_203 4)).
Proof.
  destruct (propagateAnnouncements (scenario_seeded 4))
    as [[g' total]|f] eqn:Hrun; [|by vm_compute in Hrun].
  exists g', total. split; [done|].
  eapply (peers_are_offered_customer_routes (scenario_seeded 4) g' total
            4 2 _ BGP 0 Hrun) with (p := prefix_203).
  - apply scenario_seeded_sound.
  - intros b Hb. by destruct (scenario_seeded_nothing_staged 4%N b).
  - apply scenario_seeded_below_4.
  - vm_compute. reflexivity.
  - simpl. by left.
  - vm_compute. reflexivity.
  - rewrite scenario_seeded_rows. simpl. by left.
  - vm_compute in Hrun. injection Hrun as <- _. vm_compute. reflexivity.
  - by left.
  - reflexivity.
  - reflexivity.
Defined.

(** A check of every RIB entry of a table, entry by entry. *)
Lemma rib_entries_check (ns : gmap N ASNode) (f : N → Announcement → bool) :
  forallb (λ kv : N * ASNode,
             match policy kv.2 with
             | Some pol =>
                 forallb (λ pe : Prefix * Announcement, f kv.1 pe.2)
                   (map_to_list (local_rib pol))
             | None => true
             end) (map_to_list ns) = true →
  ∀ x p e, rib_of ns x !! p = Some e → f x e = true.
Proof.
  intros Hchk x p e He. rewrite forallb_forall in Hchk.
  destruct (rib_of_Some _ _ _ _ He) as (node & pol & Hn & Hp & Hl).
  specialize (Hchk (x, node)). simpl in Hchk. rewrite Hp in Hchk.
  rewrite forallb_forall in Hchk.
  apply (Hchk (ltac:(apply list_elem_of_In; by apply elem_of_map_to_list))
           (p, e)).
  apply list_elem_of_In. by apply elem_of_map_to_list.
Qed.

(** The RIBs of scenario S3 before propagation hold seeds only. *)
Lemma scenario_seeded_valley_free x p e :
  rib_of (nodes (scenario_seeded 4)) x !! p = Some e →
  valley_free (nodes (scenario_seeded 4)) x (received_from e) (as_path e).
Proof.
  intros He.
  pose proof (rib_entries_check (nodes (scenario_seeded 4))
                (λ y b, match as_path b with
                        | [z] => (z =? y)%N
                        | _ => false
                        end
                        && RelationshipType.eqb (received_from b)
                             RelationshipType.ORIGIN)) as Hchk.
  specialize (Hchk ltac:(vm_compute; reflexivity) x p e He). clear He.
  apply andb_true_iff in Hchk as [Hpath Htag].
  destruct (as_path e) as [|z [|? ?]]; try discriminate Hpath.
  apply N.eqb_eq in Hpath as ->.
  destruct (received_from e); try discriminate Htag.
  apply vf_seed.
Qed.

(** X25 at scenario S3: the path of AS 3 goes from AS 4 over the peer
    link to AS 2 and down to AS 3. *)
Lemma routes_are_valley_free_witness :
  valley_free (nodes (scenario_seeded 4)) 3 RelationshipType.PROVIDER
    [3%N; 2%N; 4%N].
Proof.
  destruct (propagateAnnouncements (scenario_seeded 4))
    as [[g' total]|f] eqn:Hrun; [|by vm_compute in Hrun].
  apply (routes_are_valley_free (scenario_seeded 4) g' total
           (proj1 (scenario_seeded_sound 4))
           scenario_seeded_nothing_staged
           scenario_seeded_valley_free Hrun 3%N prefix_203 route_at_3).
  vm_compute in Hrun. injection Hrun as <- _. vm_compute. reflexivity.
Defined.

(** The numbering AS 1 ↦ 2, AS 2 ↦ 1, AS 3, AS 4 ↦ 0 grows along every
    provider link of T1. *)
Lemma topology_T1_acyclic : acyclic (nodes topology_T1).
Proof.
  apply (topological_numbering_acyclic
           (λ x, if (x =? 1)%N then 2%nat
                 else if (x =? 2)%N then 1%nat else 0%nat)).
  vm_compute. reflexivity.
Qed.

Lemma ready_new : ready_to_propagate ASGraph_new.
Proof.
  split; [|split; [|split]].
  - exists (λ _, 0%nat). simpl. split; [|split].
    + intros x r. unfold rank_row. rewrite lookup_nil, lookup_empty. simpl.
      split; [by intros H%elem_of_nil|by intros [[? ?] _]].
    + intros x n y H. by rewrite lookup_empty in H.
    + intros x n y H. by rewrite lookup_empty in H.
  - intros x n H. simpl in H. by rewrite lookup_empty in H.
  - intros x. unfold policy_status. simpl. by rewrite lookup_empty.
  - intros x. unfold queue_of. simpl. by rewrite lookup_empty.
Qed.

Lemma scenario_seeded_ready (a : N) : ready_to_propagate (scenario_seeded a).
Proof.
  unfold scenario_seeded.
  destruct (setup_ready
              [(1%N, 2%N, RelationType.CUSTOMER);
               (2%N, 3%N, RelationType.CUSTOMER);
               (1%N, 4%N, RelationType.CUSTOMER);
               (2%N, 4%N, RelationType.PEER)] [] topology_T1_acyclic)
    as (g1 & Hf & Hr).
  change (flattenGraph (initializeBGP topology_T1) = Returns g1) in Hf.
  rewrite Hf.
  destruct (ASGraph_seedAnnouncement _ _ g1 a _ _) as [g'|f] eqn:Hs;
    [|apply ready_new].
  by apply (seed_ready _ _ g1 g' a _ _ Hr Hs).
Qed.

(** X26 at scenario S3: propagation returns and leaves nothing
    staged. *)
Lemma nothing_left_staged_witness :
  ∃ g' total,
    propagateAnnouncements (scenario_seeded 4) = Returns (g', total)
    ∧ ∀ x b, ¬ staged (nodes g') x b.
Proof.
  destruct (propagateAnnouncements (scenario_seeded 4))
    as [[g' total]|f] eqn:Hrun; [|by vm_compute in Hrun].
  exists g', total. split; [done|].
  apply (nothing_left_staged (scenario_seeded 4) g' total);
    [apply scenario_seeded_ready|done].
Defined.

(** X27 at scenario S3: the second run returns and changes no RIB. *)
Lemma propagation_is_stable_witness :
  ∃ g1 total1 g2 total2,
    propagateAnnouncements (scenario_seeded 4) = Returns (g1, total1)
    ∧ propagateAnnouncements g1 = Returns (g2, total2)
    ∧ ∀ x, rib_of (nodes g2) x = rib_of (nodes g1) x.
Proof.
  destruct (propagateAnnouncements (scenario_seeded 4))
    as [[g1 total1]|f] eqn:Hrun; [|by vm_compute in Hrun].
  destruct (propagation_is_stable (scenario_seeded 4) g1 total1)
    as (g2 & total2 & Hrun2 & Hfix).
  - apply scenario_seeded_ready.
  - apply scenario_seeded_ready.
  - apply scenario_seeded_nothing_staged.
  - exact Hrun.
  - clear Hrun. exists g1, total1, g2, total2.
    split; [reflexivity|]. split; [exact Hrun2|exact Hfix].
Defined.

(** X28 at the topology T1 without ROV file. *)
Lemma acyclic_topology_converges_witness :
  ∃ g1, flattenGraph (loadROVASNs (initializeBGP topology_T1) []) = Returns g1
        ∧ ∀ g2, seeded_from scenario_inet_pton4 scenario_inet_pton6 g1 g2 →
            ∃ g3 total3 g4 total4,
              propagateAnnouncements g2 = Returns (g3, total3)
              ∧ (∀ x b, ¬ staged (nodes g3) x b)
              ∧ propagateAnnouncements g3 = Returns (g4, total4)
              ∧ ∀ x, rib_of (nodes g4) x = rib_of (nodes g3) x.
Proof.
  apply (acyclic_topology_converges scenario_inet_pton4 scenario_inet_pton6
           [(1%N, 2%N, RelationType.CUSTOMER);
            (2%N, 3%N, RelationType.CUSTOMER);
            (1%N, 4%N, RelationType.CUSTOMER);
            (2%N, 4%N, RelationType.PEER)] []).
  apply topology_T1_acyclic.
Defined.

(** C3 at scenario S3.  AS 2 is a peer of AS 4, which holds the seed.
    Phase 2 brings the seed one hop across: after the phase, and after
    the three phases, the entry of AS 2 is the peer hop of the seed, and
    nothing is staged; the entry of AS 3 is at the end of a chain from a
    seed; and the chain seed, peer hop, hop down has one peer hop. *)
Lemma peer_routes_one_hop_witness :
  let g := scenario_seeded 4 in
  let ns1 := propagateUp (ranked_ases g) (nodes g) in
  let ns3 := propagateDown (ranked_ases g) (propagateAcross ns1) in
  let e2 := prepend_asn 2
              (copy_with_new_hop (seed_203 4) 4 RelationshipType.PEER) in
  let e3 := prepend_asn 3
              (copy_with_new_hop e2 2 RelationshipType.PROVIDER) in
  (rib_of (nodes g) 2 !! prefix_203 = Some e2
   ∨ ∃ s p' src,
       rib_of ns1 s !! p' = Some src
       ∧ from_customer_or_origin src
       ∧ hop RelationshipType.PEER src e2)
  ∧ (∃ y p0 a ks, rib_of (nodes g) y !! p0 = Some a ∧ chain a ks e3)
  ∧ (peer_hops [RelationshipType.PEER; RelationshipType.PROVIDER] ≤ 1)%nat
  ∧ rib_of (nodes g) 2 !! prefix_203 = None
  ∧ rib_of (propagateAcross ns1) 2 !! prefix_203 = Some e2
  ∧ rib_of ns3 2 !! prefix_203 = Some e2
  ∧ holds_no_worse (propagateAcross ns1) 2
      (offered 2 4 RelationshipType.PEER (seed_203 4))
  ∧ holds_no_worse ns3 2 (offered 2 4 RelationshipType.PEER (seed_203 4))
  ∧ (∀ x b, ¬ staged (propagateAcross ns1) x b).
Proof.
  intros g ns1 ns3 e2 e3.
  assert (Hkey1 : keyed_by_asn ns1).
  { apply (keyed_by_asn_shape (nodes g));
      [|apply (scenario_seeded_sound 4)].
    intros x.
    by destruct (inv_propagateUp (nodes g) (λ _ _ _, True) (λ _ _ _, True)
                   ltac:(done) ltac:(done) (ranked_ases g) (nodes g)
                   (trivial_invariant _)) as (_ & Hsh & _). }
  destruct (peer_routes_one_hop (ranked_ases g) (nodes g))
    as (_ & _ & Hpeer & Hfrom & Hchain & _ & _ & _ & Hend).
  destruct (peer_routes_one_hop (ranked_ases g) ns1)
    as (_ & _ & _ & _ & _ & Hacross & _ & Hclear & _).
  split; [|split; [|split; [|split; [|split; [|split; [|split; [|split]]]]]]].
  - apply Hpeer.
    + intros x b Hb.
      by destruct (all_queues_empty_no_staged (nodes g) eq_refl x b).
    + vm_compute. reflexivity.
    + reflexivity.
  - apply (Hfrom (all_queues_empty_no_staged (nodes g) eq_refl)
             3%N prefix_203).
    vm_compute. reflexivity.
  - apply (Hchain (seed_203 4) _ e3).
    eapply chain_cons; [by apply hop_across|].
    eapply chain_cons; [apply hop_down|]. apply chain_nil.
  - vm_compute. reflexivity.
  - vm_compute. reflexivity.
  - vm_compute. reflexivity.
  - eapply (Hacross Hkey1 4%N _ 2%N BGP prefix_203 (seed_203 4)).
    + vm_compute. reflexivity.
    + simpl. by left.
    + vm_compute. reflexivity.
    + vm_compute. reflexivity.
    + by left.
    + reflexivity.
    + reflexivity.
  - eapply (Hend (proj1 (scenario_seeded_sound 4)) 4%N _ 2%N BGP 0%nat)
      with (p := prefix_203).
    + intros b Hb. by destruct (scenario_seeded_nothing_staged 4%N b).
    + apply scenario_seeded_below_4.
    + vm_compute. reflexivity.
    + simpl. by left.
    + vm_compute. reflexivity.
    + unfold g. rewrite scenario_seeded_rows. simpl. by left.
    + vm_compute. reflexivity.
    + by left.
    + reflexivity.
    + reflexivity.
  - apply Hclear.
Defined.
